(** * sahih-inherit: the rule-evaluation and exact-arithmetic engine

    A shallow embedding of [fraction.js], [blocking.js], [shares.js] and
    [special-cases.js], together with the composite computation
    [calculateCompleteInheritance] of [tests/property/shares.test.js].

    Conventions of the embedding.
    - A JavaScript number that the engine uses as an integer (numerators,
      denominators, head counts) is a [Z]; the engine never leaves the range
      in which JavaScript integers are exact for the small records it is fed.
    - [throw new Error(msg)] is the [Throw (Error msg)] outcome of the
      [result] monad; every function that constructs a [Fraction] lives in
      that monad, because the constructor can throw.
    - A field the engine reads with a default ([heirs.wifeCount || 1]) or that
      the collaborators may leave out is an [option Z]; [None] is [undefined]. *)

From Stdlib Require Import ZArith QArith Qfield Lqa List String Bool Lia Znumtheory.
Import ListNotations.

Local Open Scope string_scope.
Local Open Scope bool_scope.
Local Open Scope Z_scope.

(** ** Exceptions and the result monad *)

Inductive exn : Type :=
| Error (message : string)
| TypeError (message : string).

Inductive result (A : Type) : Type :=
| Ok (a : A)
| Throw (e : exn).

Arguments Ok {A} a.
Arguments Throw {A} e.

Definition ret {A : Type} (a : A) : result A := Ok a.

Definition bind {A B : Type} (m : result A) (k : A -> result B) : result B :=
  match m with
  | Ok a => k a
  | Throw e => Throw e
  end.

Declare Scope result_scope.
Delimit Scope result_scope with result.
Notation "x <- m ;; k" := (bind m (fun x => k))
  (at level 61, m at next level, right associativity) : result_scope.
Local Open Scope result_scope.

(** ** fraction.js *)

Module Fraction.

Record t : Type := mk { num : Z; den : Z }.

Definition msgZeroDenominator : string :=
  "Знаменатель не может быть равен нулю".
Definition msgDivisionByZero : string :=
  "Деление на ноль".

(** [constructor(numerator, denominator = 1)] *)
Definition constructor (numerator denominator : Z) : result t :=
  if denominator =? 0 then Throw (Error msgZeroDenominator)
  else if denominator <? 0 then Ok (mk (- numerator) (- denominator))
  else Ok (mk numerator denominator).

(** The body of the [while (b !== 0)] loop of [gcd]; on non-negative
    operands JavaScript's [%] is [Z.rem]. *)
Fixpoint gcd_loop (fuel : nat) (a b : Z) : Z :=
  match fuel with
  | O => a
  | S fuel' => if b =? 0 then a else gcd_loop fuel' b (Z.rem a b)
  end.

(** [static gcd(a, b)]: the second operand strictly decreases, so
    [|b| + 1] iterations always reach [b = 0] (lemma [gcd_loop_spec]). *)
Definition gcd (a b : Z) : Z :=
  let a := Z.abs a in
  let b := Z.abs b in
  gcd_loop (S (Z.to_nat b)) a b.

(** [simplify()]; the two divisions are exact (lemma [gcd_divides]). *)
Definition simplify (f : t) : result t :=
  if num f =? 0 then constructor 0 1
  else
    let g := gcd (num f) (den f) in
    constructor (num f / g) (den f / g).

Definition add (this other : t) : result t :=
  let newNum := num this * den other + num other * den this in
  let newDen := den this * den other in
  f <- constructor newNum newDen ;; simplify f.

Definition subtract (this other : t) : result t :=
  let newNum := num this * den other - num other * den this in
  let newDen := den this * den other in
  f <- constructor newNum newDen ;; simplify f.

Definition multiply (this other : t) : result t :=
  f <- constructor (num this * num other) (den this * den other) ;;
  simplify f.

Definition divide (this other : t) : result t :=
  if num other =? 0 then Throw (Error msgDivisionByZero)
  else
    f <- constructor (num this * den other) (den this * num other) ;;
    simplify f.

Definition equals (this other : t) : result bool :=
  simplified1 <- simplify this ;;
  simplified2 <- simplify other ;;
  ret ((num simplified1 =? num simplified2)
       && (den simplified1 =? den simplified2))%bool.

Definition greaterThan (this other : t) : bool :=
  num other * den this <? num this * den other.

Definition lessThan (this other : t) : bool :=
  num this * den other <? num other * den this.

Definition isZero (this : t) : bool := num this =? 0.

(** [static lcm(a, b)], i.e. [Math.abs(a * b) / Fraction.gcd(a, b)]: the
    quotient is exact, the divisor dividing the product; when both operands
    are zero it is [0 / 0], JavaScript's [NaN], rendered [None]. *)
Definition lcm (a b : Z) : option Z :=
  let g := gcd a b in
  if g =? 0 then None else Some (Z.abs (a * b) / g).

(** [clone()] *)
Definition clone (this : t) : result t := constructor (num this) (den this).

(** [new Fraction(n, d).simplify()], the tail of every arithmetic method
    (proof-side only). *)
Definition build (n d : Z) : result t :=
  f <- constructor n d ;; simplify f.

(** The rational number a fraction denotes (proof-side only). *)
Definition value (f : t) : Q := Qmake (num f) (Z.to_pos (den f)).

(** Objects that came out of the constructor. *)
Definition wf (f : t) : Prop := 0 < den f.

(** Lowest terms, sign on the numerator. *)
Definition canonical (f : t) : Prop :=
  0 < den f /\ Z.gcd (num f) (den f) = 1.

(** JavaScript numbers are doubles.  A double holds an integer exactly when
    its absolute value is at most 2^53, and the product, sum or difference
    of two such integers is computed exactly when it stays within that
    bound; past it the result is rounded, and the integer arithmetic above
    no longer follows the code.  [within k f] bounds the two parts of a
    fraction: the general laws of the arithmetic are stated for operands
    small enough that nothing formed on the way leaves the exact range
    (proof-side only). *)
Definition exactInteger (n : Z) : Prop := Z.abs n <= 2 ^ 53.

Definition within (k : Z) (f : t) : Prop :=
  Z.abs (num f) <= k /\ Z.abs (den f) <= k.

End Fraction.

(** ** The heir-composition record

    Boolean fields are presence flags, numeric fields are head counts.
    [wifeCount] and the four distant male-line categories may be left out by
    the collaborators ([undefined]). *)

Record Heirs : Type := mkHeirs {
  husband : bool;
  wife : bool;
  wifeCount : option Z;
  sons : Z;
  daughters : Z;
  grandsonsFromSon : Z;
  granddaughtersFromSon : Z;
  father : bool;
  mother : bool;
  paternalGrandfather : bool;
  paternalGrandmother : bool;
  maternalGrandmother : bool;
  fullBrothers : Z;
  fullSisters : Z;
  paternalBrothers : Z;
  paternalSisters : Z;
  maternalBrothers : Z;
  maternalSisters : Z;
  nephewsFullBrothers : option Z;
  nephewsPaternalBrothers : option Z;
  unclesFull : option Z;
  unclesPaternal : option Z
}.

(** JavaScript values met when a field is read by name ([heirs[countField]]). *)
Inductive jsval : Type :=
| JUndefined
| JBool (b : bool)
| JNum (n : Z).

Definition truthy (v : jsval) : bool :=
  match v with
  | JUndefined => false
  | JBool b => b
  | JNum n => negb (n =? 0)
  end.

Definition ofOptNum (o : option Z) : jsval :=
  match o with
  | Some n => JNum n
  | None => JUndefined
  end.

(** [x > 0] on a possibly missing number: [undefined > 0] is [false]. *)
Definition gt0 (o : option Z) : bool :=
  match o with
  | Some n => 0 <? n
  | None => false
  end.

(** [x || d] on numbers: the left operand unless it is falsy. *)
Definition orDefault (x : Z) (d : Z) : Z := if x =? 0 then d else x.

Definition orDefaultOpt (x : option Z) (d : Z) : Z :=
  match x with
  | Some n => orDefault n d
  | None => d
  end.

Fixpoint assoc {A : Type} (key : string) (l : list (string * A)) : option A :=
  match l with
  | [] => None
  | (k, v) :: rest => if String.eqb key k then Some v else assoc key rest
  end.

(** The own properties of a composition, for access by name. *)
Definition properties (heirs : Heirs) : list (string * jsval) :=
  [ ("husband", JBool (husband heirs));
    ("wife", JBool (wife heirs));
    ("wifeCount", ofOptNum (wifeCount heirs));
    ("sons", JNum (sons heirs));
    ("daughters", JNum (daughters heirs));
    ("grandsonsFromSon", JNum (grandsonsFromSon heirs));
    ("granddaughtersFromSon", JNum (granddaughtersFromSon heirs));
    ("father", JBool (father heirs));
    ("mother", JBool (mother heirs));
    ("paternalGrandfather", JBool (paternalGrandfather heirs));
    ("paternalGrandmother", JBool (paternalGrandmother heirs));
    ("maternalGrandmother", JBool (maternalGrandmother heirs));
    ("fullBrothers", JNum (fullBrothers heirs));
    ("fullSisters", JNum (fullSisters heirs));
    ("paternalBrothers", JNum (paternalBrothers heirs));
    ("paternalSisters", JNum (paternalSisters heirs));
    ("maternalBrothers", JNum (maternalBrothers heirs));
    ("maternalSisters", JNum (maternalSisters heirs));
    ("nephewsFullBrothers", ofOptNum (nephewsFullBrothers heirs));
    ("nephewsPaternalBrothers", ofOptNum (nephewsPaternalBrothers heirs));
    ("unclesFull", ofOptNum (unclesFull heirs));
    ("unclesPaternal", ofOptNum (unclesPaternal heirs)) ].

Definition getProperty (heirs : Heirs) (name : string) : jsval :=
  match assoc name (properties heirs) with
  | Some v => v
  | None => JUndefined
  end.

(** The contract the collaborators owe the engine: husband and wife are
    mutually exclusive and every count is a non-negative integer. *)
Definition nonNegativeOpt (o : option Z) : bool :=
  match o with
  | Some n => 0 <=? n
  | None => true
  end.

Definition validComposition (heirs : Heirs) : bool :=
  negb (husband heirs && wife heirs)
  && nonNegativeOpt (wifeCount heirs)
  && (0 <=? sons heirs) && (0 <=? daughters heirs)
  && (0 <=? grandsonsFromSon heirs) && (0 <=? granddaughtersFromSon heirs)
  && (0 <=? fullBrothers heirs) && (0 <=? fullSisters heirs)
  && (0 <=? paternalBrothers heirs) && (0 <=? paternalSisters heirs)
  && (0 <=? maternalBrothers heirs) && (0 <=? maternalSisters heirs)
  && nonNegativeOpt (nephewsFullBrothers heirs)
  && nonNegativeOpt (nephewsPaternalBrothers heirs)
  && nonNegativeOpt (unclesFull heirs)
  && nonNegativeOpt (unclesPaternal heirs).

(** ** blocking.js *)

Module Blocking.

Definition BlockingRules : list (string * (Heirs -> bool)) :=
  [ ("paternalGrandfather", fun heirs => father heirs);
    ("paternalGrandmother", fun heirs => mother heirs);
    ("grandsonsFromSon", fun heirs => 0 <? sons heirs);
    ("granddaughtersFromSon", fun heirs => 0 <? sons heirs);
    ("fullBrothers", fun heirs =>
       father heirs || (0 <? sons heirs) || (0 <? grandsonsFromSon heirs));
    ("fullSisters", fun heirs =>
       father heirs || (0 <? sons heirs) || (0 <? grandsonsFromSon heirs));
    ("paternalBrothers", fun heirs =>
       father heirs || (0 <? sons heirs) || (0 <? grandsonsFromSon heirs)
       || (0 <? fullBrothers heirs));
    ("paternalSisters", fun heirs =>
       father heirs || (0 <? sons heirs) || (0 <? grandsonsFromSon heirs)
       || (0 <? fullBrothers heirs)) ].

Definition byFather : string := "Блокируется отцом".
Definition byMother : string := "Блокируется матерью".
Definition bySon : string := "Блокируется сыном".
Definition byGrandson : string := "Блокируется внуком от сына".
Definition byFullBrother : string := "Блокируется родным братом".

Definition BlockingReasons : list (string * list (string * string)) :=
  [ ("paternalGrandfather", [("father", byFather)]);
    ("paternalGrandmother", [("mother", byMother)]);
    ("grandsonsFromSon", [("sons", bySon)]);
    ("granddaughtersFromSon", [("sons", bySon)]);
    ("fullBrothers",
      [("father", byFather); ("sons", bySon); ("grandsonsFromSon", byGrandson)]);
    ("fullSisters",
      [("father", byFather); ("sons", bySon); ("grandsonsFromSon", byGrandson)]);
    ("paternalBrothers",
      [("father", byFather); ("sons", bySon); ("grandsonsFromSon", byGrandson);
       ("fullBrothers", byFullBrother)]);
    ("paternalSisters",
      [("father", byFather); ("sons", bySon); ("grandsonsFromSon", byGrandson);
       ("fullBrothers", byFullBrother)]) ].

Record Outcome : Type := mkOutcome { blocked : bool; reason : option string }.

Definition getBlockingReason (heirType : string) (heirs : Heirs)
  : option string :=
  match assoc heirType BlockingReasons with
  | None => None
  | Some reasons =>
    let isType (k : string) := String.eqb heirType k in
    if isType "paternalGrandfather" && father heirs
    then assoc "father" reasons
    else if isType "paternalGrandmother" && mother heirs
    then assoc "mother" reasons
    else if (isType "grandsonsFromSon" || isType "granddaughtersFromSon")
            && (0 <? sons heirs)
    then assoc "sons" reasons
    else if (isType "fullBrothers" || isType "fullSisters")
            && father heirs
    then assoc "father" reasons
    else if (isType "fullBrothers" || isType "fullSisters")
            && (0 <? sons heirs)
    then assoc "sons" reasons
    else if (isType "fullBrothers" || isType "fullSisters")
            && (0 <? grandsonsFromSon heirs)
    then assoc "grandsonsFromSon" reasons
    else if (isType "paternalBrothers" || isType "paternalSisters")
            && father heirs
    then assoc "father" reasons
    else if (isType "paternalBrothers" || isType "paternalSisters")
            && (0 <? sons heirs)
    then assoc "sons" reasons
    else if (isType "paternalBrothers" || isType "paternalSisters")
            && (0 <? grandsonsFromSon heirs)
    then assoc "grandsonsFromSon" reasons
    else if (isType "paternalBrothers" || isType "paternalSisters")
            && (0 <? fullBrothers heirs)
    then assoc "fullBrothers" reasons
    else None
  end.

(** [checkBlocking(heirType, heirs)].  [heirType] is a key of
    [BlockingRules] or the name of another heir category; the lookup
    [BlockingRules[heirType]] then finds an own property or nothing.  A
    name that every plain object inherits, such as [toString], also answers
    that lookup in JavaScript; such names denote no heir category and the
    embedding does not cover them, so what is stated for every name is
    stated for the names of the fields of a composition. *)
Definition checkBlocking (heirType : string) (heirs : Heirs) : Outcome :=
  match assoc heirType BlockingRules with
  | None => mkOutcome false None
  | Some rule =>
    let blocked := rule heirs in
    if negb blocked then mkOutcome false None
    else mkOutcome true (getBlockingReason heirType heirs)
  end.

Definition getAllBlockings (heirs : Heirs) : list (string * Outcome) :=
  map (fun kv => (fst kv, checkBlocking (fst kv) heirs)) BlockingRules.

Definition BlockableHeirTypes : list string := map fst BlockingRules.

End Blocking.

(** ** shares.js *)

Module Shares.

Definition hasChildren (heirs : Heirs) : bool :=
  (0 <? sons heirs) || (0 <? daughters heirs)
  || (0 <? grandsonsFromSon heirs) || (0 <? granddaughtersFromSon heirs).

Definition hasMaleDescendants (heirs : Heirs) : bool :=
  (0 <? sons heirs) || (0 <? grandsonsFromSon heirs).

Definition hasMultipleSiblings (heirs : Heirs) : bool :=
  let totalSiblings :=
    orDefault (fullBrothers heirs) 0 + orDefault (fullSisters heirs) 0
    + orDefault (paternalBrothers heirs) 0 + orDefault (paternalSisters heirs) 0
    + orDefault (maternalBrothers heirs) 0 + orDefault (maternalSisters heirs) 0 in
  2 <=? totalSiblings.

(** A descriptor of [HeirTypes]; the display names and the citation string
    are carried through unchanged by the engine and are left out.  A
    [getShare] that answers [null] (residuary, no fixed share) answers
    [None]. *)
Record HeirType : Type := mkHeirType {
  id : string;
  category : string;
  gender : string;
  isAsaba : bool;
  getShare : Heirs -> result (option Fraction.t)
}.

Definition some (m : result Fraction.t) : result (option Fraction.t) :=
  f <- m ;; ret (Some f).

Definition null : result (option Fraction.t) := ret None.

Module HeirTypes.

Definition HUSBAND_getShare (heirs : Heirs) : result Fraction.t :=
  if hasChildren heirs then Fraction.constructor 1 4
  else Fraction.constructor 1 2.

Definition HUSBAND : HeirType :=
  mkHeirType "husband" "spouse" "male" false
    (fun heirs => some (HUSBAND_getShare heirs)).

Definition WIFE_getShare (heirs : Heirs) : result Fraction.t :=
  if hasChildren heirs then Fraction.constructor 1 8
  else Fraction.constructor 1 4.

Definition WIFE : HeirType :=
  mkHeirType "wife" "spouse" "female" false
    (fun heirs => some (WIFE_getShare heirs)).

Definition SON : HeirType :=
  mkHeirType "son" "descendant" "male" true (fun _ => null).

Definition DAUGHTER : HeirType :=
  mkHeirType "daughter" "descendant" "female" false
    (fun heirs =>
       if 0 <? sons heirs then null
       else if daughters heirs =? 1 then some (Fraction.constructor 1 2)
       else some (Fraction.constructor 2 3)).

Definition GRANDSON_FROM_SON : HeirType :=
  mkHeirType "grandsonsFromSon" "descendant" "male" true (fun _ => null).

Definition GRANDDAUGHTER_FROM_SON : HeirType :=
  mkHeirType "granddaughtersFromSon" "descendant" "female" false
    (fun heirs =>
       if 0 <? grandsonsFromSon heirs then null
       else if daughters heirs =? 1 then some (Fraction.constructor 1 6)
       else if 2 <=? daughters heirs then some (Fraction.constructor 0 1)
       else if granddaughtersFromSon heirs =? 1
            then some (Fraction.constructor 1 2)
       else some (Fraction.constructor 2 3)).

Definition FATHER : HeirType :=
  mkHeirType "father" "ascendant" "male" true
    (fun heirs =>
       if hasMaleDescendants heirs then some (Fraction.constructor 1 6)
       else if (0 <? daughters heirs) || (0 <? granddaughtersFromSon heirs)
            then some (Fraction.constructor 1 6)
       else null).

Definition MOTHER_getShare (heirs : Heirs) : result Fraction.t :=
  if hasChildren heirs || hasMultipleSiblings heirs
  then Fraction.constructor 1 6
  else Fraction.constructor 1 3.

Definition MOTHER : HeirType :=
  mkHeirType "mother" "ascendant" "female" false
    (fun heirs => some (MOTHER_getShare heirs)).

Definition PATERNAL_GRANDFATHER : HeirType :=
  mkHeirType "paternalGrandfather" "ascendant" "male" true
    (fun heirs =>
       if hasMaleDescendants heirs then some (Fraction.constructor 1 6)
       else if (0 <? daughters heirs) || (0 <? granddaughtersFromSon heirs)
            then some (Fraction.constructor 1 6)
       else null).

Definition PATERNAL_GRANDMOTHER : HeirType :=
  mkHeirType "paternalGrandmother" "ascendant" "female" false
    (fun _ => some (Fraction.constructor 1 6)).

Definition MATERNAL_GRANDMOTHER : HeirType :=
  mkHeirType "maternalGrandmother" "ascendant" "female" false
    (fun _ => some (Fraction.constructor 1 6)).

Definition FULL_BROTHER : HeirType :=
  mkHeirType "fullBrothers" "sibling" "male" true (fun _ => null).

Definition FULL_SISTER : HeirType :=
  mkHeirType "fullSisters" "sibling" "female" false
    (fun heirs =>
       if 0 <? fullBrothers heirs then null
       else if fullSisters heirs =? 1 then some (Fraction.constructor 1 2)
       else some (Fraction.constructor 2 3)).

Definition PATERNAL_BROTHER : HeirType :=
  mkHeirType "paternalBrothers" "sibling" "male" true (fun _ => null).

Definition PATERNAL_SISTER : HeirType :=
  mkHeirType "paternalSisters" "sibling" "female" false
    (fun heirs =>
       if 0 <? paternalBrothers heirs then null
       else if fullSisters heirs =? 1 then some (Fraction.constructor 1 6)
       else if 2 <=? fullSisters heirs then some (Fraction.constructor 0 1)
       else if paternalSisters heirs =? 1
            then some (Fraction.constructor 1 2)
       else some (Fraction.constructor 2 3)).

Definition NEPHEW_FULL_BROTHER : HeirType :=
  mkHeirType "nephewsFullBrothers" "agnate" "male" true (fun _ => null).

Definition NEPHEW_PATERNAL_BROTHER : HeirType :=
  mkHeirType "nephewsPaternalBrothers" "agnate" "male" true (fun _ => null).

Definition UNCLE_FULL : HeirType :=
  mkHeirType "unclesFull" "agnate" "male" true (fun _ => null).

Definition UNCLE_PATERNAL : HeirType :=
  mkHeirType "unclesPaternal" "agnate" "male" true (fun _ => null).

Definition maternalSibling_getShare (heirs : Heirs)
  : result (option Fraction.t) :=
  if father heirs || hasChildren heirs then some (Fraction.constructor 0 1)
  else
    let totalMaternal :=
      orDefault (maternalBrothers heirs) 0
      + orDefault (maternalSisters heirs) 0 in
    if totalMaternal =? 1 then some (Fraction.constructor 1 6)
    else some (Fraction.constructor 1 3).

Definition MATERNAL_BROTHER : HeirType :=
  mkHeirType "maternalBrothers" "sibling" "male" false
    maternalSibling_getShare.

Definition MATERNAL_SISTER : HeirType :=
  mkHeirType "maternalSisters" "sibling" "female" false
    maternalSibling_getShare.

End HeirTypes.

Import HeirTypes.

(** The own properties of the [HeirTypes] object, in source order. *)
Definition HeirTypes_entries : list (string * HeirType) :=
  [ ("HUSBAND", HUSBAND); ("WIFE", WIFE); ("SON", SON);
    ("DAUGHTER", DAUGHTER); ("GRANDSON_FROM_SON", GRANDSON_FROM_SON);
    ("GRANDDAUGHTER_FROM_SON", GRANDDAUGHTER_FROM_SON);
    ("FATHER", FATHER); ("MOTHER", MOTHER);
    ("PATERNAL_GRANDFATHER", PATERNAL_GRANDFATHER);
    ("PATERNAL_GRANDMOTHER", PATERNAL_GRANDMOTHER);
    ("MATERNAL_GRANDMOTHER", MATERNAL_GRANDMOTHER);
    ("FULL_BROTHER", FULL_BROTHER); ("FULL_SISTER", FULL_SISTER);
    ("PATERNAL_BROTHER", PATERNAL_BROTHER);
    ("PATERNAL_SISTER", PATERNAL_SISTER);
    ("NEPHEW_FULL_BROTHER", NEPHEW_FULL_BROTHER);
    ("NEPHEW_PATERNAL_BROTHER", NEPHEW_PATERNAL_BROTHER);
    ("UNCLE_FULL", UNCLE_FULL); ("UNCLE_PATERNAL", UNCLE_PATERNAL);
    ("MATERNAL_BROTHER", MATERNAL_BROTHER);
    ("MATERNAL_SISTER", MATERNAL_SISTER) ].

(** [getHeirTypeById(id)]: the first of [Object.values(HeirTypes)] with
    that [id], [null] when there is none. *)
Definition getHeirTypeById (wanted : string) : option HeirType :=
  find (fun type => String.eqb (id type) wanted)
    (map snd HeirTypes_entries).

(** [getHeirShare(heirTypeKey, heirs)]; a key that names no descriptor, or
    names a property without [getShare], answers [null]. *)
Definition getHeirShare (heirTypeKey : string) (heirs : Heirs)
  : result (option Fraction.t) :=
  match assoc heirTypeKey HeirTypes_entries with
  | Some heirType => getShare heirType heirs
  | None => null
  end.

(** The exported function [isAsaba(heirTypeKey)], in a name space of its
    own because the descriptors' field has the same name. *)
Module ByKey.

Definition isAsaba (heirTypeKey : string) : bool :=
  match assoc heirTypeKey HeirTypes_entries with
  | Some heirType => isAsaba heirType
  | None => false
  end.

End ByKey.

(** *** Spouses *)

Definition calculateHusbandShare (heirs : Heirs) : result Fraction.t :=
  HUSBAND_getShare heirs.

Record WifeShare : Type := mkWifeShare {
  ws_totalShare : Fraction.t;
  ws_perWifeShare : Fraction.t;
  ws_wifeCount : Z
}.

Definition calculateWifeShare (heirs : Heirs) : result WifeShare :=
  totalShare <- WIFE_getShare heirs ;;
  let wifeCount := orDefaultOpt (wifeCount heirs) 1 in
  divisor <- Fraction.constructor wifeCount 1 ;;
  perWifeShare <- Fraction.divide totalShare divisor ;;
  ret (mkWifeShare totalShare perWifeShare wifeCount).

Record SpouseShare : Type := mkSpouseShare {
  sp_type : string;
  sp_heirType : HeirType;
  sp_share : Fraction.t;
  sp_count : Z;
  sp_perPersonShare : Fraction.t
}.

Definition calculateSpouseShare (heirs : Heirs)
  : result (option SpouseShare) :=
  if husband heirs then
    share <- calculateHusbandShare heirs ;;
    ret (Some (mkSpouseShare "husband" HUSBAND share 1 share))
  else if wife heirs then
    r <- calculateWifeShare heirs ;;
    ret (Some (mkSpouseShare "wife" WIFE (ws_totalShare r) (ws_wifeCount r)
                 (ws_perWifeShare r)))
  else ret None.

(** *** Parents and grandparents *)

Definition calculateMotherShare (heirs : Heirs) : result Fraction.t :=
  MOTHER_getShare heirs.

Record AscendantAsaba : Type := mkAscendantAsaba {
  aa_heirType : HeirType;
  aa_fixedShare : option Fraction.t;
  aa_isAsaba : bool;
  aa_asabaWithFixed : bool
}.

Definition calculateFatherShare (heirs : Heirs) : result AscendantAsaba :=
  fixedShare <- getShare FATHER heirs ;;
  let hasMaleDesc := hasMaleDescendants heirs in
  let hasFemaleDesc :=
    (0 <? daughters heirs) || (0 <? granddaughtersFromSon heirs) in
  ret (mkAscendantAsaba FATHER fixedShare (negb hasMaleDesc)
         (negb hasMaleDesc && hasFemaleDesc)).

Definition calculateGrandfatherShare (heirs : Heirs)
  : result AscendantAsaba :=
  fixedShare <- getShare PATERNAL_GRANDFATHER heirs ;;
  let hasMaleDesc := hasMaleDescendants heirs in
  let hasFemaleDesc :=
    (0 <? daughters heirs) || (0 <? granddaughtersFromSon heirs) in
  ret (mkAscendantAsaba PATERNAL_GRANDFATHER fixedShare (negb hasMaleDesc)
         (negb hasMaleDesc && hasFemaleDesc)).

Record GrandmotherShare : Type := mkGrandmotherShare {
  gm_totalShare : Fraction.t;
  gm_perGrandmotherShare : Fraction.t;
  gm_grandmotherCount : Z;
  gm_paternalGrandmother : bool;
  gm_maternalGrandmother : bool
}.

Definition calculateGrandmotherShare (heirs : Heirs)
  : result (option GrandmotherShare) :=
  let grandmotherCount := 0 in
  let grandmotherCount :=
    if paternalGrandmother heirs && negb (mother heirs)
    then grandmotherCount + 1 else grandmotherCount in
  let grandmotherCount :=
    if maternalGrandmother heirs && negb (mother heirs)
    then grandmotherCount + 1 else grandmotherCount in
  if grandmotherCount =? 0 then ret None
  else
    totalShare <- Fraction.constructor 1 6 ;;
    divisor <- Fraction.constructor grandmotherCount 1 ;;
    perGrandmotherShare <- Fraction.divide totalShare divisor ;;
    ret (Some (mkGrandmotherShare totalShare perGrandmotherShare
                 grandmotherCount
                 (paternalGrandmother heirs && negb (mother heirs))
                 (maternalGrandmother heirs && negb (mother heirs)))).

Record MotherEntry : Type := mkMotherEntry {
  me_heirType : HeirType;
  me_share : Fraction.t
}.

Record AscendantShares : Type := mkAscendantShares {
  as_mother : option MotherEntry;
  as_father : option AscendantAsaba;
  as_grandfather : option AscendantAsaba;
  as_grandmothers : option GrandmotherShare
}.

Definition calculateAscendantShares (heirs : Heirs)
  : result AscendantShares :=
  motherR <-
    (if mother heirs then
       share <- calculateMotherShare heirs ;;
       ret (Some (mkMotherEntry MOTHER share))
     else ret None) ;;
  fatherR <-
    (if father heirs then
       r <- calculateFatherShare heirs ;; ret (Some r)
     else ret None) ;;
  grandfatherR <-
    (if paternalGrandfather heirs && negb (father heirs) then
       r <- calculateGrandfatherShare heirs ;; ret (Some r)
     else ret None) ;;
  grandmothersR <-
    (if (paternalGrandmother heirs || maternalGrandmother heirs)
        && negb (mother heirs)
     then calculateGrandmotherShare heirs
     else ret None) ;;
  ret (mkAscendantShares motherR fatherR grandfatherR grandmothersR).

(** *** Children and son's children *)

Record DescendantShare : Type := mkDescendantShare {
  ds_heirType : HeirType;
  ds_share : option Fraction.t;
  ds_count : Z;
  ds_isAsaba : bool;
  ds_perPersonShare : option Fraction.t;
  ds_blocked : bool;
  ds_blockedReason : option string
}.

Definition calculateDaughterShare (heirs : Heirs)
  : result (option DescendantShare) :=
  if daughters heirs =? 0 then ret None
  else
    share <- getShare DAUGHTER heirs ;;
    match share with
    | None =>
      ret (Some (mkDescendantShare DAUGHTER None (daughters heirs) true None
                   false None))
    | Some share =>
      divisor <- Fraction.constructor (daughters heirs) 1 ;;
      perDaughterShare <- Fraction.divide share divisor ;;
      ret (Some (mkDescendantShare DAUGHTER (Some share) (daughters heirs)
                   false (Some perDaughterShare) false None))
    end.

Definition blockedByDaughters : string :=
  "Блокируется двумя и более дочерьми".

Definition calculateGranddaughterShare (heirs : Heirs)
  : result (option DescendantShare) :=
  if 0 <? sons heirs then ret None
  else if granddaughtersFromSon heirs =? 0 then ret None
  else
    share <- getShare GRANDDAUGHTER_FROM_SON heirs ;;
    match share with
    | None =>
      ret (Some (mkDescendantShare GRANDDAUGHTER_FROM_SON None
                   (granddaughtersFromSon heirs) true None false None))
    | Some share =>
      if Fraction.isZero share then
        zero1 <- Fraction.constructor 0 1 ;;
        zero2 <- Fraction.constructor 0 1 ;;
        ret (Some (mkDescendantShare GRANDDAUGHTER_FROM_SON (Some zero1)
                     (granddaughtersFromSon heirs) false (Some zero2) true
                     (Some blockedByDaughters)))
      else
        divisor <- Fraction.constructor (granddaughtersFromSon heirs) 1 ;;
        perGranddaughterShare <- Fraction.divide share divisor ;;
        ret (Some (mkDescendantShare GRANDDAUGHTER_FROM_SON (Some share)
                     (granddaughtersFromSon heirs) false
                     (Some perGranddaughterShare) false None))
    end.

Record DescendantShares : Type := mkDescendantShares {
  dsc_sons : option DescendantShare;
  dsc_daughters : option DescendantShare;
  dsc_grandsonsFromSon : option DescendantShare;
  dsc_granddaughtersFromSon : option DescendantShare
}.

Definition calculateDescendantShares (heirs : Heirs)
  : result DescendantShares :=
  let sonsR :=
    if 0 <? sons heirs
    then Some (mkDescendantShare SON None (sons heirs) true None false None)
    else None in
  daughtersR <- calculateDaughterShare heirs ;;
  let grandsonsR :=
    if (0 <? grandsonsFromSon heirs) && (sons heirs =? 0)
    then Some (mkDescendantShare GRANDSON_FROM_SON None
                 (grandsonsFromSon heirs) true None false None)
    else None in
  granddaughtersR <- calculateGranddaughterShare heirs ;;
  ret (mkDescendantShares sonsR daughtersR grandsonsR granddaughtersR).

(** *** The residuary (asaba) resolver *)

Record AsabaPriorityEntry : Type := mkAsabaPriorityEntry {
  ap_key : string;
  ap_type : HeirType;
  ap_countField : string
}.

Definition AsabaPriority : list AsabaPriorityEntry :=
  [ mkAsabaPriorityEntry "sons" SON "sons";
    mkAsabaPriorityEntry "grandsonsFromSon" GRANDSON_FROM_SON
      "grandsonsFromSon";
    mkAsabaPriorityEntry "father" FATHER "father";
    mkAsabaPriorityEntry "paternalGrandfather" PATERNAL_GRANDFATHER
      "paternalGrandfather";
    mkAsabaPriorityEntry "fullBrothers" FULL_BROTHER "fullBrothers";
    mkAsabaPriorityEntry "paternalBrothers" PATERNAL_BROTHER
      "paternalBrothers";
    mkAsabaPriorityEntry "nephewsFullBrothers" NEPHEW_FULL_BROTHER
      "nephewsFullBrothers";
    mkAsabaPriorityEntry "nephewsPaternalBrothers" NEPHEW_PATERNAL_BROTHER
      "nephewsPaternalBrothers";
    mkAsabaPriorityEntry "unclesFull" UNCLE_FULL "unclesFull";
    mkAsabaPriorityEntry "unclesPaternal" UNCLE_PATERNAL "unclesPaternal" ].

Record AsabaInfo : Type := mkAsabaInfo {
  ai_maleType : HeirType;
  ai_maleCount : Z;
  ai_femaleType : option HeirType;
  ai_femaleCount : Z;
  ai_hasFemales : bool;
  ai_key : string
}.

(** [!count || count === 0 || count === false] *)
Definition isAbsent (count : jsval) : bool :=
  negb (truthy count)
  || match count with JNum 0 => true | _ => false end
  || match count with JBool false => true | _ => false end.

(** [count === true ? 1 : count], for a count that passed [isAbsent]. *)
Definition asHeadCount (count : jsval) : Z :=
  match count with
  | JBool true => 1
  | JNum n => n
  | _ => 0
  end.

(** One iteration of the [for ... of AsabaPriority] loop decides whether
    the entry is skipped ([continue]). *)
Definition isSkipped (heirs : Heirs) (asabaInfo : AsabaPriorityEntry)
  : bool :=
  let key := ap_key asabaInfo in
  let count := getProperty heirs (ap_countField asabaInfo) in
  if isAbsent count then true
  else if String.eqb key "grandsonsFromSon" && (0 <? sons heirs) then true
  else if String.eqb key "paternalGrandfather" && father heirs then true
  else if (String.eqb key "fullBrothers" || String.eqb key "paternalBrothers")
          && (father heirs || (0 <? sons heirs)
              || (0 <? grandsonsFromSon heirs))
  then true
  else if String.eqb key "paternalBrothers" && (0 <? fullBrothers heirs)
  then true
  else
    let blockedByCloserAsaba :=
      (0 <? sons heirs) || (0 <? grandsonsFromSon heirs) || father heirs
      || paternalGrandfather heirs || (0 <? fullBrothers heirs)
      || (0 <? paternalBrothers heirs) in
    if String.eqb key "nephewsFullBrothers" && blockedByCloserAsaba then true
    else if String.eqb key "nephewsPaternalBrothers"
            && (blockedByCloserAsaba || gt0 (nephewsFullBrothers heirs))
    then true
    else if String.eqb key "unclesFull"
            && (blockedByCloserAsaba || gt0 (nephewsFullBrothers heirs)
                || gt0 (nephewsPaternalBrothers heirs))
    then true
    else if String.eqb key "unclesPaternal"
            && (blockedByCloserAsaba || gt0 (nephewsFullBrothers heirs)
                || gt0 (nephewsPaternalBrothers heirs)
                || gt0 (unclesFull heirs))
    then true
    else false.

(** What the loop returns at the first entry it does not skip. *)
Definition asabaFound (heirs : Heirs) (asabaInfo : AsabaPriorityEntry)
  : AsabaInfo :=
  let key := ap_key asabaInfo in
  let count := getProperty heirs (ap_countField asabaInfo) in
  let asabaCount := asHeadCount count in
  let '(femaleCount, femaleType) :=
    if String.eqb key "sons"
    then (orDefault (daughters heirs) 0, Some DAUGHTER)
    else if String.eqb key "grandsonsFromSon"
    then (orDefault (granddaughtersFromSon heirs) 0,
          Some GRANDDAUGHTER_FROM_SON)
    else if String.eqb key "fullBrothers"
    then (orDefault (fullSisters heirs) 0, Some FULL_SISTER)
    else if String.eqb key "paternalBrothers"
    then (orDefault (paternalSisters heirs) 0, Some PATERNAL_SISTER)
    else (0, None) in
  mkAsabaInfo (ap_type asabaInfo) asabaCount femaleType femaleCount
    (0 <? femaleCount) key.

Fixpoint determineAsaba_from (heirs : Heirs)
    (priority : list AsabaPriorityEntry) : option AsabaInfo :=
  match priority with
  | [] => None
  | asabaInfo :: rest =>
    if isSkipped heirs asabaInfo then determineAsaba_from heirs rest
    else Some (asabaFound heirs asabaInfo)
  end.

Definition determineAsaba (heirs : Heirs) : option AsabaInfo :=
  determineAsaba_from heirs AsabaPriority.

Record Distribution : Type := mkDistribution {
  maleShare : Fraction.t;
  femaleShare : Fraction.t;
  perMaleShare : Fraction.t;
  perFemaleShare : Fraction.t;
  totalShares : Z
}.

Definition distributeAsaba (remainder : Fraction.t)
    (asabaInfo : option AsabaInfo) : result Distribution :=
  match asabaInfo with
  | None =>
    z1 <- Fraction.constructor 0 1 ;;
    z2 <- Fraction.constructor 0 1 ;;
    z3 <- Fraction.constructor 0 1 ;;
    z4 <- Fraction.constructor 0 1 ;;
    ret (mkDistribution z1 z2 z3 z4 0)
  | Some info =>
    if Fraction.isZero remainder then
      z1 <- Fraction.constructor 0 1 ;;
      z2 <- Fraction.constructor 0 1 ;;
      z3 <- Fraction.constructor 0 1 ;;
      z4 <- Fraction.constructor 0 1 ;;
      ret (mkDistribution z1 z2 z3 z4 0)
    else
      let maleCount := ai_maleCount info in
      let femaleCount := ai_femaleCount info in
      if negb (ai_hasFemales info) then
        divisor <- Fraction.constructor maleCount 1 ;;
        perMaleShare <- Fraction.divide remainder divisor ;;
        z1 <- Fraction.constructor 0 1 ;;
        z2 <- Fraction.constructor 0 1 ;;
        ret (mkDistribution remainder z1 perMaleShare z2 maleCount)
      else
        let totalShares := maleCount * 2 + femaleCount in
        divisor <- Fraction.constructor totalShares 1 ;;
        shareUnit <- Fraction.divide remainder divisor ;;
        two <- Fraction.constructor 2 1 ;;
        perMaleShare <- Fraction.multiply shareUnit two ;;
        let perFemaleShare := shareUnit in
        males <- Fraction.constructor maleCount 1 ;;
        maleShare <- Fraction.multiply perMaleShare males ;;
        females <- Fraction.constructor femaleCount 1 ;;
        femaleShare <- Fraction.multiply perFemaleShare females ;;
        ret (mkDistribution maleShare femaleShare perMaleShare
               perFemaleShare totalShares)
  end.

(** *** Fixed-share total and remainder *)

(** [calculateFixedSharesTotal] updates [total] in ten commented blocks,
    one per category; each block is a definition here. *)

(** Spouse *)
Definition addSpouseShare (heirs : Heirs) (total : Fraction.t)
  : result Fraction.t :=
  if husband heirs then
    share <- calculateHusbandShare heirs ;; Fraction.add total share
  else if wife heirs then
    r <- calculateWifeShare heirs ;; Fraction.add total (ws_totalShare r)
  else ret total.

(** Mother *)
Definition addMotherShare (heirs : Heirs) (total : Fraction.t)
  : result Fraction.t :=
  if mother heirs then
    share <- calculateMotherShare heirs ;; Fraction.add total share
  else ret total.

(** Father: only the fixed part *)
Definition addFatherShare (heirs : Heirs) (total : Fraction.t)
  : result Fraction.t :=
  if father heirs then
    fatherResult <- calculateFatherShare heirs ;;
    match aa_fixedShare fatherResult with
    | Some fixedShare => Fraction.add total fixedShare
    | None => ret total
    end
  else ret total.

(** Paternal grandfather: only without a father *)
Definition addGrandfatherShare (heirs : Heirs) (total : Fraction.t)
  : result Fraction.t :=
  if paternalGrandfather heirs && negb (father heirs) then
    grandfatherResult <- calculateGrandfatherShare heirs ;;
    match aa_fixedShare grandfatherResult with
    | Some fixedShare => Fraction.add total fixedShare
    | None => ret total
    end
  else ret total.

(** Grandmothers: only without a mother *)
Definition addGrandmothersShare (heirs : Heirs) (total : Fraction.t)
  : result Fraction.t :=
  if (paternalGrandmother heirs || maternalGrandmother heirs)
     && negb (mother heirs)
  then
    grandmotherResult <- calculateGrandmotherShare heirs ;;
    match grandmotherResult with
    | Some r => Fraction.add total (gm_totalShare r)
    | None => ret total
    end
  else ret total.

(** [if (r && !r.isAsaba && r.share) total = total.add(r.share)] *)
Definition addDescendantShare (r : option DescendantShare)
    (total : Fraction.t) : result Fraction.t :=
  match r with
  | Some r =>
    match ds_isAsaba r, ds_share r with
    | false, Some share => Fraction.add total share
    | _, _ => ret total
    end
  | None => ret total
  end.

(** Daughters: only the fixed share (no sons) *)
Definition addDaughtersShare (heirs : Heirs) (total : Fraction.t)
  : result Fraction.t :=
  if (0 <? daughters heirs) && (sons heirs =? 0) then
    daughterResult <- calculateDaughterShare heirs ;;
    addDescendantShare daughterResult total
  else ret total.

(** Son's daughters: only without sons *)
Definition addGranddaughtersShare (heirs : Heirs) (total : Fraction.t)
  : result Fraction.t :=
  if (0 <? granddaughtersFromSon heirs) && (sons heirs =? 0) then
    granddaughterResult <- calculateGranddaughterShare heirs ;;
    addDescendantShare granddaughterResult total
  else ret total.

(** Full sisters: no full brothers and not blocked *)
Definition addFullSistersShare (heirs : Heirs) (total : Fraction.t)
  : result Fraction.t :=
  if (0 <? fullSisters heirs) && (fullBrothers heirs =? 0)
     && negb (father heirs) && (sons heirs =? 0)
     && (grandsonsFromSon heirs =? 0)
  then
    share <- getShare FULL_SISTER heirs ;;
    match share with
    | Some share => Fraction.add total share
    | None => ret total
    end
  else ret total.

(** Paternal sisters: no paternal brothers and not blocked *)
Definition addPaternalSistersShare (heirs : Heirs) (total : Fraction.t)
  : result Fraction.t :=
  if (0 <? paternalSisters heirs) && (paternalBrothers heirs =? 0)
     && negb (father heirs) && (sons heirs =? 0)
     && (grandsonsFromSon heirs =? 0) && (fullBrothers heirs =? 0)
  then
    share <- getShare PATERNAL_SISTER heirs ;;
    match share with
    | Some share => Fraction.add total share
    | None => ret total
    end
  else ret total.

(** Maternal brothers and sisters (kalala) *)
Definition addMaternalSiblingsShare (heirs : Heirs) (total : Fraction.t)
  : result Fraction.t :=
  if negb (father heirs) && negb (hasChildren heirs) then
    let totalMaternal :=
      orDefault (maternalBrothers heirs) 0
      + orDefault (maternalSisters heirs) 0 in
    if 0 <? totalMaternal then
      share <-
        (if totalMaternal =? 1 then Fraction.constructor 1 6
         else Fraction.constructor 1 3) ;;
      Fraction.add total share
    else ret total
  else ret total.

Definition calculateFixedSharesTotal (heirs : Heirs) : result Fraction.t :=
  total <- Fraction.constructor 0 1 ;;
  total <- addSpouseShare heirs total ;;
  total <- addMotherShare heirs total ;;
  total <- addFatherShare heirs total ;;
  total <- addGrandfatherShare heirs total ;;
  total <- addGrandmothersShare heirs total ;;
  total <- addDaughtersShare heirs total ;;
  total <- addGranddaughtersShare heirs total ;;
  total <- addFullSistersShare heirs total ;;
  total <- addPaternalSistersShare heirs total ;;
  total <- addMaternalSiblingsShare heirs total ;;
  ret total.

Definition calculateRemainder (heirs : Heirs) : result Fraction.t :=
  fixedTotal <- calculateFixedSharesTotal heirs ;;
  one <- Fraction.constructor 1 1 ;;
  Fraction.subtract one fixedTotal.

Record AsabaResult : Type := mkAsabaResult {
  hasAsaba : bool;
  asabaInfo : option AsabaInfo;
  remainder : Fraction.t;
  distribution : option Distribution
}.

Definition calculateAsaba (heirs : Heirs) : result AsabaResult :=
  let asabaInfo := determineAsaba heirs in
  remainder <- calculateRemainder heirs ;;
  match asabaInfo with
  | None => ret (mkAsabaResult false None remainder None)
  | Some _ =>
    zero <- Fraction.constructor 0 1 ;;
    if Fraction.lessThan remainder zero || Fraction.isZero remainder
    then ret (mkAsabaResult false None remainder None)
    else
      distribution <- distributeAsaba remainder asabaInfo ;;
      ret (mkAsabaResult true asabaInfo remainder (Some distribution))
  end.

End Shares.

(** ** special-cases.js *)

Module SpecialCases.

Import Shares Shares.HeirTypes.

(** The notification objects; the icon and the message text (which embeds
    rounded decimal percentages) are presentation and are left out. *)
Record Notification : Type := mkNotification {
  n_type : string;
  n_title : string
}.

(** *** al-Awl *)

Definition needsAwl (heirs : Heirs) : result bool :=
  fixedTotal <- calculateFixedSharesTotal heirs ;;
  one <- Fraction.constructor 1 1 ;;
  ret (Fraction.greaterThan fixedTotal one).

Definition calculateAwlRatio (heirs : Heirs) : result Fraction.t :=
  fixedTotal <- calculateFixedSharesTotal heirs ;;
  one <- Fraction.constructor 1 1 ;;
  if negb (Fraction.greaterThan fixedTotal one) then ret one
  else Fraction.divide one fixedTotal.

Definition applyAwlToShare (share : option Fraction.t)
    (awlRatio : Fraction.t) : result Fraction.t :=
  match share with
  | None => Fraction.constructor 0 1
  | Some share =>
    if Fraction.isZero share then Fraction.constructor 0 1
    else Fraction.multiply share awlRatio
  end.

Record AwlResult : Type := mkAwlResult {
  awl_applied : bool;
  awl_originalTotal : Fraction.t;
  awl_adjustedTotal : Fraction.t;
  awl_awlRatio : Fraction.t;
  awl_notification : option Notification
}.

Definition applyAwl (heirs : Heirs) : result AwlResult :=
  fixedTotal <- calculateFixedSharesTotal heirs ;;
  one <- Fraction.constructor 1 1 ;;
  let awlApplied := Fraction.greaterThan fixedTotal one in
  if negb awlApplied then
    ret (mkAwlResult false fixedTotal fixedTotal one None)
  else
    awlRatio <- calculateAwlRatio heirs ;;
    ret (mkAwlResult true fixedTotal one awlRatio
           (Some (mkNotification "warning" "Применено правило аль-Авль"))).

(** *** ar-Radd *)

Definition needsRadd (heirs : Heirs) : result bool :=
  remainder <- calculateRemainder heirs ;;
  let asabaInfo := determineAsaba heirs in
  zero <- Fraction.constructor 0 1 ;;
  ret (Fraction.greaterThan remainder zero
       && match asabaInfo with None => true | Some _ => false end).

Definition canDaughtersParticipateInRadd (heirs : Heirs) : bool :=
  (0 <? daughters heirs) && (sons heirs =? 0).

Definition canGranddaughtersParticipateInRadd (heirs : Heirs) : bool :=
  (0 <? granddaughtersFromSon heirs) && (sons heirs =? 0).

Definition canGrandmothersParticipateInRadd (heirs : Heirs) : bool :=
  (paternalGrandmother heirs || maternalGrandmother heirs)
  && negb (mother heirs).

Definition areSistersBlockedFromRadd (heirs : Heirs) : bool :=
  father heirs || (0 <? sons heirs) || (0 <? grandsonsFromSon heirs).

Definition canFullSistersParticipateInRadd (heirs : Heirs) : bool :=
  (0 <? fullSisters heirs) && (fullBrothers heirs =? 0)
  && negb (areSistersBlockedFromRadd heirs).

Definition canPaternalSistersParticipateInRadd (heirs : Heirs) : bool :=
  (0 <? paternalSisters heirs) && (paternalBrothers heirs =? 0)
  && (fullBrothers heirs =? 0) && negb (areSistersBlockedFromRadd heirs).

Definition isKalalahCondition (heirs : Heirs) : bool :=
  negb (father heirs) && negb (hasChildren heirs).

(** [recipients.push(x)] under a guard. *)
Definition pushIf (guard : bool) (x : string) (recipients : list string)
  : list string :=
  if guard then recipients ++ [x] else recipients.

Definition getRaddRecipients (heirs : Heirs) : list string :=
  let recipients := [] in
  let recipients := pushIf (mother heirs) "mother" recipients in
  let recipients :=
    pushIf (canDaughtersParticipateInRadd heirs) "daughters" recipients in
  let recipients :=
    pushIf (canGranddaughtersParticipateInRadd heirs)
      "granddaughtersFromSon" recipients in
  let recipients :=
    pushIf (canGrandmothersParticipateInRadd heirs) "grandmothers"
      recipients in
  let recipients :=
    pushIf (canFullSistersParticipateInRadd heirs) "fullSisters"
      recipients in
  let recipients :=
    pushIf (canPaternalSistersParticipateInRadd heirs) "paternalSisters"
      recipients in
  if isKalalahCondition heirs then
    let recipients :=
      pushIf (0 <? maternalBrothers heirs) "maternalBrothers" recipients in
    pushIf (0 <? maternalSisters heirs) "maternalSisters" recipients
  else recipients.

Definition calculateDaughtersRaddShare (heirs : Heirs) : result Fraction.t :=
  if daughters heirs =? 1 then Fraction.constructor 1 2
  else Fraction.constructor 2 3.

Definition calculateGranddaughtersRaddShare (heirs : Heirs)
  : result Fraction.t :=
  if daughters heirs =? 1 then Fraction.constructor 1 6
  else if daughters heirs =? 0 then
    if granddaughtersFromSon heirs =? 1 then Fraction.constructor 1 2
    else Fraction.constructor 2 3
  else Fraction.constructor 0 1.

Definition calculateFullSistersRaddShare (heirs : Heirs)
  : result Fraction.t :=
  if fullSisters heirs =? 1 then Fraction.constructor 1 2
  else Fraction.constructor 2 3.

Definition calculatePaternalSistersRaddShare (heirs : Heirs)
  : result Fraction.t :=
  if fullSisters heirs =? 1 then Fraction.constructor 1 6
  else if fullSisters heirs =? 0 then
    if paternalSisters heirs =? 1 then Fraction.constructor 1 2
    else Fraction.constructor 2 3
  else Fraction.constructor 0 1.

Definition calculateMaternalSiblingsRaddShare (heirs : Heirs)
  : result Fraction.t :=
  let totalMaternal :=
    orDefault (maternalBrothers heirs) 0
    + orDefault (maternalSisters heirs) 0 in
  if totalMaternal =? 1 then Fraction.constructor 1 6
  else Fraction.constructor 1 3.

(** [recipients.includes(x)] *)
Definition includes (recipients : list string) (x : string) : bool :=
  existsb (String.eqb x) recipients.

Definition shouldAddMaternalSiblingsShare (recipient : string)
    (recipients : list string) : bool :=
  let hasBrothers := includes recipients "maternalBrothers" in
  let hasSisters := includes recipients "maternalSisters" in
  if String.eqb recipient "maternalBrothers" && negb hasSisters then true
  else if String.eqb recipient "maternalSisters" && negb hasBrothers
  then true
  else if String.eqb recipient "maternalBrothers" && hasSisters then true
  else false.

Definition getRecipientRaddShare (recipient : string) (heirs : Heirs)
    (recipients : list string) : result Fraction.t :=
  if String.eqb recipient "mother" then calculateMotherShare heirs
  else if String.eqb recipient "daughters"
  then calculateDaughtersRaddShare heirs
  else if String.eqb recipient "granddaughtersFromSon"
  then calculateGranddaughtersRaddShare heirs
  else if String.eqb recipient "grandmothers" then Fraction.constructor 1 6
  else if String.eqb recipient "fullSisters"
  then calculateFullSistersRaddShare heirs
  else if String.eqb recipient "paternalSisters"
  then calculatePaternalSistersRaddShare heirs
  else if String.eqb recipient "maternalBrothers"
          || String.eqb recipient "maternalSisters"
  then
    if shouldAddMaternalSiblingsShare recipient recipients
    then calculateMaternalSiblingsRaddShare heirs
    else Fraction.constructor 0 1
  else Fraction.constructor 0 1.

(** The [for ... of recipients] loop of [calculateRaddRecipientsTotal];
    [recipients] is the whole list, [pending] what is left to visit. *)
Fixpoint raddRecipientsTotal_loop (heirs : Heirs) (recipients : list string)
    (pending : list string) (total : Fraction.t) : result Fraction.t :=
  match pending with
  | [] => ret total
  | recipient :: rest =>
    share <- getRecipientRaddShare recipient heirs recipients ;;
    total <- Fraction.add total share ;;
    raddRecipientsTotal_loop heirs recipients rest total
  end.

Definition calculateRaddRecipientsTotal (heirs : Heirs)
    (recipients : list string) : result Fraction.t :=
  total <- Fraction.constructor 0 1 ;;
  raddRecipientsTotal_loop heirs recipients recipients total.

Definition calculateRaddShareForRecipient (recipient : string)
    (heirs : Heirs) (remainder recipientsTotal : Fraction.t)
  : result Fraction.t :=
  baseShare <- getRecipientRaddShare recipient heirs [recipient] ;;
  proportion <- Fraction.divide baseShare recipientsTotal ;;
  Fraction.multiply remainder proportion.

(** [obj[key] = v] on an object used as a map: an existing key keeps its
    position, a new key goes last. *)
Fixpoint setProperty {A : Type} (key : string) (v : A)
    (obj : list (string * A)) : list (string * A) :=
  match obj with
  | [] => [(key, v)]
  | (k, w) :: rest =>
    if String.eqb key k then (k, v) :: rest
    else (k, w) :: setProperty key v rest
  end.

Fixpoint allRaddShares_loop (pending : list string) (heirs : Heirs)
    (remainder recipientsTotal : Fraction.t)
    (raddShares : list (string * Fraction.t))
  : result (list (string * Fraction.t)) :=
  match pending with
  | [] => ret raddShares
  | recipient :: rest =>
    share <- calculateRaddShareForRecipient recipient heirs remainder
               recipientsTotal ;;
    allRaddShares_loop rest heirs remainder recipientsTotal
      (setProperty recipient share raddShares)
  end.

Definition calculateAllRaddShares (recipients : list string) (heirs : Heirs)
    (remainder recipientsTotal : Fraction.t)
  : result (list (string * Fraction.t)) :=
  allRaddShares_loop recipients heirs remainder recipientsTotal [].

Record RaddResult : Type := mkRaddResult {
  radd_applied : bool;
  radd_remainder : Fraction.t;
  radd_recipients : list string;
  radd_raddShares : list (string * Fraction.t);
  radd_notification : option Notification
}.

Definition createRaddNotAppliedResult (remainder : Fraction.t) : RaddResult :=
  mkRaddResult false remainder [] [] None.

Definition createRaddNotification (remainder : Fraction.t) : Notification :=
  mkNotification "info" "Применено правило ар-Радд".

Definition applyRadd (heirs : Heirs) : result RaddResult :=
  remainder <- calculateRemainder heirs ;;
  let asabaInfo := determineAsaba heirs in
  zero <- Fraction.constructor 0 1 ;;
  if negb (Fraction.greaterThan remainder zero)
     || match asabaInfo with Some _ => true | None => false end
  then ret (createRaddNotAppliedResult remainder)
  else
    let recipients := getRaddRecipients heirs in
    if (Z.of_nat (List.length recipients) =? 0)
    then ret (createRaddNotAppliedResult remainder)
    else
      recipientsTotal <- calculateRaddRecipientsTotal heirs recipients ;;
      raddShares <- calculateAllRaddShares recipients heirs remainder
                      recipientsTotal ;;
      ret (mkRaddResult true remainder recipients raddShares
             (Some (createRaddNotification remainder))).

(** *** al-Umariyyatan *)

Record Umariyyatan : Type := mkUmariyyatan {
  um_applies : bool;
  um_caseNumber : Z
}.

Definition checkUmariyyatan (heirs : Heirs) : option Umariyyatan :=
  let hasSpouse := husband heirs || wife heirs in
  if negb hasSpouse then None
  else if negb (father heirs) || negb (mother heirs) then None
  else if (0 <? sons heirs) || (0 <? daughters heirs)
          || (0 <? grandsonsFromSon heirs)
          || (0 <? granddaughtersFromSon heirs)
  then None
  else if (0 <? fullBrothers heirs) || (0 <? fullSisters heirs)
          || (0 <? paternalBrothers heirs) || (0 <? paternalSisters heirs)
          || (0 <? maternalBrothers heirs) || (0 <? maternalSisters heirs)
  then None
  else if paternalGrandfather heirs || paternalGrandmother heirs
          || maternalGrandmother heirs
  then None
  else
    let caseNumber := if husband heirs then 1 else 2 in
    Some (mkUmariyyatan true caseNumber).

Record UmariyyatanShares : Type := mkUmariyyatanShares {
  spouseType : string;
  spouseShare : Fraction.t;
  motherShare : Fraction.t;
  fatherShare : Fraction.t;
  normalMotherShare : Fraction.t
}.

Definition calculateUmariyyatanShares (heirs : Heirs)
  : result (option UmariyyatanShares) :=
  match checkUmariyyatan heirs with
  | None => ret None
  | Some _ =>
    one <- Fraction.constructor 1 1 ;;
    spouse <-
      (if husband heirs then
         f <- Fraction.constructor 1 2 ;; ret (f, "husband")
       else
         f <- Fraction.constructor 1 4 ;; ret (f, "wife")) ;;
    let '(spouseShare, spouseType) := spouse in
    remainderAfterSpouse <- Fraction.subtract one spouseShare ;;
    three <- Fraction.constructor 3 1 ;;
    motherShare <- Fraction.divide remainderAfterSpouse three ;;
    fatherShare <- Fraction.subtract remainderAfterSpouse motherShare ;;
    normalMotherShare <- Fraction.constructor 1 3 ;;
    ret (Some (mkUmariyyatanShares spouseType spouseShare motherShare
                 fatherShare normalMotherShare))
  end.

Record UmariyyatanResult : Type := mkUmariyyatanResult {
  ur_applied : bool;
  ur_caseNumber : option Z;
  ur_shares : option UmariyyatanShares;
  ur_notification : option Notification
}.

Definition applyUmariyyatan (heirs : Heirs) : result UmariyyatanResult :=
  match checkUmariyyatan heirs with
  | None => ret (mkUmariyyatanResult false None None None)
  | Some umariyyatan =>
    shares <- calculateUmariyyatanShares heirs ;;
    ret (mkUmariyyatanResult true (Some (um_caseNumber umariyyatan)) shares
           (Some (mkNotification "info" "Применен случай аль-Умарийятайн")))
  end.

(** *** All special cases, in their fixed priority *)

Record SpecialCasesResult : Type := mkSpecialCasesResult {
  umariyyatan : UmariyyatanResult;
  awl : option AwlResult;
  radd : option RaddResult;
  notifications : list (option Notification)
}.

Definition applySpecialCases (heirs : Heirs) : result SpecialCasesResult :=
  um <- applyUmariyyatan heirs ;;
  if ur_applied um then
    ret (mkSpecialCasesResult um None None [ur_notification um])
  else
    awlR <- applyAwl heirs ;;
    if awl_applied awlR then
      ret (mkSpecialCasesResult um (Some awlR) None [awl_notification awlR])
    else
      raddR <- applyRadd heirs ;;
      if radd_applied raddR then
        ret (mkSpecialCasesResult um (Some awlR) (Some raddR)
               [radd_notification raddR])
      else
        ret (mkSpecialCasesResult um (Some awlR) (Some raddR) []).

End SpecialCases.

(** ** The composite computation of tests/property/shares.test.js

    [calculateCompleteInheritance] is the only function of the sources that
    runs the whole engine and produces the list of allocation entries.  The
    decimal fields of an entry ([percentage], [amount]) and the decimal
    totals are floating-point renderings of [share] and are left out. *)

Module Complete.

Import Shares Shares.HeirTypes SpecialCases.

Record Entry : Type := mkEntry {
  name : string;
  share : Fraction.t;
  entryBlocked : bool
}.

Record Inheritance : Type := mkInheritance {
  heirsOut : list Entry;
  specialCases : SpecialCasesResult
}.

(** [specialCases.awl && specialCases.awl.applied] and
    [specialCases.awl?.applied] *)
Definition awlApplied (sc : SpecialCasesResult) : bool :=
  match awl sc with
  | Some a => awl_applied a
  | None => false
  end.

(** [if (awl && awl.applied) share = share.multiply(awl.awlRatio)] *)
Definition withAwl (sc : SpecialCasesResult) (share : Fraction.t)
  : result Fraction.t :=
  match awl sc with
  | Some a =>
    if awl_applied a then Fraction.multiply share (awl_awlRatio a)
    else ret share
  | None => ret share
  end.

(** [if (radd && radd.applied && radd.raddShares[key])
       share = share.add(radd.raddShares[key])] *)
Definition withRadd (sc : SpecialCasesResult) (key : string)
    (share : Fraction.t) : result Fraction.t :=
  match radd sc with
  | Some r =>
    if radd_applied r then
      match assoc key (radd_raddShares r) with
      | Some addend => Fraction.add share addend
      | None => ret share
      end
    else ret share
  | None => ret share
  end.

(** [x || new Fraction(0, 1)] *)
Definition orZero (x : option Fraction.t) : result Fraction.t :=
  match x with
  | Some f => ret f
  | None => Fraction.constructor 0 1
  end.

Definition push (out : list Entry) (name : string) (share : Fraction.t)
  : list Entry :=
  out ++ [mkEntry name share false].

Definition pushUnlessZero (out : list Entry) (name : string)
    (share : Fraction.t) : list Entry :=
  if negb (Fraction.isZero share) then push out name share else out.

(** The branch taken when al-Umariyyatan applies. *)
Definition umariyyatanEntries (heirs : Heirs) (shares : UmariyyatanShares)
  : list Entry :=
  let out := [] in
  let out :=
    if husband heirs then push out "Муж" (spouseShare shares)
    else if wife heirs then push out "Жена" (spouseShare shares)
    else out in
  let out :=
    if mother heirs then push out "Мать" (motherShare shares) else out in
  if father heirs then push out "Отец" (fatherShare shares) else out.

Definition spouseEntry (heirs : Heirs) (sc : SpecialCasesResult)
    (out : list Entry) : result (list Entry) :=
  spouseResult <- calculateSpouseShare heirs ;;
  match spouseResult with
  | Some r =>
    finalShare <- withAwl sc (sp_share r) ;;
    ret (push out (if String.eqb (sp_type r) "husband" then "Муж"
                   else "Жена") finalShare)
  | None => ret out
  end.

Definition motherEntry (ascendantShares : AscendantShares)
    (sc : SpecialCasesResult) (out : list Entry) : result (list Entry) :=
  match as_mother ascendantShares with
  | Some m =>
    finalShare <- withAwl sc (me_share m) ;;
    finalShare <- withRadd sc "mother" finalShare ;;
    ret (push out "Мать" finalShare)
  | None => ret out
  end.

(** The father and the paternal grandfather are handled alike. *)
Definition ascendantAsabaEntry (heirs : Heirs) (who : option AscendantAsaba)
    (label : string) (sc : SpecialCasesResult) (out : list Entry)
  : result (list Entry) :=
  match who with
  | Some a =>
    finalShare <- orZero (aa_fixedShare a) ;;
    finalShare <-
      match aa_fixedShare a with
      | Some fixedShare =>
        if awlApplied sc then withAwl sc fixedShare else ret finalShare
      | None => ret finalShare
      end ;;
    finalShare <-
      (if aa_isAsaba a && negb (awlApplied sc) then
         asabaResult <- calculateAsaba heirs ;;
         match hasAsaba asabaResult, distribution asabaResult with
         | true, Some d => Fraction.add finalShare (maleShare d)
         | _, _ => ret finalShare
         end
       else ret finalShare) ;;
    ret (push out label finalShare)
  | None => ret out
  end.

Definition grandmothersEntry (ascendantShares : AscendantShares)
    (sc : SpecialCasesResult) (out : list Entry) : result (list Entry) :=
  match as_grandmothers ascendantShares with
  | Some g =>
    finalShare <- withAwl sc (gm_totalShare g) ;;
    finalShare <- withRadd sc "grandmothers" finalShare ;;
    ret (push out "Бабушки" finalShare)
  | None => ret out
  end.

Definition daughtersEntry (heirs : Heirs)
    (descendantShares : DescendantShares) (sc : SpecialCasesResult)
    (out : list Entry) : result (list Entry) :=
  match dsc_daughters descendantShares with
  | Some d =>
    finalShare <- orZero (ds_share d) ;;
    finalShare <-
      (if ds_isAsaba d && negb (awlApplied sc) then
         asabaResult <- calculateAsaba heirs ;;
         match hasAsaba asabaResult, distribution asabaResult with
         | true, Some dist => ret (femaleShare dist)
         | _, _ => ret finalShare
         end
       else
         match ds_share d with
         | Some fixedShare =>
           finalShare <-
             (if awlApplied sc then withAwl sc fixedShare
              else ret finalShare) ;;
           withRadd sc "daughters" finalShare
         | None => ret finalShare
         end) ;;
    ret (pushUnlessZero out
           (if ds_count d =? 1 then "Дочь" else "Дочери") finalShare)
  | None => ret out
  end.

Definition sonsEntry (heirs : Heirs) (descendantShares : DescendantShares)
    (sc : SpecialCasesResult) (out : list Entry) : result (list Entry) :=
  match dsc_sons descendantShares with
  | Some s =>
    if negb (awlApplied sc) then
      asabaResult <- calculateAsaba heirs ;;
      match hasAsaba asabaResult, distribution asabaResult with
      | true, Some dist =>
        ret (push out (if ds_count s =? 1 then "Сын" else "Сыновья")
               (maleShare dist))
      | _, _ => ret out
      end
    else ret out
  | None => ret out
  end.

(** [asabaResult.asabaInfo.key === k], under [asabaResult.hasAsaba]. *)
Definition keyIs (asabaResult : AsabaResult) (k : string) : bool :=
  match asabaInfo asabaResult with
  | Some info => String.eqb (ai_key info) k
  | None => false
  end.

Definition grandsonsEntry (heirs : Heirs)
    (descendantShares : DescendantShares) (sc : SpecialCasesResult)
    (out : list Entry) : result (list Entry) :=
  match dsc_grandsonsFromSon descendantShares with
  | Some g =>
    if negb (awlApplied sc) then
      asabaResult <- calculateAsaba heirs ;;
      match hasAsaba asabaResult, distribution asabaResult with
      | true, Some dist =>
        if keyIs asabaResult "grandsonsFromSon" then
          ret (push out (if ds_count g =? 1 then "Внук от сына"
                         else "Внуки от сына") (maleShare dist))
        else ret out
      | _, _ => ret out
      end
    else ret out
  | None => ret out
  end.

Definition granddaughtersEntry (heirs : Heirs)
    (descendantShares : DescendantShares) (sc : SpecialCasesResult)
    (out : list Entry) : result (list Entry) :=
  match dsc_granddaughtersFromSon descendantShares with
  | Some g =>
    finalShare <- orZero (ds_share g) ;;
    finalShare <-
      (if ds_isAsaba g && negb (awlApplied sc) then
         asabaResult <- calculateAsaba heirs ;;
         match hasAsaba asabaResult, distribution asabaResult with
         | true, Some dist =>
           if keyIs asabaResult "grandsonsFromSon"
           then ret (femaleShare dist) else ret finalShare
         | _, _ => ret finalShare
         end
       else
         match ds_share g with
         | Some fixedShare =>
           if negb (ds_blocked g) then
             finalShare <-
               (if awlApplied sc then withAwl sc fixedShare
                else ret finalShare) ;;
             withRadd sc "granddaughtersFromSon" finalShare
           else ret finalShare
         | None => ret finalShare
         end) ;;
    ret (pushUnlessZero out
           (if ds_count g =? 1 then "Внучка от сына" else "Внучки от сына")
           finalShare)
  | None => ret out
  end.

Definition siblingAsabaEntries (heirs : Heirs) (sc : SpecialCasesResult)
    (out : list Entry) : result (list Entry) :=
  if negb (awlApplied sc) then
    asabaResult <- calculateAsaba heirs ;;
    match hasAsaba asabaResult, distribution asabaResult with
    | true, Some dist =>
      if keyIs asabaResult "fullBrothers" then
        let out :=
          pushUnlessZero out
            (if fullBrothers heirs =? 1 then "Родной брат"
             else "Родные братья") (maleShare dist) in
        ret (pushUnlessZero out
               (if fullSisters heirs =? 1 then "Родная сестра"
                else "Родные сестры") (femaleShare dist))
      else if keyIs asabaResult "paternalBrothers" then
        let out :=
          pushUnlessZero out
            (if paternalBrothers heirs =? 1 then "Единокровный брат"
             else "Единокровные братья") (maleShare dist) in
        ret (pushUnlessZero out
               (if paternalSisters heirs =? 1 then "Единокровная сестра"
                else "Единокровные сестры") (femaleShare dist))
      else ret out
    | _, _ => ret out
    end
  else ret out.

Definition fullSistersEntry (heirs : Heirs) (sc : SpecialCasesResult)
    (out : list Entry) : result (list Entry) :=
  if (0 <? fullSisters heirs) && (fullBrothers heirs =? 0)
     && negb (father heirs) && negb (hasChildren heirs)
  then
    sisterShare <- getShare FULL_SISTER heirs ;;
    match sisterShare with
    | Some sisterShare =>
      if negb (Fraction.isZero sisterShare) then
        sisterShare <- withAwl sc sisterShare ;;
        sisterShare <- withRadd sc "fullSisters" sisterShare ;;
        ret (push out (if fullSisters heirs =? 1 then "Родная сестра"
                       else "Родные сестры") sisterShare)
      else ret out
    | None => ret out
    end
  else ret out.

Definition paternalSistersEntry (heirs : Heirs) (sc : SpecialCasesResult)
    (out : list Entry) : result (list Entry) :=
  if (0 <? paternalSisters heirs) && (paternalBrothers heirs =? 0)
     && (fullBrothers heirs =? 0) && negb (father heirs)
     && negb (hasChildren heirs)
  then
    paternalSisterShare <- getShare PATERNAL_SISTER heirs ;;
    match paternalSisterShare with
    | Some paternalSisterShare =>
      if negb (Fraction.isZero paternalSisterShare) then
        paternalSisterShare <- withAwl sc paternalSisterShare ;;
        paternalSisterShare <-
          withRadd sc "paternalSisters" paternalSisterShare ;;
        ret (push out (if paternalSisters heirs =? 1
                       then "Единокровная сестра"
                       else "Единокровные сестры") paternalSisterShare)
      else ret out
    | None => ret out
    end
  else ret out.

(** The maternal siblings are one pooled entry; of the two addends of
    [raddShares] only the brothers' one is added when both exist. *)
Definition withMaternalRadd (sc : SpecialCasesResult)
    (maternalShare : Fraction.t) : result Fraction.t :=
  match radd sc with
  | Some r =>
    if radd_applied r then
      match assoc "maternalBrothers" (radd_raddShares r) with
      | Some addend => Fraction.add maternalShare addend
      | None =>
        match assoc "maternalSisters" (radd_raddShares r) with
        | Some addend => Fraction.add maternalShare addend
        | None => ret maternalShare
        end
      end
    else ret maternalShare
  | None => ret maternalShare
  end.

Definition maternalSiblingsEntry (heirs : Heirs) (sc : SpecialCasesResult)
    (out : list Entry) : result (list Entry) :=
  if negb (father heirs) && negb (hasChildren heirs) then
    let totalMaternal :=
      orDefault (maternalBrothers heirs) 0
      + orDefault (maternalSisters heirs) 0 in
    if 0 <? totalMaternal then
      maternalShare <-
        (if totalMaternal =? 1 then Fraction.constructor 1 6
         else Fraction.constructor 1 3) ;;
      maternalShare <- withAwl sc maternalShare ;;
      maternalShare <- withMaternalRadd sc maternalShare ;;
      ret (pushUnlessZero out
             (if totalMaternal =? 1 then
                if 0 <? maternalBrothers heirs then "Единоутробный брат"
                else "Единоутробная сестра"
              else "Единоутробные братья и сестры") maternalShare)
    else ret out
  else ret out.

(** [calculateCompleteInheritance(heirs, totalEstate)].  When
    al-Umariyyatan applies its [shares] are read without a null check. *)
Definition calculateCompleteInheritance (heirs : Heirs)
  : result Inheritance :=
  sc <- applySpecialCases heirs ;;
  if ur_applied (umariyyatan sc) then
    match ur_shares (umariyyatan sc) with
    | Some shares =>
      ret (mkInheritance (umariyyatanEntries heirs shares) sc)
    | None => Throw (TypeError "Cannot read properties of null")
    end
  else
    out <- spouseEntry heirs sc [] ;;
    ascendantShares <- calculateAscendantShares heirs ;;
    out <- motherEntry ascendantShares sc out ;;
    out <- ascendantAsabaEntry heirs (as_father ascendantShares) "Отец"
             sc out ;;
    out <- ascendantAsabaEntry heirs (as_grandfather ascendantShares) "Дед"
             sc out ;;
    out <- grandmothersEntry ascendantShares sc out ;;
    descendantShares <- calculateDescendantShares heirs ;;
    out <- daughtersEntry heirs descendantShares sc out ;;
    out <- sonsEntry heirs descendantShares sc out ;;
    out <- grandsonsEntry heirs descendantShares sc out ;;
    out <- granddaughtersEntry heirs descendantShares sc out ;;
    out <- siblingAsabaEntries heirs sc out ;;
    out <- fullSistersEntry heirs sc out ;;
    out <- paternalSistersEntry heirs sc out ;;
    out <- maternalSiblingsEntry heirs sc out ;;
    ret (mkInheritance out sc).

(** The exact sum of the final fractions of the entries, as the property
    test folds it: [heirs.reduce((sum, heir) => sum.add(heir.share),
    new Fraction(0, 1))]. *)
Fixpoint sumShares_from (entries : list Entry) (sum : Fraction.t)
  : result Fraction.t :=
  match entries with
  | [] => ret sum
  | heir :: rest =>
    sum <- Fraction.add sum (share heir) ;; sumShares_from rest sum
  end.

Definition totalFractionSum (entries : list Entry) : result Fraction.t :=
  zero <- Fraction.constructor 0 1 ;;
  sumShares_from entries zero.

(** [validQuranicFractions] of the property tests. *)
Definition validQuranicFractions : result (list Fraction.t) :=
  f1 <- Fraction.constructor 1 2 ;;
  f2 <- Fraction.constructor 1 4 ;;
  f3 <- Fraction.constructor 1 8 ;;
  f4 <- Fraction.constructor 2 3 ;;
  f5 <- Fraction.constructor 1 3 ;;
  f6 <- Fraction.constructor 1 6 ;;
  f7 <- Fraction.constructor 0 1 ;;
  ret [f1; f2; f3; f4; f5; f6; f7].

(** [fractions.some((f) => f.equals(share))] *)
Fixpoint someEquals (fractions : list Fraction.t) (share : Fraction.t)
  : result bool :=
  match fractions with
  | [] => ret false
  | f :: rest =>
    b <- Fraction.equals f share ;;
    if b then ret true else someEquals rest share
  end.

(** [validateQuranicFractions(heirs)] of the property tests. *)
Definition validateQuranicFractions (heirs : Heirs) : result bool :=
  fractions <- validQuranicFractions ;;
  husbandShare <- calculateHusbandShare heirs ;;
  wifeResult <- calculateWifeShare heirs ;;
  motherShare <- calculateMotherShare heirs ;;
  husbandValid <- someEquals fractions husbandShare ;;
  wifeValid <- someEquals fractions (ws_totalShare wifeResult) ;;
  motherValid <- someEquals fractions motherShare ;;
  ret (husbandValid && wifeValid && motherValid).

End Complete.

(** ** Vocabulary of the specification

    The definitions below are not translated from the sources: they state,
    in the words of the specification, what the theorems compare the engine
    with. *)

Module Spec.

Import Shares SpecialCases Complete.

(** "Exactly one spouse, both parents present, zero descendants, zero
    siblings, zero grandparents." *)
Definition onlySpouseAndParents (heirs : Heirs) : bool :=
  xorb (husband heirs) (wife heirs)
  && father heirs && mother heirs
  && (sons heirs =? 0) && (daughters heirs =? 0)
  && (grandsonsFromSon heirs =? 0) && (granddaughtersFromSon heirs =? 0)
  && (fullBrothers heirs =? 0) && (fullSisters heirs =? 0)
  && (paternalBrothers heirs =? 0) && (paternalSisters heirs =? 0)
  && (maternalBrothers heirs =? 0) && (maternalSisters heirs =? 0)
  && negb (paternalGrandfather heirs) && negb (paternalGrandmother heirs)
  && negb (maternalGrandmother heirs).

(** A residuary category is present when its count field is truthy, and
    unblocked when the blocking evaluation of blocking.js does not report
    it blocked. *)
Definition isPresent (heirs : Heirs) (e : AsabaPriorityEntry) : bool :=
  truthy (getProperty heirs (ap_countField e)).

Definition isUnblocked (heirs : Heirs) (e : AsabaPriorityEntry) : bool :=
  negb (Blocking.blocked (Blocking.checkBlocking (ap_key e) heirs)).

(** "The priority list is scanned in order; the first present, unblocked
    category is the sole residuary absorber." *)
Definition firstPresentUnblocked (heirs : Heirs) : option string :=
  option_map ap_key
    (find (fun e => isPresent heirs e && isUnblocked heirs e) AsabaPriority).

(** A residuary tier as the resolver hands it to the distribution: at least
    one male, no negative female count, and [hasFemales] telling whether
    the same-parentage female category is present. *)
Definition isTier (info : AsabaInfo) : bool :=
  (1 <=? ai_maleCount info) && (0 <=? ai_femaleCount info)
  && Bool.eqb (ai_hasFemales info) (0 <? ai_femaleCount info).

(** The fixed share that [GRANDDAUGHTER_FROM_SON.getShare] returns when
    there is no son's son (proof-side name for its four literals). *)
Definition granddaughterLiteral (heirs : Heirs) : Fraction.t :=
  if daughters heirs =? 1 then Fraction.mk 1 6
  else if 2 <=? daughters heirs then Fraction.mk 0 1
  else if granddaughtersFromSon heirs =? 1 then Fraction.mk 1 2
  else Fraction.mk 2 3.

(** The fixed shares of a composition: what each of the ten blocks of
    [calculateFixedSharesTotal] adds to the running total, read off by
    running the block on a zero total. *)
Definition fixedShareBlocks : list (Heirs -> Fraction.t -> result Fraction.t) :=
  [ addSpouseShare; addMotherShare; addFatherShare; addGrandfatherShare;
    addGrandmothersShare; addDaughtersShare; addGranddaughtersShare;
    addFullSistersShare; addPaternalSistersShare; addMaternalSiblingsShare ].

Fixpoint mapM {A B : Type} (f : A -> result B) (l : list A)
  : result (list B) :=
  match l with
  | [] => ret []
  | x :: rest => y <- f x ;; ys <- mapM f rest ;; ret (y :: ys)
  end.

Definition fixedShares (heirs : Heirs) : result (list Fraction.t) :=
  mapM (fun block => zero <- Fraction.constructor 0 1 ;; block heirs zero)
    fixedShareBlocks.

(** A block adds a fixed share: run on any running total it succeeds and
    adds the non-negative amount that it yields on a zero total
    (proof-side). *)
Definition addsFixedShare (block : Fraction.t -> result Fraction.t) : Prop :=
  forall total, Fraction.canonical total ->
  exists total' s,
    block total = Ok total' /\ Fraction.canonical total'
    /\ block (Fraction.mk 0 1) = Ok s /\ Fraction.canonical s
    /\ (Fraction.value total' == Fraction.value total + Fraction.value s)%Q
    /\ (0 <= Fraction.value s)%Q.

(** The ten blocks run in order on a running total (proof-side);
    [calculateFixedSharesTotal] is this chain started from zero. *)
Fixpoint runBlocks (blocks : list (Heirs -> Fraction.t -> result Fraction.t))
    (heirs : Heirs) (total : Fraction.t) : result Fraction.t :=
  match blocks with
  | [] => ret total
  | block :: rest =>
    total <- block heirs total ;; runBlocks rest heirs total
  end.

(** The exact sum of a list of fractions, folded with [add] from zero. *)
Fixpoint sumFrom (l : list Fraction.t) (sum : Fraction.t)
  : result Fraction.t :=
  match l with
  | [] => ret sum
  | x :: rest => sum <- Fraction.add sum x ;; sumFrom rest sum
  end.

Definition sum (l : list Fraction.t) : result Fraction.t :=
  zero <- Fraction.constructor 0 1 ;; sumFrom l zero.

(** The rational value of a sum, for proofs. *)
Fixpoint sumValues (l : list Fraction.t) : Q :=
  match l with
  | [] => 0%Q
  | x :: rest => (Fraction.value x + sumValues rest)%Q
  end.

(** *** Vocabulary of the sum-to-one law *)

(** No nephew or uncle is present. *)
Definition noDistantAgnates (heirs : Heirs) : bool :=
  negb (truthy (ofOptNum (nephewsFullBrothers heirs)))
  && negb (truthy (ofOptNum (nephewsPaternalBrothers heirs)))
  && negb (truthy (ofOptNum (unclesFull heirs)))
  && negb (truthy (ofOptNum (unclesPaternal heirs))).

(** Some heir other than the spouse is present. *)
Definition otherHeirPresent (heirs : Heirs) : bool :=
  father heirs || mother heirs || paternalGrandfather heirs
  || paternalGrandmother heirs || maternalGrandmother heirs
  || (0 <? sons heirs) || (0 <? daughters heirs)
  || (0 <? grandsonsFromSon heirs) || (0 <? granddaughtersFromSon heirs)
  || (0 <? fullBrothers heirs) || (0 <? fullSisters heirs)
  || (0 <? paternalBrothers heirs) || (0 <? paternalSisters heirs)
  || (0 <? maternalBrothers heirs) || (0 <? maternalSisters heirs).

(** A full or paternal sister takes a fixed share while a daughter or a
    son's daughter is present. *)
Definition sistersBesideDaughters (heirs : Heirs) : bool :=
  ((0 <? daughters heirs) || (0 <? granddaughtersFromSon heirs))
  && negb (father heirs) && (sons heirs =? 0)
  && (grandsonsFromSon heirs =? 0) && (fullBrothers heirs =? 0)
  && ((0 <? fullSisters heirs)
      || ((0 <? paternalSisters heirs) && (paternalBrothers heirs =? 0))).

(** *** The literal each block adds (proof-side) *)

Definition addLit (lit : option Fraction.t) (total : Fraction.t)
  : result Fraction.t :=
  match lit with
  | Some x => Fraction.add total x
  | None => ret total
  end.

Definition litValue (lit : option Fraction.t) : Q :=
  match lit with
  | Some x => Fraction.value x
  | None => 0%Q
  end.

Definition spouseLit (heirs : Heirs) : option Fraction.t :=
  if husband heirs
  then Some (if hasChildren heirs then Fraction.mk 1 4 else Fraction.mk 1 2)
  else if wife heirs
  then Some (if hasChildren heirs then Fraction.mk 1 8 else Fraction.mk 1 4)
  else None.

Definition motherLiteral (heirs : Heirs) : Fraction.t :=
  if hasChildren heirs || hasMultipleSiblings heirs then Fraction.mk 1 6
  else Fraction.mk 1 3.

Definition motherLit (heirs : Heirs) : option Fraction.t :=
  if mother heirs then Some (motherLiteral heirs) else None.

(** What [FATHER.getShare] and [PATERNAL_GRANDFATHER.getShare] return. *)
Definition ascendantLit (heirs : Heirs) : option Fraction.t :=
  if hasMaleDescendants heirs then Some (Fraction.mk 1 6)
  else if (0 <? daughters heirs) || (0 <? granddaughtersFromSon heirs)
  then Some (Fraction.mk 1 6)
  else None.

Definition fatherLit (heirs : Heirs) : option Fraction.t :=
  if father heirs then ascendantLit heirs else None.

Definition grandfatherLit (heirs : Heirs) : option Fraction.t :=
  if paternalGrandfather heirs && negb (father heirs)
  then ascendantLit heirs else None.

Definition grandmothersLit (heirs : Heirs) : option Fraction.t :=
  if (paternalGrandmother heirs || maternalGrandmother heirs)
     && negb (mother heirs)
  then Some (Fraction.mk 1 6) else None.

Definition daughterLiteral (heirs : Heirs) : Fraction.t :=
  if daughters heirs =? 1 then Fraction.mk 1 2 else Fraction.mk 2 3.

Definition daughtersLit (heirs : Heirs) : option Fraction.t :=
  if (0 <? daughters heirs) && (sons heirs =? 0)
  then Some (daughterLiteral heirs) else None.

Definition granddaughtersLit (heirs : Heirs) : option Fraction.t :=
  if (0 <? granddaughtersFromSon heirs) && (sons heirs =? 0)
  then if 0 <? grandsonsFromSon heirs then None
       else Some (granddaughterLiteral heirs)
  else None.

Definition fullSisterLiteral (heirs : Heirs) : Fraction.t :=
  if fullSisters heirs =? 1 then Fraction.mk 1 2 else Fraction.mk 2 3.

Definition fullSistersFixed (heirs : Heirs) : bool :=
  (0 <? fullSisters heirs) && (fullBrothers heirs =? 0)
  && negb (father heirs) && (sons heirs =? 0)
  && (grandsonsFromSon heirs =? 0).

Definition fullSistersLit (heirs : Heirs) : option Fraction.t :=
  if fullSistersFixed heirs
  then if 0 <? fullBrothers heirs then None
       else Some (fullSisterLiteral heirs)
  else None.

Definition paternalSisterLiteral (heirs : Heirs) : Fraction.t :=
  if fullSisters heirs =? 1 then Fraction.mk 1 6
  else if 2 <=? fullSisters heirs then Fraction.mk 0 1
  else if paternalSisters heirs =? 1 then Fraction.mk 1 2
  else Fraction.mk 2 3.

Definition paternalSistersFixed (heirs : Heirs) : bool :=
  (0 <? paternalSisters heirs) && (paternalBrothers heirs =? 0)
  && negb (father heirs) && (sons heirs =? 0)
  && (grandsonsFromSon heirs =? 0) && (fullBrothers heirs =? 0).

Definition paternalSistersLit (heirs : Heirs) : option Fraction.t :=
  if paternalSistersFixed heirs
  then if 0 <? paternalBrothers heirs then None
       else Some (paternalSisterLiteral heirs)
  else None.

Definition totalMaternal (heirs : Heirs) : Z :=
  orDefault (maternalBrothers heirs) 0 + orDefault (maternalSisters heirs) 0.

Definition maternalLiteral (heirs : Heirs) : Fraction.t :=
  if totalMaternal heirs =? 1 then Fraction.mk 1 6 else Fraction.mk 1 3.

Definition maternalLit (heirs : Heirs) : option Fraction.t :=
  if negb (father heirs) && negb (hasChildren heirs)
  then if 0 <? totalMaternal heirs then Some (maternalLiteral heirs)
       else None
  else None.

(** The literals in the order of the ten blocks. *)
Definition fixedLits (heirs : Heirs) : list (option Fraction.t) :=
  [ spouseLit heirs; motherLit heirs; fatherLit heirs; grandfatherLit heirs;
    grandmothersLit heirs; daughtersLit heirs; granddaughtersLit heirs;
    fullSistersLit heirs; paternalSistersLit heirs; maternalLit heirs ].

Fixpoint sumLits (lits : list (option Fraction.t)) : Q :=
  match lits with
  | [] => 0%Q
  | lit :: rest => (litValue lit + sumLits rest)%Q
  end.

Definition litOK (lit : option Fraction.t) : Prop :=
  match lit with
  | Some x => Fraction.canonical x /\ (0 <= Fraction.value x)%Q
  | None => True
  end.

(** *** Reading the outcome of the special cases (proof-side) *)

(** The factor the reduction applies to a fixed share: the ratio when
    al-Awl applied, one otherwise. *)
Definition awlFactor (sc : SpecialCasesResult) : Q :=
  match awl sc with
  | Some a => if awl_applied a then Fraction.value (awl_awlRatio a) else 1%Q
  | None => 1%Q
  end.

(** The addend redistribution holds for a key, zero when there is none. *)
Definition raddAddend (sc : SpecialCasesResult) (key : string) : Q :=
  match radd sc with
  | Some r =>
    if radd_applied r then
      match assoc key (radd_raddShares r) with
      | Some x => Fraction.value x
      | None => 0%Q
      end
    else 0%Q
  | None => 0%Q
  end.

(** The addend the pooled maternal entry receives. *)
Definition maternalRaddAddend (sc : SpecialCasesResult) : Q :=
  match radd sc with
  | Some r =>
    if radd_applied r then
      match assoc "maternalBrothers" (radd_raddShares r) with
      | Some x => Fraction.value x
      | None =>
        match assoc "maternalSisters" (radd_raddShares r) with
        | Some x => Fraction.value x
        | None => 0%Q
        end
      end
    else 0%Q
  | None => 0%Q
  end.

(** Every fraction the outcome carries came out of the arithmetic. *)
Definition scWf (sc : SpecialCasesResult) : Prop :=
  (forall a, awl sc = Some a -> Fraction.wf (awl_awlRatio a))
  /\ (forall r key x, radd sc = Some r ->
        assoc key (radd_raddShares r) = Some x -> Fraction.wf x).

(** What the residuary computation hands to the male and to the female
    side, zero when there is no residuary distribution. *)
Definition asabaMale (ar : AsabaResult) : Q :=
  match hasAsaba ar, distribution ar with
  | true, Some d => Fraction.value (maleShare d)
  | _, _ => 0%Q
  end.

Definition asabaFemale (ar : AsabaResult) : Q :=
  match hasAsaba ar, distribution ar with
  | true, Some d => Fraction.value (femaleShare d)
  | _, _ => 0%Q
  end.

Definition arWf (ar : AsabaResult) : Prop :=
  forall d, distribution ar = Some d ->
    Fraction.wf (maleShare d) /\ Fraction.wf (femaleShare d).

(** The entries emitted so far: well-formed shares, none blocked. *)
Definition entryOK (e : Entry) : Prop :=
  Fraction.wf (share e) /\ entryBlocked e = false.

Fixpoint entriesValue (l : list Entry) : Q :=
  match l with
  | [] => 0%Q
  | e :: rest => (Fraction.value (share e) + entriesValue rest)%Q
  end.

(** A step of the composite computation emits entries worth [q]: it
    succeeds, keeps the entries well-formed and raises their value by [q]. *)
Definition emits (step : result (list Entry)) (out : list Entry) (q : Q)
  : Prop :=
  exists out',
    step = Ok out' /\ Forall entryOK out'
    /\ (entriesValue out' == entriesValue out + q)%Q.

(** What [calculateDaughterShare] and [calculateGranddaughterShare] answer
    (proof-side). *)
Definition daughtersShape (heirs : Heirs) (dr : option DescendantShare)
  : Prop :=
  if daughters heirs =? 0 then dr = None
  else exists r,
      dr = Some r
      /\ ds_isAsaba r = (0 <? sons heirs)
      /\ ds_share r = (if 0 <? sons heirs then None
                       else Some (daughterLiteral heirs)).

Definition granddaughtersShape (heirs : Heirs) (gr : option DescendantShare)
  : Prop :=
  if (0 <? sons heirs) || (granddaughtersFromSon heirs =? 0) then gr = None
  else exists r,
      gr = Some r
      /\ ds_isAsaba r = (0 <? grandsonsFromSon heirs)
      /\ ds_share r = (if 0 <? grandsonsFromSon heirs then None
                       else Some (granddaughterLiteral heirs))
      /\ ds_blocked r = (if 0 <? grandsonsFromSon heirs then false
                         else Fraction.isZero (granddaughterLiteral heirs)).

(** *** Reading a redistribution (proof-side) *)

(** The base share [getRecipientRaddShare] returns, as a rational. *)
Definition baseShare (heirs : Heirs) (recipients : list string) (r : string)
  : Q :=
  match getRecipientRaddShare r heirs recipients with
  | Ok b => Fraction.value b
  | Throw _ => 0%Q
  end.

Fixpoint sumOver (f : string -> Q) (l : list string) : Q :=
  match l with
  | [] => 0%Q
  | x :: rest => (f x + sumOver f rest)%Q
  end.

(** The value stored under a key of [raddShares], zero when absent. *)
Definition addendOf (shares : list (string * Fraction.t)) (key : string) : Q :=
  match assoc key shares with
  | Some x => Fraction.value x
  | None => 0%Q
  end.

(** The literals of [calculateGranddaughtersRaddShare] and of
    [calculatePaternalSistersRaddShare]. *)
Definition granddaughterRaddLiteral (heirs : Heirs) : Fraction.t :=
  if daughters heirs =? 1 then Fraction.mk 1 6
  else if daughters heirs =? 0 then
    if granddaughtersFromSon heirs =? 1 then Fraction.mk 1 2
    else Fraction.mk 2 3
  else Fraction.mk 0 1.

Definition paternalSisterRaddLiteral (heirs : Heirs) : Fraction.t :=
  if fullSisters heirs =? 1 then Fraction.mk 1 6
  else if fullSisters heirs =? 0 then
    if paternalSisters heirs =? 1 then Fraction.mk 1 2
    else Fraction.mk 2 3
  else Fraction.mk 0 1.

(** *** The three parts of the value of the entries (proof-side) *)

(** What redistribution adds to the entries of the composite computation. *)
Definition raddPart (heirs : Heirs) (sc : SpecialCasesResult) : Q :=
  ((if mother heirs then raddAddend sc "mother" else 0)
   + (if (paternalGrandmother heirs || maternalGrandmother heirs)
         && negb (mother heirs)
      then raddAddend sc "grandmothers" else 0)
   + (if (0 <? daughters heirs) && (sons heirs =? 0)
      then raddAddend sc "daughters" else 0)
   + (if (0 <? granddaughtersFromSon heirs) && (sons heirs =? 0)
         && negb (0 <? grandsonsFromSon heirs)
         && negb (Fraction.isZero (granddaughterLiteral heirs))
      then raddAddend sc "granddaughtersFromSon" else 0)
   + (if fullSistersFixed heirs then raddAddend sc "fullSisters" else 0)
   + (if paternalSistersFixed heirs
         && negb (Fraction.isZero (paternalSisterLiteral heirs))
      then raddAddend sc "paternalSisters" else 0)
   + (if negb (father heirs) && negb (hasChildren heirs)
         && (0 <? totalMaternal heirs)
      then maternalRaddAddend sc else 0))%Q.

(** What the residuary distribution adds to them. *)
Definition asabaPart (heirs : Heirs) (sc : SpecialCasesResult)
    (ar : AsabaResult) : Q :=
  ((if father heirs && negb (hasMaleDescendants heirs)
       && negb (awlApplied sc)
    then asabaMale ar else 0)
   + (if (paternalGrandfather heirs && negb (father heirs))
         && negb (hasMaleDescendants heirs) && negb (awlApplied sc)
      then asabaMale ar else 0)
   + (if (0 <? daughters heirs) && (0 <? sons heirs)
         && negb (awlApplied sc)
      then asabaFemale ar else 0)
   + (if (0 <? sons heirs) && negb (awlApplied sc)
      then asabaMale ar else 0)
   + (if (0 <? grandsonsFromSon heirs) && (sons heirs =? 0)
         && negb (awlApplied sc) && keyIs ar "grandsonsFromSon"
      then asabaMale ar else 0)
   + (if (0 <? granddaughtersFromSon heirs) && (sons heirs =? 0)
         && (0 <? grandsonsFromSon heirs) && negb (awlApplied sc)
         && keyIs ar "grandsonsFromSon"
      then asabaFemale ar else 0)
   + (if negb (awlApplied sc)
         && (keyIs ar "fullBrothers" || keyIs ar "paternalBrothers")
      then asabaMale ar + asabaFemale ar else 0))%Q.

(** What a spouse who is the only heir keeps. *)
Definition loneSpouseShare (heirs : Heirs) : Fraction.t :=
  if husband heirs then Fraction.mk 1 2
  else if wife heirs then Fraction.mk 1 4
  else Fraction.mk 0 1.

(** Maternal brothers and maternal sisters both stand among the recipients
    of a redistribution. *)
Definition bothMaternalRecipients (heirs : Heirs) : bool :=
  isKalalahCondition heirs && (0 <? maternalBrothers heirs)
  && (0 <? maternalSisters heirs).

(** *** The final fractions of the engine *)

(** Some heir other than the spouse is present, nephews and uncles
    included. *)
Definition heirBesideSpouse (heirs : Heirs) : bool :=
  otherHeirPresent heirs || negb (noDistantAgnates heirs).

(** Redistribution runs with maternal brothers and maternal sisters both
    among its recipients: [needsRadd] answers true with the two of them
    present and neither the father nor a descendant. *)
Definition pooledAddendTwice (heirs : Heirs) : bool :=
  bothMaternalRecipients heirs
  && match needsRadd heirs with
     | Ok needed => needed
     | Throw _ => false
     end.

(** The fixed shares after the reduction: each multiplied by the ratio when
    al-Awl applied, untouched otherwise. *)
Definition reducedShares (sc : SpecialCasesResult) (shares : list Fraction.t)
  : result (list Fraction.t) :=
  match awl sc with
  | Some a =>
    if awl_applied a
    then mapM (fun s => applyAwlToShare (Some s) (awl_awlRatio a)) shares
    else ret shares
  | None => ret shares
  end.

(** The male and the female side of the residuary distribution, when
    [calculateAsaba] reports one. *)
Definition residuaryShares (ar : AsabaResult) : list Fraction.t :=
  match hasAsaba ar, distribution ar with
  | true, Some d => [maleShare d; femaleShare d]
  | _, _ => []
  end.

(** The addends of a redistribution that applied, in the order of
    [raddShares]. *)
Definition raddAddends (sc : SpecialCasesResult) : list Fraction.t :=
  match radd sc with
  | Some r => if radd_applied r then map snd (radd_raddShares r) else []
  | None => []
  end.

(** The final fractions of a composition, assembled from what the engine
    returns: the fixed shares that the ten blocks of
    [calculateFixedSharesTotal] add (a category that is absent or blocked
    adds zero), reduced when al-Awl applies; the two sides of the residuary
    distribution of [calculateAsaba]; and the addends of [applyRadd].  When
    al-Umariyyatan applies, its three shares stand for all of them. *)
Definition finalFractions (heirs : Heirs) : result (list Fraction.t) :=
  shares <- fixedShares heirs ;;
  ar <- calculateAsaba heirs ;;
  sc <- applySpecialCases heirs ;;
  if ur_applied (umariyyatan sc) then
    match ur_shares (umariyyatan sc) with
    | Some u => ret [spouseShare u; motherShare u; fatherShare u]
    | None => ret []
    end
  else
    fixed <- reducedShares sc shares ;;
    ret (fixed ++ residuaryShares ar ++ raddAddends sc)%list.

(** An entry of [calculateDescendantShares] is coherent: it counts somebody;
    it is residuary exactly when it carries no fixed share, and then no
    per-person share either; a fixed share is split evenly over the heads;
    and it is flagged blocked, with a reason, exactly when its fixed share
    is zero. *)
Definition descendantEntryOK (e : DescendantShare) : Prop :=
  ds_count e <> 0
  /\ (ds_isAsaba e = true <-> ds_share e = None)
  /\ (ds_share e = None <-> ds_perPersonShare e = None)
  /\ (forall s p,
        ds_share e = Some s -> ds_perPersonShare e = Some p ->
        Fraction.wf s /\ Fraction.wf p
        /\ (Fraction.value p * inject_Z (ds_count e)
            == Fraction.value s)%Q)
  /\ (ds_blocked e = true
      <-> exists s, ds_share e = Some s /\ Fraction.isZero s = true)
  /\ (ds_blocked e = true <-> ds_blockedReason e <> None).

End Spec.

(** * Properties *)

(** ** The result monad *)

Lemma bind_Ok {A B : Type} (m : result A) (k : A -> result B) (a : A) :
  m = Ok a -> bind m k = k a.
Proof. intros ->. reflexivity. Qed.

Lemma bind_inv {A B : Type} (m : result A) (k : A -> result B) (b : B) :
  bind m k = Ok b -> exists a, m = Ok a /\ k a = Ok b.
Proof. destruct m as [a|e]; simpl; [eauto | discriminate]. Qed.

(** ** Rational arithmetic *)

Section FractionFacts.

Import Fraction.

Lemma Fraction_gcd_loop_spec (fuel : nat) :
  forall a b, 0 <= a -> 0 <= b -> b < Z.of_nat fuel ->
  gcd_loop fuel a b = Z.gcd a b.
Proof.
  induction fuel as [|fuel IH]; intros a b Ha Hb Hfuel.
  - lia.
  - simpl gcd_loop. destruct (Z.eqb_spec b 0) as [->|Hnz].
    + rewrite Z.gcd_0_r. symmetry. apply Z.abs_eq. exact Ha.
    + assert (Hrem : Z.rem a b = a mod b) by (apply Z.rem_mod_nonneg; lia).
      pose proof (Z.mod_pos_bound a b ltac:(lia)) as Hbound.
      rewrite IH by (rewrite ?Hrem; lia).
      rewrite Hrem, (Z.gcd_comm b), Z.gcd_mod by exact Hnz.
      apply Z.gcd_comm.
Qed.

Lemma Fraction_gcd_spec (a b : Z) : gcd a b = Z.gcd a b.
Proof.
  unfold gcd. rewrite Fraction_gcd_loop_spec.
  - rewrite Z.gcd_abs_l, Z.gcd_abs_r. reflexivity.
  - apply Z.abs_nonneg.
  - apply Z.abs_nonneg.
  - rewrite Nat2Z.inj_succ, Z2Nat.id by apply Z.abs_nonneg. lia.
Qed.

Lemma Fraction_gcd_divides (a b : Z) : (gcd a b | a) /\ (gcd a b | b).
Proof.
  rewrite Fraction_gcd_spec. split; [apply Z.gcd_divide_l | apply Z.gcd_divide_r].
Qed.

Lemma Fraction_gcd_pos (a b : Z) : b <> 0 -> 0 < gcd a b.
Proof.
  intros Hb. rewrite Fraction_gcd_spec.
  pose proof (Z.gcd_nonneg a b) as Hnn.
  destruct (Z.eq_dec (Z.gcd a b) 0) as [H0|H0]; [|lia].
  apply Z.gcd_eq_0_r in H0. contradiction.
Qed.

Lemma Fraction_constructor_pos (n d : Z) : 0 < d -> constructor n d = Ok (mk n d).
Proof.
  intros Hd. unfold constructor.
  destruct (Z.eqb_spec d 0); [lia|].
  destruct (Z.ltb_spec d 0); [lia|]. reflexivity.
Qed.

Lemma Fraction_constructor_neg (n d : Z) :
  d < 0 -> constructor n d = Ok (mk (- n) (- d)).
Proof.
  intros Hd. unfold constructor.
  destruct (Z.eqb_spec d 0); [lia|].
  destruct (Z.ltb_spec d 0); [reflexivity|lia].
Qed.

Lemma Fraction_constructor_Ok (n d : Z) (f : t) :
  constructor n d = Ok f ->
  d <> 0 /\ wf f /\ den f = Z.abs d /\ num f = Z.sgn d * n.
Proof.
  unfold constructor, wf.
  destruct (Z.eqb_spec d 0); [discriminate|].
  destruct (Z.ltb_spec d 0); intros [= <-]; simpl; repeat split; lia.
Qed.

Lemma Fraction_constructor_nonzero (n d : Z) :
  d <> 0 -> constructor n d = Ok (mk (Z.sgn d * n) (Z.abs d)).
Proof.
  intros Hd. destruct (Z.lt_total d 0) as [H|[H|H]]; [|contradiction|].
  - rewrite Fraction_constructor_neg by exact H. f_equal. f_equal; lia.
  - rewrite Fraction_constructor_pos by exact H. f_equal. f_equal; lia.
Qed.

(** Dividing both components by their gcd gives lowest terms. *)
Lemma Fraction_gcd_quotients (n d : Z) :
  d <> 0 ->
  let g := Z.gcd n d in
  0 < g /\ n = g * (n / g) /\ d = g * (d / g)
  /\ Z.gcd (n / g) (d / g) = 1.
Proof.
  intros Hd g.
  assert (Hg : 0 < g).
  { pose proof (Z.gcd_nonneg n d).
    destruct (Z.eq_dec g 0) as [H0|H0]; [|subst g; lia].
    apply Z.gcd_eq_0_r in H0. contradiction. }
  destruct (Z.gcd_divide_l n d) as [qn Hqn].
  destruct (Z.gcd_divide_r n d) as [qd Hqd].
  fold g in Hqn, Hqd.
  assert (Hn : n / g = qn) by (rewrite Hqn at 1; apply Z.div_mul; lia).
  assert (Hdd : d / g = qd) by (rewrite Hqd at 1; apply Z.div_mul; lia).
  rewrite Hn, Hdd. repeat split; try lia.
  assert (Hmul : Z.gcd (g * qn) (g * qd) = g * Z.gcd qn qd).
  { rewrite Z.gcd_mul_mono_l_nonneg by lia. reflexivity. }
  rewrite (Z.mul_comm g qn), (Z.mul_comm g qd), <- Hqn, <- Hqd in Hmul.
  fold g in Hmul. nia.
Qed.

(** What [simplify] returns on any fraction whose denominator is not 0. *)
Lemma Fraction_simplify_nonzero (f : t) :
  den f <> 0 ->
  exists g, simplify f = Ok g /\ canonical g
            /\ num g * den f = num f * den g.
Proof.
  intros Hd. unfold simplify, canonical.
  destruct (Z.eqb_spec (num f) 0) as [Hn|Hn].
  - exists (mk 0 1). rewrite Hn. simpl. repeat split; lia.
  - rewrite Fraction_gcd_spec.
    destruct (Fraction_gcd_quotients (num f) (den f) Hd) as (Hg & Hqn & Hqd & Hco).
    set (g := Z.gcd (num f) (den f)) in *.
    set (qn := num f / g) in *. set (qd := den f / g) in *.
    assert (Hqd0 : qd <> 0) by nia.
    rewrite Fraction_constructor_nonzero by exact Hqd0.
    eexists; split; [reflexivity|]. simpl. repeat split.
    + lia.
    + rewrite Z.gcd_abs_r.
      destruct (Z.sgn_spec qd) as [[? ->]|[[? ->]|[? ->]]]; try lia.
      * rewrite Z.mul_1_l. exact Hco.
      * replace (-1 * qn) with (- qn) by lia.
        rewrite Z.gcd_opp_l. exact Hco.
    + clearbody qn qd g. rewrite Hqn, Hqd.
      destruct (Z.sgn_spec qd) as [[? ->]|[[? ->]|[? ->]]]; lia.
Qed.

Lemma Fraction_simplify_canonical (f : t) : canonical f -> simplify f = Ok f.
Proof.
  intros [Hd Hg]. unfold simplify.
  destruct f as [n d]; simpl in *.
  destruct (Z.eqb_spec n 0) as [->|Hn].
  - rewrite Z.gcd_0_l, Z.abs_eq in Hg by lia. subst d. reflexivity.
  - rewrite Fraction_gcd_spec, Hg, !Z.div_1_r. apply Fraction_constructor_pos. exact Hd.
Qed.

Lemma Fraction_canonical_wf (f : t) : canonical f -> wf f.
Proof. intros [H _]. exact H. Qed.

Lemma Fraction_canonical_unique (a b : t) :
  canonical a -> canonical b -> num a * den b = num b * den a -> a = b.
Proof.
  destruct a as [na da], b as [nb db]. unfold canonical. simpl.
  intros [Hda Hga] [Hdb Hgb] Hx.
  assert (Hab : (da | db)).
  { apply Z.gauss with (m := na).
    - exists nb. lia.
    - rewrite Z.gcd_comm. exact Hga. }
  assert (Hba : (db | da)).
  { apply Z.gauss with (m := nb).
    - exists na. lia.
    - rewrite Z.gcd_comm. exact Hgb. }
  assert (Hd : da = db) by (apply Z.divide_antisym_nonneg; lia || assumption).
  subst db. f_equal. nia.
Qed.

Lemma inject_Z_nonzero (d : Z) : d <> 0 -> ~ inject_Z d == 0.
Proof. intros Hd. unfold Qeq. simpl. lia. Qed.

Lemma Qdiv_cross (a b c d : Q) :
  ~ b == 0 -> ~ d == 0 -> a * d == c * b -> a / b == c / d.
Proof.
  intros Hb Hd Hx.
  setoid_replace (a / b)%Q with ((a * d) / (b * d))%Q
    by (field; split; assumption).
  rewrite Hx. field. split; assumption.
Qed.

Lemma Fraction_value_div (f : t) :
  wf f -> value f == inject_Z (num f) / inject_Z (den f).
Proof.
  intros Hf. unfold value. rewrite Qmake_Qdiv.
  rewrite Z2Pos.id by exact Hf. reflexivity.
Qed.

Lemma Fraction_value_cross (a b : t) :
  wf a -> wf b ->
  (value a == value b <-> num a * den b = num b * den a).
Proof.
  intros Ha Hb. unfold value, Qeq. simpl.
  rewrite !Z2Pos.id by assumption. reflexivity.
Qed.

Lemma Fraction_canonical_value_eq (a b : t) :
  canonical a -> canonical b -> value a == value b -> a = b.
Proof.
  intros Ha Hb Hv. apply Fraction_canonical_unique; try assumption.
  apply Fraction_value_cross; auto using Fraction_canonical_wf.
Qed.

Lemma Fraction_build_spec (n d : Z) :
  d <> 0 ->
  exists c, build n d = Ok c /\ canonical c
            /\ value c == inject_Z n / inject_Z d.
Proof.
  intros Hd. unfold build. rewrite Fraction_constructor_nonzero by exact Hd. simpl.
  destruct (Fraction_simplify_nonzero (mk (Z.sgn d * n) (Z.abs d))) as (c & Hc & Hcan & Hx);
    [simpl; lia|].
  exists c. repeat split; try assumption; try apply Hcan.
  rewrite (Fraction_value_div c) by (apply Fraction_canonical_wf; exact Hcan).
  simpl in Hx.
  assert (Hcd : den c <> 0) by (destruct Hcan; lia).
  assert (Hq : inject_Z (num c) * inject_Z d == inject_Z n * inject_Z (den c)).
  { rewrite <- !inject_Z_mult. apply inject_Z_injective.
    destruct (Z.sgn_spec d) as [[? Hs]|[[? Hs]|[? Hs]]]; rewrite Hs in Hx;
      lia. }
  apply Qdiv_cross; try apply inject_Z_nonzero; assumption.
Qed.

Lemma Fraction_simplify_spec (f : t) :
  wf f ->
  exists g, simplify f = Ok g /\ canonical g /\ value g == value f.
Proof.
  intros Hf. destruct (Fraction_simplify_nonzero f) as (g & Hg & Hcan & Hx).
  - unfold wf in Hf. lia.
  - exists g. repeat split; try assumption; try apply Hcan.
    apply Fraction_value_cross; auto using Fraction_canonical_wf.
Qed.

Lemma Fraction_add_spec (a b : t) :
  wf a -> wf b ->
  exists c, add a b = Ok c /\ canonical c /\ value c == value a + value b.
Proof.
  intros Ha Hb. unfold wf in *.
  destruct (Fraction_build_spec (num a * den b + num b * den a) (den a * den b))
    as (c & Hc & Hcan & Hv); [nia|].
  exists c. repeat split; try assumption; try apply Hcan.
  rewrite Hv, (Fraction_value_div a), (Fraction_value_div b) by assumption.
  rewrite inject_Z_plus, !inject_Z_mult.
  field. split; apply inject_Z_nonzero; lia.
Qed.

Lemma Fraction_subtract_spec (a b : t) :
  wf a -> wf b ->
  exists c, subtract a b = Ok c /\ canonical c
            /\ value c == value a - value b.
Proof.
  intros Ha Hb. unfold wf in *.
  destruct (Fraction_build_spec (num a * den b - num b * den a) (den a * den b))
    as (c & Hc & Hcan & Hv); [nia|].
  exists c. repeat split; try assumption; try apply Hcan.
  rewrite Hv, (Fraction_value_div a), (Fraction_value_div b) by assumption.
  unfold Z.sub. rewrite inject_Z_plus, inject_Z_opp, !inject_Z_mult.
  field. split; apply inject_Z_nonzero; lia.
Qed.

Lemma Fraction_multiply_spec (a b : t) :
  wf a -> wf b ->
  exists c, multiply a b = Ok c /\ canonical c
            /\ value c == value a * value b.
Proof.
  intros Ha Hb. unfold wf in *.
  destruct (Fraction_build_spec (num a * num b) (den a * den b))
    as (c & Hc & Hcan & Hv); [nia|].
  exists c. repeat split; try assumption; try apply Hcan.
  rewrite Hv, (Fraction_value_div a), (Fraction_value_div b) by assumption.
  rewrite !inject_Z_mult.
  field. split; apply inject_Z_nonzero; lia.
Qed.

Lemma Fraction_divide_spec (a b : t) :
  wf a -> wf b -> num b <> 0 ->
  exists c, divide a b = Ok c /\ canonical c
            /\ value c == value a / value b.
Proof.
  intros Ha Hb Hnb. unfold wf in *. unfold divide.
  destruct (Z.eqb_spec (num b) 0) as [?|_]; [contradiction|].
  destruct (Fraction_build_spec (num a * den b) (den a * num b))
    as (c & Hc & Hcan & Hv); [nia|].
  exists c. repeat split; try assumption; try apply Hcan.
  rewrite Hv, (Fraction_value_div a), (Fraction_value_div b) by assumption.
  rewrite !inject_Z_mult.
  field. repeat split; apply inject_Z_nonzero; lia.
Qed.

Lemma Fraction_greaterThan_spec (a b : t) :
  wf a -> wf b -> (greaterThan a b = true <-> (value b < value a)%Q).
Proof.
  intros Ha Hb. unfold greaterThan, value, Qlt. simpl.
  rewrite !Z2Pos.id by assumption. apply Z.ltb_lt.
Qed.

Lemma Fraction_lessThan_spec (a b : t) :
  wf a -> wf b -> (lessThan a b = true <-> (value a < value b)%Q).
Proof.
  intros Ha Hb. unfold lessThan, value, Qlt. simpl.
  rewrite !Z2Pos.id by assumption. apply Z.ltb_lt.
Qed.

Lemma Fraction_isZero_spec (a : t) : isZero a = true <-> value a == 0.
Proof.
  unfold isZero, value, Qeq. simpl. rewrite Z.eqb_eq. lia.
Qed.

Lemma Fraction_equals_spec (a b : t) :
  wf a -> wf b ->
  exists r, equals a b = Ok r /\ (r = true <-> value a == value b).
Proof.
  intros Ha Hb. unfold equals.
  destruct (Fraction_simplify_spec a Ha) as (a' & -> & Hca & Hva).
  destruct (Fraction_simplify_spec b Hb) as (b' & -> & Hcb & Hvb).
  simpl. eexists; split; [reflexivity|].
  rewrite andb_true_iff, !Z.eqb_eq, <- Hva, <- Hvb. split.
  - intros [Hn Hd]. destruct a', b'; simpl in *; subst. reflexivity.
  - intros Hv. apply Fraction_canonical_value_eq in Hv; try assumption.
    subst. split; reflexivity.
Qed.

End FractionFacts.

(** ** Claims about the rational type *)

(** C8. Constructing a fraction with denominator zero throws; dividing by a
    zero fraction throws an error of the same class ([Error]); and every
    fraction that the constructor returns has a positive denominator, the
    sign of the quotient being carried by the numerator. *)
Theorem C8_construction_and_division_fail_fast :
  (forall n, Fraction.constructor n 0
             = Throw (Error Fraction.msgZeroDenominator))
  /\ (forall a b, Fraction.num b = 0 ->
        Fraction.divide a b = Throw (Error Fraction.msgDivisionByZero))
  /\ (forall n d f, Fraction.constructor n d = Ok f ->
        0 < Fraction.den f
        /\ Fraction.den f = Z.abs d
        /\ Fraction.num f = Z.sgn d * n).
Proof.
  split; [|split].
  - intros n. reflexivity.
  - intros a b Hb. unfold Fraction.divide. rewrite Hb. reflexivity.
  - intros n d f H. apply Fraction_constructor_Ok in H.
    destruct H as (_ & Hwf & Hden & Hnum). auto.
Qed.

Lemma C8_witness :
  Fraction.divide (Fraction.mk 1 2) (Fraction.mk 0 5)
  = Throw (Error Fraction.msgDivisionByZero)
  /\ 0 < Fraction.den (Fraction.mk (-3) 6).
Proof.
  destruct C8_construction_and_division_fail_fast as (_ & Hdiv & Hpos).
  split.
  - apply Hdiv. reflexivity.
  - apply (Hpos 3 (-6) (Fraction.mk (-3) 6)). reflexivity.
Defined.

(** C9. Simplification is idempotent: on every fraction with a nonzero
    denominator [simplify] succeeds, simplifying its result again returns
    that same result, and the result equals the original under [equals]. *)
Theorem C9_simplify_idempotent (f : Fraction.t) :
  Fraction.den f <> 0 ->
  exists g, Fraction.simplify f = Ok g
            /\ Fraction.simplify g = Ok g
            /\ Fraction.equals g g = Ok true
            /\ Fraction.equals g f = Ok true.
Proof.
  intros Hd.
  destruct (Fraction_simplify_nonzero f Hd) as (g & Hg & Hcan & _).
  pose proof (Fraction_simplify_canonical g Hcan) as Hgg.
  exists g. unfold Fraction.equals. rewrite Hg, Hgg. simpl.
  rewrite !Z.eqb_refl. auto.
Qed.

Lemma C9_witness :
  exists g, Fraction.simplify (Fraction.mk 6 (-4)) = Ok g
            /\ Fraction.simplify g = Ok g
            /\ Fraction.equals g g = Ok true
            /\ Fraction.equals g (Fraction.mk 6 (-4)) = Ok true.
Proof.
  apply (C9_simplify_idempotent (Fraction.mk 6 (-4))). simpl. lia.
Defined.

(** ** Blocking *)

(** C5. The blocking evaluation reports the paternal grandfather blocked
    exactly when the father is present, the paternal grandmother exactly when
    the mother is present, the son's sons and the son's daughters exactly when
    there is a son, and the full brothers and the full sisters exactly when
    the father is present or there is a son or a son's son. *)
Theorem C5_blocking_correctness (heirs : Heirs) :
  let blockedIn heirType := Blocking.blocked (Blocking.checkBlocking heirType heirs) in
  (blockedIn "paternalGrandfather" = true <-> father heirs = true)
  /\ (blockedIn "paternalGrandmother" = true <-> mother heirs = true)
  /\ (blockedIn "grandsonsFromSon" = true <-> 0 < sons heirs)
  /\ (blockedIn "granddaughtersFromSon" = true <-> 0 < sons heirs)
  /\ (blockedIn "fullBrothers" = true
      <-> father heirs = true \/ 0 < sons heirs \/ 0 < grandsonsFromSon heirs)
  /\ (blockedIn "fullSisters" = true
      <-> father heirs = true \/ 0 < sons heirs \/ 0 < grandsonsFromSon heirs).
Proof.
  unfold Blocking.checkBlocking. simpl.
  destruct (father heirs), (mother heirs),
    (Z.ltb_spec 0 (sons heirs)), (Z.ltb_spec 0 (grandsonsFromSon heirs));
    simpl; repeat split; intros; try discriminate; try lia; auto;
    try (destruct H1 as [?|[?|?]]; (discriminate || lia)).
Qed.

(** Every blockable category has an entry in the map of [getAllBlockings],
    and the entry is what [checkBlocking] reports. *)
Lemma getAllBlockings_total (heirs : Heirs) (heirType : string) :
  In heirType Blocking.BlockableHeirTypes ->
  assoc heirType (Blocking.getAllBlockings heirs)
  = Some (Blocking.checkBlocking heirType heirs).
Proof.
  simpl. intros H.
  repeat (destruct H as [<-|H]; [reflexivity|]). contradiction.
Qed.

(** ** Spouses *)

(** C10. The wife-share computation never throws: a missing or zero
    [wifeCount] is replaced by 1, so the divisor is never zero, and the
    per-wife share is the total wife share divided by the effective count,
    which is at least 1 when the field is not negative. *)
Theorem C10_wife_share_defined (heirs : Heirs) :
  exists r, Shares.calculateWifeShare heirs = Ok r
    /\ Shares.ws_wifeCount r
       = match wifeCount heirs with
         | Some n => if n =? 0 then 1 else n
         | None => 1
         end
    /\ Shares.ws_wifeCount r <> 0
    /\ Fraction.value (Shares.ws_perWifeShare r)
       == Fraction.value (Shares.ws_totalShare r)
          / inject_Z (Shares.ws_wifeCount r)
    /\ (nonNegativeOpt (wifeCount heirs) = true -> 1 <= Shares.ws_wifeCount r).
Proof.
  unfold Shares.calculateWifeShare, Shares.HeirTypes.WIFE_getShare.
  set (c := orDefaultOpt (wifeCount heirs) 1).
  assert (Hc : c = match wifeCount heirs with
                   | Some n => if n =? 0 then 1 else n
                   | None => 1
                   end) by reflexivity.
  assert (Hnz : c <> 0).
  { rewrite Hc. destruct (wifeCount heirs) as [n|]; [|lia].
    destruct (Z.eqb_spec n 0); lia. }
  assert (Htotal : exists total,
            (if Shares.hasChildren heirs then Fraction.constructor 1 8
             else Fraction.constructor 1 4) = Ok total /\ Fraction.wf total).
  { destruct (Shares.hasChildren heirs); eexists; split;
      try reflexivity; unfold Fraction.wf; simpl; lia. }
  destruct Htotal as (total & -> & Hwf). cbn [bind].
  rewrite (Fraction_constructor_pos c 1) by lia. cbn [bind].
  destruct (Fraction_divide_spec total (Fraction.mk c 1)) as (p & Hp & _ & Hv);
    [exact Hwf | unfold Fraction.wf; simpl; lia | simpl; lia |].
  rewrite Hp. cbn [bind ret].
  eexists. split; [reflexivity|]. cbn [Shares.ws_wifeCount
    Shares.ws_perWifeShare Shares.ws_totalShare].
  split; [exact Hc|]. split; [exact Hnz|]. split.
  - rewrite Hv. unfold Fraction.value at 2. simpl.
    unfold Qdiv. apply Qmult_comp; [reflexivity|].
    apply Qinv_comp. unfold inject_Z, Qeq. simpl. lia.
  - rewrite Hc. destruct (wifeCount heirs) as [n|]; simpl; [|lia].
    intros Hn. apply Z.leb_le in Hn. destruct (Z.eqb_spec n 0); lia.
Qed.

Lemma C10_witness :
  exists r,
    Shares.calculateWifeShare
      (mkHeirs false true (Some 0) 0 0 0 0 false false false false false
         0 0 0 0 0 0 None None None None) = Ok r
    /\ 1 <= Shares.ws_wifeCount r.
Proof.
  destruct (C10_wife_share_defined
              (mkHeirs false true (Some 0) 0 0 0 0 false false false false
                 false 0 0 0 0 0 0 None None None None))
    as (r & Hr & _ & _ & _ & Hge).
  exists r. split; [exact Hr|]. apply Hge. reflexivity.
Defined.

(** ** al-Umariyyatan *)

(** C3. For a composition of exactly one spouse and both parents, with no
    descendants, siblings or grandparents, the exception computation gives
    the spouse 1/2 (husband) or 1/4 (wife), the mother one third of what the
    spouse leaves (less than a third of the estate), the father the rest, and
    the three shares sum to one; with a wife the shares are 1/4, 1/4, 1/2. *)
Theorem C3_umariyyatan_shares (heirs : Heirs) :
  Spec.onlySpouseAndParents heirs = true ->
  exists s,
    SpecialCases.calculateUmariyyatanShares heirs = Ok (Some s)
    /\ SpecialCases.spouseShare s
       = (if husband heirs then Fraction.mk 1 2 else Fraction.mk 1 4)
    /\ Fraction.value (SpecialCases.motherShare s)
       == (1 - Fraction.value (SpecialCases.spouseShare s)) / 3
    /\ Fraction.value (SpecialCases.fatherShare s)
       == (1 - Fraction.value (SpecialCases.spouseShare s))
          - Fraction.value (SpecialCases.motherShare s)
    /\ Fraction.value (SpecialCases.spouseShare s)
       + Fraction.value (SpecialCases.motherShare s)
       + Fraction.value (SpecialCases.fatherShare s) == 1
    /\ (Fraction.value (SpecialCases.motherShare s) < 1 # 3)%Q
    /\ (wife heirs = true ->
        SpecialCases.spouseShare s = Fraction.mk 1 4
        /\ SpecialCases.motherShare s = Fraction.mk 1 4
        /\ SpecialCases.fatherShare s = Fraction.mk 1 2)
    /\ (husband heirs = true ->
        SpecialCases.spouseShare s = Fraction.mk 1 2
        /\ SpecialCases.motherShare s = Fraction.mk 1 6
        /\ SpecialCases.fatherShare s = Fraction.mk 1 3).
Proof.
  unfold Spec.onlySpouseAndParents. intros H.
  repeat (apply andb_prop in H; destruct H as [H ?]).
  repeat match goal with
         | E : (_ =? 0) = true |- _ => apply Z.eqb_eq in E
         | E : negb _ = true |- _ => apply negb_true_iff in E
         end.
  unfold SpecialCases.calculateUmariyyatanShares,
    SpecialCases.checkUmariyyatan.
  destruct heirs as [hu wi wc so da gs gd fa mo pgf pgm mgm
                     fb fs pb ps mb ms nfb npb uf up].
  cbn [husband wife father mother sons daughters grandsonsFromSon
       granddaughtersFromSon paternalGrandfather paternalGrandmother
       maternalGrandmother fullBrothers fullSisters paternalBrothers
       paternalSisters maternalBrothers maternalSisters] in *.
  subst.
  destruct hu, wi; try discriminate;
    (eexists; split; [vm_compute; reflexivity|]); vm_compute;
    repeat split; intros; try discriminate; reflexivity.
Qed.

Lemma C3_witness :
  exists s,
    SpecialCases.calculateUmariyyatanShares
      (mkHeirs false true (Some 1) 0 0 0 0 true true false false false
         0 0 0 0 0 0 None None None None) = Ok (Some s)
    /\ SpecialCases.spouseShare s = Fraction.mk 1 4
    /\ SpecialCases.motherShare s = Fraction.mk 1 4
    /\ SpecialCases.fatherShare s = Fraction.mk 1 2.
Proof.
  destruct (C3_umariyyatan_shares
              (mkHeirs false true (Some 1) 0 0 0 0 true true false false
                 false 0 0 0 0 0 0 None None None None) eq_refl)
    as (s & Hs & _ & _ & _ & _ & _ & Hwife & _).
  exists s. split; [exact Hs|]. apply Hwife. reflexivity.
Defined.

(** ** Residuary distribution *)

Lemma Fraction_value_int (n : Z) :
  Fraction.value (Fraction.mk n 1) == inject_Z n.
Proof. reflexivity. Qed.

Lemma Fraction_wf_int (n : Z) : Fraction.wf (Fraction.mk n 1).
Proof. unfold Fraction.wf. simpl. lia. Qed.

Lemma Fraction_isZero_false (f : Fraction.t) :
  ~ Fraction.value f == 0 -> Fraction.isZero f = false.
Proof.
  intros H. destruct (Fraction.isZero f) eqn:E; [|reflexivity].
  apply Fraction_isZero_spec in E. contradiction.
Qed.

(** C6. For a positive remainder and a residuary tier: when the female
    counterpart is present the remainder is cut into [2 * males + females]
    units, a male takes two units and a female one, so the per-male share is
    exactly twice the per-female share and the male and female totals add up
    to exactly the remainder; when it is absent the males split the
    remainder evenly. *)
Theorem C6_residuary_two_to_one (remainder : Fraction.t)
    (info : Shares.AsabaInfo) :
  Fraction.wf remainder ->
  (0 < Fraction.value remainder)%Q ->
  Spec.isTier info = true ->
  let m := Shares.ai_maleCount info in
  let f := Shares.ai_femaleCount info in
  exists d,
    Shares.distributeAsaba remainder (Some info) = Ok d
    /\ (Shares.ai_hasFemales info = true ->
        Shares.totalShares d = m * 2 + f
        /\ Fraction.value (Shares.perFemaleShare d)
           == Fraction.value remainder / inject_Z (m * 2 + f)
        /\ Fraction.value (Shares.perMaleShare d)
           == 2 * Fraction.value (Shares.perFemaleShare d)
        /\ Fraction.value (Shares.maleShare d)
           == inject_Z m * Fraction.value (Shares.perMaleShare d)
        /\ Fraction.value (Shares.femaleShare d)
           == inject_Z f * Fraction.value (Shares.perFemaleShare d)
        /\ Fraction.value (Shares.maleShare d)
           + Fraction.value (Shares.femaleShare d)
           == Fraction.value remainder
        /\ exists total,
            Fraction.add (Shares.maleShare d) (Shares.femaleShare d) = Ok total
            /\ Fraction.equals total remainder = Ok true)
    /\ (Shares.ai_hasFemales info = false ->
        Shares.totalShares d = m
        /\ Shares.maleShare d = remainder
        /\ Fraction.value (Shares.perMaleShare d)
           == Fraction.value remainder / inject_Z m
        /\ Fraction.value (Shares.femaleShare d) == 0
        /\ Fraction.value (Shares.perFemaleShare d) == 0).
Proof.
  intros Hwf Hpos Htier m f. unfold Spec.isTier in Htier.
  apply andb_prop in Htier. destruct Htier as [Htier Hhas].
  apply andb_prop in Htier. destruct Htier as [Hm Hf].
  apply Z.leb_le in Hm. apply Z.leb_le in Hf. apply Bool.eqb_prop in Hhas.
  fold m in Hm. fold f in Hf.
  assert (Hnz : Fraction.isZero remainder = false).
  { apply Fraction_isZero_false. intro H0. rewrite H0 in Hpos.
    apply Qlt_irrefl in Hpos. exact Hpos. }
  unfold Shares.distributeAsaba. rewrite Hnz.
  fold m f. destruct (Shares.ai_hasFemales info) eqn:Hfem; cbn [negb].
  - (* males and females: units of two and one *)
    assert (Hfpos : 0 < f) by (symmetry in Hhas; apply Z.ltb_lt in Hhas; exact Hhas).
    rewrite (Fraction_constructor_pos (m * 2 + f) 1) by lia. cbn [bind].
    destruct (Fraction_divide_spec remainder (Fraction.mk (m * 2 + f) 1))
      as (unit & Hunit & Hcu & Hvu);
      [exact Hwf | apply Fraction_wf_int | simpl; lia |].
    rewrite Hunit. cbn [bind].
    rewrite (Fraction_constructor_pos 2 1) by lia. cbn [bind].
    pose proof (Fraction_canonical_wf _ Hcu) as Hwu.
    destruct (Fraction_multiply_spec unit (Fraction.mk 2 1))
      as (pm & Hpm & Hcpm & Hvpm); [exact Hwu | apply Fraction_wf_int |].
    rewrite Hpm. cbn [bind].
    rewrite (Fraction_constructor_pos m 1) by lia. cbn [bind].
    pose proof (Fraction_canonical_wf _ Hcpm) as Hwpm.
    destruct (Fraction_multiply_spec pm (Fraction.mk m 1))
      as (ms & Hms & Hcms & Hvms); [exact Hwpm | apply Fraction_wf_int |].
    rewrite Hms. cbn [bind].
    rewrite (Fraction_constructor_pos f 1) by lia. cbn [bind].
    destruct (Fraction_multiply_spec unit (Fraction.mk f 1))
      as (fs & Hfs & Hcfs & Hvfs); [exact Hwu | apply Fraction_wf_int |].
    rewrite Hfs. cbn [bind ret].
    eexists. split; [reflexivity|]. cbn [Shares.totalShares
      Shares.perFemaleShare Shares.perMaleShare Shares.maleShare
      Shares.femaleShare].
    rewrite Fraction_value_int in Hvu, Hvpm, Hvms, Hvfs.
    assert (Hden : ~ inject_Z (m * 2 + f) == 0)
      by (apply inject_Z_nonzero; lia).
    assert (Hsum : Fraction.value ms + Fraction.value fs
                   == Fraction.value remainder).
    { rewrite Hvms, Hvfs, Hvpm, Hvu.
      rewrite inject_Z_plus, inject_Z_mult in *.
      change (inject_Z 2) with 2%Q in *. field. exact Hden. }
    split; [|intros; discriminate]. intros _.
    split; [reflexivity|]. split; [exact Hvu|].
    split; [rewrite Hvpm; ring|].
    split; [rewrite Hvms; ring|].
    split; [rewrite Hvfs; ring|].
    split; [exact Hsum|].
    destruct (Fraction_add_spec ms fs) as (total & Htotal & Hct & Hvt);
      auto using Fraction_canonical_wf.
    exists total. split; [exact Htotal|].
    destruct (Fraction_equals_spec total remainder) as (r & Hr & Hiff);
      auto using Fraction_canonical_wf.
    rewrite Hr. f_equal. apply Hiff. rewrite Hvt. exact Hsum.
  - (* males only: an even split *)
    rewrite (Fraction_constructor_pos m 1) by lia. cbn [bind].
    destruct (Fraction_divide_spec remainder (Fraction.mk m 1))
      as (pm & Hpm & Hcpm & Hvpm);
      [exact Hwf | apply Fraction_wf_int | simpl; lia |].
    rewrite Hpm. cbn [bind]. simpl.
    eexists. split; [reflexivity|]. simpl.
    split; [intros; discriminate|]. intros _.
    rewrite Fraction_value_int in Hvpm.
    repeat split; try reflexivity. exact Hvpm.
Qed.

Lemma C6_witness :
  exists d,
    Shares.distributeAsaba (Fraction.mk 1 1)
      (Some (Shares.mkAsabaInfo Shares.HeirTypes.SON 1
               (Some Shares.HeirTypes.DAUGHTER) 1 true "sons")) = Ok d
    /\ Fraction.value (Shares.perMaleShare d)
       == 2 * Fraction.value (Shares.perFemaleShare d)
    /\ Fraction.value (Shares.maleShare d)
       + Fraction.value (Shares.femaleShare d) == 1.
Proof.
  destruct (C6_residuary_two_to_one (Fraction.mk 1 1)
              (Shares.mkAsabaInfo Shares.HeirTypes.SON 1
                 (Some Shares.HeirTypes.DAUGHTER) 1 true "sons"))
    as (d & Hd & Hfem & _).
  - unfold Fraction.wf. simpl. lia.
  - reflexivity.
  - reflexivity.
  - exists d. split; [exact Hd|].
    destruct (Hfem eq_refl) as (_ & _ & Htwo & _ & _ & Hsum & _).
    split; [exact Htwo | exact Hsum].
Defined.

(** ** Fixed shares *)

Section FixedShares.

Import Shares Shares.HeirTypes.

Lemma wf_literal (n d : Z) : 0 < d -> Fraction.wf (Fraction.mk n d).
Proof. intros H. exact H. Qed.

Lemma canonical_zero : Fraction.canonical (Fraction.mk 0 1).
Proof. split; reflexivity. Qed.

Lemma calculateWifeShare_shape (heirs : Heirs) :
  exists p,
    calculateWifeShare heirs
    = Ok (mkWifeShare
            (if hasChildren heirs then Fraction.mk 1 8 else Fraction.mk 1 4)
            p (orDefaultOpt (wifeCount heirs) 1))
    /\ Fraction.canonical p
    /\ Fraction.value p
       == Fraction.value (if hasChildren heirs then Fraction.mk 1 8
                 else Fraction.mk 1 4)
          / inject_Z (orDefaultOpt (wifeCount heirs) 1).
Proof.
  unfold calculateWifeShare, WIFE_getShare.
  set (c := orDefaultOpt (wifeCount heirs) 1).
  assert (Hnz : c <> 0).
  { subst c. unfold orDefaultOpt, orDefault.
    destruct (wifeCount heirs) as [n|]; [|lia].
    destruct (Z.eqb_spec n 0); lia. }
  set (total := if hasChildren heirs then Fraction.mk 1 8
                else Fraction.mk 1 4).
  assert (Ht : (if hasChildren heirs then Fraction.constructor 1 8
                else Fraction.constructor 1 4) = Ok total)
    by (subst total; destruct (hasChildren heirs); reflexivity).
  assert (Hwf : Fraction.wf total)
    by (subst total; destruct (hasChildren heirs); reflexivity).
  rewrite Ht. cbn [bind].
  rewrite (Fraction_constructor_pos c 1) by lia. cbn [bind].
  destruct (Fraction_divide_spec total (Fraction.mk c 1))
    as (p & Hp & Hcp & Hv); [exact Hwf | reflexivity | exact Hnz |].
  rewrite Hp. cbn [bind ret]. exists p. repeat split; try apply Hcp.
  rewrite Hv. reflexivity.
Qed.

(** What [calculateDaughterShare] answers when there are daughters. *)
Lemma calculateDaughterShare_shape (heirs : Heirs) :
  daughters heirs <> 0 ->
  exists r,
    calculateDaughterShare heirs = Ok (Some r)
    /\ ds_count r = daughters heirs
    /\ ds_blocked r = false
    /\ ds_isAsaba r = (0 <? sons heirs)
    /\ ds_share r
       = (if 0 <? sons heirs then None
          else Some (if daughters heirs =? 1 then Fraction.mk 1 2
                     else Fraction.mk 2 3)).
Proof.
  intros Hd. unfold calculateDaughterShare.
  destruct (Z.eqb_spec (daughters heirs) 0) as [?|_]; [contradiction|].
  cbn [getShare DAUGHTER].
  destruct (0 <? sons heirs).
  - cbn. eexists. split; [reflexivity|]. cbn. auto.
  - set (lit := if daughters heirs =? 1 then Fraction.mk 1 2
                else Fraction.mk 2 3).
    assert (Hl : (if daughters heirs =? 1 then some (Fraction.constructor 1 2)
                  else some (Fraction.constructor 2 3)) = Ok (Some lit))
      by (subst lit; destruct (daughters heirs =? 1); reflexivity).
    assert (Hwf : Fraction.wf lit)
      by (subst lit; destruct (daughters heirs =? 1); reflexivity).
    rewrite Hl. cbn [bind].
    rewrite (Fraction_constructor_pos (daughters heirs) 1) by lia.
    cbn [bind].
    destruct (Fraction_divide_spec lit (Fraction.mk (daughters heirs) 1))
      as (p & Hp & _ & _); [exact Hwf | reflexivity | exact Hd |].
    rewrite Hp. cbn [bind ret]. eexists. split; [reflexivity|].
    cbn. auto.
Qed.

Lemma granddaughterLiteral_getShare (heirs : Heirs) :
  (0 <? grandsonsFromSon heirs) = false ->
  getShare GRANDDAUGHTER_FROM_SON heirs
  = Ok (Some (Spec.granddaughterLiteral heirs)).
Proof.
  intros H. cbn [getShare GRANDDAUGHTER_FROM_SON]. rewrite H.
  unfold Spec.granddaughterLiteral.
  destruct (daughters heirs =? 1); [reflexivity|].
  destruct (2 <=? daughters heirs); [reflexivity|].
  destruct (granddaughtersFromSon heirs =? 1); reflexivity.
Qed.

Lemma granddaughterLiteral_wf (heirs : Heirs) :
  Fraction.wf (Spec.granddaughterLiteral heirs).
Proof.
  unfold Spec.granddaughterLiteral.
  destruct (daughters heirs =? 1); [reflexivity|].
  destruct (2 <=? daughters heirs); [reflexivity|].
  destruct (granddaughtersFromSon heirs =? 1); reflexivity.
Qed.

(** What [calculateGranddaughterShare] answers when there are son's
    daughters and no son. *)
Lemma calculateGranddaughterShare_shape (heirs : Heirs) :
  (0 <? sons heirs) = false ->
  granddaughtersFromSon heirs <> 0 ->
  exists r,
    calculateGranddaughterShare heirs = Ok (Some r)
    /\ ds_count r = granddaughtersFromSon heirs
    /\ ds_isAsaba r = (0 <? grandsonsFromSon heirs)
    /\ ds_share r
       = (if 0 <? grandsonsFromSon heirs then None
          else Some (Spec.granddaughterLiteral heirs))
    /\ ds_blocked r
       = (if 0 <? grandsonsFromSon heirs then false
          else Fraction.isZero (Spec.granddaughterLiteral heirs)).
Proof.
  intros Hs Hg. unfold calculateGranddaughterShare. rewrite Hs.
  destruct (Z.eqb_spec (granddaughtersFromSon heirs) 0) as [?|_];
    [contradiction|].
  destruct (0 <? grandsonsFromSon heirs) eqn:Hgs.
  - cbn [getShare GRANDDAUGHTER_FROM_SON]. rewrite Hgs. cbn.
    eexists. split; [reflexivity|]. cbn. auto.
  - rewrite (granddaughterLiteral_getShare heirs Hgs). cbn [bind].
    pose proof (granddaughterLiteral_wf heirs) as Hwf.
    destruct (Fraction.isZero (Spec.granddaughterLiteral heirs)) eqn:Hz.
    + cbn. eexists. split; [reflexivity|]. cbn.
      repeat split. f_equal.
      unfold Fraction.isZero in Hz. apply Z.eqb_eq in Hz.
      revert Hz. unfold Spec.granddaughterLiteral.
      destruct (daughters heirs =? 1); [discriminate|].
      destruct (2 <=? daughters heirs); [reflexivity|].
      destruct (granddaughtersFromSon heirs =? 1); discriminate.
    + rewrite (Fraction_constructor_pos (granddaughtersFromSon heirs) 1)
        by lia.
      cbn [bind].
      destruct (Fraction_divide_spec (Spec.granddaughterLiteral heirs)
                  (Fraction.mk (granddaughtersFromSon heirs) 1))
        as (p & Hp & _ & _); [exact Hwf | reflexivity | exact Hg |].
      rewrite Hp. cbn [bind ret]. eexists. split; [reflexivity|].
      cbn. auto.
Qed.

(** *** Each block of [calculateFixedSharesTotal] adds a fixed share *)

Lemma adds_literal (lit : Fraction.t) :
  Fraction.canonical lit -> (0 <= Fraction.value lit)%Q ->
  Spec.addsFixedShare (fun total => Fraction.add total lit).
Proof.
  intros Hlit Hnn total Htotal.
  destruct (Fraction_add_spec total lit) as (t' & Ht' & Hct' & Hvt');
    auto using Fraction_canonical_wf.
  destruct (Fraction_add_spec (Fraction.mk 0 1) lit) as (s & Hs & Hcs & Hvs);
    auto using Fraction_canonical_wf, canonical_zero.
  assert (Hsl : Fraction.value s == Fraction.value lit).
  { rewrite Hvs. change (Fraction.value (Fraction.mk 0 1)) with 0%Q. ring. }
  exists t', s. repeat split; try assumption; try apply Hct'; try apply Hcs.
  - rewrite Hvt', Hsl. reflexivity.
  - rewrite Hsl. exact Hnn.
Qed.

Lemma adds_nothing : Spec.addsFixedShare (fun total => ret total).
Proof.
  intros total Htotal. exists total, (Fraction.mk 0 1).
  repeat split; try apply Htotal; try reflexivity.
  - change (Fraction.value (Fraction.mk 0 1)) with 0%Q. ring.
  - discriminate.
Qed.

Ltac literal :=
  first [ apply adds_nothing
        | apply adds_literal; [split; reflexivity | discriminate] ].

Lemma addSpouseShare_adds (heirs : Heirs) :
  Spec.addsFixedShare (addSpouseShare heirs).
Proof.
  unfold addSpouseShare, calculateHusbandShare, HUSBAND_getShare.
  destruct (husband heirs).
  - destruct (hasChildren heirs); cbn [bind]; literal.
  - destruct (wife heirs); [|literal].
    destruct (calculateWifeShare_shape heirs) as (p & -> & _).
    cbn [bind ws_totalShare].
    destruct (hasChildren heirs); literal.
Qed.

Lemma addMotherShare_adds (heirs : Heirs) :
  Spec.addsFixedShare (addMotherShare heirs).
Proof.
  unfold addMotherShare, calculateMotherShare, MOTHER_getShare.
  destruct (mother heirs); [|literal].
  destruct (hasChildren heirs || hasMultipleSiblings heirs);
    cbn [bind]; literal.
Qed.

Lemma ascendant_getShare_adds (heirs : Heirs) (who : HeirType) :
  who = FATHER \/ who = PATERNAL_GRANDFATHER ->
  Spec.addsFixedShare
    (fun total =>
       r <- (fixedShare <- getShare who heirs ;;
             ret (mkAscendantAsaba who fixedShare
                    (negb (hasMaleDescendants heirs))
                    (negb (hasMaleDescendants heirs)
                     && ((0 <? daughters heirs)
                         || (0 <? granddaughtersFromSon heirs))))) ;;
       match aa_fixedShare r with
       | Some fixedShare => Fraction.add total fixedShare
       | None => ret total
       end).
Proof.
  intros [->| ->]; cbn [getShare FATHER PATERNAL_GRANDFATHER];
    destruct (hasMaleDescendants heirs); cbn; try literal;
    destruct ((0 <? daughters heirs) || (0 <? granddaughtersFromSon heirs));
    cbn; literal.
Qed.

Lemma addFatherShare_adds (heirs : Heirs) :
  Spec.addsFixedShare (addFatherShare heirs).
Proof.
  unfold addFatherShare, calculateFatherShare.
  destruct (father heirs); [|literal].
  apply (ascendant_getShare_adds heirs FATHER). auto.
Qed.

Lemma addGrandfatherShare_adds (heirs : Heirs) :
  Spec.addsFixedShare (addGrandfatherShare heirs).
Proof.
  unfold addGrandfatherShare, calculateGrandfatherShare.
  destruct (paternalGrandfather heirs && negb (father heirs)); [|literal].
  apply (ascendant_getShare_adds heirs PATERNAL_GRANDFATHER). auto.
Qed.

Lemma addGrandmothersShare_adds (heirs : Heirs) :
  Spec.addsFixedShare (addGrandmothersShare heirs).
Proof.
  unfold addGrandmothersShare, calculateGrandmotherShare.
  destruct (paternalGrandmother heirs), (maternalGrandmother heirs),
    (mother heirs); cbn; literal.
Qed.

Lemma addDaughtersShare_adds (heirs : Heirs) :
  Spec.addsFixedShare (addDaughtersShare heirs).
Proof.
  unfold addDaughtersShare.
  destruct (Z.ltb_spec 0 (daughters heirs)) as [Hd|Hd]; cbn [andb];
    [|literal].
  destruct (Z.eqb_spec (sons heirs) 0) as [Hs|Hs]; [|literal].
  destruct (calculateDaughterShare_shape heirs) as (r & -> & _ & _ & Ha & Hsh);
    [lia|].
  cbn [bind addDescendantShare]. rewrite Ha, Hsh, Hs. cbn.
  destruct (daughters heirs =? 1); literal.
Qed.

Lemma addGranddaughtersShare_adds (heirs : Heirs) :
  Spec.addsFixedShare (addGranddaughtersShare heirs).
Proof.
  unfold addGranddaughtersShare.
  destruct (Z.ltb_spec 0 (granddaughtersFromSon heirs)) as [Hd|Hd];
    cbn [andb]; [|literal].
  destruct (Z.eqb_spec (sons heirs) 0) as [Hs|Hs]; [|literal].
  destruct (calculateGranddaughterShare_shape heirs)
    as (r & -> & _ & Ha & Hsh & _); [rewrite Hs; reflexivity | lia |].
  cbn [bind addDescendantShare]. rewrite Ha, Hsh.
  destruct (0 <? grandsonsFromSon heirs); [literal|].
  unfold Spec.granddaughterLiteral.
  destruct (daughters heirs =? 1); [literal|].
  destruct (2 <=? daughters heirs); [literal|].
  destruct (granddaughtersFromSon heirs =? 1); literal.
Qed.

Lemma addFullSistersShare_adds (heirs : Heirs) :
  Spec.addsFixedShare (addFullSistersShare heirs).
Proof.
  unfold addFullSistersShare. cbn [getShare FULL_SISTER].
  destruct ((0 <? fullSisters heirs) && (fullBrothers heirs =? 0)
            && negb (father heirs) && (sons heirs =? 0)
            && (grandsonsFromSon heirs =? 0)); [|literal].
  destruct (0 <? fullBrothers heirs); cbn; [literal|].
  destruct (fullSisters heirs =? 1); cbn; literal.
Qed.

Lemma addPaternalSistersShare_adds (heirs : Heirs) :
  Spec.addsFixedShare (addPaternalSistersShare heirs).
Proof.
  unfold addPaternalSistersShare. cbn [getShare PATERNAL_SISTER].
  destruct ((0 <? paternalSisters heirs) && (paternalBrothers heirs =? 0)
            && negb (father heirs) && (sons heirs =? 0)
            && (grandsonsFromSon heirs =? 0) && (fullBrothers heirs =? 0));
    [|literal].
  destruct (0 <? paternalBrothers heirs); cbn; [literal|].
  destruct (fullSisters heirs =? 1); cbn; [literal|].
  destruct (2 <=? fullSisters heirs); cbn; [literal|].
  destruct (paternalSisters heirs =? 1); cbn; literal.
Qed.

Lemma addMaternalSiblingsShare_adds (heirs : Heirs) :
  Spec.addsFixedShare (addMaternalSiblingsShare heirs).
Proof.
  unfold addMaternalSiblingsShare.
  destruct (negb (father heirs) && negb (hasChildren heirs)); [|literal].
  cbv zeta.
  destruct (0 <? orDefault (maternalBrothers heirs) 0
                 + orDefault (maternalSisters heirs) 0); [|literal].
  destruct (orDefault (maternalBrothers heirs) 0
            + orDefault (maternalSisters heirs) 0 =? 1); cbn [bind]; literal.
Qed.

Lemma fixedShareBlocks_add (heirs : Heirs) :
  Forall (fun block => Spec.addsFixedShare (block heirs))
    Spec.fixedShareBlocks.
Proof.
  repeat constructor.
  - apply addSpouseShare_adds.
  - apply addMotherShare_adds.
  - apply addFatherShare_adds.
  - apply addGrandfatherShare_adds.
  - apply addGrandmothersShare_adds.
  - apply addDaughtersShare_adds.
  - apply addGranddaughtersShare_adds.
  - apply addFullSistersShare_adds.
  - apply addPaternalSistersShare_adds.
  - apply addMaternalSiblingsShare_adds.
Qed.

End FixedShares.

(** *** The fixed-share total is the exact sum of the fixed shares *)

Lemma calculateFixedSharesTotal_chain (heirs : Heirs) :
  Shares.calculateFixedSharesTotal heirs
  = (zero <- Fraction.constructor 0 1 ;;
     Spec.runBlocks Spec.fixedShareBlocks heirs zero).
Proof. reflexivity. Qed.

Lemma runBlocks_spec (heirs : Heirs) blocks :
  Forall (fun block => Spec.addsFixedShare (block heirs)) blocks ->
  forall total, Fraction.canonical total ->
  exists total' shares,
    Spec.runBlocks blocks heirs total = Ok total'
    /\ Fraction.canonical total'
    /\ Spec.mapM (fun block => zero <- Fraction.constructor 0 1 ;;
                               block heirs zero) blocks = Ok shares
    /\ Forall Fraction.canonical shares
    /\ Forall (fun s => 0 <= Fraction.value s)%Q shares
    /\ Fraction.value total' == Fraction.value total + Spec.sumValues shares.
Proof.
  induction 1 as [|block rest Hblock _ IH]; intros total Htotal.
  - exists total, []. cbn. repeat split; try apply Htotal; auto. ring.
  - destruct (Hblock total Htotal) as (t1 & s & Ht1 & Hct1 & Hs & Hcs & Hv & Hnn).
    destruct (IH t1 Hct1) as (t2 & shares & Ht2 & Hct2 & Hsh & Hcsh & Hnsh & Hv2).
    exists t2, (s :: shares). cbn [Spec.runBlocks Spec.mapM bind].
    rewrite Ht1. cbn [bind]. rewrite Ht2.
    change (Fraction.constructor 0 1) with (Ok (Fraction.mk 0 1)) in *.
    cbn [bind] in *. rewrite Hs. cbn [bind]. rewrite Hsh. cbn [bind ret].
    repeat split; try apply Hct2; auto.
    cbn [Spec.sumValues]. rewrite Hv2, Hv. ring.
Qed.

Lemma calculateFixedSharesTotal_spec (heirs : Heirs) :
  exists total shares,
    Shares.calculateFixedSharesTotal heirs = Ok total
    /\ Fraction.canonical total
    /\ Spec.fixedShares heirs = Ok shares
    /\ Forall Fraction.canonical shares
    /\ Forall (fun s => 0 <= Fraction.value s)%Q shares
    /\ Fraction.value total == Spec.sumValues shares.
Proof.
  destruct (runBlocks_spec heirs Spec.fixedShareBlocks
              (fixedShareBlocks_add heirs) (Fraction.mk 0 1) canonical_zero)
    as (total & shares & Ht & Hc & Hsh & Hcsh & Hnn & Hv).
  exists total, shares. rewrite calculateFixedSharesTotal_chain.
  change (Fraction.constructor 0 1) with (Ok (Fraction.mk 0 1)).
  cbn [bind]. repeat split; try apply Hc; auto.
  rewrite Hv. change (Fraction.value (Fraction.mk 0 1)) with 0%Q. ring.
Qed.

Lemma sumFrom_spec (l : list Fraction.t) :
  Forall Fraction.wf l ->
  forall acc, Fraction.canonical acc ->
  exists s, Spec.sumFrom l acc = Ok s /\ Fraction.canonical s
            /\ Fraction.value s == Fraction.value acc + Spec.sumValues l.
Proof.
  induction 1 as [|x rest Hx _ IH]; intros acc Hacc.
  - exists acc. cbn. repeat split; try apply Hacc. ring.
  - destruct (Fraction_add_spec acc x) as (a & Ha & Hca & Hva);
      auto using Fraction_canonical_wf.
    destruct (IH a Hca) as (s & Hs & Hcs & Hvs).
    exists s. cbn [Spec.sumFrom]. rewrite Ha. cbn [bind].
    repeat split; try apply Hcs; auto.
    cbn [Spec.sumValues]. rewrite Hvs, Hva. ring.
Qed.

Lemma sum_spec (l : list Fraction.t) :
  Forall Fraction.wf l ->
  exists s, Spec.sum l = Ok s /\ Fraction.canonical s
            /\ Fraction.value s == Spec.sumValues l.
Proof.
  intros Hl. destruct (sumFrom_spec l Hl _ canonical_zero) as (s & Hs & Hc & Hv).
  exists s. unfold Spec.sum.
  change (Fraction.constructor 0 1) with (Ok (Fraction.mk 0 1)).
  cbn [bind]. repeat split; try apply Hc; auto.
  rewrite Hv. change (Fraction.value (Fraction.mk 0 1)) with 0%Q. ring.
Qed.

Lemma Forall_canonical_wf (l : list Fraction.t) :
  Forall Fraction.canonical l -> Forall Fraction.wf l.
Proof.
  intros H. eapply Forall_impl; [|exact H]. apply Fraction_canonical_wf.
Qed.

Lemma canonical_one : Fraction.canonical (Fraction.mk 1 1).
Proof. split; reflexivity. Qed.

(** ** al-Awl *)

Lemma applyAwlToShare_spec (s ratio : Fraction.t) :
  Fraction.wf s -> Fraction.wf ratio ->
  exists s', SpecialCases.applyAwlToShare (Some s) ratio = Ok s'
             /\ Fraction.canonical s'
             /\ Fraction.value s' == Fraction.value s * Fraction.value ratio.
Proof.
  intros Hs Hr. unfold SpecialCases.applyAwlToShare.
  destruct (Fraction.isZero s) eqn:Hz.
  - exists (Fraction.mk 0 1). repeat split.
    apply Fraction_isZero_spec in Hz. rewrite Hz.
    change (Fraction.value (Fraction.mk 0 1)) with 0%Q. ring.
  - apply Fraction_multiply_spec; assumption.
Qed.

Lemma applyAwl_all_spec (ratio : Fraction.t) (shares : list Fraction.t) :
  Fraction.wf ratio -> Forall Fraction.wf shares ->
  exists adjusted,
    Spec.mapM (fun s => SpecialCases.applyAwlToShare (Some s) ratio) shares
    = Ok adjusted
    /\ Forall Fraction.canonical adjusted
    /\ Spec.sumValues adjusted
       == Spec.sumValues shares * Fraction.value ratio.
Proof.
  intros Hr. induction 1 as [|x rest Hx _ IH].
  - exists []. cbn. repeat split; auto; ring.
  - destruct (applyAwlToShare_spec x ratio Hx Hr) as (x' & Hx' & Hcx' & Hvx').
    destruct IH as (adj & Hadj & Hcadj & Hvadj).
    exists (x' :: adj). cbn [Spec.mapM]. rewrite Hx'. cbn [bind].
    rewrite Hadj. cbn [bind ret]. repeat split; auto.
    cbn [Spec.sumValues]. rewrite Hvx', Hvadj. ring.
Qed.

(** C4. When the fixed-share total exceeds one, the reduction ratio is
    exactly the reciprocal of the total, the fixed shares multiplied by the
    ratio sum to exactly one, and the ratio between the adjusted values of
    two nonzero shares is the ratio between their original values. *)
Theorem C4_reduction_law (heirs : Heirs) :
  SpecialCases.needsAwl heirs = Ok true ->
  exists fixedTotal ratio shares adjusted,
    Shares.calculateFixedSharesTotal heirs = Ok fixedTotal
    /\ (1 < Fraction.value fixedTotal)%Q
    /\ SpecialCases.calculateAwlRatio heirs = Ok ratio
    /\ Fraction.value ratio == 1 / Fraction.value fixedTotal
    /\ Fraction.multiply fixedTotal ratio = Ok (Fraction.mk 1 1)
    /\ Spec.fixedShares heirs = Ok shares
    /\ Spec.sum shares = Ok fixedTotal
    /\ Spec.mapM (fun s => SpecialCases.applyAwlToShare (Some s) ratio) shares
       = Ok adjusted
    /\ Spec.sum adjusted = Ok (Fraction.mk 1 1)
    /\ (forall a b, Fraction.wf a -> Fraction.wf b ->
        ~ Fraction.value a == 0 -> ~ Fraction.value b == 0 ->
        exists a' b',
          SpecialCases.applyAwlToShare (Some a) ratio = Ok a'
          /\ SpecialCases.applyAwlToShare (Some b) ratio = Ok b'
          /\ Fraction.value a' / Fraction.value b'
             == Fraction.value a / Fraction.value b).
Proof.
  intros Hneeds.
  destruct (calculateFixedSharesTotal_spec heirs)
    as (total & shares & Ht & Hct & Hsh & Hcsh & _ & Hv).
  pose proof (Fraction_canonical_wf _ Hct) as Hwt.
  unfold SpecialCases.needsAwl in Hneeds. rewrite Ht in Hneeds.
  change (Fraction.constructor 1 1) with (Ok (Fraction.mk 1 1)) in Hneeds.
  cbn [bind ret] in Hneeds. injection Hneeds as Hgt.
  assert (Hgt' : (1 < Fraction.value total)%Q).
  { apply (Fraction_greaterThan_spec total (Fraction.mk 1 1)) in Hgt;
      [exact Hgt | exact Hwt | reflexivity]. }
  assert (Hpos : ~ Fraction.value total == 0).
  { intro H0. rewrite H0 in Hgt'. discriminate. }
  assert (Hnum : Fraction.num total <> 0).
  { intro H0. apply Hpos. apply Fraction_isZero_spec.
    unfold Fraction.isZero. rewrite H0. reflexivity. }
  destruct (Fraction_divide_spec (Fraction.mk 1 1) total)
    as (ratio & Hratio & Hcr & Hvr); [reflexivity | exact Hwt | exact Hnum |].
  pose proof (Fraction_canonical_wf _ Hcr) as Hwr.
  assert (Hvr' : Fraction.value ratio == 1 / Fraction.value total).
  { rewrite Hvr. reflexivity. }
  destruct (applyAwl_all_spec ratio shares Hwr (Forall_canonical_wf _ Hcsh))
    as (adjusted & Hadj & Hcadj & Hvadj).
  exists total, ratio, shares, adjusted.
  split; [exact Ht|]. split; [exact Hgt'|]. split.
  { unfold SpecialCases.calculateAwlRatio. rewrite Ht.
    change (Fraction.constructor 1 1) with (Ok (Fraction.mk 1 1)).
    cbn [bind]. rewrite Hgt. exact Hratio. }
  split; [exact Hvr'|]. split.
  { destruct (Fraction_multiply_spec total ratio Hwt Hwr) as (p & Hp & Hcp & Hvp).
    rewrite Hp. f_equal. apply Fraction_canonical_value_eq;
      [exact Hcp | exact canonical_one |].
    rewrite Hvp, Hvr'. change (Fraction.value (Fraction.mk 1 1)) with 1%Q.
    field. exact Hpos. }
  split; [exact Hsh|]. split.
  { destruct (sum_spec shares (Forall_canonical_wf _ Hcsh)) as (s & Hs & Hcs & Hvs).
    rewrite Hs. f_equal. apply Fraction_canonical_value_eq; try assumption.
    rewrite Hvs, Hv. reflexivity. }
  split; [exact Hadj|]. split.
  { destruct (sum_spec adjusted (Forall_canonical_wf _ Hcadj))
      as (s & Hs & Hcs & Hvs).
    rewrite Hs. f_equal. apply Fraction_canonical_value_eq;
      [exact Hcs | exact canonical_one |].
    rewrite Hvs, Hvadj, <- Hv, Hvr'.
    change (Fraction.value (Fraction.mk 1 1)) with 1%Q. field. exact Hpos. }
  intros a b Ha Hb Hna Hnb.
  destruct (applyAwlToShare_spec a ratio Ha Hwr) as (a' & Ha' & _ & Hva').
  destruct (applyAwlToShare_spec b ratio Hb Hwr) as (b' & Hb' & _ & Hvb').
  exists a', b'. split; [exact Ha'|]. split; [exact Hb'|].
  rewrite Hva', Hvb', Hvr'. field. auto.
Qed.

Lemma C4_witness :
  exists fixedTotal ratio,
    Shares.calculateFixedSharesTotal
      (mkHeirs true false None 0 2 0 0 false true false false false
         0 0 0 0 0 0 None None None None) = Ok fixedTotal
    /\ SpecialCases.calculateAwlRatio
         (mkHeirs true false None 0 2 0 0 false true false false false
            0 0 0 0 0 0 None None None None) = Ok ratio
    /\ Fraction.multiply fixedTotal ratio = Ok (Fraction.mk 1 1).
Proof.
  destruct (C4_reduction_law
              (mkHeirs true false None 0 2 0 0 false true false false false
                 0 0 0 0 0 0 None None None None) eq_refl)
    as (fixedTotal & ratio & _ & _ & Ht & _ & Hr & _ & Hm & _).
  exists fixedTotal, ratio. auto.
Defined.

(** ** The residuary resolver *)

Lemma calculateRemainder_spec (heirs : Heirs) :
  exists total rem,
    Shares.calculateFixedSharesTotal heirs = Ok total
    /\ Fraction.canonical total
    /\ Shares.calculateRemainder heirs = Ok rem
    /\ Fraction.canonical rem
    /\ Fraction.value rem == 1 - Fraction.value total.
Proof.
  destruct (calculateFixedSharesTotal_spec heirs)
    as (total & shares & Ht & Hct & _).
  destruct (Fraction_subtract_spec (Fraction.mk 1 1) total)
    as (rem & Hrem & Hcr & Hvr);
    [reflexivity | apply Fraction_canonical_wf; exact Hct |].
  exists total, rem. unfold Shares.calculateRemainder. rewrite Ht.
  change (Fraction.constructor 1 1) with (Ok (Fraction.mk 1 1)).
  cbn [bind]. repeat split; try apply Hct; try apply Hcr; auto.
Qed.

Lemma find_none_iff {A : Type} (f : A -> bool) (l : list A) :
  find f l = None <-> Forall (fun x => f x = false) l.
Proof.
  induction l as [|x l IH]; cbn.
  - split; auto.
  - destruct (f x) eqn:Hx.
    + split; [discriminate|]. intros H. inversion H; subst. congruence.
    + rewrite IH. split; intros H.
      * constructor; assumption.
      * inversion H; assumption.
Qed.

(** The key the resolver returns is the first category of the priority list
    that is present and that blocking.js does not report blocked. *)
Lemma determineAsaba_first (heirs : Heirs) :
  option_map Shares.ai_key (Shares.determineAsaba heirs)
  = Spec.firstPresentUnblocked heirs.
Proof.
  destruct heirs as [hu wi wc so da gs gd fa mo pgf pgm mgm
                     fb fs pb ps mb ms nfb npb uf up].
  destruct so; try reflexivity.
  destruct gs; try reflexivity.
  destruct fa; try reflexivity.
  destruct pgf; try reflexivity.
  destruct fb; try reflexivity.
  destruct pb; try reflexivity.
  destruct nfb as [[| |]|]; try reflexivity.
  all: destruct npb as [[| |]|]; try reflexivity.
  all: destruct uf as [[| |]|]; try reflexivity.
  all: destruct up as [[| |]|]; reflexivity.
Qed.

(** C7. The resolver scans sons, son's sons, father, paternal grandfather,
    full brothers, paternal brothers, nephews, uncles in this order and
    returns the first category that is present and unblocked, and [null]
    exactly when no category is present and unblocked; the full residuary
    computation reports no residuary distribution whenever the resolver
    returns [null] or the remainder is zero or negative. *)
Theorem C7_residuary_resolver (heirs : Heirs) :
  map Shares.ap_key Shares.AsabaPriority
  = [ "sons"; "grandsonsFromSon"; "father"; "paternalGrandfather";
      "fullBrothers"; "paternalBrothers"; "nephewsFullBrothers";
      "nephewsPaternalBrothers"; "unclesFull"; "unclesPaternal" ]
  /\ option_map Shares.ai_key (Shares.determineAsaba heirs)
     = Spec.firstPresentUnblocked heirs
  /\ (Shares.determineAsaba heirs = None
      <-> Forall (fun e => Spec.isPresent heirs e && Spec.isUnblocked heirs e
                           = false) Shares.AsabaPriority)
  /\ exists rem,
       Shares.calculateRemainder heirs = Ok rem
       /\ (Shares.determineAsaba heirs = None
           \/ (Fraction.value rem <= 0)%Q ->
           Shares.calculateAsaba heirs
           = Ok (Shares.mkAsabaResult false None rem None)).
Proof.
  split; [reflexivity|]. split; [apply determineAsaba_first|]. split.
  - rewrite <- find_none_iff.
    pose proof (determineAsaba_first heirs) as H.
    unfold Spec.firstPresentUnblocked in H.
    destruct (Shares.determineAsaba heirs) as [info|];
      destruct (find _ Shares.AsabaPriority) as [e|];
      cbn in H; try discriminate; split; intros; try discriminate; auto.
  - destruct (calculateRemainder_spec heirs)
      as (total & rem & _ & _ & Hrem & Hcr & _).
    pose proof (Fraction_canonical_wf _ Hcr) as Hwr.
    exists rem. split; [exact Hrem|].
    intros Hno. unfold Shares.calculateAsaba. rewrite Hrem. cbn [bind].
    destruct (Shares.determineAsaba heirs) as [info|]; [|reflexivity].
    destruct Hno as [Hno|Hle]; [discriminate|].
    change (Fraction.constructor 0 1) with (Ok (Fraction.mk 0 1)).
    cbn [bind].
    destruct (Fraction.isZero rem) eqn:Hz;
      [rewrite orb_true_r; reflexivity|].
    assert (Hlt : Fraction.lessThan rem (Fraction.mk 0 1) = true).
    { apply Fraction_lessThan_spec; [exact Hwr | reflexivity |].
      change (Fraction.value (Fraction.mk 0 1)) with 0%Q.
      apply Qle_lt_or_eq in Hle. destruct Hle as [Hlt|Heq]; [exact Hlt|].
      apply Fraction_isZero_spec in Heq. congruence. }
    rewrite Hlt. reflexivity.
Qed.

Lemma C7_witness :
  exists rem,
    Shares.calculateRemainder
      (mkHeirs false false None 0 0 0 0 false true false false false
         0 0 0 0 0 0 None None None None) = Ok rem
    /\ Shares.calculateAsaba
         (mkHeirs false false None 0 0 0 0 false true false false false
            0 0 0 0 0 0 None None None None)
       = Ok (Shares.mkAsabaResult false None rem None).
Proof.
  destruct (C7_residuary_resolver
              (mkHeirs false false None 0 0 0 0 false true false false false
                 0 0 0 0 0 0 None None None None))
    as (_ & _ & _ & rem & Hrem & Hnone).
  exists rem. split; [exact Hrem|]. apply Hnone. left.
  vm_compute. reflexivity.
Defined.

(** ** ar-Radd *)

Lemma in_pushIf (guard : bool) (x y : string) (l : list string) :
  In x (SpecialCases.pushIf guard y l) -> x = y \/ In x l.
Proof.
  unfold SpecialCases.pushIf. destruct guard; [|auto].
  rewrite in_app_iff. cbn. intuition.
Qed.

(** The recipients of a redistribution are drawn from eight names, none of
    which is a spouse category. *)
Lemma getRaddRecipients_names (heirs : Heirs) (x : string) :
  In x (SpecialCases.getRaddRecipients heirs) ->
  In x [ "mother"; "daughters"; "granddaughtersFromSon"; "grandmothers";
         "fullSisters"; "paternalSisters"; "maternalBrothers";
         "maternalSisters" ].
Proof.
  unfold SpecialCases.getRaddRecipients. intros H.
  destruct (SpecialCases.isKalalahCondition heirs);
    repeat (apply in_pushIf in H; destruct H as [->|H]; [cbn; tauto|]);
    destruct H.
Qed.

Lemma getRaddRecipients_no_spouse (heirs : Heirs) :
  ~ In "husband" (SpecialCases.getRaddRecipients heirs)
  /\ ~ In "wife" (SpecialCases.getRaddRecipients heirs).
Proof.
  split; intros H; apply getRaddRecipients_names in H; cbn in H;
    repeat (destruct H as [H|H]; [discriminate|]); exact H.
Qed.

(** C2, at a composition of one maternal brother and one maternal sister
    (nobody else): the fixed shares total 1/3, the remainder is 2/3 and no
    residuary exists, so redistribution applies; the total of the recipients'
    base shares counts the pooled maternal share once (1/3), but each of the
    two recipients is given an addend computed from the full pooled share,
    so the addends are 2/3 and 2/3 and sum to 4/3, twice the remainder. *)
Theorem C2_radd_addends_exceed_remainder :
  let heirs :=
    mkHeirs false false None 0 0 0 0 false false false false false
      0 0 0 0 1 1 None None None None in
  validComposition heirs = true
  /\ Shares.calculateRemainder heirs = Ok (Fraction.mk 2 3)
  /\ Shares.determineAsaba heirs = None
  /\ SpecialCases.needsRadd heirs = Ok true
  /\ SpecialCases.calculateRaddRecipientsTotal heirs
       (SpecialCases.getRaddRecipients heirs) = Ok (Fraction.mk 1 3)
  /\ exists r,
       SpecialCases.applyRadd heirs = Ok r
       /\ SpecialCases.radd_applied r = true
       /\ SpecialCases.radd_recipients r
          = ["maternalBrothers"; "maternalSisters"]
       /\ SpecialCases.radd_raddShares r
          = [ ("maternalBrothers", Fraction.mk 2 3);
              ("maternalSisters", Fraction.mk 2 3) ]
       /\ Spec.sum (map snd (SpecialCases.radd_raddShares r))
          = Ok (Fraction.mk 4 3)
       /\ Fraction.equals (Fraction.mk 4 3) (SpecialCases.radd_remainder r)
          = Ok false.
Proof.
  cbv zeta.
  split; [vm_compute; reflexivity|].
  split; [vm_compute; reflexivity|].
  split; [vm_compute; reflexivity|].
  split; [vm_compute; reflexivity|].
  split; [vm_compute; reflexivity|].
  eexists. split; [vm_compute; reflexivity|].
  vm_compute. repeat split; reflexivity.
Qed.

(** ** The composite computation *)

Section Literals.

Import Shares Shares.HeirTypes.

Lemma addSpouseShare_lit (heirs : Heirs) (total : Fraction.t) :
  addSpouseShare heirs total = Spec.addLit (Spec.spouseLit heirs) total.
Proof.
  unfold addSpouseShare, Spec.spouseLit, calculateHusbandShare,
    HUSBAND_getShare.
  destruct (husband heirs).
  - destruct (hasChildren heirs); reflexivity.
  - destruct (wife heirs); [|reflexivity].
    destruct (calculateWifeShare_shape heirs) as (p & -> & _).
    reflexivity.
Qed.

Lemma addMotherShare_lit (heirs : Heirs) (total : Fraction.t) :
  addMotherShare heirs total = Spec.addLit (Spec.motherLit heirs) total.
Proof.
  unfold addMotherShare, Spec.motherLit, Spec.motherLiteral,
    calculateMotherShare, MOTHER_getShare.
  destruct (mother heirs); [|reflexivity].
  destruct (hasChildren heirs || hasMultipleSiblings heirs); reflexivity.
Qed.

Lemma getShare_ascendant (heirs : Heirs) (who : HeirType) :
  who = FATHER \/ who = PATERNAL_GRANDFATHER ->
  getShare who heirs = Ok (Spec.ascendantLit heirs).
Proof.
  unfold Spec.ascendantLit.
  intros [->| ->]; cbn [getShare FATHER PATERNAL_GRANDFATHER];
    destruct (hasMaleDescendants heirs); try reflexivity;
    destruct ((0 <? daughters heirs) || (0 <? granddaughtersFromSon heirs));
    reflexivity.
Qed.

Lemma calculateFatherShare_shape (heirs : Heirs) :
  calculateFatherShare heirs
  = Ok (mkAscendantAsaba FATHER (Spec.ascendantLit heirs)
          (negb (hasMaleDescendants heirs))
          (negb (hasMaleDescendants heirs)
           && ((0 <? daughters heirs) || (0 <? granddaughtersFromSon heirs)))).
Proof.
  unfold calculateFatherShare.
  rewrite (getShare_ascendant heirs FATHER) by auto. reflexivity.
Qed.

Lemma calculateGrandfatherShare_shape (heirs : Heirs) :
  calculateGrandfatherShare heirs
  = Ok (mkAscendantAsaba PATERNAL_GRANDFATHER (Spec.ascendantLit heirs)
          (negb (hasMaleDescendants heirs))
          (negb (hasMaleDescendants heirs)
           && ((0 <? daughters heirs) || (0 <? granddaughtersFromSon heirs)))).
Proof.
  unfold calculateGrandfatherShare.
  rewrite (getShare_ascendant heirs PATERNAL_GRANDFATHER) by auto.
  reflexivity.
Qed.

Lemma addFatherShare_lit (heirs : Heirs) (total : Fraction.t) :
  addFatherShare heirs total = Spec.addLit (Spec.fatherLit heirs) total.
Proof.
  unfold addFatherShare, Spec.fatherLit.
  destruct (father heirs); [|reflexivity].
  rewrite calculateFatherShare_shape. reflexivity.
Qed.

Lemma addGrandfatherShare_lit (heirs : Heirs) (total : Fraction.t) :
  addGrandfatherShare heirs total
  = Spec.addLit (Spec.grandfatherLit heirs) total.
Proof.
  unfold addGrandfatherShare, Spec.grandfatherLit.
  destruct (paternalGrandfather heirs && negb (father heirs)); [|reflexivity].
  rewrite calculateGrandfatherShare_shape. reflexivity.
Qed.

(** What [calculateGrandmotherShare] answers. *)
Lemma calculateGrandmotherShare_shape (heirs : Heirs) :
  (paternalGrandmother heirs || maternalGrandmother heirs)
  && negb (mother heirs) = true ->
  exists g, calculateGrandmotherShare heirs = Ok (Some g)
            /\ gm_totalShare g = Fraction.mk 1 6.
Proof.
  unfold calculateGrandmotherShare.
  destruct (paternalGrandmother heirs), (maternalGrandmother heirs),
    (mother heirs); try discriminate; intros _;
    (eexists; split; [vm_compute; reflexivity | reflexivity]).
Qed.

Lemma addGrandmothersShare_lit (heirs : Heirs) (total : Fraction.t) :
  addGrandmothersShare heirs total
  = Spec.addLit (Spec.grandmothersLit heirs) total.
Proof.
  unfold addGrandmothersShare, Spec.grandmothersLit.
  destruct ((paternalGrandmother heirs || maternalGrandmother heirs)
            && negb (mother heirs)) eqn:Hc; [|reflexivity].
  destruct (calculateGrandmotherShare_shape heirs Hc) as (g & -> & Hg).
  cbn [bind]. rewrite Hg. reflexivity.
Qed.

Lemma addDaughtersShare_lit (heirs : Heirs) (total : Fraction.t) :
  addDaughtersShare heirs total = Spec.addLit (Spec.daughtersLit heirs) total.
Proof.
  unfold addDaughtersShare, Spec.daughtersLit, Spec.daughterLiteral.
  destruct (Z.ltb_spec 0 (daughters heirs)) as [Hd|Hd]; cbn [andb];
    [|reflexivity].
  destruct (Z.eqb_spec (sons heirs) 0) as [Hs|Hs]; [|reflexivity].
  destruct (calculateDaughterShare_shape heirs) as (r & -> & _ & _ & Ha & Hsh);
    [lia|].
  cbn [bind addDescendantShare]. rewrite Ha, Hsh, Hs. reflexivity.
Qed.

Lemma addGranddaughtersShare_lit (heirs : Heirs) (total : Fraction.t) :
  addGranddaughtersShare heirs total
  = Spec.addLit (Spec.granddaughtersLit heirs) total.
Proof.
  unfold addGranddaughtersShare, Spec.granddaughtersLit.
  destruct (Z.ltb_spec 0 (granddaughtersFromSon heirs)) as [Hd|Hd];
    cbn [andb]; [|reflexivity].
  destruct (Z.eqb_spec (sons heirs) 0) as [Hs|Hs]; [|reflexivity].
  destruct (calculateGranddaughterShare_shape heirs)
    as (r & -> & _ & Ha & Hsh & _); [rewrite Hs; reflexivity | lia |].
  cbn [bind addDescendantShare]. rewrite Ha, Hsh.
  destruct (0 <? grandsonsFromSon heirs); reflexivity.
Qed.

Lemma getShare_fullSister (heirs : Heirs) :
  getShare FULL_SISTER heirs
  = Ok (if 0 <? fullBrothers heirs then None
        else Some (Spec.fullSisterLiteral heirs)).
Proof.
  cbn [getShare FULL_SISTER]. unfold Spec.fullSisterLiteral.
  destruct (0 <? fullBrothers heirs); [reflexivity|].
  destruct (fullSisters heirs =? 1); reflexivity.
Qed.

Lemma getShare_paternalSister (heirs : Heirs) :
  getShare PATERNAL_SISTER heirs
  = Ok (if 0 <? paternalBrothers heirs then None
        else Some (Spec.paternalSisterLiteral heirs)).
Proof.
  cbn [getShare PATERNAL_SISTER]. unfold Spec.paternalSisterLiteral.
  destruct (0 <? paternalBrothers heirs); [reflexivity|].
  destruct (fullSisters heirs =? 1); [reflexivity|].
  destruct (2 <=? fullSisters heirs); [reflexivity|].
  destruct (paternalSisters heirs =? 1); reflexivity.
Qed.

Lemma addFullSistersShare_lit (heirs : Heirs) (total : Fraction.t) :
  addFullSistersShare heirs total
  = Spec.addLit (Spec.fullSistersLit heirs) total.
Proof.
  unfold addFullSistersShare, Spec.fullSistersLit, Spec.fullSistersFixed.
  rewrite getShare_fullSister.
  destruct ((0 <? fullSisters heirs) && (fullBrothers heirs =? 0)
            && negb (father heirs) && (sons heirs =? 0)
            && (grandsonsFromSon heirs =? 0)); [|reflexivity].
  destruct (0 <? fullBrothers heirs); reflexivity.
Qed.

Lemma addPaternalSistersShare_lit (heirs : Heirs) (total : Fraction.t) :
  addPaternalSistersShare heirs total
  = Spec.addLit (Spec.paternalSistersLit heirs) total.
Proof.
  unfold addPaternalSistersShare, Spec.paternalSistersLit,
    Spec.paternalSistersFixed.
  rewrite getShare_paternalSister.
  destruct ((0 <? paternalSisters heirs) && (paternalBrothers heirs =? 0)
            && negb (father heirs) && (sons heirs =? 0)
            && (grandsonsFromSon heirs =? 0) && (fullBrothers heirs =? 0));
    [|reflexivity].
  destruct (0 <? paternalBrothers heirs); reflexivity.
Qed.

Lemma addMaternalSiblingsShare_lit (heirs : Heirs) (total : Fraction.t) :
  addMaternalSiblingsShare heirs total
  = Spec.addLit (Spec.maternalLit heirs) total.
Proof.
  unfold addMaternalSiblingsShare, Spec.maternalLit, Spec.maternalLiteral,
    Spec.totalMaternal.
  destruct (negb (father heirs) && negb (hasChildren heirs)); [|reflexivity].
  cbv zeta.
  destruct (0 <? orDefault (maternalBrothers heirs) 0
                 + orDefault (maternalSisters heirs) 0); [|reflexivity].
  destruct (orDefault (maternalBrothers heirs) 0
            + orDefault (maternalSisters heirs) 0 =? 1); reflexivity.
Qed.

End Literals.

Section Entries.

Import Shares Shares.HeirTypes SpecialCases Complete.

Lemma addLit_spec (lit : option Fraction.t) (total : Fraction.t) :
  Fraction.canonical total -> Spec.litOK lit ->
  exists total',
    Spec.addLit lit total = Ok total' /\ Fraction.canonical total'
    /\ Fraction.value total' == Fraction.value total + Spec.litValue lit.
Proof.
  intros Ht Hl. destruct lit as [x|]; cbn in *.
  - destruct Hl as [Hx _].
    apply Fraction_add_spec; auto using Fraction_canonical_wf.
  - exists total. split; [reflexivity|]. split; [exact Ht|]. ring.
Qed.

Ltac lit_ok :=
  repeat match goal with
         | |- context [if ?c then _ else _] => destruct c
         end;
  cbn; try exact I; (split; [split; reflexivity | discriminate]).

Lemma fixedLits_ok (heirs : Heirs) : Forall Spec.litOK (Spec.fixedLits heirs).
Proof.
  unfold Spec.fixedLits.
  repeat constructor.
  - unfold Spec.spouseLit. lit_ok.
  - unfold Spec.motherLit, Spec.motherLiteral. lit_ok.
  - unfold Spec.fatherLit, Spec.ascendantLit. lit_ok.
  - unfold Spec.grandfatherLit, Spec.ascendantLit. lit_ok.
  - unfold Spec.grandmothersLit. lit_ok.
  - unfold Spec.daughtersLit, Spec.daughterLiteral. lit_ok.
  - unfold Spec.granddaughtersLit, Spec.granddaughterLiteral. lit_ok.
  - unfold Spec.fullSistersLit, Spec.fullSisterLiteral. lit_ok.
  - unfold Spec.paternalSistersLit, Spec.paternalSisterLiteral. lit_ok.
  - unfold Spec.maternalLit, Spec.maternalLiteral. lit_ok.
Qed.

(** The fixed-share total is the sum of the ten literals. *)
Lemma calculateFixedSharesTotal_lits (heirs : Heirs) :
  exists total,
    calculateFixedSharesTotal heirs = Ok total
    /\ Fraction.canonical total
    /\ Fraction.value total == Spec.sumLits (Spec.fixedLits heirs).
Proof.
  pose proof (fixedLits_ok heirs) as Hok. unfold Spec.fixedLits in Hok.
  repeat match goal with
         | H : Forall _ (_ :: _) |- _ => inversion H; subst; clear H
         end.
  unfold calculateFixedSharesTotal.
  change (Fraction.constructor 0 1) with (Ok (Fraction.mk 0 1)). cbn [bind].
  pose proof canonical_zero as Hc.
  assert (Hv : Fraction.value (Fraction.mk 0 1) == 0) by reflexivity.
  revert Hc Hv. generalize (Fraction.mk 0 1) as t0. intros t0 Hc0 Hv0.
  rewrite addSpouseShare_lit.
  destruct (addLit_spec (Spec.spouseLit heirs) t0) as (t1 & -> & Hc1 & Hv1);
    auto. cbn [bind].
  rewrite addMotherShare_lit.
  destruct (addLit_spec (Spec.motherLit heirs) t1) as (t2 & -> & Hc2 & Hv2);
    auto. cbn [bind].
  rewrite addFatherShare_lit.
  destruct (addLit_spec (Spec.fatherLit heirs) t2) as (t3 & -> & Hc3 & Hv3);
    auto. cbn [bind].
  rewrite addGrandfatherShare_lit.
  destruct (addLit_spec (Spec.grandfatherLit heirs) t3)
    as (t4 & -> & Hc4 & Hv4); auto. cbn [bind].
  rewrite addGrandmothersShare_lit.
  destruct (addLit_spec (Spec.grandmothersLit heirs) t4)
    as (t5 & -> & Hc5 & Hv5); auto. cbn [bind].
  rewrite addDaughtersShare_lit.
  destruct (addLit_spec (Spec.daughtersLit heirs) t5)
    as (t6 & -> & Hc6 & Hv6); auto. cbn [bind].
  rewrite addGranddaughtersShare_lit.
  destruct (addLit_spec (Spec.granddaughtersLit heirs) t6)
    as (t7 & -> & Hc7 & Hv7); auto. cbn [bind].
  rewrite addFullSistersShare_lit.
  destruct (addLit_spec (Spec.fullSistersLit heirs) t7)
    as (t8 & -> & Hc8 & Hv8); auto. cbn [bind].
  rewrite addPaternalSistersShare_lit.
  destruct (addLit_spec (Spec.paternalSistersLit heirs) t8)
    as (t9 & -> & Hc9 & Hv9); auto. cbn [bind].
  rewrite addMaternalSiblingsShare_lit.
  destruct (addLit_spec (Spec.maternalLit heirs) t9)
    as (t10 & -> & Hc10 & Hv10); auto. cbn [bind ret].
  exists t10. split; [reflexivity|]. split; [exact Hc10|].
  unfold Spec.fixedLits. cbn [Spec.sumLits].
  rewrite Hv10, Hv9, Hv8, Hv7, Hv6, Hv5, Hv4, Hv3, Hv2, Hv1, Hv0. ring.
Qed.

(** *** Reading the special cases *)

Lemma withAwl_spec (sc : SpecialCasesResult) (s : Fraction.t) :
  Spec.scWf sc -> Fraction.wf s ->
  exists s', withAwl sc s = Ok s' /\ Fraction.wf s'
             /\ Fraction.value s' == Fraction.value s * Spec.awlFactor sc.
Proof.
  intros [Hawl _] Hs. unfold withAwl, Spec.awlFactor.
  destruct (awl sc) as [a|].
  - destruct (awl_applied a).
    + destruct (Fraction_multiply_spec s (awl_awlRatio a)) as (p & Hp & Hcp & Hvp);
        auto.
      exists p. auto using Fraction_canonical_wf.
    + exists s. repeat split; auto. ring.
  - exists s. repeat split; auto. ring.
Qed.

Lemma withRadd_spec (sc : SpecialCasesResult) (key : string) (s : Fraction.t) :
  Spec.scWf sc -> Fraction.wf s ->
  exists s', withRadd sc key s = Ok s' /\ Fraction.wf s'
             /\ Fraction.value s'
                == Fraction.value s + Spec.raddAddend sc key.
Proof.
  intros [_ Hradd] Hs. unfold withRadd, Spec.raddAddend.
  destruct (radd sc) as [r|]; [|exists s; repeat split; auto; ring].
  destruct (radd_applied r); [|exists s; repeat split; auto; ring].
  destruct (assoc key (radd_raddShares r)) as [x|] eqn:Hx;
    [|exists s; repeat split; auto; ring].
  destruct (Fraction_add_spec s x) as (p & Hp & Hcp & Hvp); eauto.
  exists p. auto using Fraction_canonical_wf.
Qed.

Lemma withMaternalRadd_spec (sc : SpecialCasesResult) (s : Fraction.t) :
  Spec.scWf sc -> Fraction.wf s ->
  exists s', withMaternalRadd sc s = Ok s' /\ Fraction.wf s'
             /\ Fraction.value s'
                == Fraction.value s + Spec.maternalRaddAddend sc.
Proof.
  intros [_ Hradd] Hs. unfold withMaternalRadd, Spec.maternalRaddAddend.
  destruct (radd sc) as [r|]; [|exists s; repeat split; auto; ring].
  destruct (radd_applied r); [|exists s; repeat split; auto; ring].
  destruct (assoc "maternalBrothers" (radd_raddShares r)) as [x|] eqn:Hx.
  - destruct (Fraction_add_spec s x) as (p & Hp & Hcp & Hvp); eauto.
    exists p. auto using Fraction_canonical_wf.
  - destruct (assoc "maternalSisters" (radd_raddShares r)) as [y|] eqn:Hy;
      [|exists s; repeat split; auto; ring].
    destruct (Fraction_add_spec s y) as (p & Hp & Hcp & Hvp); eauto.
    exists p. auto using Fraction_canonical_wf.
Qed.

(** *** Pushing entries *)

Lemma entriesValue_app (l1 l2 : list Entry) :
  Spec.entriesValue (l1 ++ l2)
  == Spec.entriesValue l1 + Spec.entriesValue l2.
Proof.
  induction l1 as [|e l1 IH]; cbn [app Spec.entriesValue].
  - ring.
  - rewrite IH. ring.
Qed.

Lemma push_spec (out : list Entry) (n : string) (s : Fraction.t) :
  Forall Spec.entryOK out -> Fraction.wf s ->
  Forall Spec.entryOK (push out n s)
  /\ Spec.entriesValue (push out n s)
     == Spec.entriesValue out + Fraction.value s.
Proof.
  intros Hout Hs. unfold push. split.
  - apply Forall_app. split; [exact Hout|]. repeat constructor. exact Hs.
  - rewrite entriesValue_app. cbn. ring.
Qed.

Lemma pushUnlessZero_spec (out : list Entry) (n : string) (s : Fraction.t) :
  Forall Spec.entryOK out -> Fraction.wf s ->
  Forall Spec.entryOK (pushUnlessZero out n s)
  /\ Spec.entriesValue (pushUnlessZero out n s)
     == Spec.entriesValue out + Fraction.value s.
Proof.
  intros Hout Hs. unfold pushUnlessZero.
  destruct (Fraction.isZero s) eqn:Hz; cbn [negb].
  - split; [exact Hout|]. apply Fraction_isZero_spec in Hz. rewrite Hz. ring.
  - apply push_spec; assumption.
Qed.

Lemma emits_eq (step : result (list Entry)) (out : list Entry) (q q' : Q) :
  Spec.emits step out q -> q == q' -> Spec.emits step out q'.
Proof.
  intros (out' & Hs & Hok & Hv) Hq. exists out'. rewrite <- Hq. auto.
Qed.

Lemma emits_nothing (out : list Entry) :
  Forall Spec.entryOK out -> Spec.emits (ret out) out 0.
Proof. intros H. exists out. repeat split; auto. ring. Qed.

Lemma emits_push (out : list Entry) (n : string) (s : Fraction.t) :
  Forall Spec.entryOK out -> Fraction.wf s ->
  Spec.emits (ret (push out n s)) out (Fraction.value s).
Proof.
  intros Hout Hs. destruct (push_spec out n s Hout Hs) as [Hok Hv].
  exists (push out n s). auto.
Qed.

Lemma emits_pushUnlessZero (out : list Entry) (n : string) (s : Fraction.t) :
  Forall Spec.entryOK out -> Fraction.wf s ->
  Spec.emits (ret (pushUnlessZero out n s)) out (Fraction.value s).
Proof.
  intros Hout Hs. destruct (pushUnlessZero_spec out n s Hout Hs) as [Hok Hv].
  exists (pushUnlessZero out n s). auto.
Qed.

Lemma awlFactor_not_applied (sc : SpecialCasesResult) :
  awlApplied sc = false -> Spec.awlFactor sc = 1%Q.
Proof.
  unfold awlApplied, Spec.awlFactor. destruct (awl sc) as [a|]; [|reflexivity].
  intros ->. reflexivity.
Qed.

Lemma withAwl_not_applied (sc : SpecialCasesResult) (s : Fraction.t) :
  awlApplied sc = false -> withAwl sc s = Ok s.
Proof.
  unfold awlApplied, withAwl. destruct (awl sc) as [a|]; [|reflexivity].
  intros ->. reflexivity.
Qed.

Lemma literal_wf (lit : option Fraction.t) (x : Fraction.t) :
  Spec.litOK lit -> lit = Some x -> Fraction.wf x.
Proof. intros H ->. apply Fraction_canonical_wf, H. Qed.

(** **** Spouse *)

Lemma spouseEntry_spec (heirs : Heirs) (sc : SpecialCasesResult)
    (out : list Entry) :
  Spec.scWf sc -> Forall Spec.entryOK out ->
  Spec.emits (spouseEntry heirs sc out) out
    (Spec.litValue (Spec.spouseLit heirs) * Spec.awlFactor sc).
Proof.
  intros Hsc Hout.
  unfold spouseEntry, calculateSpouseShare, Spec.spouseLit,
    calculateHusbandShare, HUSBAND_getShare.
  destruct (husband heirs).
  - set (lit := if hasChildren heirs then Fraction.mk 1 4
                else Fraction.mk 1 2).
    assert (Hl : (if hasChildren heirs then Fraction.constructor 1 4
                  else Fraction.constructor 1 2) = Ok lit)
      by (subst lit; destruct (hasChildren heirs); reflexivity).
    assert (Hw : Fraction.wf lit)
      by (subst lit; destruct (hasChildren heirs); reflexivity).
    rewrite Hl. cbn [bind ret sp_share sp_type].
    destruct (withAwl_spec sc lit Hsc Hw) as (s' & -> & Hw' & Hv').
    cbn [bind]. eapply emits_eq; [apply emits_push; assumption|].
    rewrite Hv'. reflexivity.
  - destruct (wife heirs).
    + destruct (calculateWifeShare_shape heirs) as (p & -> & _).
      cbn [bind ret sp_share sp_type ws_totalShare].
      set (lit := if hasChildren heirs then Fraction.mk 1 8
                  else Fraction.mk 1 4).
      assert (Hw : Fraction.wf lit)
        by (subst lit; destruct (hasChildren heirs); reflexivity).
      destruct (withAwl_spec sc lit Hsc Hw) as (s' & -> & Hw' & Hv').
      cbn [bind]. eapply emits_eq; [apply emits_push; assumption|].
      rewrite Hv'. reflexivity.
    + cbn [bind ret]. eapply emits_eq; [apply emits_nothing; assumption|].
      cbn. ring.
Qed.

(** **** Parents and grandparents *)

Lemma calculateAscendantShares_shape (heirs : Heirs) :
  exists g,
    calculateAscendantShares heirs
    = Ok (mkAscendantShares
            (if mother heirs
             then Some (mkMotherEntry MOTHER (Spec.motherLiteral heirs))
             else None)
            (if father heirs
             then Some (mkAscendantAsaba FATHER (Spec.ascendantLit heirs)
                          (negb (hasMaleDescendants heirs))
                          (negb (hasMaleDescendants heirs)
                           && ((0 <? daughters heirs)
                               || (0 <? granddaughtersFromSon heirs))))
             else None)
            (if paternalGrandfather heirs && negb (father heirs)
             then Some (mkAscendantAsaba PATERNAL_GRANDFATHER
                          (Spec.ascendantLit heirs)
                          (negb (hasMaleDescendants heirs))
                          (negb (hasMaleDescendants heirs)
                           && ((0 <? daughters heirs)
                               || (0 <? granddaughtersFromSon heirs))))
             else None)
            g)
    /\ match g with
       | Some g' =>
         gm_totalShare g' = Fraction.mk 1 6
         /\ (paternalGrandmother heirs || maternalGrandmother heirs)
            && negb (mother heirs) = true
       | None =>
         (paternalGrandmother heirs || maternalGrandmother heirs)
         && negb (mother heirs) = false
       end.
Proof.
  unfold calculateAscendantShares.
  assert (Hm : (if mother heirs
                then share <- calculateMotherShare heirs ;;
                     ret (Some (mkMotherEntry MOTHER share))
                else ret None)
               = Ok (if mother heirs
                     then Some (mkMotherEntry MOTHER (Spec.motherLiteral heirs))
                     else None)).
  { unfold calculateMotherShare, MOTHER_getShare, Spec.motherLiteral.
    destruct (mother heirs); [|reflexivity].
    destruct (hasChildren heirs || hasMultipleSiblings heirs); reflexivity. }
  rewrite Hm. cbn [bind].
  rewrite calculateFatherShare_shape, calculateGrandfatherShare_shape.
  destruct ((paternalGrandmother heirs || maternalGrandmother heirs)
            && negb (mother heirs)) eqn:Hc.
  - destruct (calculateGrandmotherShare_shape heirs Hc) as (g & Hg & Hgt).
    rewrite Hg. exists (Some g).
    destruct (father heirs), (paternalGrandfather heirs); cbn; auto.
  - exists None.
    destruct (father heirs), (paternalGrandfather heirs); cbn; auto.
Qed.

Lemma motherEntry_spec (heirs : Heirs) (sc : SpecialCasesResult)
    (out : list Entry) (a : AscendantShares) :
  Spec.scWf sc -> Forall Spec.entryOK out ->
  as_mother a = (if mother heirs
                 then Some (mkMotherEntry MOTHER (Spec.motherLiteral heirs))
                 else None) ->
  Spec.emits (motherEntry a sc out) out
    (Spec.litValue (Spec.motherLit heirs) * Spec.awlFactor sc
     + (if mother heirs then Spec.raddAddend sc "mother" else 0)).
Proof.
  intros Hsc Hout Ha. unfold motherEntry, Spec.motherLit. rewrite Ha.
  destruct (mother heirs).
  - cbn [me_share].
    assert (Hw : Fraction.wf (Spec.motherLiteral heirs)).
    { unfold Spec.motherLiteral.
      destruct (hasChildren heirs || hasMultipleSiblings heirs); reflexivity. }
    destruct (withAwl_spec sc _ Hsc Hw) as (s1 & -> & Hw1 & Hv1). cbn [bind].
    destruct (withRadd_spec sc "mother" s1 Hsc Hw1) as (s2 & -> & Hw2 & Hv2).
    cbn [bind]. eapply emits_eq; [apply emits_push; assumption|].
    rewrite Hv2, Hv1. reflexivity.
  - eapply emits_eq; [apply emits_nothing; assumption|]. cbn. ring.
Qed.

Lemma grandmothersEntry_spec (heirs : Heirs) (sc : SpecialCasesResult)
    (out : list Entry) (a : AscendantShares) :
  Spec.scWf sc -> Forall Spec.entryOK out ->
  match as_grandmothers a with
  | Some g' =>
    gm_totalShare g' = Fraction.mk 1 6
    /\ (paternalGrandmother heirs || maternalGrandmother heirs)
       && negb (mother heirs) = true
  | None =>
    (paternalGrandmother heirs || maternalGrandmother heirs)
    && negb (mother heirs) = false
  end ->
  Spec.emits (grandmothersEntry a sc out) out
    (Spec.litValue (Spec.grandmothersLit heirs) * Spec.awlFactor sc
     + (if (paternalGrandmother heirs || maternalGrandmother heirs)
           && negb (mother heirs)
        then Spec.raddAddend sc "grandmothers" else 0)).
Proof.
  intros Hsc Hout Ha. unfold grandmothersEntry, Spec.grandmothersLit.
  destruct (as_grandmothers a) as [g|].
  - destruct Ha as [Hg ->]. rewrite Hg.
    destruct (withAwl_spec sc (Fraction.mk 1 6) Hsc) as (s1 & -> & Hw1 & Hv1);
      [reflexivity|]. cbn [bind].
    destruct (withRadd_spec sc "grandmothers" s1 Hsc Hw1)
      as (s2 & -> & Hw2 & Hv2).
    cbn [bind]. eapply emits_eq; [apply emits_push; assumption|].
    rewrite Hv2, Hv1. reflexivity.
  - rewrite Ha. eapply emits_eq; [apply emits_nothing; assumption|].
    cbn. ring.
Qed.

Lemma ascendantLit_ok (heirs : Heirs) : Spec.litOK (Spec.ascendantLit heirs).
Proof.
  unfold Spec.ascendantLit.
  destruct (hasMaleDescendants heirs);
    [cbn; split; [split; reflexivity | discriminate]|].
  destruct ((0 <? daughters heirs) || (0 <? granddaughtersFromSon heirs));
    cbn; [split; [split; reflexivity | discriminate] | exact I].
Qed.

(** Adding the male residuary share to a final share, under a guard. *)
Lemma addMaleShare_spec (heirs : Heirs) (ar : AsabaResult) (guard : bool)
    (s : Fraction.t) :
  calculateAsaba heirs = Ok ar -> Spec.arWf ar -> Fraction.wf s ->
  exists s',
    (if guard then
       asabaResult <- calculateAsaba heirs ;;
       match hasAsaba asabaResult, distribution asabaResult with
       | true, Some d => Fraction.add s (maleShare d)
       | _, _ => ret s
       end
     else ret s) = Ok s'
    /\ Fraction.wf s'
    /\ Fraction.value s'
       == Fraction.value s + (if guard then Spec.asabaMale ar else 0).
Proof.
  intros Har Hwar Hs. destruct guard.
  - rewrite Har. cbn [bind]. unfold Spec.asabaMale.
    destruct (hasAsaba ar), (distribution ar) as [d|] eqn:Hd;
      try (exists s; split; [reflexivity|]; split; [assumption|]; ring).
    destruct (Hwar d Hd) as [Hwm _].
    destruct (Fraction_add_spec s (maleShare d)) as (p & Hp & Hcp & Hvp);
      auto.
    exists p. auto using Fraction_canonical_wf.
  - exists s. split; [reflexivity|]. split; [assumption|]. ring.
Qed.

(** The father and the paternal grandfather: the fixed part, reduced when
    al-Awl applies, plus the male residuary share when the ascendant is a
    residuary and al-Awl does not apply. *)
Lemma ascendantAsabaEntry_spec (heirs : Heirs) (sc : SpecialCasesResult)
    (out : list Entry) (ar : AsabaResult) (present : bool) (who : HeirType)
    (label : string) :
  Spec.scWf sc -> Forall Spec.entryOK out ->
  calculateAsaba heirs = Ok ar -> Spec.arWf ar ->
  Spec.emits
    (ascendantAsabaEntry heirs
       (if present
        then Some (mkAscendantAsaba who (Spec.ascendantLit heirs)
                     (negb (hasMaleDescendants heirs))
                     (negb (hasMaleDescendants heirs)
                      && ((0 <? daughters heirs)
                          || (0 <? granddaughtersFromSon heirs))))
        else None) label sc out) out
    (Spec.litValue (if present then Spec.ascendantLit heirs else None)
     * Spec.awlFactor sc
     + (if present && negb (hasMaleDescendants heirs) && negb (awlApplied sc)
        then Spec.asabaMale ar else 0)).
Proof.
  intros Hsc Hout Har Hwar. unfold ascendantAsabaEntry.
  destruct present; cbn [andb];
    [|eapply emits_eq; [apply emits_nothing; assumption| cbn; ring]].
  cbn [aa_fixedShare aa_isAsaba].
  pose proof (ascendantLit_ok heirs) as Hok.
  set (guard := negb (hasMaleDescendants heirs) && negb (awlApplied sc)).
  (* the fixed part, reduced when al-Awl applies *)
  assert (Hfixed : exists s,
            Fraction.wf s
            /\ Fraction.value s
               == Spec.litValue (Spec.ascendantLit heirs) * Spec.awlFactor sc
            /\ forall k : Fraction.t -> result (list Entry),
                 (finalShare <- orZero (Spec.ascendantLit heirs) ;;
                  finalShare <-
                    match Spec.ascendantLit heirs with
                    | Some fixedShare =>
                      if awlApplied sc then withAwl sc fixedShare
                      else ret finalShare
                    | None => ret finalShare
                    end ;;
                  k finalShare) = k s).
  { destruct (Spec.ascendantLit heirs) as [x|] eqn:Hx.
    - pose proof (literal_wf _ _ Hok eq_refl) as Hwx.
      destruct (awlApplied sc) eqn:Happ.
      + destruct (withAwl_spec sc x Hsc Hwx) as (s & Hs & Hws & Hvs).
        exists s. split; [assumption|]. split; [assumption|].
        intros k. cbn [orZero bind ret]. rewrite Hs. reflexivity.
      + exists x. rewrite (awlFactor_not_applied sc Happ).
        cbn [Spec.litValue]. split; [assumption|].
        split; [ring|]. reflexivity.
    - exists (Fraction.mk 0 1). cbn [Spec.litValue].
      change (Fraction.value (Fraction.mk 0 1)) with 0%Q.
      split; [reflexivity|]. split; [ring|]. reflexivity. }
  destruct Hfixed as (s & Hws & Hvs & Hk). rewrite Hk.
  destruct (addMaleShare_spec heirs ar guard s Har Hwar Hws)
    as (s' & Hs' & Hws' & Hvs').
  rewrite Hs'. cbn [bind].
  eapply emits_eq; [apply emits_push; assumption|].
  rewrite Hvs', Hvs. reflexivity.
Qed.

(** **** Children and son's children *)

Lemma calculateDescendantShares_shape (heirs : Heirs) :
  exists dr gr,
    calculateDescendantShares heirs
    = Ok (mkDescendantShares
            (if 0 <? sons heirs
             then Some (mkDescendantShare SON None (sons heirs) true None
                          false None)
             else None)
            dr
            (if (0 <? grandsonsFromSon heirs) && (sons heirs =? 0)
             then Some (mkDescendantShare GRANDSON_FROM_SON None
                          (grandsonsFromSon heirs) true None false None)
             else None)
            gr)
    /\ Spec.daughtersShape heirs dr
    /\ Spec.granddaughtersShape heirs gr.
Proof.
  unfold calculateDescendantShares, Spec.daughtersShape,
    Spec.granddaughtersShape.
  assert (Hd : exists dr, calculateDaughterShare heirs = Ok dr
                          /\ Spec.daughtersShape heirs dr).
  { unfold Spec.daughtersShape.
    destruct (Z.eqb_spec (daughters heirs) 0) as [H0|Hn].
    - exists None. unfold calculateDaughterShare. rewrite H0. auto.
    - destruct (calculateDaughterShare_shape heirs Hn)
        as (r & Hr & _ & _ & Ha & Hs).
      exists (Some r). split; [exact Hr|]. exists r. auto. }
  assert (Hg : exists gr, calculateGranddaughterShare heirs = Ok gr
                          /\ Spec.granddaughtersShape heirs gr).
  { unfold Spec.granddaughtersShape.
    destruct (0 <? sons heirs) eqn:Hs; cbn [orb].
    - exists None. unfold calculateGranddaughterShare. rewrite Hs. auto.
    - destruct (Z.eqb_spec (granddaughtersFromSon heirs) 0) as [H0|Hn].
      + exists None. unfold calculateGranddaughterShare. rewrite Hs, H0. auto.
      + destruct (calculateGranddaughterShare_shape heirs Hs Hn)
          as (r & Hr & _ & Ha & Hsh & Hb).
        exists (Some r). split; [exact Hr|]. exists r. auto. }
  destruct Hd as (dr & Hdr & Hdshape). destruct Hg as (gr & Hgr & Hgshape).
  exists dr, gr. rewrite Hdr, Hgr. cbn [bind ret]. auto.
Qed.

Lemma daughterLiteral_wf (heirs : Heirs) :
  Fraction.wf (Spec.daughterLiteral heirs).
Proof.
  unfold Spec.daughterLiteral. destruct (daughters heirs =? 1); reflexivity.
Qed.

Lemma daughtersEntry_spec (heirs : Heirs) (sc : SpecialCasesResult)
    (out : list Entry) (ar : AsabaResult) (ds : DescendantShares) :
  validComposition heirs = true ->
  Spec.scWf sc -> Forall Spec.entryOK out ->
  calculateAsaba heirs = Ok ar -> Spec.arWf ar ->
  Spec.daughtersShape heirs (dsc_daughters ds) ->
  Spec.emits (daughtersEntry heirs ds sc out) out
    (Spec.litValue (Spec.daughtersLit heirs) * Spec.awlFactor sc
     + (if (0 <? daughters heirs) && (sons heirs =? 0)
        then Spec.raddAddend sc "daughters" else 0)
     + (if (0 <? daughters heirs) && (0 <? sons heirs)
           && negb (awlApplied sc)
        then Spec.asabaFemale ar else 0)).
Proof.
  intros Hvalid Hsc Hout Har Hwar Hshape.
  assert (Hnn : 0 <= daughters heirs /\ 0 <= sons heirs).
  { unfold validComposition in Hvalid.
    repeat (apply andb_prop in Hvalid; destruct Hvalid as [Hvalid ?]).
    split; apply Z.leb_le; assumption. }
  destruct Hnn as [Hd0 Hs0].
  unfold daughtersEntry, Spec.daughtersShape, Spec.daughtersLit in *.
  destruct (Z.eqb_spec (daughters heirs) 0) as [Hz|Hnz].
  - rewrite Hshape, Hz. cbn [Z.ltb Z.compare andb].
    eapply emits_eq; [apply emits_nothing; assumption|]. cbn. ring.
  - destruct Hshape as (r & -> & Ha & Hsh). rewrite Ha, Hsh.
    assert (Hdpos : (0 <? daughters heirs) = true) by (apply Z.ltb_lt; lia).
    rewrite Hdpos. cbn [andb].
    destruct (Z.ltb_spec 0 (sons heirs)) as [Hsp|Hsz].
    + (* residuary with the sons *)
      assert (Hsn : (sons heirs =? 0) = false) by (apply Z.eqb_neq; lia).
      rewrite Hsn. cbn [orZero andb].
      change (Fraction.constructor 0 1) with (Ok (Fraction.mk 0 1)).
      cbn [bind Spec.litValue].
      destruct (awlApplied sc); cbn [negb bind ret].
      * eapply emits_eq;
          [apply emits_pushUnlessZero; [assumption | reflexivity]|].
        change (Fraction.value (Fraction.mk 0 1)) with 0%Q. ring.
      * rewrite Har. cbn [bind]. unfold Spec.asabaFemale.
        destruct (hasAsaba ar), (distribution ar) as [d|] eqn:Hdist;
          cbn [bind ret];
          try (eapply emits_eq;
               [apply emits_pushUnlessZero; [assumption | reflexivity]|];
               change (Fraction.value (Fraction.mk 0 1)) with 0%Q; ring).
        destruct (Hwar d Hdist) as [_ Hwf].
        eapply emits_eq; [apply emits_pushUnlessZero; assumption|]. ring.
    + (* a fixed share *)
      assert (Hsn : (sons heirs =? 0) = true) by (apply Z.eqb_eq; lia).
      rewrite Hsn. cbn [orZero bind ret andb Spec.litValue].
      pose proof (daughterLiteral_wf heirs) as Hw.
      destruct (awlApplied sc) eqn:Happ; cbn [bind ret].
      * destruct (withAwl_spec sc _ Hsc Hw) as (s1 & -> & Hw1 & Hv1).
        cbn [bind].
        destruct (withRadd_spec sc "daughters" s1 Hsc Hw1)
          as (s2 & -> & Hw2 & Hv2).
        cbn [bind].
        eapply emits_eq; [apply emits_pushUnlessZero; assumption|].
        rewrite Hv2, Hv1. ring.
      * destruct (withRadd_spec sc "daughters" _ Hsc Hw)
          as (s2 & -> & Hw2 & Hv2).
        cbn [bind].
        eapply emits_eq; [apply emits_pushUnlessZero; assumption|].
        rewrite Hv2, (awlFactor_not_applied sc Happ). ring.
Qed.

Lemma sonsEntry_spec (heirs : Heirs) (sc : SpecialCasesResult)
    (out : list Entry) (ar : AsabaResult) (ds : DescendantShares) :
  Forall Spec.entryOK out ->
  calculateAsaba heirs = Ok ar -> Spec.arWf ar ->
  dsc_sons ds = (if 0 <? sons heirs
                 then Some (mkDescendantShare SON None (sons heirs) true None
                              false None)
                 else None) ->
  Spec.emits (sonsEntry heirs ds sc out) out
    (if (0 <? sons heirs) && negb (awlApplied sc)
     then Spec.asabaMale ar else 0).
Proof.
  intros Hout Har Hwar Hds. unfold sonsEntry. rewrite Hds.
  destruct (0 <? sons heirs); cbn [andb];
    [|apply emits_nothing; assumption].
  destruct (awlApplied sc); cbn [negb]; [apply emits_nothing; assumption|].
  rewrite Har. cbn [bind]. unfold Spec.asabaMale.
  destruct (hasAsaba ar), (distribution ar) as [d|] eqn:Hdist;
    try (apply emits_nothing; assumption).
  destruct (Hwar d Hdist) as [Hwm _].
  apply emits_push; assumption.
Qed.

Lemma grandsonsEntry_spec (heirs : Heirs) (sc : SpecialCasesResult)
    (out : list Entry) (ar : AsabaResult) (ds : DescendantShares) :
  Forall Spec.entryOK out ->
  calculateAsaba heirs = Ok ar -> Spec.arWf ar ->
  dsc_grandsonsFromSon ds
  = (if (0 <? grandsonsFromSon heirs) && (sons heirs =? 0)
     then Some (mkDescendantShare GRANDSON_FROM_SON None
                  (grandsonsFromSon heirs) true None false None)
     else None) ->
  Spec.emits (grandsonsEntry heirs ds sc out) out
    (if (0 <? grandsonsFromSon heirs) && (sons heirs =? 0)
        && negb (awlApplied sc) && keyIs ar "grandsonsFromSon"
     then Spec.asabaMale ar else 0).
Proof.
  intros Hout Har Hwar Hds. unfold grandsonsEntry. rewrite Hds.
  destruct ((0 <? grandsonsFromSon heirs) && (sons heirs =? 0)); cbn [andb];
    [|apply emits_nothing; assumption].
  destruct (awlApplied sc); cbn [negb]; [apply emits_nothing; assumption|].
  rewrite Har. cbn [bind]. unfold Spec.asabaMale.
  destruct (hasAsaba ar), (distribution ar) as [d|] eqn:Hdist;
    try (destruct (keyIs ar "grandsonsFromSon");
         apply emits_nothing; assumption).
  destruct (Hwar d Hdist) as [Hwm _].
  destruct (keyIs ar "grandsonsFromSon");
    [apply emits_push; assumption | apply emits_nothing; assumption].
Qed.

Lemma granddaughtersEntry_spec (heirs : Heirs) (sc : SpecialCasesResult)
    (out : list Entry) (ar : AsabaResult) (ds : DescendantShares) :
  validComposition heirs = true ->
  Spec.scWf sc -> Forall Spec.entryOK out ->
  calculateAsaba heirs = Ok ar -> Spec.arWf ar ->
  Spec.granddaughtersShape heirs (dsc_granddaughtersFromSon ds) ->
  Spec.emits (granddaughtersEntry heirs ds sc out) out
    (Spec.litValue (Spec.granddaughtersLit heirs) * Spec.awlFactor sc
     + (if (0 <? granddaughtersFromSon heirs) && (sons heirs =? 0)
           && negb (0 <? grandsonsFromSon heirs)
           && negb (Fraction.isZero (Spec.granddaughterLiteral heirs))
        then Spec.raddAddend sc "granddaughtersFromSon" else 0)
     + (if (0 <? granddaughtersFromSon heirs) && (sons heirs =? 0)
           && (0 <? grandsonsFromSon heirs) && negb (awlApplied sc)
           && keyIs ar "grandsonsFromSon"
        then Spec.asabaFemale ar else 0)).
Proof.
  intros Hvalid Hsc Hout Har Hwar Hshape.
  assert (Hnn : 0 <= granddaughtersFromSon heirs /\ 0 <= sons heirs).
  { unfold validComposition in Hvalid.
    repeat (apply andb_prop in Hvalid; destruct Hvalid as [Hvalid ?]).
    split; apply Z.leb_le; assumption. }
  destruct Hnn as [Hg0 Hs0].
  unfold granddaughtersEntry, Spec.granddaughtersShape,
    Spec.granddaughtersLit in *.
  destruct (Z.ltb_spec 0 (sons heirs)) as [Hsp|Hsz]; cbn [orb] in Hshape.
  { rewrite Hshape.
    assert (Hsn : (sons heirs =? 0) = false) by (apply Z.eqb_neq; lia).
    rewrite Hsn, !andb_false_r. cbn [andb].
    eapply emits_eq; [apply emits_nothing; assumption|]. cbn. ring. }
  assert (Hsn : (sons heirs =? 0) = true) by (apply Z.eqb_eq; lia).
  rewrite Hsn, !andb_true_r.
  destruct (Z.eqb_spec (granddaughtersFromSon heirs) 0) as [Hz|Hnz].
  { rewrite Hshape, Hz. cbn [Z.ltb Z.compare andb].
    eapply emits_eq; [apply emits_nothing; assumption|]. cbn. ring. }
  destruct Hshape as (r & -> & Ha & Hsh & Hb). rewrite Ha, Hsh, Hb.
  assert (Hgpos : (0 <? granddaughtersFromSon heirs) = true)
    by (apply Z.ltb_lt; lia).
  rewrite Hgpos. cbn [andb].
  pose proof (granddaughterLiteral_wf heirs) as Hw.
  destruct (0 <? grandsonsFromSon heirs); cbn [negb andb orZero].
  - (* residuary with the son's sons *)
    change (Fraction.constructor 0 1) with (Ok (Fraction.mk 0 1)).
    cbn [bind Spec.litValue].
    destruct (awlApplied sc); cbn [negb andb bind ret].
    + eapply emits_eq;
        [apply emits_pushUnlessZero; [assumption | reflexivity]|].
      change (Fraction.value (Fraction.mk 0 1)) with 0%Q. ring.
    + rewrite Har. cbn [bind]. unfold Spec.asabaFemale.
      destruct (hasAsaba ar), (distribution ar) as [d|] eqn:Hdist;
        destruct (keyIs ar "grandsonsFromSon"); cbn [bind ret];
        try (eapply emits_eq;
             [apply emits_pushUnlessZero; [assumption | reflexivity]|];
             change (Fraction.value (Fraction.mk 0 1)) with 0%Q; ring).
      destruct (Hwar d Hdist) as [_ Hwf].
      eapply emits_eq; [apply emits_pushUnlessZero; assumption|]. ring.
  - (* a fixed share, possibly withheld by two daughters *)
    cbn [bind ret Spec.litValue].
    destruct (Fraction.isZero (Spec.granddaughterLiteral heirs)) eqn:Hzero;
      cbn [negb bind ret].
    + eapply emits_eq; [apply emits_pushUnlessZero; assumption|].
      apply Fraction_isZero_spec in Hzero. rewrite Hzero. ring.
    + destruct (awlApplied sc) eqn:Happ; cbn [bind ret].
      * destruct (withAwl_spec sc _ Hsc Hw) as (s1 & -> & Hw1 & Hv1).
        cbn [bind].
        destruct (withRadd_spec sc "granddaughtersFromSon" s1 Hsc Hw1)
          as (s2 & -> & Hw2 & Hv2).
        cbn [bind].
        eapply emits_eq; [apply emits_pushUnlessZero; assumption|].
        rewrite Hv2, Hv1. ring.
      * destruct (withRadd_spec sc "granddaughtersFromSon" _ Hsc Hw)
          as (s2 & -> & Hw2 & Hv2).
        cbn [bind].
        eapply emits_eq; [apply emits_pushUnlessZero; assumption|].
        rewrite Hv2, (awlFactor_not_applied sc Happ). ring.
Qed.

(** **** Brothers and sisters *)

Lemma siblingAsabaEntries_spec (heirs : Heirs) (sc : SpecialCasesResult)
    (out : list Entry) (ar : AsabaResult) :
  Forall Spec.entryOK out ->
  calculateAsaba heirs = Ok ar -> Spec.arWf ar ->
  Spec.emits (siblingAsabaEntries heirs sc out) out
    (if negb (awlApplied sc)
        && (keyIs ar "fullBrothers" || keyIs ar "paternalBrothers")
     then Spec.asabaMale ar + Spec.asabaFemale ar else 0).
Proof.
  intros Hout Har Hwar. unfold siblingAsabaEntries.
  destruct (awlApplied sc); cbn [negb andb];
    [apply emits_nothing; assumption|].
  rewrite Har. cbn [bind]. unfold Spec.asabaMale, Spec.asabaFemale.
  destruct (hasAsaba ar), (distribution ar) as [d|] eqn:Hdist;
    try (eapply emits_eq; [apply emits_nothing; assumption|];
         destruct (keyIs ar "fullBrothers" || keyIs ar "paternalBrothers");
         ring).
  destruct (Hwar d Hdist) as [Hwm Hwf].
  destruct (keyIs ar "fullBrothers"); cbn [orb].
  - destruct (pushUnlessZero_spec out
                (if fullBrothers heirs =? 1 then "Родной брат"
                 else "Родные братья") (maleShare d) Hout Hwm)
      as [Hok1 Hv1].
    destruct (pushUnlessZero_spec _
                (if fullSisters heirs =? 1 then "Родная сестра"
                 else "Родные сестры") (femaleShare d) Hok1 Hwf)
      as [Hok2 Hv2].
    eexists. split; [reflexivity|]. split; [exact Hok2|].
    rewrite Hv2, Hv1. ring.
  - destruct (keyIs ar "paternalBrothers");
      [|apply emits_nothing; assumption].
    destruct (pushUnlessZero_spec out
                (if paternalBrothers heirs =? 1 then "Единокровный брат"
                 else "Единокровные братья") (maleShare d) Hout Hwm)
      as [Hok1 Hv1].
    destruct (pushUnlessZero_spec _
                (if paternalSisters heirs =? 1 then "Единокровная сестра"
                 else "Единокровные сестры") (femaleShare d) Hok1 Hwf)
      as [Hok2 Hv2].
    eexists. split; [reflexivity|]. split; [exact Hok2|].
    rewrite Hv2, Hv1. ring.
Qed.

(** When no sister takes a fixed share beside a daughter, the composite
    computation and [calculateFixedSharesTotal] test the same thing before
    they give a sister her fixed share. *)
Lemma sisters_conditions (heirs : Heirs) :
  validComposition heirs = true ->
  Spec.sistersBesideDaughters heirs = false ->
  (0 <? fullSisters heirs) && (fullBrothers heirs =? 0)
  && negb (father heirs) && negb (hasChildren heirs)
  = Spec.fullSistersFixed heirs
  /\ (0 <? paternalSisters heirs) && (paternalBrothers heirs =? 0)
     && (fullBrothers heirs =? 0) && negb (father heirs)
     && negb (hasChildren heirs)
     = Spec.paternalSistersFixed heirs.
Proof.
  intros Hvalid Hslip.
  unfold validComposition in Hvalid.
  repeat (apply andb_prop in Hvalid; destruct Hvalid as [Hvalid ?]).
  repeat match goal with
         | H : (0 <=? _) = true |- _ => apply Z.leb_le in H
         end.
  revert Hslip.
  unfold Spec.sistersBesideDaughters, Spec.fullSistersFixed,
    Spec.paternalSistersFixed, hasChildren.
  destruct (father heirs);
    destruct (Z.ltb_spec 0 (fullSisters heirs));
    destruct (Z.eqb_spec (fullBrothers heirs) 0);
    destruct (Z.ltb_spec 0 (paternalSisters heirs));
    destruct (Z.eqb_spec (paternalBrothers heirs) 0);
    destruct (Z.ltb_spec 0 (sons heirs));
    destruct (Z.eqb_spec (sons heirs) 0);
    destruct (Z.ltb_spec 0 (grandsonsFromSon heirs));
    destruct (Z.eqb_spec (grandsonsFromSon heirs) 0);
    try lia;
    destruct (0 <? daughters heirs);
    destruct (0 <? granddaughtersFromSon heirs);
    cbn; intros; try discriminate; split; reflexivity.
Qed.

Lemma fullSisterLiteral_facts (heirs : Heirs) :
  Fraction.wf (Spec.fullSisterLiteral heirs)
  /\ Fraction.isZero (Spec.fullSisterLiteral heirs) = false.
Proof.
  unfold Spec.fullSisterLiteral.
  destruct (fullSisters heirs =? 1); split; reflexivity.
Qed.

Lemma fullSistersEntry_spec (heirs : Heirs) (sc : SpecialCasesResult)
    (out : list Entry) :
  validComposition heirs = true ->
  Spec.sistersBesideDaughters heirs = false ->
  Spec.scWf sc -> Forall Spec.entryOK out ->
  Spec.emits (fullSistersEntry heirs sc out) out
    (Spec.litValue (Spec.fullSistersLit heirs) * Spec.awlFactor sc
     + (if Spec.fullSistersFixed heirs
        then Spec.raddAddend sc "fullSisters" else 0)).
Proof.
  intros Hvalid Hslip Hsc Hout.
  destruct (sisters_conditions heirs Hvalid Hslip) as [Hcond _].
  unfold fullSistersEntry, Spec.fullSistersLit. rewrite Hcond.
  destruct (Spec.fullSistersFixed heirs) eqn:Hfixed;
    [|eapply emits_eq; [apply emits_nothing; assumption| cbn; ring]].
  rewrite getShare_fullSister. cbn [bind].
  assert (Hfb : (0 <? fullBrothers heirs) = false).
  { unfold Spec.fullSistersFixed in Hfixed.
    repeat (apply andb_prop in Hfixed; destruct Hfixed as [Hfixed ?]).
    match goal with
    | H : (fullBrothers heirs =? 0) = true |- _ =>
      apply Z.eqb_eq in H; rewrite H; reflexivity
    end. }
  rewrite Hfb.
  destruct (fullSisterLiteral_facts heirs) as [Hw Hnz]. rewrite Hnz.
  cbn [negb Spec.litValue].
  destruct (withAwl_spec sc _ Hsc Hw) as (s1 & -> & Hw1 & Hv1). cbn [bind].
  destruct (withRadd_spec sc "fullSisters" s1 Hsc Hw1)
    as (s2 & -> & Hw2 & Hv2).
  cbn [bind]. eapply emits_eq; [apply emits_push; assumption|].
  rewrite Hv2, Hv1. ring.
Qed.

Lemma paternalSisterLiteral_wf (heirs : Heirs) :
  Fraction.wf (Spec.paternalSisterLiteral heirs).
Proof.
  unfold Spec.paternalSisterLiteral.
  destruct (fullSisters heirs =? 1); [reflexivity|].
  destruct (2 <=? fullSisters heirs); [reflexivity|].
  destruct (paternalSisters heirs =? 1); reflexivity.
Qed.

Lemma paternalSistersEntry_spec (heirs : Heirs) (sc : SpecialCasesResult)
    (out : list Entry) :
  validComposition heirs = true ->
  Spec.sistersBesideDaughters heirs = false ->
  Spec.scWf sc -> Forall Spec.entryOK out ->
  Spec.emits (paternalSistersEntry heirs sc out) out
    (Spec.litValue (Spec.paternalSistersLit heirs) * Spec.awlFactor sc
     + (if Spec.paternalSistersFixed heirs
           && negb (Fraction.isZero (Spec.paternalSisterLiteral heirs))
        then Spec.raddAddend sc "paternalSisters" else 0)).
Proof.
  intros Hvalid Hslip Hsc Hout.
  destruct (sisters_conditions heirs Hvalid Hslip) as [_ Hcond].
  unfold paternalSistersEntry, Spec.paternalSistersLit. rewrite Hcond.
  destruct (Spec.paternalSistersFixed heirs) eqn:Hfixed; cbn [andb];
    [|eapply emits_eq; [apply emits_nothing; assumption| cbn; ring]].
  rewrite getShare_paternalSister. cbn [bind].
  assert (Hpb : (0 <? paternalBrothers heirs) = false).
  { unfold Spec.paternalSistersFixed in Hfixed.
    repeat (apply andb_prop in Hfixed; destruct Hfixed as [Hfixed ?]).
    match goal with
    | H : (paternalBrothers heirs =? 0) = true |- _ =>
      apply Z.eqb_eq in H; rewrite H; reflexivity
    end. }
  rewrite Hpb. cbn [Spec.litValue].
  pose proof (paternalSisterLiteral_wf heirs) as Hw.
  destruct (Fraction.isZero (Spec.paternalSisterLiteral heirs)) eqn:Hzero;
    cbn [negb].
  - eapply emits_eq; [apply emits_nothing; assumption|].
    apply Fraction_isZero_spec in Hzero. rewrite Hzero. ring.
  - destruct (withAwl_spec sc _ Hsc Hw) as (s1 & -> & Hw1 & Hv1).
    cbn [bind].
    destruct (withRadd_spec sc "paternalSisters" s1 Hsc Hw1)
      as (s2 & -> & Hw2 & Hv2).
    cbn [bind]. eapply emits_eq; [apply emits_push; assumption|].
    rewrite Hv2, Hv1. ring.
Qed.

Lemma maternalSiblingsEntry_spec (heirs : Heirs) (sc : SpecialCasesResult)
    (out : list Entry) :
  Spec.scWf sc -> Forall Spec.entryOK out ->
  Spec.emits (maternalSiblingsEntry heirs sc out) out
    (Spec.litValue (Spec.maternalLit heirs) * Spec.awlFactor sc
     + (if negb (father heirs) && negb (hasChildren heirs)
           && (0 <? Spec.totalMaternal heirs)
        then Spec.maternalRaddAddend sc else 0)).
Proof.
  intros Hsc Hout.
  unfold maternalSiblingsEntry, Spec.maternalLit, Spec.maternalLiteral.
  fold (Spec.totalMaternal heirs).
  destruct (negb (father heirs) && negb (hasChildren heirs)); cbn [andb];
    [|eapply emits_eq; [apply emits_nothing; assumption| cbn; ring]].
  cbv zeta. fold (Spec.totalMaternal heirs).
  destruct (0 <? Spec.totalMaternal heirs);
    [|eapply emits_eq; [apply emits_nothing; assumption| cbn; ring]].
  set (lit := if Spec.totalMaternal heirs =? 1 then Fraction.mk 1 6
              else Fraction.mk 1 3).
  assert (Hl : (if Spec.totalMaternal heirs =? 1 then Fraction.constructor 1 6
                else Fraction.constructor 1 3) = Ok lit)
    by (subst lit; destruct (Spec.totalMaternal heirs =? 1); reflexivity).
  assert (Hw : Fraction.wf lit)
    by (subst lit; destruct (Spec.totalMaternal heirs =? 1); reflexivity).
  rewrite Hl. cbn [bind Spec.litValue].
  destruct (withAwl_spec sc _ Hsc Hw) as (s1 & -> & Hw1 & Hv1). cbn [bind].
  destruct (withMaternalRadd_spec sc s1 Hsc Hw1) as (s2 & -> & Hw2 & Hv2).
  cbn [bind].
  eapply emits_eq; [apply emits_pushUnlessZero; assumption|].
  rewrite Hv2, Hv1. ring.
Qed.

End Entries.

Section Residuary.

Import Shares Shares.HeirTypes SpecialCases Complete.

Lemma isTier_intro (maleType : HeirType) (m : Z)
    (femaleType : option HeirType) (f : Z) (b : bool) (key : string) :
  1 <= m -> 0 <= f -> b = (0 <? f) ->
  Spec.isTier (mkAsabaInfo maleType m femaleType f b key) = true.
Proof.
  intros Hm Hf ->. unfold Spec.isTier. cbn.
  rewrite Bool.eqb_reflx, andb_true_r.
  apply andb_true_intro. split; apply Z.leb_le; assumption.
Qed.

Ltac resolve_now :=
  match goal with
  | |- context [determineAsaba ?h] =>
    let v := eval vm_compute in (determineAsaba h) in
    change (determineAsaba h) with v; cbv beta iota
  end.

Ltac tier := apply isTier_intro; [lia | lia | reflexivity].

(** For a valid composition without nephews and uncles, what the resolver
    returns and when. *)
Lemma determineAsaba_cases (heirs : Heirs) :
  validComposition heirs = true ->
  Spec.noDistantAgnates heirs = true ->
  match determineAsaba heirs with
  | Some info =>
    Spec.isTier info = true
    /\ ((ai_key info = "sons" /\ 0 < sons heirs
         /\ ai_hasFemales info = (0 <? daughters heirs))
        \/ (ai_key info = "grandsonsFromSon" /\ sons heirs = 0
            /\ 0 < grandsonsFromSon heirs
            /\ ai_hasFemales info = (0 <? granddaughtersFromSon heirs))
        \/ (ai_key info = "father" /\ sons heirs = 0
            /\ grandsonsFromSon heirs = 0 /\ father heirs = true
            /\ ai_hasFemales info = false)
        \/ (ai_key info = "paternalGrandfather" /\ sons heirs = 0
            /\ grandsonsFromSon heirs = 0 /\ father heirs = false
            /\ paternalGrandfather heirs = true
            /\ ai_hasFemales info = false)
        \/ (ai_key info = "fullBrothers" /\ sons heirs = 0
            /\ grandsonsFromSon heirs = 0 /\ father heirs = false
            /\ paternalGrandfather heirs = false /\ 0 < fullBrothers heirs
            /\ ai_hasFemales info = (0 <? fullSisters heirs))
        \/ (ai_key info = "paternalBrothers" /\ sons heirs = 0
            /\ grandsonsFromSon heirs = 0 /\ father heirs = false
            /\ paternalGrandfather heirs = false /\ fullBrothers heirs = 0
            /\ 0 < paternalBrothers heirs
            /\ ai_hasFemales info = (0 <? paternalSisters heirs)))
  | None =>
    sons heirs = 0 /\ grandsonsFromSon heirs = 0 /\ father heirs = false
    /\ paternalGrandfather heirs = false /\ fullBrothers heirs = 0
    /\ paternalBrothers heirs = 0
  end.
Proof.
  intros Hvalid Hagn.
  destruct heirs as [hu wi wc so da gs gd fa mo pgf pgm mgm
                     fb fs pb ps mb ms nfb npb uf up].
  unfold validComposition in Hvalid. unfold Spec.noDistantAgnates in Hagn.
  cbn [husband wife wifeCount sons daughters grandsonsFromSon
       granddaughtersFromSon father mother paternalGrandfather
       paternalGrandmother maternalGrandmother fullBrothers fullSisters
       paternalBrothers paternalSisters maternalBrothers maternalSisters
       nephewsFullBrothers nephewsPaternalBrothers unclesFull unclesPaternal]
    in *.
  repeat (apply andb_prop in Hvalid; destruct Hvalid as [Hvalid ?]).
  repeat (apply andb_prop in Hagn; destruct Hagn as [Hagn ?]).
  assert (Hn1 : nfb = None \/ nfb = Some 0)
    by (destruct nfb as [[| |]|]; cbn in *; auto; discriminate).
  assert (Hn2 : npb = None \/ npb = Some 0)
    by (destruct npb as [[| |]|]; cbn in *; auto; discriminate).
  assert (Hn3 : uf = None \/ uf = Some 0)
    by (destruct uf as [[| |]|]; cbn in *; auto; discriminate).
  assert (Hn4 : up = None \/ up = Some 0)
    by (destruct up as [[| |]|]; cbn in *; auto; discriminate).
  destruct so as [|p|p]; try discriminate.
  2:{ destruct da as [|q|q]; try discriminate; resolve_now;
        (split; [tier|]); left; repeat split; reflexivity || lia. }
  destruct gs as [|p|p]; try discriminate.
  2:{ destruct gd as [|q|q]; try discriminate; resolve_now;
        (split; [tier|]); right; left;
        repeat split; reflexivity || lia. }
  destruct fa.
  { resolve_now. (split; [tier|]); right; right; left; repeat split. }
  destruct pgf.
  { resolve_now. (split; [tier|]); right; right; right; left;
      repeat split. }
  destruct fb as [|p|p]; try discriminate.
  2:{ destruct fs as [|q|q]; try discriminate; resolve_now;
        (split; [tier|]); right; right; right; right; left;
        repeat split; reflexivity || lia. }
  destruct pb as [|p|p]; try discriminate.
  2:{ destruct ps as [|q|q]; try discriminate; resolve_now;
        (split; [tier|]); right; right; right; right; right;
        repeat split; reflexivity || lia. }
  destruct Hn1 as [->| ->], Hn2 as [->| ->], Hn3 as [->| ->],
    Hn4 as [->| ->]; repeat split.
Qed.

(** The values the distribution hands out on a positive remainder. *)
Lemma distributeAsaba_values (rem : Fraction.t) (info : AsabaInfo) :
  Fraction.canonical rem -> (0 < Fraction.value rem)%Q ->
  Spec.isTier info = true ->
  exists d,
    distributeAsaba rem (Some info) = Ok d
    /\ Fraction.wf (maleShare d) /\ Fraction.wf (femaleShare d)
    /\ Fraction.value (maleShare d) + Fraction.value (femaleShare d)
       == Fraction.value rem
    /\ (ai_hasFemales info = false -> Fraction.value (femaleShare d) == 0).
Proof.
  intros Hcr Hpos Htier. pose proof (Fraction_canonical_wf _ Hcr) as Hwf.
  unfold Spec.isTier in Htier.
  apply andb_prop in Htier. destruct Htier as [Htier Hhas].
  apply andb_prop in Htier. destruct Htier as [Hm Hf].
  apply Z.leb_le in Hm. apply Z.leb_le in Hf. apply Bool.eqb_prop in Hhas.
  assert (Hnz : Fraction.isZero rem = false).
  { apply Fraction_isZero_false. intro H0. rewrite H0 in Hpos.
    discriminate. }
  unfold distributeAsaba. rewrite Hnz.
  set (m := ai_maleCount info) in *. set (f := ai_femaleCount info) in *.
  destruct (ai_hasFemales info); cbn [negb].
  - assert (Hfpos : 0 < f) by (symmetry in Hhas; apply Z.ltb_lt in Hhas; lia).
    rewrite (Fraction_constructor_pos (m * 2 + f) 1) by lia. cbn [bind].
    destruct (Fraction_divide_spec rem (Fraction.mk (m * 2 + f) 1))
      as (u & -> & Hcu & Hvu);
      [exact Hwf | reflexivity | simpl; lia |].
    cbn [bind]. rewrite (Fraction_constructor_pos 2 1) by lia. cbn [bind].
    pose proof (Fraction_canonical_wf _ Hcu) as Hwu.
    destruct (Fraction_multiply_spec u (Fraction.mk 2 1))
      as (pm & -> & Hcpm & Hvpm); [exact Hwu | reflexivity |].
    cbn [bind]. rewrite (Fraction_constructor_pos m 1) by lia. cbn [bind].
    destruct (Fraction_multiply_spec pm (Fraction.mk m 1))
      as (ms & -> & Hcms & Hvms);
      [apply Fraction_canonical_wf; exact Hcpm | reflexivity |].
    cbn [bind]. rewrite (Fraction_constructor_pos f 1) by lia. cbn [bind].
    destruct (Fraction_multiply_spec u (Fraction.mk f 1))
      as (fs & -> & Hcfs & Hvfs); [exact Hwu | reflexivity |].
    cbn [bind ret]. eexists. split; [reflexivity|].
    cbn [maleShare femaleShare].
    split; [apply Fraction_canonical_wf; exact Hcms|].
    split; [apply Fraction_canonical_wf; exact Hcfs|].
    split; [|intros; discriminate].
    assert (Hden : ~ inject_Z (m * 2 + f) == 0)
      by (apply inject_Z_nonzero; lia).
    rewrite Hvms, Hvfs, Hvpm, Hvu, !Fraction_value_int.
    rewrite inject_Z_plus, inject_Z_mult in *.
    change (inject_Z 2) with 2%Q in *. field. exact Hden.
  - rewrite (Fraction_constructor_pos m 1) by lia. cbn [bind].
    destruct (Fraction_divide_spec rem (Fraction.mk m 1))
      as (pm & -> & _ & _); [exact Hwf | reflexivity | simpl; lia |].
    cbn [bind ret]. eexists. split; [vm_compute; reflexivity|].
    cbn [maleShare femaleShare].
    split; [exact Hwf|]. split; [reflexivity|].
    change (Fraction.value (Fraction.mk 0 1)) with 0%Q.
    split; [ring | reflexivity].
Qed.

End Residuary.

Section Redistribution.

Import Shares Shares.HeirTypes SpecialCases Complete.

Ltac literal_ok :=
  repeat match goal with
         | |- context [if ?c then _ else _] => destruct c
         end;
  eexists; (split; [reflexivity|]); (split; [split; reflexivity|]);
  discriminate.

Lemma getRecipientRaddShare_ok (r : string) (heirs : Heirs)
    (recipients : list string) :
  exists b, getRecipientRaddShare r heirs recipients = Ok b
            /\ Fraction.canonical b /\ (0 <= Fraction.value b)%Q.
Proof.
  unfold getRecipientRaddShare, calculateMotherShare, MOTHER_getShare,
    calculateDaughtersRaddShare, calculateGranddaughtersRaddShare,
    calculateFullSistersRaddShare, calculatePaternalSistersRaddShare,
    calculateMaternalSiblingsRaddShare.
  destruct (String.eqb r "mother"); [literal_ok|].
  destruct (String.eqb r "daughters"); [literal_ok|].
  destruct (String.eqb r "granddaughtersFromSon"); [literal_ok|].
  destruct (String.eqb r "grandmothers"); [literal_ok|].
  destruct (String.eqb r "fullSisters"); [literal_ok|].
  destruct (String.eqb r "paternalSisters"); [literal_ok|].
  destruct (String.eqb r "maternalBrothers" || String.eqb r "maternalSisters");
    [|literal_ok].
  destruct (shouldAddMaternalSiblingsShare r recipients); literal_ok.
Qed.

Lemma baseShare_spec (r : string) (heirs : Heirs) (recipients : list string) :
  exists b, getRecipientRaddShare r heirs recipients = Ok b
            /\ Fraction.canonical b
            /\ Fraction.value b = Spec.baseShare heirs recipients r
            /\ (0 <= Spec.baseShare heirs recipients r)%Q.
Proof.
  destruct (getRecipientRaddShare_ok r heirs recipients) as (b & Hb & Hc & Hn).
  exists b. unfold Spec.baseShare. rewrite Hb. auto.
Qed.

Lemma raddRecipientsTotal_loop_spec (heirs : Heirs) (recipients : list string)
    (pending : list string) :
  forall total, Fraction.canonical total ->
  exists t,
    raddRecipientsTotal_loop heirs recipients pending total = Ok t
    /\ Fraction.canonical t
    /\ Fraction.value t
       == Fraction.value total
          + Spec.sumOver (Spec.baseShare heirs recipients) pending.
Proof.
  induction pending as [|r rest IH]; intros total Ht.
  - exists total. cbn. split; [reflexivity|]. split; [exact Ht|]. ring.
  - destruct (baseShare_spec r heirs recipients) as (b & Hb & Hcb & Hvb & _).
    destruct (Fraction_add_spec total b) as (t1 & Ht1 & Hc1 & Hv1);
      auto using Fraction_canonical_wf.
    destruct (IH t1 Hc1) as (t & Hloop & Hc & Hv).
    exists t. cbn [raddRecipientsTotal_loop]. rewrite Hb. cbn [bind].
    rewrite Ht1. cbn [bind]. split; [exact Hloop|]. split; [exact Hc|].
    cbn [Spec.sumOver]. rewrite Hv, Hv1, Hvb. ring.
Qed.

Lemma calculateRaddRecipientsTotal_spec (heirs : Heirs)
    (recipients : list string) :
  exists t,
    calculateRaddRecipientsTotal heirs recipients = Ok t
    /\ Fraction.canonical t
    /\ Fraction.value t
       == Spec.sumOver (Spec.baseShare heirs recipients) recipients.
Proof.
  destruct (raddRecipientsTotal_loop_spec heirs recipients recipients
              (Fraction.mk 0 1) canonical_zero) as (t & Ht & Hc & Hv).
  exists t. unfold calculateRaddRecipientsTotal.
  change (Fraction.constructor 0 1) with (Ok (Fraction.mk 0 1)).
  cbn [bind]. split; [exact Ht|]. split; [exact Hc|].
  rewrite Hv. change (Fraction.value (Fraction.mk 0 1)) with 0%Q. ring.
Qed.

Lemma calculateRaddShareForRecipient_spec (r : string) (heirs : Heirs)
    (rem total : Fraction.t) :
  Fraction.wf rem -> Fraction.wf total -> ~ Fraction.value total == 0 ->
  exists x,
    calculateRaddShareForRecipient r heirs rem total = Ok x
    /\ Fraction.canonical x
    /\ Fraction.value x
       == Fraction.value rem
          * (Spec.baseShare heirs [r] r / Fraction.value total).
Proof.
  intros Hrem Htotal Hnz.
  destruct (baseShare_spec r heirs [r]) as (b & Hb & Hcb & Hvb & _).
  assert (Hnum : Fraction.num total <> 0).
  { intro H0. apply Hnz. apply Fraction_isZero_spec.
    unfold Fraction.isZero. rewrite H0. reflexivity. }
  destruct (Fraction_divide_spec b total) as (p & Hp & Hcp & Hvp);
    auto using Fraction_canonical_wf.
  destruct (Fraction_multiply_spec rem p) as (x & Hx & Hcx & Hvx);
    auto using Fraction_canonical_wf.
  exists x. unfold calculateRaddShareForRecipient. rewrite Hb. cbn [bind].
  rewrite Hp. cbn [bind]. split; [exact Hx|]. split; [exact Hcx|].
  rewrite Hvx, Hvp, Hvb. reflexivity.
Qed.

Lemma assoc_setProperty_same {A : Type} (key : string) (v : A)
    (obj : list (string * A)) :
  assoc key (setProperty key v obj) = Some v.
Proof.
  induction obj as [|[k w] rest IH]; cbn.
  - rewrite String.eqb_refl. reflexivity.
  - destruct (String.eqb key k) eqn:Hk; cbn; rewrite Hk; auto.
Qed.

Lemma assoc_setProperty_other {A : Type} (key key' : string) (v : A)
    (obj : list (string * A)) :
  key' <> key ->
  assoc key' (setProperty key v obj) = assoc key' obj.
Proof.
  intros Hne. induction obj as [|[k w] rest IH]; cbn.
  - destruct (String.eqb_spec key' key); [contradiction|reflexivity].
  - destruct (String.eqb_spec key k) as [->|Hk]; cbn.
    + destruct (String.eqb_spec key' k); [contradiction|reflexivity].
    + destruct (String.eqb key' k); auto.
Qed.

(** The object the loop of [calculateAllRaddShares] builds: under each
    pending recipient its share, everything else as it was. *)
Lemma allRaddShares_loop_spec (heirs : Heirs) (rem total : Fraction.t)
    (pending : list string) :
  Fraction.wf rem -> Fraction.wf total -> ~ Fraction.value total == 0 ->
  forall acc,
  exists shares,
    allRaddShares_loop pending heirs rem total acc = Ok shares
    /\ (forall key, In key pending ->
        exists x, assoc key shares = Some x /\ Fraction.wf x
                  /\ Fraction.value x
                     == Fraction.value rem
                        * (Spec.baseShare heirs [key] key
                           / Fraction.value total))
    /\ (forall key, ~ In key pending -> assoc key shares = assoc key acc).
Proof.
  intros Hrem Htotal Hnz.
  induction pending as [|r rest IH]; intros acc.
  - exists acc. cbn. split; [reflexivity|]. split; [intros ? []|]. auto.
  - destruct (calculateRaddShareForRecipient_spec r heirs rem total
                Hrem Htotal Hnz) as (x & Hx & Hcx & Hvx).
    destruct (IH (setProperty r x acc)) as (shares & Hloop & Hin & Hout).
    exists shares. cbn [allRaddShares_loop]. rewrite Hx. cbn [bind].
    split; [exact Hloop|]. split.
    + intros key [<-|Hkey].
      * destruct (in_dec string_dec r rest) as [Hr|Hr]; [apply Hin; exact Hr|].
        exists x. rewrite (Hout r Hr), assoc_setProperty_same.
        auto using Fraction_canonical_wf.
      * apply Hin. exact Hkey.
    + intros key Hkey. cbn in Hkey.
      rewrite Hout by tauto.
      apply assoc_setProperty_other. intros ->. tauto.
Qed.

End Redistribution.

(** Evaluate the comparisons of literal keys in the goal. *)
Ltac eval_eqb :=
  repeat match goal with
         | |- context [String.eqb ?a ?b] =>
           let v := eval vm_compute in (String.eqb a b) in
           change (String.eqb a b) with v
         end.

Section Assembly.

Import Shares Shares.HeirTypes SpecialCases Complete.

(** The residuary computation, given the remainder. *)
Lemma calculateAsaba_spec (heirs : Heirs) (rem : Fraction.t) :
  validComposition heirs = true ->
  Spec.noDistantAgnates heirs = true ->
  calculateRemainder heirs = Ok rem -> Fraction.canonical rem ->
  exists ar,
    calculateAsaba heirs = Ok ar /\ Spec.arWf ar
    /\ (((determineAsaba heirs = None \/ Fraction.value rem <= 0)
         /\ hasAsaba ar = false)
        \/ (exists info,
              determineAsaba heirs = Some info
              /\ 0 < Fraction.value rem
              /\ hasAsaba ar = true /\ asabaInfo ar = Some info
              /\ Spec.asabaMale ar + Spec.asabaFemale ar
                 == Fraction.value rem
              /\ (ai_hasFemales info = false -> Spec.asabaFemale ar == 0)))%Q.
Proof.
  intros Hvalid Hnone Hrem Hcan.
  pose proof (determineAsaba_cases heirs Hvalid Hnone) as Hcases.
  unfold calculateAsaba. rewrite Hrem. cbn [bind].
  destruct (determineAsaba heirs) as [info|].
  - change (Fraction.constructor 0 1) with (Ok (Fraction.mk 0 1)).
    cbn [bind].
    destruct (Fraction.lessThan rem (Fraction.mk 0 1)) eqn:Hlt.
    + exists (mkAsabaResult false None rem None). cbn [orb ret].
      split; [reflexivity|]. split; [intros d Hd; discriminate|].
      left. split; [|reflexivity]. right.
      apply Fraction_lessThan_spec in Hlt;
        auto using Fraction_canonical_wf, Fraction_wf_int.
      change (Fraction.value (Fraction.mk 0 1)) with 0%Q in Hlt. lra.
    + cbn [orb]. destruct (Fraction.isZero rem) eqn:Hz.
      * exists (mkAsabaResult false None rem None).
        split; [reflexivity|]. split; [intros d Hd; discriminate|].
        left. split; [|reflexivity]. right.
        apply Fraction_isZero_spec in Hz. lra.
      * assert (Hpos : (0 < Fraction.value rem)%Q).
        { assert (H1 : ~ (Fraction.value rem < 0)%Q).
          { intro H. apply (Fraction_lessThan_spec rem (Fraction.mk 0 1))
              in H; auto using Fraction_canonical_wf, Fraction_wf_int.
            congruence. }
          assert (H2 : ~ Fraction.value rem == 0).
          { intro H. apply Fraction_isZero_spec in H. congruence. }
          lra. }
        destruct Hcases as [Htier _].
        destruct (distributeAsaba_values rem info Hcan Hpos Htier)
          as (d & Hd & Hm & Hf & Hsum & Hnof).
        rewrite Hd. cbn [bind ret].
        exists (mkAsabaResult true (Some info) rem (Some d)).
        split; [reflexivity|]. split.
        { intros d' Hd'. cbn in Hd'. injection Hd' as <-. auto. }
        right. exists info. unfold Spec.asabaMale, Spec.asabaFemale.
        cbn [hasAsaba distribution asabaInfo]. auto 10.
  - exists (mkAsabaResult false None rem None).
    split; [reflexivity|]. split; [intros d Hd; discriminate|].
    left. auto.
Qed.

(** *** The recipients of redistribution *)

Lemma sumOver_app (f : string -> Q) (l1 l2 : list string) :
  Spec.sumOver f (l1 ++ l2) == Spec.sumOver f l1 + Spec.sumOver f l2.
Proof.
  induction l1 as [|x l1 IH]; cbn [Spec.sumOver app]; [ring|].
  rewrite IH. ring.
Qed.

Lemma sumOver_pushIf (f : string -> Q) (guard : bool) (x : string)
    (l : list string) :
  Spec.sumOver f (pushIf guard x l)
  == Spec.sumOver f l + (if guard then f x else 0).
Proof.
  unfold pushIf. destruct guard; [|ring].
  rewrite sumOver_app. cbn [Spec.sumOver]. ring.
Qed.

Lemma sumOver_recipients (f : string -> Q) (heirs : Heirs) :
  Spec.sumOver f (getRaddRecipients heirs)
  == (if mother heirs then f "mother" else 0)
     + (if canDaughtersParticipateInRadd heirs then f "daughters" else 0)
     + (if canGranddaughtersParticipateInRadd heirs
        then f "granddaughtersFromSon" else 0)
     + (if canGrandmothersParticipateInRadd heirs
        then f "grandmothers" else 0)
     + (if canFullSistersParticipateInRadd heirs
        then f "fullSisters" else 0)
     + (if canPaternalSistersParticipateInRadd heirs
        then f "paternalSisters" else 0)
     + (if isKalalahCondition heirs && (0 <? maternalBrothers heirs)
        then f "maternalBrothers" else 0)
     + (if isKalalahCondition heirs && (0 <? maternalSisters heirs)
        then f "maternalSisters" else 0).
Proof.
  unfold getRaddRecipients.
  destruct (isKalalahCondition heirs); cbn [andb];
    rewrite !sumOver_pushIf; cbn [Spec.sumOver]; ring.
Qed.

Lemma includes_In (l : list string) (x : string) :
  includes l x = true <-> In x l.
Proof.
  unfold includes. rewrite existsb_exists. split.
  - intros (y & Hy & Heq). apply String.eqb_eq in Heq. subst. exact Hy.
  - intros H. exists x. split; [exact H|apply String.eqb_refl].
Qed.

Lemma includes_pushIf (guard : bool) (x k : string) (l : list string) :
  includes (pushIf guard x l) k = includes l k || (guard && String.eqb k x).
Proof.
  unfold pushIf, includes. destruct guard; cbn [andb].
  - rewrite existsb_app. cbn [existsb]. rewrite orb_false_r. reflexivity.
  - rewrite orb_false_r. reflexivity.
Qed.

Lemma length_pushIf (guard : bool) (x : string) (l : list string) :
  List.length (pushIf guard x l)
  = (List.length l + (if guard then 1 else 0))%nat.
Proof.
  unfold pushIf. destruct guard; [|lia].
  rewrite length_app. reflexivity.
Qed.

Lemma includes_recipients (heirs : Heirs) :
  let l := getRaddRecipients heirs in
  includes l "mother" = mother heirs
  /\ includes l "daughters" = canDaughtersParticipateInRadd heirs
  /\ includes l "granddaughtersFromSon"
     = canGranddaughtersParticipateInRadd heirs
  /\ includes l "grandmothers" = canGrandmothersParticipateInRadd heirs
  /\ includes l "fullSisters" = canFullSistersParticipateInRadd heirs
  /\ includes l "paternalSisters" = canPaternalSistersParticipateInRadd heirs
  /\ includes l "maternalBrothers"
     = isKalalahCondition heirs && (0 <? maternalBrothers heirs)
  /\ includes l "maternalSisters"
     = isKalalahCondition heirs && (0 <? maternalSisters heirs).
Proof.
  unfold getRaddRecipients. cbv zeta.
  destruct (isKalalahCondition heirs); rewrite !includes_pushIf;
    eval_eqb; cbn [includes existsb andb orb];
    rewrite ?andb_false_r, ?andb_true_r, ?orb_false_r;
    repeat split.
Qed.

Lemma recipients_empty (heirs : Heirs) :
  (Z.of_nat (List.length (getRaddRecipients heirs)) =? 0)
  = negb (mother heirs || canDaughtersParticipateInRadd heirs
          || canGranddaughtersParticipateInRadd heirs
          || canGrandmothersParticipateInRadd heirs
          || canFullSistersParticipateInRadd heirs
          || canPaternalSistersParticipateInRadd heirs
          || isKalalahCondition heirs
             && ((0 <? maternalBrothers heirs)
                 || (0 <? maternalSisters heirs))).
Proof.
  unfold getRaddRecipients. cbv zeta.
  destruct (isKalalahCondition heirs); rewrite !length_pushIf;
    cbn [List.length];
    destruct (mother heirs), (canDaughtersParticipateInRadd heirs),
      (canGranddaughtersParticipateInRadd heirs),
      (canGrandmothersParticipateInRadd heirs),
      (canFullSistersParticipateInRadd heirs),
      (canPaternalSistersParticipateInRadd heirs),
      (0 <? maternalBrothers heirs), (0 <? maternalSisters heirs);
    reflexivity.
Qed.

(** The base shares of [getRecipientRaddShare], key by key. *)
Lemma baseShare_values (heirs : Heirs) (l : list string) :
  Spec.baseShare heirs l "mother" = Fraction.value (Spec.motherLiteral heirs)
  /\ Spec.baseShare heirs l "daughters"
     = Fraction.value (Spec.daughterLiteral heirs)
  /\ Spec.baseShare heirs l "granddaughtersFromSon"
     = Fraction.value (Spec.granddaughterRaddLiteral heirs)
  /\ Spec.baseShare heirs l "grandmothers" = Fraction.value (Fraction.mk 1 6)
  /\ Spec.baseShare heirs l "fullSisters"
     = Fraction.value (Spec.fullSisterLiteral heirs)
  /\ Spec.baseShare heirs l "paternalSisters"
     = Fraction.value (Spec.paternalSisterRaddLiteral heirs)
  /\ Spec.baseShare heirs l "maternalBrothers"
     = Fraction.value (Spec.maternalLiteral heirs)
  /\ Spec.baseShare heirs l "maternalSisters"
     = (if includes l "maternalBrothers" then 0%Q
        else Fraction.value (Spec.maternalLiteral heirs)).
Proof.
  unfold Spec.baseShare, getRecipientRaddShare, shouldAddMaternalSiblingsShare.
  eval_eqb. destruct (includes l "maternalBrothers");
    destruct (includes l "maternalSisters"); cbn [andb orb negb];
  unfold calculateMotherShare, MOTHER_getShare, calculateDaughtersRaddShare,
    calculateGranddaughtersRaddShare, calculateFullSistersRaddShare,
    calculatePaternalSistersRaddShare, calculateMaternalSiblingsRaddShare,
    Spec.motherLiteral, Spec.daughterLiteral, Spec.granddaughterRaddLiteral,
    Spec.fullSisterLiteral, Spec.paternalSisterRaddLiteral,
    Spec.maternalLiteral, Spec.totalMaternal;
  repeat split;
    repeat match goal with
           | |- context [if ?c then _ else _] => destruct c
           end; reflexivity.
Qed.

End Assembly.

(** Case analysis on every comparison of counts in the goal. *)
Ltac compare_counts :=
  repeat match goal with
         | |- context [?a <? ?b] =>
           destruct (Z.ltb_spec a b); try (exfalso; lia)
         | |- context [?a =? ?b] =>
           destruct (Z.eqb_spec a b); try (exfalso; lia)
         | |- context [?a <=? ?b] =>
           destruct (Z.leb_spec a b); try (exfalso; lia)
         end.

Section RaddSum.

Import Shares Shares.HeirTypes SpecialCases Complete.

Lemma valid_counts (heirs : Heirs) :
  validComposition heirs = true ->
  husband heirs && wife heirs = false
  /\ 0 <= sons heirs /\ 0 <= daughters heirs
  /\ 0 <= grandsonsFromSon heirs /\ 0 <= granddaughtersFromSon heirs
  /\ 0 <= fullBrothers heirs /\ 0 <= fullSisters heirs
  /\ 0 <= paternalBrothers heirs /\ 0 <= paternalSisters heirs
  /\ 0 <= maternalBrothers heirs /\ 0 <= maternalSisters heirs.
Proof.
  intros Hvalid. unfold validComposition in Hvalid.
  repeat (apply andb_prop in Hvalid; destruct Hvalid as [Hvalid ?]).
  repeat match goal with
         | H : (0 <=? _) = true |- _ => apply Z.leb_le in H
         end.
  apply negb_true_iff in Hvalid. auto 20.
Qed.

Lemma raddLiterals_facts (heirs : Heirs) :
  validComposition heirs = true ->
  (0 < Fraction.value (Spec.motherLiteral heirs)
   /\ 0 < Fraction.value (Spec.daughterLiteral heirs)
   /\ 0 < Fraction.value (Spec.fullSisterLiteral heirs)
   /\ 0 < Fraction.value (Spec.maternalLiteral heirs)
   /\ 0 <= Fraction.value (Spec.granddaughterRaddLiteral heirs)
   /\ 0 <= Fraction.value (Spec.paternalSisterRaddLiteral heirs)
   /\ (canGranddaughtersParticipateInRadd heirs = true ->
       0 < Fraction.value (Spec.granddaughterRaddLiteral heirs)
       \/ canDaughtersParticipateInRadd heirs = true)
   /\ (canPaternalSistersParticipateInRadd heirs = true ->
       0 < Fraction.value (Spec.paternalSisterRaddLiteral heirs)
       \/ canFullSistersParticipateInRadd heirs = true)
   /\ (Fraction.isZero (Spec.granddaughterLiteral heirs) = true ->
       Fraction.value (Spec.granddaughterRaddLiteral heirs) == 0)
   /\ (Fraction.isZero (Spec.paternalSisterLiteral heirs) = true ->
       Fraction.value (Spec.paternalSisterRaddLiteral heirs) == 0))%Q.
Proof.
  intros Hvalid. destruct (valid_counts heirs Hvalid)
    as (_ & Hs & Hd & Hgs & Hgd & Hfb & Hfs & Hpb & Hps & Hmb & Hms).
  unfold Spec.motherLiteral, Spec.daughterLiteral, Spec.fullSisterLiteral,
    Spec.maternalLiteral, Spec.granddaughterRaddLiteral,
    Spec.paternalSisterRaddLiteral, Spec.granddaughterLiteral,
    Spec.paternalSisterLiteral,
    canGranddaughtersParticipateInRadd, canDaughtersParticipateInRadd,
    canPaternalSistersParticipateInRadd, canFullSistersParticipateInRadd,
    areSistersBlockedFromRadd.
  repeat split.
  - destruct (hasChildren heirs || hasMultipleSiblings heirs); reflexivity.
  - destruct (daughters heirs =? 1); reflexivity.
  - destruct (fullSisters heirs =? 1); reflexivity.
  - destruct (Spec.totalMaternal heirs =? 1); reflexivity.
  - compare_counts; discriminate.
  - compare_counts; discriminate.
  - compare_counts; cbn [andb]; intros; try discriminate;
      (left; reflexivity) || (right; reflexivity).
  - destruct (father heirs); compare_counts; cbn [andb orb negb]; intros;
      try discriminate; (left; reflexivity) || (right; reflexivity).
  - compare_counts; cbn; intros; try discriminate; reflexivity.
  - compare_counts; cbn; intros; try discriminate; reflexivity.
Qed.

(** The recipients' total, guard by guard. *)
Lemma raddTotal_value (heirs : Heirs) :
  Spec.sumOver (Spec.baseShare heirs (getRaddRecipients heirs))
    (getRaddRecipients heirs)
  == (if mother heirs then Fraction.value (Spec.motherLiteral heirs) else 0)
     + (if canDaughtersParticipateInRadd heirs
        then Fraction.value (Spec.daughterLiteral heirs) else 0)
     + (if canGranddaughtersParticipateInRadd heirs
        then Fraction.value (Spec.granddaughterRaddLiteral heirs) else 0)
     + (if canGrandmothersParticipateInRadd heirs
        then Fraction.value (Fraction.mk 1 6) else 0)
     + (if canFullSistersParticipateInRadd heirs
        then Fraction.value (Spec.fullSisterLiteral heirs) else 0)
     + (if canPaternalSistersParticipateInRadd heirs
        then Fraction.value (Spec.paternalSisterRaddLiteral heirs) else 0)
     + (if isKalalahCondition heirs && (0 <? maternalBrothers heirs)
        then Fraction.value (Spec.maternalLiteral heirs) else 0)
     + (if isKalalahCondition heirs && (0 <? maternalSisters heirs)
        then (if isKalalahCondition heirs && (0 <? maternalBrothers heirs)
              then 0 else Fraction.value (Spec.maternalLiteral heirs))
        else 0).
Proof.
  rewrite sumOver_recipients.
  destruct (baseShare_values heirs (getRaddRecipients heirs))
    as (-> & -> & -> & -> & -> & -> & -> & ->).
  destruct (includes_recipients heirs) as (_ & _ & _ & _ & _ & _ & -> & _).
  reflexivity.
Qed.

Lemma raddTotal_pos (heirs : Heirs) :
  validComposition heirs = true ->
  (Z.of_nat (List.length (getRaddRecipients heirs)) =? 0) = false ->
  (0 < Spec.sumOver (Spec.baseShare heirs (getRaddRecipients heirs))
         (getRaddRecipients heirs))%Q.
Proof.
  intros Hvalid Hlen. rewrite raddTotal_value.
  rewrite recipients_empty in Hlen. apply negb_false_iff in Hlen.
  destruct (raddLiterals_facts heirs Hvalid)
    as (Hm & Hd & Hfs & Hmat & Hgd & Hps & Hgd' & Hps' & _).
  change (Fraction.value (Fraction.mk 1 6)) with (1 # 6)%Q.
  revert Hlen Hgd' Hps'.
  generalize dependent (Fraction.value (Spec.motherLiteral heirs)).
  generalize dependent (Fraction.value (Spec.daughterLiteral heirs)).
  generalize dependent (Fraction.value (Spec.fullSisterLiteral heirs)).
  generalize dependent (Fraction.value (Spec.maternalLiteral heirs)).
  generalize dependent (Fraction.value (Spec.granddaughterRaddLiteral heirs)).
  generalize dependent (Fraction.value (Spec.paternalSisterRaddLiteral heirs)).
  intros bps Hps bgd Hgd bmat Hmat bfs Hfs bd Hd bm Hm.
  destruct (mother heirs), (canDaughtersParticipateInRadd heirs),
    (canGranddaughtersParticipateInRadd heirs),
    (canGrandmothersParticipateInRadd heirs),
    (canFullSistersParticipateInRadd heirs),
    (canPaternalSistersParticipateInRadd heirs),
    (isKalalahCondition heirs), (0 <? maternalBrothers heirs),
    (0 <? maternalSisters heirs);
    cbn [andb orb]; intros Hlen Hgd' Hps'; try discriminate;
    try (destruct (Hgd' eq_refl) as [?|?]; [|discriminate]);
    try (destruct (Hps' eq_refl) as [?|?]; [|discriminate]);
    lra.
Qed.

(** The addends are the remainder, split in proportion to base shares that
    count the pooled maternal share once. *)
Lemma radd_algebra (c1 c2 c3 c4 c5 c6 cb cs : bool)
    (b1 b2 b3 b4 b5 b6 M R T : Q) :
  (T == (if c1 then b1 else 0) + (if c2 then b2 else 0)
        + (if c3 then b3 else 0) + (if c4 then b4 else 0)
        + (if c5 then b5 else 0) + (if c6 then b6 else 0)
        + (if cb then M else 0)
        + (if cs then (if cb then 0 else M) else 0) ->
   ~ T == 0 ->
   (if c1 then R * (b1 / T) else 0) + (if c4 then R * (b4 / T) else 0)
   + (if c2 then R * (b2 / T) else 0) + (if c3 then R * (b3 / T) else 0)
   + (if c5 then R * (b5 / T) else 0) + (if c6 then R * (b6 / T) else 0)
   + (if cb then R * (M / T) else if cs then R * (M / T) else 0)
   == R)%Q.
Proof.
  intros HT Hnz.
  transitivity
    (R * (((if c1 then b1 else 0) + (if c2 then b2 else 0)
           + (if c3 then b3 else 0) + (if c4 then b4 else 0)
           + (if c5 then b5 else 0) + (if c6 then b6 else 0)
           + (if cb then M else 0)
           + (if cs then (if cb then 0 else M) else 0)) * / T))%Q.
  - unfold Qdiv.
    destruct c1, c2, c3, c4, c5, c6, cb, cs; ring.
  - rewrite <- HT. field. exact Hnz.
Qed.

(** An entry adds its addend under its own guard [e]; redistribution
    computed it under the guard [c]. *)
Lemma guarded_addend (e c : bool) (a R b T : Q) :
  (a == (if c then R * (b / T) else 0) ->
   e = c \/ (e = false /\ c = true /\ b == 0) ->
   (if e then a else 0) == (if c then R * (b / T) else 0))%Q.
Proof.
  intros Ha [->|(-> & -> & Hb)].
  - destruct c; [exact Ha|reflexivity].
  - rewrite Hb. unfold Qdiv. ring.
Qed.

Lemma baseShare_single (heirs : Heirs) :
  Spec.baseShare heirs ["mother"] "mother"
  = Fraction.value (Spec.motherLiteral heirs)
  /\ Spec.baseShare heirs ["daughters"] "daughters"
     = Fraction.value (Spec.daughterLiteral heirs)
  /\ Spec.baseShare heirs ["granddaughtersFromSon"] "granddaughtersFromSon"
     = Fraction.value (Spec.granddaughterRaddLiteral heirs)
  /\ Spec.baseShare heirs ["grandmothers"] "grandmothers"
     = Fraction.value (Fraction.mk 1 6)
  /\ Spec.baseShare heirs ["fullSisters"] "fullSisters"
     = Fraction.value (Spec.fullSisterLiteral heirs)
  /\ Spec.baseShare heirs ["paternalSisters"] "paternalSisters"
     = Fraction.value (Spec.paternalSisterRaddLiteral heirs)
  /\ Spec.baseShare heirs ["maternalBrothers"] "maternalBrothers"
     = Fraction.value (Spec.maternalLiteral heirs)
  /\ Spec.baseShare heirs ["maternalSisters"] "maternalSisters"
     = Fraction.value (Spec.maternalLiteral heirs).
Proof.
  repeat split;
    match goal with
    | |- Spec.baseShare _ ?l _ = _ =>
      destruct (baseShare_values heirs l)
        as (H1 & H2 & H3 & H4 & H5 & H6 & H7 & H8)
    end; assumption.
Qed.

Lemma raddAddend_applied (sc : SpecialCasesResult) (r : RaddResult)
    (key : string) :
  radd sc = Some r -> radd_applied r = true ->
  Spec.raddAddend sc key = Spec.addendOf (radd_raddShares r) key.
Proof.
  intros Hr Happlied. unfold Spec.raddAddend, Spec.addendOf.
  rewrite Hr, Happlied. reflexivity.
Qed.

Lemma maternalRaddAddend_applied (sc : SpecialCasesResult) (r : RaddResult) :
  radd sc = Some r -> radd_applied r = true ->
  Spec.maternalRaddAddend sc
  = match assoc "maternalBrothers" (radd_raddShares r) with
    | Some x => Fraction.value x
    | None => Spec.addendOf (radd_raddShares r) "maternalSisters"
    end.
Proof.
  intros Hr Happlied. unfold Spec.maternalRaddAddend, Spec.addendOf.
  rewrite Hr, Happlied. reflexivity.
Qed.

Lemma raddPart_not_applied (heirs : Heirs) (sc : SpecialCasesResult) :
  match radd sc with
  | Some r => radd_applied r = false
  | None => True
  end ->
  (Spec.raddPart heirs sc == 0)%Q.
Proof.
  intros H.
  assert (Hzero : forall key, Spec.raddAddend sc key = 0%Q).
  { intros key. unfold Spec.raddAddend.
    destruct (radd sc) as [r|]; [rewrite H|]; reflexivity. }
  assert (Hmat : Spec.maternalRaddAddend sc = 0%Q).
  { unfold Spec.maternalRaddAddend.
    destruct (radd sc) as [r|]; [rewrite H|]; reflexivity. }
  assert (Hsame : forall (c : bool) (q : Q), (if c then q else q) = q)
    by (intros [|] q; reflexivity).
  unfold Spec.raddPart. rewrite !Hzero, Hmat, !Hsame. reflexivity.
Qed.

(** The guards of the sister entries agree with those of redistribution. *)
Lemma sisters_guards (heirs : Heirs) :
  validComposition heirs = true ->
  Spec.fullSistersFixed heirs = canFullSistersParticipateInRadd heirs
  /\ Spec.paternalSistersFixed heirs
     = canPaternalSistersParticipateInRadd heirs.
Proof.
  intros Hvalid. destruct (valid_counts heirs Hvalid)
    as (_ & Hs & Hd & Hgs & Hgd & Hfb & Hfs & Hpb & Hps & Hmb & Hms).
  unfold Spec.fullSistersFixed, Spec.paternalSistersFixed,
    canFullSistersParticipateInRadd, canPaternalSistersParticipateInRadd,
    areSistersBlockedFromRadd.
  destruct (father heirs); compare_counts; split; reflexivity.
Qed.

Lemma maternal_guard (heirs : Heirs) :
  validComposition heirs = true ->
  isKalalahCondition heirs && (0 <? Spec.totalMaternal heirs)
  = isKalalahCondition heirs
    && ((0 <? maternalBrothers heirs) || (0 <? maternalSisters heirs)).
Proof.
  intros Hvalid. destruct (valid_counts heirs Hvalid)
    as (_ & Hs & Hd & Hgs & Hgd & Hfb & Hfs & Hpb & Hps & Hmb & Hms).
  unfold Spec.totalMaternal, orDefault.
  destruct (isKalalahCondition heirs); [|reflexivity].
  destruct (Z.eqb_spec (maternalBrothers heirs) 0),
    (Z.eqb_spec (maternalSisters heirs) 0);
    compare_counts; reflexivity.
Qed.

End RaddSum.

Section SpecialCasesFacts.

Import Shares Shares.HeirTypes SpecialCases Complete.

(** Redistribution: when it applies, what it adds to the entries is the
    remainder. *)
Lemma applyRadd_spec (heirs : Heirs) (rem : Fraction.t) :
  validComposition heirs = true ->
  Spec.noDistantAgnates heirs = true ->
  calculateRemainder heirs = Ok rem -> Fraction.canonical rem ->
  exists r,
    applyRadd heirs = Ok r
    /\ (forall key x,
          assoc key (radd_raddShares r) = Some x -> Fraction.wf x)
    /\ ((radd_applied r = false
         /\ ((Fraction.value rem <= 0)%Q
             \/ determineAsaba heirs <> None
             \/ (Z.of_nat (List.length (getRaddRecipients heirs)) =? 0)
                = true))
        \/ (radd_applied r = true
            /\ (0 < Fraction.value rem)%Q
            /\ determineAsaba heirs = None
            /\ (Z.of_nat (List.length (getRaddRecipients heirs)) =? 0)
               = false
            /\ forall sc, radd sc = Some r ->
                 (Spec.raddPart heirs sc == Fraction.value rem)%Q)).
Proof.
  intros Hvalid Hnone Hrem Hcan.
  assert (Hwf : Fraction.wf rem) by auto using Fraction_canonical_wf.
  pose proof (Fraction_greaterThan_spec rem (Fraction.mk 0 1) Hwf
                (Fraction_wf_int 0)) as Hgt.
  change (Fraction.value (Fraction.mk 0 1)) with 0%Q in Hgt.
  assert (Hnot :
    exists r,
      Ok (createRaddNotAppliedResult rem) = Ok r
      /\ (forall key x,
            assoc key (radd_raddShares r) = Some x -> Fraction.wf x)
      /\ radd_applied r = false).
  { exists (createRaddNotAppliedResult rem).
    split; [reflexivity|]. split; [intros key x Hx; discriminate|].
    reflexivity. }
  unfold applyRadd. rewrite Hrem. cbn [bind].
  change (Fraction.constructor 0 1) with (Ok (Fraction.mk 0 1)). cbn [bind].
  destruct (Fraction.greaterThan rem (Fraction.mk 0 1)) eqn:Hg;
    cbn [negb orb ret].
  2:{ destruct Hnot as (r & Hr & Hs & Ha). exists r.
      split; [exact Hr|]. split; [exact Hs|]. left. split; [exact Ha|].
      left. destruct (Qlt_le_dec 0 (Fraction.value rem)) as [Hp|Hp];
        [|exact Hp].
      apply Hgt in Hp. congruence. }
  assert (Hpos : (0 < Fraction.value rem)%Q) by (apply Hgt; reflexivity).
  pose proof (determineAsaba_cases heirs Hvalid Hnone) as Hcases.
  destruct (determineAsaba heirs) as [info|] eqn:Hda.
  { destruct Hnot as (r & Hr & Hs & Ha). exists r.
    split; [exact Hr|]. split; [exact Hs|]. left. split; [exact Ha|].
    right. left. discriminate. }
  destruct (Z.of_nat (List.length (getRaddRecipients heirs)) =? 0) eqn:Hlen.
  { destruct Hnot as (r & Hr & Hs & Ha). exists r.
    split; [exact Hr|]. split; [exact Hs|]. left. split; [exact Ha|].
    right. right. reflexivity. }
  destruct Hcases as (Hsons & Hgs & Hfather & Hpgf & Hfb & Hpb).
  set (rec := getRaddRecipients heirs) in *.
  destruct (calculateRaddRecipientsTotal_spec heirs rec)
    as (T & HT & HcT & HvT).
  pose proof (raddTotal_pos heirs Hvalid Hlen) as HTpos.
  fold rec in HTpos. rewrite <- HvT in HTpos.
  assert (Hnz : ~ Fraction.value T == 0) by lra.
  destruct (allRaddShares_loop_spec heirs rem T rec Hwf
              (Fraction_canonical_wf T HcT) Hnz [])
    as (shares & Hloop & Hin & Hout).
  rewrite HT. cbn [bind]. unfold calculateAllRaddShares.
  rewrite Hloop. cbn [bind ret].
  exists (mkRaddResult true rem rec shares
            (Some (createRaddNotification rem))).
  split; [reflexivity|]. cbn [radd_raddShares radd_applied].
  split.
  { intros key x Hx. destruct (in_dec string_dec key rec) as [Hk|Hk].
    - destruct (Hin key Hk) as (x' & Hx' & Hw & _). congruence.
    - rewrite (Hout key Hk) in Hx. discriminate. }
  right. split; [reflexivity|]. split; [exact Hpos|].
  split; [reflexivity|]. split; [reflexivity|]. intros sc Hsc.
  set (R := Fraction.value rem) in *. set (Tv := Fraction.value T) in *.
  assert (Hadd : forall key,
    (Spec.addendOf shares key
     == (if includes rec key
         then R * (Spec.baseShare heirs [key] key / Tv) else 0))%Q).
  { intros key. unfold Spec.addendOf.
    destruct (includes rec key) eqn:Hinc.
    - apply includes_In in Hinc.
      destruct (Hin key Hinc) as (x & -> & _ & Hv). exact Hv.
    - assert (Hk : ~ In key rec).
      { intro Hk. apply includes_In in Hk. congruence. }
      rewrite (Hout key Hk). reflexivity. }
  assert (Hmat :
    (match assoc "maternalBrothers" shares with
     | Some x => Fraction.value x
     | None => Spec.addendOf shares "maternalSisters"
     end
     == (if includes rec "maternalBrothers"
         then R * (Spec.baseShare heirs ["maternalBrothers"]
                     "maternalBrothers" / Tv)
         else if includes rec "maternalSisters"
         then R * (Spec.baseShare heirs ["maternalSisters"]
                     "maternalSisters" / Tv)
         else 0))%Q).
  { destruct (includes rec "maternalBrothers") eqn:Hinc.
    - apply includes_In in Hinc.
      destruct (Hin _ Hinc) as (x & -> & _ & Hv). exact Hv.
    - assert (Hk : ~ In "maternalBrothers" rec).
      { intro Hk. apply includes_In in Hk. congruence. }
      rewrite (Hout _ Hk). cbn [assoc]. apply Hadd. }
  destruct (includes_recipients heirs)
    as (I1 & I2 & I3 & I4 & I5 & I6 & I7 & I8).
  cbv zeta in I1, I2, I3, I4, I5, I6, I7, I8. fold rec in I1, I2, I3, I4, I5, I6, I7, I8.
  destruct (baseShare_single heirs)
    as (B1 & B2 & B3 & B4 & B5 & B6 & B7 & B8).
  rewrite I7, I8, B7, B8 in Hmat.
  pose proof (Hadd "mother") as A1. rewrite I1, B1 in A1.
  pose proof (Hadd "daughters") as A2. rewrite I2, B2 in A2.
  pose proof (Hadd "granddaughtersFromSon") as A3. rewrite I3, B3 in A3.
  pose proof (Hadd "grandmothers") as A4. rewrite I4, B4 in A4.
  pose proof (Hadd "fullSisters") as A5. rewrite I5, B5 in A5.
  pose proof (Hadd "paternalSisters") as A6. rewrite I6, B6 in A6.
  destruct (raddLiterals_facts heirs Hvalid)
    as (_ & _ & _ & _ & _ & _ & _ & _ & Zgd & Zps).
  destruct (sisters_guards heirs Hvalid) as (Gfs & Gps).
  pose proof (maternal_guard heirs Hvalid) as Gmat.
  pose proof (raddTotal_value heirs) as HTv. fold rec in HTv.
  rewrite <- HvT in HTv. fold Tv in HTv.
  rewrite <- (radd_algebra _ _ _ _ _ _ _ _ _ _ _ _ _ _ _ R Tv HTv Hnz).
  unfold Spec.raddPart.
  rewrite !(raddAddend_applied sc _ _ Hsc eq_refl).
  rewrite (maternalRaddAddend_applied sc _ Hsc eq_refl).
  cbn [radd_raddShares].
  repeat apply Qplus_comp.
  - apply guarded_addend; [exact A1|left; reflexivity].
  - apply guarded_addend; [exact A4|left; reflexivity].
  - apply guarded_addend; [exact A2|left; reflexivity].
  - apply guarded_addend; [exact A3|].
    unfold canGranddaughtersParticipateInRadd. rewrite Hgs.
    change (0 <? 0) with false. cbn [negb]. rewrite andb_true_r.
    destruct (Fraction.isZero (Spec.granddaughterLiteral heirs));
      cbn [negb].
    + destruct ((0 <? granddaughtersFromSon heirs) && (sons heirs =? 0));
        cbn [andb]; [right|left]; auto.
    + left. apply andb_true_r.
  - apply guarded_addend; [exact A5|left; exact Gfs].
  - apply guarded_addend; [exact A6|]. rewrite Gps.
    destruct (Fraction.isZero (Spec.paternalSisterLiteral heirs));
      cbn [negb].
    + destruct (canPaternalSistersParticipateInRadd heirs);
        cbn [andb]; [right|left]; auto.
    + left. apply andb_true_r.
  - change (negb (father heirs) && negb (hasChildren heirs))
      with (isKalalahCondition heirs).
    rewrite Gmat. revert Hmat.
    destruct (isKalalahCondition heirs), (0 <? maternalBrothers heirs),
      (0 <? maternalSisters heirs); cbn [andb orb]; intros Hmat;
      try exact Hmat; reflexivity.
Qed.

End SpecialCasesFacts.

Section Composite.

Import Shares Shares.HeirTypes SpecialCases Complete.

(** The special cases outside al-Umariyyatan: either the reduction applies
    and nothing is redistributed, or it does not and redistribution is
    attempted. *)
Lemma applySpecialCases_spec (heirs : Heirs) (total rem : Fraction.t) :
  validComposition heirs = true ->
  Spec.noDistantAgnates heirs = true ->
  checkUmariyyatan heirs = None ->
  calculateFixedSharesTotal heirs = Ok total -> Fraction.canonical total ->
  calculateRemainder heirs = Ok rem -> Fraction.canonical rem ->
  exists sc,
    applySpecialCases heirs = Ok sc
    /\ ur_applied (umariyyatan sc) = false
    /\ Spec.scWf sc
    /\ (((1 < Fraction.value total)%Q
         /\ awlApplied sc = true
         /\ (Spec.awlFactor sc == 1 / Fraction.value total)%Q
         /\ radd sc = None)
        \/ ((Fraction.value total <= 1)%Q
            /\ awlApplied sc = false
            /\ exists r,
                radd sc = Some r
                /\ ((radd_applied r = false
                     /\ ((Fraction.value rem <= 0)%Q
                         \/ determineAsaba heirs <> None
                         \/ (Z.of_nat (List.length (getRaddRecipients heirs))
                             =? 0) = true))
                    \/ (radd_applied r = true
                        /\ (0 < Fraction.value rem)%Q
                        /\ determineAsaba heirs = None
                        /\ (Z.of_nat
                              (List.length (getRaddRecipients heirs))
                            =? 0) = false
                        /\ (Spec.raddPart heirs sc
                            == Fraction.value rem)%Q)))).
Proof.
  intros Hvalid Hnone Hum Htotal Hct Hrem Hcr.
  assert (Hwt : Fraction.wf total) by auto using Fraction_canonical_wf.
  pose proof (Fraction_greaterThan_spec total (Fraction.mk 1 1) Hwt
                (Fraction_wf_int 1)) as Hgt.
  change (Fraction.value (Fraction.mk 1 1)) with 1%Q in Hgt.
  unfold applySpecialCases, applyUmariyyatan. rewrite Hum.
  cbn [bind ret ur_applied]. unfold applyAwl. rewrite Htotal. cbn [bind].
  change (Fraction.constructor 1 1) with (Ok (Fraction.mk 1 1)).
  cbn [bind].
  destruct (Fraction.greaterThan total (Fraction.mk 1 1)) eqn:Hg;
    cbn [negb].
  - assert (Hbig : (1 < Fraction.value total)%Q) by (apply Hgt; reflexivity).
    assert (Hnum : Fraction.num total <> 0).
    { intro H0.
      assert (Hz : Fraction.value total == 0)
        by (apply Fraction_isZero_spec; unfold Fraction.isZero;
            rewrite H0; reflexivity).
      lra. }
    destruct (Fraction_divide_spec (Fraction.mk 1 1) total
                (Fraction_wf_int 1) Hwt Hnum) as (ratio & Hr & Hcr' & Hvr).
    unfold calculateAwlRatio. rewrite Htotal. cbn [bind].
    change (Fraction.constructor 1 1) with (Ok (Fraction.mk 1 1)).
    cbn [bind]. rewrite Hg. cbn [negb]. rewrite Hr. cbn [bind ret awl_applied].
    eexists. split; [reflexivity|]. cbn [umariyyatan ur_applied].
    split; [reflexivity|]. split.
    { split.
      - intros a Ha. cbn in Ha. injection Ha as <-.
        cbn [awl_awlRatio]. auto using Fraction_canonical_wf.
      - intros r key x Hr'. discriminate. }
    left. split; [exact Hbig|]. split; [reflexivity|].
    split; [|reflexivity].
    unfold Spec.awlFactor. cbn [awl awl_applied awl_awlRatio].
    rewrite Hvr. reflexivity.
  - assert (Hsmall : (Fraction.value total <= 1)%Q).
    { destruct (Qlt_le_dec 1 (Fraction.value total)) as [Hp|Hp];
        [|exact Hp].
      apply Hgt in Hp. congruence. }
    cbn [bind ret awl_applied].
    destruct (applyRadd_spec heirs rem Hvalid Hnone Hrem Hcr)
      as (r & Hr & Hwr & Hcases).
    rewrite Hr. cbn [bind].
    assert (Hsc : forall ns,
      let sc := mkSpecialCasesResult (mkUmariyyatanResult false None None None)
                  (Some (mkAwlResult false total total (Fraction.mk 1 1)
                           None))
                  (Some r) ns in
      ur_applied (umariyyatan sc) = false
      /\ Spec.scWf sc
      /\ (((1 < Fraction.value total)%Q
           /\ awlApplied sc = true
           /\ (Spec.awlFactor sc == 1 / Fraction.value total)%Q
           /\ radd sc = None)
          \/ ((Fraction.value total <= 1)%Q
              /\ awlApplied sc = false
              /\ exists r,
                  radd sc = Some r
                  /\ ((radd_applied r = false
                       /\ ((Fraction.value rem <= 0)%Q
                           \/ determineAsaba heirs <> None
                           \/ (Z.of_nat
                                 (List.length (getRaddRecipients heirs))
                               =? 0) = true))
                      \/ (radd_applied r = true
                          /\ (0 < Fraction.value rem)%Q
                          /\ determineAsaba heirs = None
                          /\ (Z.of_nat
                                (List.length (getRaddRecipients heirs))
                              =? 0) = false
                          /\ (Spec.raddPart heirs sc
                              == Fraction.value rem)%Q))))).
    { intros ns sc. split; [reflexivity|]. split.
      { split.
        - intros a Ha. cbn in Ha. injection Ha as <-.
          cbn [awl_awlRatio]. apply Fraction_wf_int.
        - intros r' key x Hr' Hx. cbn in Hr'. injection Hr' as <-.
          exact (Hwr key x Hx). }
      right. split; [exact Hsmall|]. split; [reflexivity|].
      exists r. split; [reflexivity|].
      destruct Hcases as [Hoff|(Hon & Hpos & Hda & Hlen & Hsum)];
        [left; exact Hoff|right].
      repeat (split; [assumption|]). apply Hsum. reflexivity. }
    destruct (radd_applied r); eexists; (split; [reflexivity|]);
      apply Hsc.
Qed.

Lemma totalFractionSum_spec (entries : list Entry) :
  Forall Spec.entryOK entries ->
  exists s,
    totalFractionSum entries = Ok s /\ Fraction.canonical s
    /\ (Fraction.value s == Spec.entriesValue entries)%Q.
Proof.
  intros Hok. unfold totalFractionSum.
  change (Fraction.constructor 0 1) with (Ok (Fraction.mk 0 1)).
  cbn [bind].
  assert (Hloop : forall acc, Fraction.canonical acc ->
    exists s,
      sumShares_from entries acc = Ok s /\ Fraction.canonical s
      /\ (Fraction.value s
          == Fraction.value acc + Spec.entriesValue entries)%Q).
  { induction Hok as [|e rest [He _] _ IH]; intros acc Hacc.
    - exists acc. cbn. split; [reflexivity|]. split; [exact Hacc|]. ring.
    - destruct (Fraction_add_spec acc (share e))
        as (acc' & Hadd & Hc & Hv); auto using Fraction_canonical_wf.
      destruct (IH acc' Hc) as (s & Hs & Hcs & Hvs).
      exists s. cbn [sumShares_from]. rewrite Hadd. cbn [bind].
      split; [exact Hs|]. split; [exact Hcs|].
      cbn [Spec.entriesValue]. rewrite Hvs, Hv. ring. }
  destruct (Hloop (Fraction.mk 0 1) canonical_zero) as (s & Hs & Hc & Hv).
  exists s. split; [exact Hs|]. split; [exact Hc|].
  rewrite Hv. change (Fraction.value (Fraction.mk 0 1)) with 0%Q. ring.
Qed.

(** The entries of the composite computation outside al-Umariyyatan are
    worth the fixed shares, reduced when the reduction applies, plus what
    redistribution and the residuary distribution add. *)
Lemma entries_spec (heirs : Heirs) (sc : SpecialCasesResult)
    (ar : AsabaResult) :
  validComposition heirs = true ->
  Spec.sistersBesideDaughters heirs = false ->
  applySpecialCases heirs = Ok sc ->
  ur_applied (umariyyatan sc) = false ->
  Spec.scWf sc ->
  calculateAsaba heirs = Ok ar -> Spec.arWf ar ->
  exists i,
    calculateCompleteInheritance heirs = Ok i
    /\ Forall Spec.entryOK (heirsOut i)
    /\ (Spec.entriesValue (heirsOut i)
        == Spec.sumLits (Spec.fixedLits heirs) * Spec.awlFactor sc
           + Spec.raddPart heirs sc + Spec.asabaPart heirs sc ar)%Q.
Proof.
  intros Hvalid Hslip Happly Hum Hsc Har Hwar.
  destruct (calculateAscendantShares_shape heirs) as (g & Ha & Hg).
  destruct (calculateDescendantShares_shape heirs)
    as (dr & gr & Hd & Hdr & Hgr).
  unfold calculateCompleteInheritance. rewrite Happly. cbn [bind].
  rewrite Hum.
  destruct (spouseEntry_spec heirs sc [] Hsc (Forall_nil _))
    as (o1 & E1 & F1 & V1).
  rewrite E1. cbn [bind]. rewrite Ha. cbn [bind].
  match type of Ha with
  | _ = Ok ?a =>
    destruct (motherEntry_spec heirs sc o1 a Hsc F1 eq_refl)
      as (o2 & E2 & F2 & V2)
  end.
  rewrite E2. cbn [bind as_father].
  destruct (ascendantAsabaEntry_spec heirs sc o2 ar (father heirs) FATHER
              "Отец" Hsc F2 Har Hwar) as (o3 & E3 & F3 & V3).
  rewrite E3. cbn [bind as_grandfather].
  destruct (ascendantAsabaEntry_spec heirs sc o3 ar
              (paternalGrandfather heirs && negb (father heirs))
              PATERNAL_GRANDFATHER "Дед" Hsc F3 Har Hwar)
    as (o4 & E4 & F4 & V4).
  rewrite E4. cbn [bind].
  match type of Ha with
  | _ = Ok ?a =>
    destruct (grandmothersEntry_spec heirs sc o4 a Hsc F4 Hg)
      as (o5 & E5 & F5 & V5)
  end.
  rewrite E5. cbn [bind]. rewrite Hd. cbn [bind].
  match type of Hd with
  | _ = Ok ?a =>
    destruct (daughtersEntry_spec heirs sc o5 ar a Hvalid Hsc F5 Har Hwar
                Hdr) as (o6 & E6 & F6 & V6)
  end.
  rewrite E6. cbn [bind].
  match type of Hd with
  | _ = Ok ?a =>
    destruct (sonsEntry_spec heirs sc o6 ar a F6 Har Hwar eq_refl)
      as (o7 & E7 & F7 & V7)
  end.
  rewrite E7. cbn [bind].
  match type of Hd with
  | _ = Ok ?a =>
    destruct (grandsonsEntry_spec heirs sc o7 ar a F7 Har Hwar eq_refl)
      as (o8 & E8 & F8 & V8)
  end.
  rewrite E8. cbn [bind].
  match type of Hd with
  | _ = Ok ?a =>
    destruct (granddaughtersEntry_spec heirs sc o8 ar a Hvalid Hsc F8 Har
                Hwar Hgr) as (o9 & E9 & F9 & V9)
  end.
  rewrite E9. cbn [bind].
  destruct (siblingAsabaEntries_spec heirs sc o9 ar F9 Har Hwar)
    as (o10 & E10 & F10 & V10).
  rewrite E10. cbn [bind].
  destruct (fullSistersEntry_spec heirs sc o10 Hvalid Hslip Hsc F10)
    as (o11 & E11 & F11 & V11).
  rewrite E11. cbn [bind].
  destruct (paternalSistersEntry_spec heirs sc o11 Hvalid Hslip Hsc F11)
    as (o12 & E12 & F12 & V12).
  rewrite E12. cbn [bind].
  destruct (maternalSiblingsEntry_spec heirs sc o12 Hsc F12)
    as (o13 & E13 & F13 & V13).
  rewrite E13. cbn [bind ret].
  eexists. split; [reflexivity|]. cbn [heirsOut]. split; [exact F13|].
  rewrite V13, V12, V11, V10, V9, V8, V7, V6, V5, V4, V3, V2, V1.
  unfold Spec.raddPart, Spec.asabaPart, Spec.fixedLits, Spec.fatherLit,
    Spec.grandfatherLit.
  cbn [Spec.sumLits Spec.entriesValue]. ring.
Qed.

End Composite.

Section SumToOne.

Import Shares Shares.HeirTypes SpecialCases Complete.

(** When al-Umariyyatan applies the three entries sum to one. *)
Lemma umariyyatan_complete (heirs : Heirs) (u : Umariyyatan) :
  validComposition heirs = true ->
  checkUmariyyatan heirs = Some u ->
  exists i,
    calculateCompleteInheritance heirs = Ok i
    /\ Forall Spec.entryOK (heirsOut i)
    /\ totalFractionSum (heirsOut i) = Ok (Fraction.mk 1 1)
    /\ Spec.otherHeirPresent heirs = true.
Proof.
  intros Hvalid Hum. destruct (valid_counts heirs Hvalid)
    as (Hboth & Hs & Hd & Hgs & Hgd & Hfb & Hfs & Hpb & Hps & Hmb & Hms).
  clear Hvalid. unfold checkUmariyyatan in Hum.
  destruct heirs as [hu wi wc so da gs gd fa mo pgf pgm mgm
                     fb fs pb ps mb ms nfb npb uf up].
  cbn [husband wife father mother sons daughters grandsonsFromSon
       granddaughtersFromSon paternalGrandfather paternalGrandmother
       maternalGrandmother fullBrothers fullSisters paternalBrothers
       paternalSisters maternalBrothers maternalSisters] in *.
  repeat match goal with
         | H : (if ?c then _ else _) = Some _ |- _ =>
           destruct c eqn:?; [discriminate H|]
         end.
  repeat match goal with
         | E : (_ || _) = false |- _ =>
           apply orb_false_iff in E; destruct E
         | E : negb _ = false |- _ => apply negb_false_iff in E
         | E : (0 <? _) = false |- _ => apply Z.ltb_ge in E
         end.
  assert (so = 0) by lia. assert (da = 0) by lia. assert (gs = 0) by lia.
  assert (gd = 0) by lia. assert (fb = 0) by lia. assert (fs = 0) by lia.
  assert (pb = 0) by lia. assert (ps = 0) by lia. assert (mb = 0) by lia.
  assert (ms = 0) by lia. subst.
  destruct hu, wi; try discriminate;
    (eexists; split; [vm_compute; reflexivity|]);
    (split; [repeat (constructor; try (split; reflexivity))|]);
    split; vm_compute; reflexivity.
Qed.

(** A spouse alone: the fixed shares are the spouse's, and nobody can take
    a redistribution. *)
Lemma loneSpouse_facts (heirs : Heirs) :
  validComposition heirs = true ->
  Spec.otherHeirPresent heirs = false ->
  (Spec.sumLits (Spec.fixedLits heirs)
   == Fraction.value (Spec.loneSpouseShare heirs))%Q
  /\ (Fraction.value (Spec.loneSpouseShare heirs) <= 1 # 2)%Q
  /\ Fraction.canonical (Spec.loneSpouseShare heirs)
  /\ (Z.of_nat (List.length (getRaddRecipients heirs)) =? 0) = true.
Proof.
  intros Hvalid Hother. destruct (valid_counts heirs Hvalid)
    as (Hboth & Hs & Hd & Hgs & Hgd & Hfb & Hfs & Hpb & Hps & Hmb & Hms).
  clear Hvalid. unfold Spec.otherHeirPresent in Hother.
  destruct heirs as [hu wi wc so da gs gd fa mo pgf pgm mgm
                     fb fs pb ps mb ms nfb npb uf up].
  cbn [husband wife father mother sons daughters grandsonsFromSon
       granddaughtersFromSon paternalGrandfather paternalGrandmother
       maternalGrandmother fullBrothers fullSisters paternalBrothers
       paternalSisters maternalBrothers maternalSisters] in *.
  repeat match goal with
         | E : (_ || _) = false |- _ =>
           apply orb_false_iff in E; destruct E
         | E : (0 <? _) = false |- _ => apply Z.ltb_ge in E
         end.
  assert (so = 0) by lia. assert (da = 0) by lia. assert (gs = 0) by lia.
  assert (gd = 0) by lia. assert (fb = 0) by lia. assert (fs = 0) by lia.
  assert (pb = 0) by lia. assert (ps = 0) by lia. assert (mb = 0) by lia.
  assert (ms = 0) by lia. subst.
  destruct hu, wi; vm_compute; repeat split; discriminate.
Qed.

(** Without a residuary heir and without a recipient of redistribution,
    nobody but a spouse is present. *)
Lemma nobody_else (heirs : Heirs) :
  validComposition heirs = true ->
  Spec.noDistantAgnates heirs = true ->
  determineAsaba heirs = None ->
  (Z.of_nat (List.length (getRaddRecipients heirs)) =? 0) = true ->
  Spec.otherHeirPresent heirs = false.
Proof.
  intros Hvalid Hnone Hda Hempty.
  pose proof (determineAsaba_cases heirs Hvalid Hnone) as Hcases.
  rewrite Hda in Hcases.
  destruct Hcases as (Hsons & Hgsons & Hfather & Hpgf & Hfbr & Hpbr).
  destruct (valid_counts heirs Hvalid)
    as (Hboth & Hs & Hd & Hgs & Hgd & Hfb & Hfs & Hpb & Hps & Hmb & Hms).
  rewrite recipients_empty in Hempty. apply negb_true_iff in Hempty.
  revert Hempty.
  unfold Spec.otherHeirPresent, canDaughtersParticipateInRadd,
    canGranddaughtersParticipateInRadd, canGrandmothersParticipateInRadd,
    canFullSistersParticipateInRadd, canPaternalSistersParticipateInRadd,
    areSistersBlockedFromRadd, isKalalahCondition, hasChildren.
  rewrite Hsons, Hgsons, Hfather, Hpgf, Hfbr, Hpbr.
  change (0 <? 0) with false. change (0 =? 0) with true.
  destruct (mother heirs), (paternalGrandmother heirs),
    (maternalGrandmother heirs); cbn [andb orb negb];
    intros; try discriminate;
    revert Hempty; compare_counts; cbn [andb orb negb]; intros;
    try discriminate; reflexivity.
Qed.

(** A residuary heir is an heir other than the spouse. *)
Lemma residuary_present (heirs : Heirs) (info : AsabaInfo) :
  validComposition heirs = true ->
  Spec.noDistantAgnates heirs = true ->
  determineAsaba heirs = Some info ->
  Spec.otherHeirPresent heirs = true.
Proof.
  intros Hvalid Hnone Hda.
  pose proof (determineAsaba_cases heirs Hvalid Hnone) as Hcases.
  rewrite Hda in Hcases. destruct Hcases as (_ & Hcases).
  unfold Spec.otherHeirPresent.
  destruct Hcases
    as [(_ & H & _)|[(_ & _ & H & _)|[(_ & _ & _ & H & _)
        |[(_ & _ & _ & _ & H & _)|[(_ & _ & _ & _ & _ & H & _)
        |(_ & _ & _ & _ & _ & _ & H & _)]]]]];
    try apply Z.ltb_lt in H; rewrite H, ?orb_true_r; reflexivity.
Qed.


Lemma asabaPart_off (heirs : Heirs) (sc : SpecialCasesResult)
    (ar : AsabaResult) :
  awlApplied sc = true \/ hasAsaba ar = false ->
  (Spec.asabaPart heirs sc ar == 0)%Q.
Proof.
  assert (Hsame : forall (c : bool) (q : Q), (if c then q else q) = q)
    by (intros [|] q; reflexivity).
  intros [Hawl|Hoff]; unfold Spec.asabaPart.
  - rewrite Hawl. cbn [negb andb]. rewrite !andb_false_r. cbn [andb].
    reflexivity.
  - unfold Spec.asabaMale, Spec.asabaFemale. rewrite Hoff.
    change (0 + 0)%Q with 0%Q. rewrite !Hsame. reflexivity.
Qed.

(** The residuary distribution hands out the remainder, whoever the
    residuary heir is. *)
Lemma asabaPart_on (heirs : Heirs) (sc : SpecialCasesResult)
    (ar : AsabaResult) (info : AsabaInfo) (rem : Q) :
  validComposition heirs = true ->
  Spec.noDistantAgnates heirs = true ->
  awlApplied sc = false ->
  determineAsaba heirs = Some info ->
  asabaInfo ar = Some info ->
  (Spec.asabaMale ar + Spec.asabaFemale ar == rem)%Q ->
  (ai_hasFemales info = false -> (Spec.asabaFemale ar == 0)%Q) ->
  (Spec.asabaPart heirs sc ar == rem)%Q.
Proof.
  intros Hvalid Hnone Hawl Hda Hinfo Hsum Hnof.
  pose proof (determineAsaba_cases heirs Hvalid Hnone) as Hcases.
  rewrite Hda in Hcases. destruct Hcases as (_ & Hcases).
  destruct (valid_counts heirs Hvalid)
    as (Hboth & Hs & Hd & Hgs & Hgd & Hfb & Hfs & Hpb & Hps & Hmb & Hms).
  unfold Spec.asabaPart, keyIs, hasMaleDescendants.
  rewrite Hawl, Hinfo. cbn [negb].
  revert Hsum Hnof.
  generalize (Spec.asabaMale ar) (Spec.asabaFemale ar). intros m f Hsum Hnof.
  destruct Hcases
    as [(Hkey & H1 & Hf)
       |[(Hkey & H1 & H2 & Hf)
       |[(Hkey & H1 & H2 & H3 & Hf)
       |[(Hkey & H1 & H2 & H3 & H4 & Hf)
       |[(Hkey & H1 & H2 & H3 & H4 & H5 & Hf)
       |(Hkey & H1 & H2 & H3 & H4 & H5 & H6 & Hf)]]]]];
    rewrite Hkey; rewrite Hf in Hnof; eval_eqb;
    repeat match goal with
           | H : father heirs = _ |- _ => rewrite H; clear H
           | H : paternalGrandfather heirs = _ |- _ => rewrite H; clear H
           | H : sons heirs = 0 |- _ => rewrite H in *; clear H
           | H : grandsonsFromSon heirs = 0 |- _ => rewrite H in *; clear H
           end;
    revert Hnof; compare_counts; cbn [andb orb negb]; intros Hnof;
    try (specialize (Hnof eq_refl));
    try (destruct (father heirs)); try (destruct (paternalGrandfather heirs));
    cbn [andb orb negb]; lra.
Qed.


End SumToOne.

(** ** The entries of the composite computation *)

(** X29. The composite computation of the property tests,
    [calculateCompleteInheritance], on a valid composition without nephews
    and uncles in which no full or paternal sister takes a fixed share
    beside a daughter or a son's daughter (the categories for which it
    emits every entry the engine allots): it succeeds and blocks none of
    its entries, and their final fractions sum to exactly one when some
    heir other than the spouse is present, and to the spouse's own fixed
    share (one half, one quarter, or nothing when nobody is present)
    otherwise. *)
Theorem calculateCompleteInheritance_sum (heirs : Heirs) :
  validComposition heirs = true ->
  Spec.noDistantAgnates heirs = true ->
  Spec.sistersBesideDaughters heirs = false ->
  exists i s,
    Complete.calculateCompleteInheritance heirs = Ok i
    /\ Forall (fun e => Complete.entryBlocked e = false) (Complete.heirsOut i)
    /\ Complete.totalFractionSum (Complete.heirsOut i) = Ok s
    /\ s = (if Spec.otherHeirPresent heirs then Fraction.mk 1 1
            else Spec.loneSpouseShare heirs).
Proof.
  intros Hvalid Hnone Hslip.
  assert (Hblocked : forall l, Forall Spec.entryOK l ->
            Forall (fun e => Complete.entryBlocked e = false) l).
  { intros l Hl. eapply Forall_impl; [|exact Hl]. intros e [_ He]. exact He. }
  destruct (SpecialCases.checkUmariyyatan heirs) as [u|] eqn:Hum.
  { destruct (umariyyatan_complete heirs u Hvalid Hum)
      as (i & Hi & Hok & Hsum & Hother).
    exists i, (Fraction.mk 1 1). rewrite Hother. auto. }
  destruct (calculateRemainder_spec heirs)
    as (total & rem & Htotal & Hct & Hrem & Hcr & Hvrem).
  destruct (calculateFixedSharesTotal_lits heirs)
    as (total' & Htotal' & _ & Hlits).
  assert (total' = total) by congruence. subst total'.
  destruct (calculateAsaba_spec heirs rem Hvalid Hnone Hrem Hcr)
    as (ar & Har & Hwar & Hasaba).
  destruct (applySpecialCases_spec heirs total rem Hvalid Hnone Hum Htotal
              Hct Hrem Hcr) as (sc & Happly & Hur & Hsc & Hregime).
  destruct (entries_spec heirs sc ar Hvalid Hslip Happly Hur Hsc Har Hwar)
    as (i & Hi & Hok & Hval).
  destruct (totalFractionSum_spec _ Hok) as (s & Hs & Hcs & Hvs).
  exists i, s. split; [exact Hi|]. split; [auto|]. split; [exact Hs|].
  rewrite <- Hvs in Hval. clear Hvs Hs Hi Hok Happly.
  set (T := Fraction.value total) in *. set (R := Fraction.value rem) in *.
  assert (Hlone : Spec.otherHeirPresent heirs = false ->
            (T <= 1 # 2)%Q
            /\ (Fraction.value (Spec.loneSpouseShare heirs) == T)%Q
            /\ Fraction.canonical (Spec.loneSpouseShare heirs)
            /\ (Z.of_nat (List.length (SpecialCases.getRaddRecipients heirs))
                =? 0) = true).
  { intros Hother.
    destruct (loneSpouse_facts heirs Hvalid Hother) as (H1 & H2 & H3 & H4).
    rewrite <- Hlits in H1.
    split; [rewrite H1; exact H2|].
    split; [symmetry; exact H1|]. split; assumption. }
  assert (Hone : (Fraction.value s == 1)%Q ->
            Spec.otherHeirPresent heirs = true ->
            s = (if Spec.otherHeirPresent heirs then Fraction.mk 1 1
                 else Spec.loneSpouseShare heirs)).
  { intros Hv ->. apply Fraction_canonical_value_eq;
      [exact Hcs|exact canonical_one|exact Hv]. }
  destruct Hregime
    as [(Hbig & Hawl & Hfactor & Hradd)|(Hsmall & Hawl & r & Hradd & Hr)].
  - (* the reduction applies *)
    apply Hone.
    + rewrite Hval, <- Hlits, Hfactor.
      rewrite (raddPart_not_applied heirs sc)
        by (rewrite Hradd; exact I).
      rewrite (asabaPart_off heirs sc ar) by (left; exact Hawl).
      field. lra.
    + destruct (Spec.otherHeirPresent heirs) eqn:Hother; [reflexivity|].
      destruct (Hlone eq_refl) as (Hhalf & _). lra.
  - rewrite (awlFactor_not_applied sc Hawl) in Hval.
    rewrite <- Hlits in Hval.
    destruct Hr as [(Hoff & Hwhy)|(Hon & Hpos & Hda & Hlen & Hsum)].
    + rewrite (raddPart_not_applied heirs sc) in Hval
        by (rewrite Hradd; exact Hoff).
      destruct Hasaba
        as [(Hnoasaba & Hnot)
           |(info & Hda & Hpos & Hhas & Hinfo & Hparts & Hnof)].
      * rewrite (asabaPart_off heirs sc ar) in Hval by (right; exact Hnot).
        destruct (Qlt_le_dec 0 R) as [Hpos|Hle].
        -- (* a spouse alone: the remainder stays undistributed *)
           assert (Hda : Shares.determineAsaba heirs = None)
             by (destruct Hnoasaba as [H|H]; [exact H|lra]).
           assert (Hempty :
             (Z.of_nat (List.length (SpecialCases.getRaddRecipients heirs))
              =? 0) = true).
           { destruct Hwhy as [H|[H|H]]; [lra|congruence|exact H]. }
           pose proof (nobody_else heirs Hvalid Hnone Hda Hempty) as Hother.
           rewrite Hother.
           destruct (Hlone Hother) as (_ & Hv & Hc & _).
           apply Fraction_canonical_value_eq; [exact Hcs|exact Hc|].
           rewrite Hval, Hv. ring.
        -- (* the fixed shares exhaust the estate *)
           apply Hone; [rewrite Hval; lra|].
           destruct (Spec.otherHeirPresent heirs) eqn:Hother; [reflexivity|].
           destruct (Hlone eq_refl) as (Hhalf & _). lra.
      * (* a residuary heir takes the remainder *)
        rewrite (asabaPart_on heirs sc ar info R Hvalid Hnone Hawl Hda Hinfo
                   Hparts Hnof) in Hval.
        apply Hone; [rewrite Hval; lra|].
        exact (residuary_present heirs info Hvalid Hnone Hda).
    + (* the remainder is redistributed *)
      rewrite Hsum in Hval.
      rewrite (asabaPart_off heirs sc ar) in Hval.
      2:{ right. destruct Hasaba as [(_ & Hnot)|(info & Hinfo & _)];
            [exact Hnot|congruence]. }
      apply Hone; [rewrite Hval; lra|].
      destruct (Spec.otherHeirPresent heirs) eqn:Hother; [reflexivity|].
      destruct (Hlone eq_refl) as (_ & _ & _ & Hempty). congruence.
Qed.

(** C1, as stated, fails.  A husband is the only heir: he is present and
    nothing blocks him, the composition is valid, and the composite
    computation returns the single entry of the husband with one half; the
    other half is not redistributed, so the entries do not sum to one.  The
    final fractions of the engine say the same: the husband's half is the
    only one that is not zero. *)
Lemma C1_counterexample :
  let heirs :=
    mkHeirs true false None 0 0 0 0 false false false false false
      0 0 0 0 0 0 None None None None in
  validComposition heirs = true
  /\ Blocking.blocked (Blocking.checkBlocking "husband" heirs) = false
  /\ SpecialCases.getRaddRecipients heirs = []
  /\ exists i,
       Complete.calculateCompleteInheritance heirs = Ok i
       /\ Complete.heirsOut i = [Complete.mkEntry "Муж" (Fraction.mk 1 2) false]
       /\ Complete.totalFractionSum (Complete.heirsOut i)
          = Ok (Fraction.mk 1 2)
       /\ Fraction.equals (Fraction.mk 1 2) (Fraction.mk 1 1) = Ok false
       /\ exists finals,
            Spec.finalFractions heirs = Ok finals
            /\ Spec.sum finals = Ok (Fraction.mk 1 2).
Proof.
  cbv zeta. split; [reflexivity|]. split; [vm_compute; reflexivity|].
  split; [vm_compute; reflexivity|].
  eexists. split; [vm_compute; reflexivity|].
  split; [reflexivity|]. split; [vm_compute; reflexivity|].
  split; [vm_compute; reflexivity|].
  eexists. split; vm_compute; reflexivity.
Qed.

Lemma calculateCompleteInheritance_sum_witness :
  exists i s,
    Complete.calculateCompleteInheritance
      (mkHeirs false true (Some 1) 1 1 0 0 false true false false false
         0 0 0 0 0 0 None None None None) = Ok i
    /\ Forall (fun e => Complete.entryBlocked e = false) (Complete.heirsOut i)
    /\ Complete.totalFractionSum (Complete.heirsOut i) = Ok s
    /\ s = Fraction.mk 1 1.
Proof.
  exact (calculateCompleteInheritance_sum
           (mkHeirs false true (Some 1) 1 1 0 0 false true false false false
              0 0 0 0 0 0 None None None None) eq_refl eq_refl eq_refl).
Defined.

(** The two families the composite computation leaves out.  A full sister
    beside a daughter: the fixed shares count the sister's half, the
    composite computation emits no entry for her; the final fractions of
    the engine sum to one. *)
Example sister_beside_daughter :
  let heirs :=
    mkHeirs false false None 0 1 0 0 false false false false false
      0 1 0 0 0 0 None None None None in
  Spec.sistersBesideDaughters heirs = true
  /\ Shares.calculateFixedSharesTotal heirs = Ok (Fraction.mk 1 1)
  /\ exists i,
       Complete.calculateCompleteInheritance heirs = Ok i
       /\ map Complete.share (Complete.heirsOut i) = [Fraction.mk 1 2]
       /\ exists finals,
            Spec.finalFractions heirs = Ok finals
            /\ Spec.sum finals = Ok (Fraction.mk 1 1).
Proof.
  cbv zeta. split; [reflexivity|]. split; [vm_compute; reflexivity|].
  eexists. split; [vm_compute; reflexivity|].
  split; [vm_compute; reflexivity|].
  eexists. split; vm_compute; reflexivity.
Qed.

(** A nephew as the residuary heir: the resolver finds him, the composite
    computation emits no entry for him; the engine allots him the whole
    estate. *)
Example nephew_alone :
  let heirs :=
    mkHeirs false false None 0 0 0 0 false false false false false
      0 0 0 0 0 0 (Some 1) None None None in
  Spec.noDistantAgnates heirs = false
  /\ option_map Shares.ai_key (Shares.determineAsaba heirs)
     = Some "nephewsFullBrothers"
  /\ exists i,
       Complete.calculateCompleteInheritance heirs = Ok i
       /\ Complete.heirsOut i = []
       /\ exists finals,
            Spec.finalFractions heirs = Ok finals
            /\ Spec.sum finals = Ok (Fraction.mk 1 1).
Proof.
  cbv zeta. split; [reflexivity|]. split; [vm_compute; reflexivity|].
  eexists. split; [vm_compute; reflexivity|].
  split; [vm_compute; reflexivity|].
  eexists. split; vm_compute; reflexivity.
Qed.

(** ** The redistribution law *)

Section RaddLaw.

Import Shares Shares.HeirTypes SpecialCases Complete.

Lemma NoDup_pushIf (guard : bool) (x : string) (l : list string) :
  NoDup l -> includes l x = false -> NoDup (pushIf guard x l).
Proof.
  intros Hl Hx. unfold pushIf. destruct guard; [|exact Hl].
  apply NoDup_app; [exact Hl|repeat constructor; intros []|].
  intros y Hy [<-|[]]. apply includes_In in Hy. congruence.
Qed.

Lemma getRaddRecipients_NoDup (heirs : Heirs) :
  NoDup (getRaddRecipients heirs).
Proof.
  unfold getRaddRecipients. cbv zeta.
  destruct (isKalalahCondition heirs);
    repeat (apply NoDup_pushIf;
            [|rewrite ?includes_pushIf; eval_eqb;
              cbn [includes existsb andb orb];
              rewrite ?andb_false_r; reflexivity]);
    constructor.
Qed.

Lemma sumOver_ext (f g : string -> Q) (l : list string) :
  (forall k, In k l -> f k == g k) ->
  Spec.sumOver f l == Spec.sumOver g l.
Proof.
  induction l as [|x l IH]; intros H; cbn [Spec.sumOver]; [reflexivity|].
  rewrite (H x) by (left; reflexivity).
  rewrite IH by (intros k Hk; apply H; right; exact Hk). reflexivity.
Qed.

Lemma sumOver_scale (c : Q) (f : string -> Q) (l : list string) :
  (Spec.sumOver (fun k => c * f k) l == c * Spec.sumOver f l)%Q.
Proof.
  induction l as [|x l IH]; cbn [Spec.sumOver]; [ring|].
  rewrite IH. ring.
Qed.

Lemma assoc_None_iff {A : Type} (key : string) (l : list (string * A)) :
  assoc key l = None <-> ~ In key (map fst l).
Proof.
  induction l as [|[k v] rest IH]; cbn; [tauto|].
  destruct (String.eqb_spec key k) as [->|Hne].
  - split; [discriminate|tauto].
  - rewrite IH. split; [intros H [E|I]; [congruence|tauto]|tauto].
Qed.

Lemma setProperty_fresh {A : Type} (key : string) (v : A)
    (obj : list (string * A)) :
  assoc key obj = None -> setProperty key v obj = (obj ++ [(key, v)])%list.
Proof.
  induction obj as [|[k w] rest IH]; cbn; [reflexivity|].
  destruct (String.eqb key k); [discriminate|].
  intros H. rewrite IH by exact H. reflexivity.
Qed.

(** On recipients without repetition the loop of [calculateAllRaddShares]
    appends one property per recipient, in order. *)
Lemma allRaddShares_loop_keys (heirs : Heirs) (rem total : Fraction.t)
    (pending : list string) :
  Fraction.wf rem -> Fraction.wf total -> ~ Fraction.value total == 0 ->
  NoDup pending ->
  forall acc shares,
    (forall key, In key pending -> assoc key acc = None) ->
    allRaddShares_loop pending heirs rem total acc = Ok shares ->
    map fst shares = (map fst acc ++ pending)%list.
Proof.
  intros Hrem Htotal Hnz Hnd.
  induction Hnd as [|r rest Hr Hnd IH]; intros acc shares Hfresh Hloop.
  - cbn in Hloop. injection Hloop as <-. rewrite app_nil_r. reflexivity.
  - destruct (calculateRaddShareForRecipient_spec r heirs rem total
                Hrem Htotal Hnz) as (x & Hx & _).
    cbn [allRaddShares_loop] in Hloop. rewrite Hx in Hloop.
    cbn [bind] in Hloop.
    rewrite (setProperty_fresh r x acc) in Hloop
      by (apply Hfresh; left; reflexivity).
    apply IH in Hloop.
    + rewrite Hloop, map_app, <- app_assoc. reflexivity.
    + intros key Hkey. apply assoc_None_iff. rewrite map_app, in_app_iff.
      intros [Hin|[<-|[]]]; [|contradiction].
      apply (proj1 (assoc_None_iff key acc)); [|exact Hin].
      apply Hfresh. right. exact Hkey.
Qed.

(** The values of an object with distinct keys, summed by key. *)
Lemma sumValues_by_key (l : list (string * Fraction.t)) :
  NoDup (map fst l) ->
  Spec.sumValues (map snd l) == Spec.sumOver (Spec.addendOf l) (map fst l).
Proof.
  induction l as [|[k v] rest IH]; intros Hnd; [reflexivity|].
  cbn [map fst snd Spec.sumValues Spec.sumOver].
  inversion Hnd as [|? ? Hk Hrest]; subst.
  rewrite IH by exact Hrest.
  apply Qplus_comp.
  - unfold Spec.addendOf. cbn. rewrite String.eqb_refl. reflexivity.
  - apply sumOver_ext. intros key Hkey. unfold Spec.addendOf. cbn.
    destruct (String.eqb_spec key k) as [->|_]; [contradiction|reflexivity].
Qed.

(** Outside the pooled maternal pair, the base share an addend is computed
    from is the one that entered the recipients' total. *)
Lemma baseShare_agree (heirs : Heirs) (key : string) :
  Spec.bothMaternalRecipients heirs = false ->
  In key (getRaddRecipients heirs) ->
  Spec.baseShare heirs [key] key
  = Spec.baseShare heirs (getRaddRecipients heirs) key.
Proof.
  intros Hboth Hkey.
  destruct (baseShare_single heirs)
    as (S1 & S2 & S3 & S4 & S5 & S6 & S7 & S8).
  destruct (baseShare_values heirs (getRaddRecipients heirs))
    as (B1 & B2 & B3 & B4 & B5 & B6 & B7 & B8).
  destruct (includes_recipients heirs) as (_ & _ & _ & _ & _ & _ & I7 & I8).
  cbv zeta in I7, I8.
  pose proof (getRaddRecipients_names heirs key Hkey) as Hname.
  cbn in Hname.
  destruct Hname as [<-|[<-|[<-|[<-|[<-|[<-|[<-|[<-|[]]]]]]]]];
    try congruence.
  rewrite S8, B8, I7. apply includes_In in Hkey. rewrite I8 in Hkey.
  unfold Spec.bothMaternalRecipients in Hboth.
  destruct (isKalalahCondition heirs), (0 <? maternalBrothers heirs),
    (0 <? maternalSisters heirs); try discriminate; reflexivity.
Qed.

End RaddLaw.

(** X1. Take a valid composition with a positive remainder and no
    residuary heir.  The spouse categories are never among the recipients
    of redistribution.  When there is no recipient (a spouse alone, or
    nobody), redistribution is not applied and there is no addend.
    Otherwise, maternal brothers and maternal sisters not both being
    recipients, redistribution applies, there is one addend per recipient,
    each is the remainder times the recipient's base share over the total of
    the recipients' base shares, and the addends sum to exactly the
    remainder. *)
Theorem redistribution_law (heirs : Heirs) (rem : Fraction.t) :
  validComposition heirs = true ->
  Shares.calculateRemainder heirs = Ok rem ->
  (0 < Fraction.value rem)%Q ->
  Shares.determineAsaba heirs = None ->
  Spec.bothMaternalRecipients heirs = false ->
  let recipients := SpecialCases.getRaddRecipients heirs in
  ~ In "husband" recipients /\ ~ In "wife" recipients
  /\ exists r,
       SpecialCases.applyRadd heirs = Ok r
       /\ (recipients = [] ->
           r = SpecialCases.createRaddNotAppliedResult rem)
       /\ (recipients <> [] ->
           SpecialCases.radd_applied r = true
           /\ SpecialCases.radd_recipients r = recipients
           /\ map fst (SpecialCases.radd_raddShares r) = recipients
           /\ (exists total,
                 SpecialCases.calculateRaddRecipientsTotal heirs recipients
                 = Ok total
                 /\ forall key, In key recipients ->
                    exists base x,
                      SpecialCases.getRecipientRaddShare key heirs recipients
                      = Ok base
                      /\ assoc key (SpecialCases.radd_raddShares r) = Some x
                      /\ (Fraction.value x
                          == Fraction.value rem
                             * (Fraction.value base / Fraction.value total))%Q)
           /\ Spec.sum (map snd (SpecialCases.radd_raddShares r)) = Ok rem).
Proof.
  intros Hvalid Hrem Hpos Hda Hboth recipients.
  destruct (getRaddRecipients_no_spouse heirs) as (Hh & Hw).
  split; [exact Hh|]. split; [exact Hw|].
  destruct (calculateRemainder_spec heirs)
    as (total0 & rem' & _ & _ & Hrem' & Hcr & _).
  assert (rem' = rem) by congruence. subst rem'.
  assert (Hwf : Fraction.wf rem) by auto using Fraction_canonical_wf.
  assert (Hg : Fraction.greaterThan rem (Fraction.mk 0 1) = true).
  { apply Fraction_greaterThan_spec; auto using Fraction_wf_int. }
  unfold SpecialCases.applyRadd. rewrite Hrem. cbn [bind].
  change (Fraction.constructor 0 1) with (Ok (Fraction.mk 0 1)).
  cbn [bind]. rewrite Hg, Hda. cbn [negb orb]. fold recipients.
  destruct recipients as [|r0 rest] eqn:Hrec.
  { cbn. eexists. split; [reflexivity|]. split; [reflexivity|].
    intros H. contradiction. }
  rewrite <- Hrec. 
  assert (Hlen : (Z.of_nat (List.length recipients) =? 0) = false)
    by (subst recipients; rewrite Hrec; reflexivity).
  fold recipients in Hrec. rewrite Hlen.
  destruct (calculateRaddRecipientsTotal_spec heirs recipients)
    as (T & HT & HcT & HvT).
  pose proof (raddTotal_pos heirs Hvalid Hlen) as HTpos.
  fold recipients in HTpos. rewrite <- HvT in HTpos.
  assert (Hnz : ~ Fraction.value T == 0) by lra.
  assert (HwT : Fraction.wf T) by auto using Fraction_canonical_wf.
  destruct (allRaddShares_loop_spec heirs rem T recipients Hwf HwT Hnz [])
    as (shares & Hloop & Hin & Hout).
  pose proof (allRaddShares_loop_keys heirs rem T recipients Hwf HwT Hnz
                (getRaddRecipients_NoDup heirs) [] shares
                (fun _ _ => eq_refl) Hloop) as Hkeys.
  cbn [map app] in Hkeys.
  rewrite HT. cbn [bind]. unfold SpecialCases.calculateAllRaddShares.
  rewrite Hloop. cbn [bind ret].
  eexists. split; [reflexivity|].
  split; [intros H; rewrite Hrec in H; discriminate|]. intros _.
  cbn [SpecialCases.radd_applied SpecialCases.radd_recipients
       SpecialCases.radd_raddShares].
  split; [reflexivity|]. split; [reflexivity|]. split; [exact Hkeys|].
  split.
  - exists T. split; [reflexivity|]. intros key Hkey.
    destruct (baseShare_spec key heirs recipients)
      as (base & Hbase & _ & Hvbase & _).
    destruct (Hin key Hkey) as (x & Hx & _ & Hvx).
    exists base, x. split; [exact Hbase|]. split; [exact Hx|].
    rewrite Hvx, Hvbase, (baseShare_agree heirs key Hboth Hkey).
    reflexivity.
  - assert (Hwfs : Forall Fraction.wf (map snd shares)).
    { apply Forall_forall. intros x Hx. apply in_map_iff in Hx.
      destruct Hx as ([k v] & <- & Hkv). cbn.
      assert (Hk : In k recipients)
        by (rewrite <- Hkeys; apply in_map_iff; exists (k, v); auto).
      destruct (Hin k Hk) as (x & Hx & Hw' & _).
      assert (Hnd : NoDup (map fst shares))
        by (rewrite Hkeys; apply getRaddRecipients_NoDup).
      clear - Hkv Hx Hw' Hnd.
      induction shares as [|[k' v'] l IH]; [destruct Hkv|].
      cbn in Hx, Hnd. inversion Hnd as [|? ? Hk' Hl]; subst.
      destruct Hkv as [E|Hkv].
      - injection E as -> ->. rewrite String.eqb_refl in Hx.
        injection Hx as <-. exact Hw'.
      - destruct (String.eqb_spec k k') as [->|_].
        + exfalso. apply Hk'. apply in_map_iff. exists (k', v). auto.
        + apply IH; assumption. }
    destruct (sum_spec (map snd shares) Hwfs) as (s & Hs & Hcs & Hvs).
    rewrite Hs. f_equal.
    apply Fraction_canonical_value_eq; [exact Hcs|exact Hcr|].
    rewrite Hvs, sumValues_by_key
      by (rewrite Hkeys; apply getRaddRecipients_NoDup).
    rewrite Hkeys.
    rewrite (sumOver_ext _
               (fun k => (Fraction.value rem / Fraction.value T)
                         * Spec.baseShare heirs recipients k)%Q).
    + rewrite sumOver_scale, <- HvT. field. exact Hnz.
    + intros key Hkey. destruct (Hin key Hkey) as (x & Hx & _ & Hvx).
      unfold Spec.addendOf. rewrite Hx, Hvx.
      rewrite (baseShare_agree heirs key Hboth Hkey). fold recipients.
      cbv beta. field. exact Hnz.
Qed.

Lemma redistribution_law_witness :
  exists r,
    SpecialCases.applyRadd
      (mkHeirs false false None 0 1 0 0 false true false false false
         0 0 0 0 0 0 None None None None) = Ok r
    /\ SpecialCases.radd_applied r = true
    /\ map fst (SpecialCases.radd_raddShares r) = ["mother"; "daughters"]
    /\ Spec.sum (map snd (SpecialCases.radd_raddShares r))
       = Ok (Fraction.mk 1 3).
Proof.
  assert (Hrem : Shares.calculateRemainder
            (mkHeirs false false None 0 1 0 0 false true false false false
               0 0 0 0 0 0 None None None None) = Ok (Fraction.mk 1 3))
    by (vm_compute; reflexivity).
  assert (Hda : Shares.determineAsaba
            (mkHeirs false false None 0 1 0 0 false true false false false
               0 0 0 0 0 0 None None None None) = None)
    by (vm_compute; reflexivity).
  assert (Hrec : SpecialCases.getRaddRecipients
            (mkHeirs false false None 0 1 0 0 false true false false false
               0 0 0 0 0 0 None None None None) = ["mother"; "daughters"])
    by (vm_compute; reflexivity).
  destruct (redistribution_law
              (mkHeirs false false None 0 1 0 0 false true false false false
                 0 0 0 0 0 0 None None None None)
              (Fraction.mk 1 3) eq_refl Hrem eq_refl Hda eq_refl)
    as (_ & _ & r & Hr & _ & Happlied).
  rewrite Hrec in Happlied.
  destruct (Happlied ltac:(discriminate))
    as (Ha & _ & Hkeys & _ & Hsum).
  exists r. auto.
Defined.

(** ** More of fraction.js *)

Section FractionLaws.

Import Fraction.

(** Two computations that return fractions in lowest terms with the same
    value return the same fraction. *)
Lemma same_fraction (m1 m2 : result t) (x y : t) :
  m1 = Ok x -> m2 = Ok y -> canonical x -> canonical y ->
  value x == value y -> m1 = m2.
Proof.
  intros -> -> Hx Hy Hv. f_equal.
  exact (Fraction_canonical_value_eq x y Hx Hy Hv).
Qed.

Lemma Fraction_value_zero : value (mk 0 1) == 0.
Proof. reflexivity. Qed.

Lemma Fraction_value_one : value (mk 1 1) == 1.
Proof. reflexivity. Qed.

Lemma Fraction_num_nonzero (f : t) : wf f -> (num f <> 0 <-> ~ value f == 0).
Proof.
  intros Hwf. rewrite <- Fraction_isZero_spec. unfold isZero.
  destruct (Z.eqb_spec (num f) 0); split; congruence.
Qed.

(** The product of two integers bounded by 2^26 is held exactly. *)
Lemma exact_product (x y : Z) :
  Z.abs x <= 2 ^ 26 -> Z.abs y <= 2 ^ 26 -> Z.abs (x * y) <= 2 ^ 52.
Proof.
  intros Hx Hy. rewrite Z.abs_mul.
  change (2 ^ 52) with (2 ^ 26 * 2 ^ 26).
  apply Z.mul_le_mono_nonneg; auto using Z.abs_nonneg.
Qed.

Lemma gcd_times_lcm (a b : Z) : Z.gcd a b * Z.lcm a b = Z.abs (a * b).
Proof.
  unfold Z.lcm.
  rewrite <- (Z.abs_eq (Z.gcd a b)) at 1 by apply Z.gcd_nonneg.
  rewrite <- Z.abs_mul. f_equal.
  destruct (Z.gcd_divide_r a b) as [q Hq].
  destruct (Z.eq_dec (Z.gcd a b) 0) as [Hg|Hg].
  - rewrite Hg. apply Z.gcd_eq_0 in Hg. destruct Hg as [-> ->]. reflexivity.
  - set (g := Z.gcd a b) in *. rewrite Hq, Z.div_mul by exact Hg. ring.
Qed.

End FractionLaws.

(** X2. [Fraction.gcd] returns the greatest common divisor of its operands:
    it is not negative, divides both, and is divided by every common
    divisor; it does not depend on the order or the signs of the operands,
    and the gcd of a number and zero is its absolute value. *)
Theorem Fraction_gcd_greatest (a b : Z) :
  0 <= Fraction.gcd a b
  /\ (Fraction.gcd a b | a) /\ (Fraction.gcd a b | b)
  /\ (forall c, (c | a) -> (c | b) -> (c | Fraction.gcd a b))
  /\ Fraction.gcd a b = Fraction.gcd b a
  /\ Fraction.gcd (- a) b = Fraction.gcd a b
  /\ Fraction.gcd a 0 = Z.abs a.
Proof.
  rewrite !Fraction_gcd_spec.
  split; [apply Z.gcd_nonneg|].
  split; [apply Z.gcd_divide_l|].
  split; [apply Z.gcd_divide_r|].
  split; [intros c Ha Hb; apply Z.gcd_greatest; assumption|].
  split; [apply Z.gcd_comm|].
  split; [apply Z.gcd_opp_l|apply Z.gcd_0_r].
Qed.

(** X3. On operands of absolute value at most 2^26, whose product a
    double holds exactly, [Fraction.lcm] is defined unless both operands
    are zero (where the division is 0/0); when defined it is the least
    common multiple: not negative, a multiple of both operands that divides
    every common multiple, and its product with the gcd is the absolute
    value of the product of the operands. *)
Theorem Fraction_lcm_least (a b : Z) :
  Z.abs a <= 2 ^ 26 -> Z.abs b <= 2 ^ 26 ->
  Fraction.exactInteger (a * b)
  /\ (Fraction.lcm a b = None <-> a = 0 /\ b = 0)
  /\ forall l, Fraction.lcm a b = Some l ->
       0 <= l /\ (a | l) /\ (b | l)
       /\ (forall m, (a | m) -> (b | m) -> (l | m))
       /\ l * Fraction.gcd a b = Z.abs (a * b).
Proof.
  intros Hsmall_a Hsmall_b.
  split.
  { unfold Fraction.exactInteger.
    pose proof (exact_product a b Hsmall_a Hsmall_b) as H.
    change (2 ^ 52) with 4503599627370496 in H.
    change (2 ^ 53) with 9007199254740992. lia. }
  clear Hsmall_a Hsmall_b.
  unfold Fraction.lcm. cbv zeta. rewrite !Fraction_gcd_spec.
  assert (Hl : Z.gcd a b <> 0 -> Z.abs (a * b) / Z.gcd a b = Z.lcm a b).
  { intros Hg. symmetry. apply Z.div_unique_exact; [exact Hg|].
    symmetry. apply gcd_times_lcm. }
  destruct (Z.eqb_spec (Z.gcd a b) 0) as [Hg|Hg].
  - split; [|intros l Hl'; discriminate].
    split; [intros _|reflexivity].
    apply Z.gcd_eq_0 in Hg. exact Hg.
  - split.
    + split; [discriminate|]. intros [-> ->]. contradiction Hg. reflexivity.
    + intros l Hsome. injection Hsome as <-. rewrite (Hl Hg).
      split; [apply Z.lcm_nonneg|].
      split; [apply Z.divide_lcm_l|].
      split; [apply Z.divide_lcm_r|].
      split; [intros m Ha Hb; apply Z.lcm_least; assumption|].
      rewrite Z.mul_comm. apply gcd_times_lcm.
Qed.

Lemma Fraction_lcm_least_witness :
  Fraction.lcm 4 (-6) = Some 12 /\ 12 * Fraction.gcd 4 (-6) = 24.
Proof.
  destruct (Fraction_lcm_least 4 (-6)) as (_ & _ & H).
  - vm_compute. discriminate.
  - vm_compute. discriminate.
  - split; [reflexivity|].
    destruct (H 12 eq_refl) as (_ & _ & _ & _ & Hg). exact Hg.
Defined.

(** X4. On a fraction with a nonzero denominator [simplify] succeeds and
    returns the same value in lowest terms: positive denominator, numerator
    and denominator coprime; every zero becomes 0/1. *)
Theorem Fraction_simplify_lowest_terms (f : Fraction.t) :
  Fraction.den f <> 0 ->
  exists g,
    Fraction.simplify f = Ok g
    /\ 0 < Fraction.den g
    /\ Z.gcd (Fraction.num g) (Fraction.den g) = 1
    /\ Fraction.num g * Fraction.den f = Fraction.num f * Fraction.den g
    /\ (Fraction.num f = 0 -> g = Fraction.mk 0 1).
Proof.
  intros Hden.
  destruct (Fraction_simplify_nonzero f Hden) as (g & Hg & [Hpos Hcop] & Hv).
  exists g. repeat split; try assumption.
  intros Hz. unfold Fraction.simplify in Hg. rewrite Hz in Hg.
  cbn in Hg. congruence.
Qed.

Lemma Fraction_simplify_lowest_terms_witness :
  exists g,
    Fraction.simplify (Fraction.mk 12 (-18)) = Ok g
    /\ 0 < Fraction.den g
    /\ Z.gcd (Fraction.num g) (Fraction.den g) = 1
    /\ Fraction.num g * (-18) = 12 * Fraction.den g.
Proof.
  destruct (Fraction_simplify_lowest_terms (Fraction.mk 12 (-18)))
    as (g & Hg & Hpos & Hcop & Hv & _); [discriminate|].
  exists g. auto.
Defined.

(** X5. On constructed fractions whose numerators and denominators are at
    most 2^26 in absolute value the arithmetic is exact: every product, sum
    and difference the four methods form is an integer a double holds
    exactly; [add], [subtract] and [multiply] never throw, [divide] throws
    exactly on a zero divisor, and each result denotes the sum, difference,
    product or quotient of the operands, in lowest terms with a positive
    denominator; [clone] returns the fraction it is given. *)
Theorem Fraction_arithmetic_exact (a b : Fraction.t) :
  Fraction.wf a -> Fraction.wf b ->
  Fraction.within (2 ^ 26) a -> Fraction.within (2 ^ 26) b ->
  Forall Fraction.exactInteger
    [ Fraction.num a * Fraction.den b; Fraction.num b * Fraction.den a;
      Fraction.num a * Fraction.den b + Fraction.num b * Fraction.den a;
      Fraction.num a * Fraction.den b - Fraction.num b * Fraction.den a;
      Fraction.den a * Fraction.den b; Fraction.num a * Fraction.num b;
      Fraction.den a * Fraction.num b ]
  /\ (exists c, Fraction.add a b = Ok c /\ Fraction.canonical c
             /\ Fraction.value c == Fraction.value a + Fraction.value b)
  /\ (exists c, Fraction.subtract a b = Ok c /\ Fraction.canonical c
                /\ Fraction.value c == Fraction.value a - Fraction.value b)
  /\ (exists c, Fraction.multiply a b = Ok c /\ Fraction.canonical c
                /\ Fraction.value c == Fraction.value a * Fraction.value b)
  /\ (Fraction.num b = 0 ->
      Fraction.divide a b = Throw (Error Fraction.msgDivisionByZero))
  /\ (Fraction.num b <> 0 ->
      exists c, Fraction.divide a b = Ok c /\ Fraction.canonical c
                /\ Fraction.value c == Fraction.value a / Fraction.value b)
  /\ Fraction.clone a = Ok a.
Proof.
  intros Ha Hb [Hna Hda] [Hnb Hdb].
  split.
  { pose proof (exact_product _ _ Hna Hdb) as P1.
    pose proof (exact_product _ _ Hnb Hda) as P2.
    pose proof (exact_product _ _ Hda Hdb) as P3.
    pose proof (exact_product _ _ Hna Hnb) as P4.
    pose proof (exact_product _ _ Hda Hnb) as P5.
    change (2 ^ 52) with 4503599627370496 in *.
    repeat constructor; unfold Fraction.exactInteger;
      change (2 ^ 53) with 9007199254740992; lia. }
  clear Hna Hda Hnb Hdb.
  split; [exact (Fraction_add_spec a b Ha Hb)|].
  split; [exact (Fraction_subtract_spec a b Ha Hb)|].
  split; [exact (Fraction_multiply_spec a b Ha Hb)|].
  split.
  { intros Hz. unfold Fraction.divide. rewrite Hz. reflexivity. }
  split; [exact (Fraction_divide_spec a b Ha Hb)|].
  unfold Fraction.clone. rewrite Fraction_constructor_pos by exact Ha.
  destruct a; reflexivity.
Qed.

Lemma Fraction_arithmetic_exact_witness :
  (exists c, Fraction.add (Fraction.mk 1 2) (Fraction.mk 1 3) = Ok c
             /\ Fraction.value c == 5 # 6)
  /\ Fraction.clone (Fraction.mk 1 2) = Ok (Fraction.mk 1 2).
Proof.
  destruct (Fraction_arithmetic_exact (Fraction.mk 1 2) (Fraction.mk 1 3))
    as (_ & (c & Hc & _ & Hv) & _ & _ & _ & _ & Hclone);
    [reflexivity|reflexivity
    |split; vm_compute; discriminate|split; vm_compute; discriminate|].
  split; [exists c; split; [exact Hc|rewrite Hv; reflexivity]|exact Hclone].
Defined.

Section FractionAlgebra.

Import Fraction.

(** Decompose the outcome of an operation on constructed fractions. *)
Ltac run_add a b c :=
  let H := fresh "Hrun" in let Hc := fresh "Hcan" in let Hv := fresh "Hval" in
  destruct (Fraction_add_spec a b) as (c & H & Hc & Hv);
  [auto using Fraction_canonical_wf ..|]; rewrite ?H; cbn [bind].
Ltac run_subtract a b c :=
  let H := fresh "Hrun" in let Hc := fresh "Hcan" in let Hv := fresh "Hval" in
  destruct (Fraction_subtract_spec a b) as (c & H & Hc & Hv);
  [auto using Fraction_canonical_wf ..|]; rewrite ?H; cbn [bind].
Ltac run_multiply a b c :=
  let H := fresh "Hrun" in let Hc := fresh "Hcan" in let Hv := fresh "Hval" in
  destruct (Fraction_multiply_spec a b) as (c & H & Hc & Hv);
  [auto using Fraction_canonical_wf ..|]; rewrite ?H; cbn [bind].
Ltac run_simplify a c :=
  let H := fresh "Hrun" in let Hc := fresh "Hcan" in let Hv := fresh "Hval" in
  destruct (Fraction_simplify_spec a) as (c & H & Hc & Hv);
  [auto using Fraction_canonical_wf ..|]; rewrite ?H.
Ltac same :=
  eapply same_fraction; [eassumption || reflexivity ..|];
  repeat match goal with H : value _ == _ |- _ => rewrite H; clear H end.

Lemma Fraction_add_comm (a b : t) : wf a -> wf b -> add a b = add b a.
Proof. intros. run_add a b x. run_add b a y. same. ring. Qed.

Lemma Fraction_multiply_comm (a b : t) : wf a -> wf b -> multiply a b = multiply b a.
Proof. intros. run_multiply a b x. run_multiply b a y. same. ring. Qed.

Lemma Fraction_add_assoc (a b c : t) :
  wf a -> wf b -> wf c ->
  (x <- add a b ;; add x c) = (y <- add b c ;; add a y).
Proof.
  intros. run_add a b x. run_add b c y. run_add x c l. run_add a y r.
  same. ring.
Qed.

Lemma Fraction_multiply_assoc (a b c : t) :
  wf a -> wf b -> wf c ->
  (x <- multiply a b ;; multiply x c) = (y <- multiply b c ;; multiply a y).
Proof.
  intros. run_multiply a b x. run_multiply b c y. run_multiply x c l.
  run_multiply a y r. same. ring.
Qed.

Lemma Fraction_multiply_add_distr (a b c : t) :
  wf a -> wf b -> wf c ->
  (y <- add b c ;; multiply a y)
  = (p <- multiply a b ;; q <- multiply a c ;; add p q).
Proof.
  intros. run_add b c y. run_multiply a y l. run_multiply a b p.
  run_multiply a c q. run_add p q r. same. ring.
Qed.

Lemma Fraction_add_zero (a : t) : wf a -> add a (mk 0 1) = simplify a.
Proof.
  intros. run_add a (mk 0 1) x; [reflexivity|]. run_simplify a y.
  same. rewrite Fraction_value_zero. ring.
Qed.

Lemma Fraction_multiply_one (a : t) : wf a -> multiply a (mk 1 1) = simplify a.
Proof.
  intros. run_multiply a (mk 1 1) x; [reflexivity|]. run_simplify a y.
  same. rewrite Fraction_value_one. ring.
Qed.

Lemma Fraction_multiply_zero (a : t) : wf a -> multiply a (mk 0 1) = Ok (mk 0 1).
Proof.
  intros. run_multiply a (mk 0 1) x; [reflexivity|].
  eapply same_fraction;
    [reflexivity|reflexivity|assumption|exact canonical_zero|].
  rewrite Hval, Fraction_value_zero. ring.
Qed.

Lemma Fraction_add_subtract (a b : t) :
  wf a -> wf b -> (x <- add a b ;; subtract x b) = simplify a.
Proof.
  intros. run_add a b x. run_subtract x b l. run_simplify a r. same. ring.
Qed.

Lemma Fraction_subtract_add (a b : t) :
  wf a -> wf b -> (x <- subtract a b ;; add x b) = simplify a.
Proof.
  intros. run_subtract a b x. run_add x b l. run_simplify a r. same. ring.
Qed.

Lemma Fraction_subtract_self (a : t) : wf a -> subtract a a = Ok (mk 0 1).
Proof.
  intros. run_subtract a a x.
  eapply same_fraction;
    [reflexivity|reflexivity|assumption|exact canonical_zero|].
  rewrite Hval, Fraction_value_zero. ring.
Qed.

Lemma Fraction_multiply_divide (a b : t) :
  wf a -> wf b -> num b <> 0 ->
  (x <- multiply a b ;; divide x b) = simplify a.
Proof.
  intros Ha Hb Hnz. run_multiply a b x.
  destruct (Fraction_divide_spec x b) as (l & Hl & Hcl & Hvl);
    auto using Fraction_canonical_wf.
  rewrite Hl. run_simplify a r. same.
  field. apply Fraction_num_nonzero; assumption.
Qed.

Lemma Fraction_divide_multiply (a b : t) :
  wf a -> wf b -> num b <> 0 ->
  (x <- divide a b ;; multiply x b) = simplify a.
Proof.
  intros Ha Hb Hnz.
  destruct (Fraction_divide_spec a b) as (x & Hx & Hcx & Hvx); auto.
  rewrite Hx. cbn [bind]. run_multiply x b l. run_simplify a r. same.
  field. apply Fraction_num_nonzero; assumption.
Qed.

Lemma Fraction_divide_self (b : t) : wf b -> num b <> 0 -> divide b b = Ok (mk 1 1).
Proof.
  intros Hb Hnz.
  destruct (Fraction_divide_spec b b) as (x & Hx & Hcx & Hvx); auto.
  eapply same_fraction;
    [exact Hx|reflexivity|assumption|exact canonical_one|].
  rewrite Hvx, Fraction_value_one. field.
  apply Fraction_num_nonzero; assumption.
Qed.

End FractionAlgebra.

(** X6. Constructed fractions with numerators and denominators of at most
    2^13 in absolute value obey the laws of a commutative ring under [add]
    and [multiply], with results equal as objects, not only in value: both
    operations are commutative and associative, [multiply] distributes over
    [add], adding 0/1 or multiplying by 1/1 only simplifies, and multiplying
    by 0/1 gives 0/1.  The bound keeps the two-step computations exact:
    products of two operands stay below 2^26, and what the second step
    forms from them stays below 2^53. *)
Theorem Fraction_ring_laws (a b c : Fraction.t) :
  Fraction.wf a -> Fraction.wf b -> Fraction.wf c ->
  Fraction.within (2 ^ 13) a -> Fraction.within (2 ^ 13) b ->
  Fraction.within (2 ^ 13) c ->
  Fraction.add a b = Fraction.add b a
  /\ Fraction.multiply a b = Fraction.multiply b a
  /\ (x <- Fraction.add a b ;; Fraction.add x c)
     = (y <- Fraction.add b c ;; Fraction.add a y)
  /\ (x <- Fraction.multiply a b ;; Fraction.multiply x c)
     = (y <- Fraction.multiply b c ;; Fraction.multiply a y)
  /\ (y <- Fraction.add b c ;; Fraction.multiply a y)
     = (p <- Fraction.multiply a b ;; q <- Fraction.multiply a c ;;
        Fraction.add p q)
  /\ Fraction.add a (Fraction.mk 0 1) = Fraction.simplify a
  /\ Fraction.multiply a (Fraction.mk 1 1) = Fraction.simplify a
  /\ Fraction.multiply a (Fraction.mk 0 1) = Ok (Fraction.mk 0 1).
Proof.
  intros Ha Hb Hc _ _ _.
  split; [apply Fraction_add_comm; assumption|].
  split; [apply Fraction_multiply_comm; assumption|].
  split; [apply Fraction_add_assoc; assumption|].
  split; [apply Fraction_multiply_assoc; assumption|].
  split; [apply Fraction_multiply_add_distr; assumption|].
  split; [apply Fraction_add_zero; assumption|].
  split; [apply Fraction_multiply_one; assumption|apply Fraction_multiply_zero; assumption].
Qed.

Lemma Fraction_ring_laws_witness :
  (y <- Fraction.add (Fraction.mk 1 3) (Fraction.mk 1 6) ;;
   Fraction.multiply (Fraction.mk 1 2) y)
  = (p <- Fraction.multiply (Fraction.mk 1 2) (Fraction.mk 1 3) ;;
     q <- Fraction.multiply (Fraction.mk 1 2) (Fraction.mk 1 6) ;;
     Fraction.add p q).
Proof.
  destruct (Fraction_ring_laws (Fraction.mk 1 2) (Fraction.mk 1 3)
              (Fraction.mk 1 6))
    as (_ & _ & _ & _ & H & _);
    [reflexivity|reflexivity|reflexivity
    |split; vm_compute; discriminate|split; vm_compute; discriminate
    |split; vm_compute; discriminate|].
  exact H.
Defined.

(** X7. On constructed fractions with numerators and denominators of at
    most 2^17 in absolute value (so that the second step of each round trip
    stays below 2^53), subtraction undoes addition and division undoes
    multiplication, up to simplification: (a + b) - b, (a - b) + b and, for
    a nonzero b, (a * b) / b and (a / b) * b are all the simplified a;
    a - a is 0/1 and b / b is 1/1. *)
Theorem Fraction_inverse_laws (a b : Fraction.t) :
  Fraction.wf a -> Fraction.wf b ->
  Fraction.within (2 ^ 17) a -> Fraction.within (2 ^ 17) b ->
  (x <- Fraction.add a b ;; Fraction.subtract x b) = Fraction.simplify a
  /\ (x <- Fraction.subtract a b ;; Fraction.add x b) = Fraction.simplify a
  /\ Fraction.subtract a a = Ok (Fraction.mk 0 1)
  /\ (Fraction.num b <> 0 ->
      (x <- Fraction.multiply a b ;; Fraction.divide x b)
      = Fraction.simplify a
      /\ (x <- Fraction.divide a b ;; Fraction.multiply x b)
         = Fraction.simplify a
      /\ Fraction.divide b b = Ok (Fraction.mk 1 1)).
Proof.
  intros Ha Hb _ _.
  split; [apply Fraction_add_subtract; assumption|].
  split; [apply Fraction_subtract_add; assumption|].
  split; [apply Fraction_subtract_self; assumption|].
  intros Hnz.
  split; [apply Fraction_multiply_divide; assumption|].
  split; [apply Fraction_divide_multiply; assumption|apply Fraction_divide_self; assumption].
Qed.

Lemma Fraction_inverse_laws_witness :
  (x <- Fraction.multiply (Fraction.mk 2 4) (Fraction.mk 3 7) ;;
   Fraction.divide x (Fraction.mk 3 7))
  = Ok (Fraction.mk 1 2).
Proof.
  destruct (Fraction_inverse_laws (Fraction.mk 2 4) (Fraction.mk 3 7))
    as (_ & _ & _ & H);
    [reflexivity|reflexivity
    |split; vm_compute; discriminate|split; vm_compute; discriminate|].
  destruct H as (H & _); [discriminate|].
  rewrite H. reflexivity.
Defined.

(** X8. The comparisons order constructed fractions with numerators and
    denominators of at most 2^26 in absolute value by their value: the two
    cross products compared are integers a double holds exactly, [lessThan]
    is the strict order of the rationals the fractions denote,
    [greaterThan] is [lessThan] with the operands swapped, exactly one of
    [lessThan], [equals] and [greaterThan] holds of any two fractions, and
    [lessThan] is transitive. *)
Theorem Fraction_order_trichotomy (a b : Fraction.t) :
  Fraction.wf a -> Fraction.wf b ->
  Fraction.within (2 ^ 26) a -> Fraction.within (2 ^ 26) b ->
  Fraction.exactInteger (Fraction.num a * Fraction.den b)
  /\ Fraction.exactInteger (Fraction.num b * Fraction.den a)
  /\ (Fraction.lessThan a b = true
   <-> (Fraction.value a < Fraction.value b)%Q)
  /\ Fraction.greaterThan a b = Fraction.lessThan b a
  /\ (exists e,
        Fraction.equals a b = Ok e
        /\ ((Fraction.lessThan a b = true /\ e = false
             /\ Fraction.greaterThan a b = false)
            \/ (Fraction.lessThan a b = false /\ e = true
                /\ Fraction.greaterThan a b = false)
            \/ (Fraction.lessThan a b = false /\ e = false
                /\ Fraction.greaterThan a b = true)))
  /\ (forall c, Fraction.wf c -> Fraction.within (2 ^ 26) c ->
        Fraction.lessThan a b = true -> Fraction.lessThan b c = true ->
        Fraction.lessThan a c = true).
Proof.
  intros Ha Hb [Hna Hda] [Hnb Hdb].
  assert (Hexact : forall x y, Z.abs x <= 2 ^ 26 -> Z.abs y <= 2 ^ 26 ->
            Fraction.exactInteger (x * y)).
  { intros x y Hx Hy. unfold Fraction.exactInteger.
    pose proof (exact_product x y Hx Hy) as H.
    change (2 ^ 52) with 4503599627370496 in H.
    change (2 ^ 53) with 9007199254740992. lia. }
  split; [apply Hexact; assumption|].
  split; [apply Hexact; assumption|].
  clear Hexact Hna Hda Hnb Hdb.
  pose proof (Fraction_lessThan_spec a b Ha Hb) as Hlt.
  pose proof (Fraction_greaterThan_spec a b Ha Hb) as Hgt.
  split; [exact Hlt|]. split; [reflexivity|]. split.
  - destruct (Fraction_equals_spec a b Ha Hb) as (e & He & Heq).
    exists e. split; [exact He|].
    destruct (Fraction.lessThan a b) eqn:L, (Fraction.greaterThan a b) eqn:G,
      e eqn:E; auto;
      repeat match goal with
             | H : true = true <-> _ |- _ =>
               pose proof (proj1 H eq_refl); clear H
             | H : false = true <-> ?P |- _ =>
               assert (~ P) by (intro X; apply H in X; discriminate); clear H
             end; exfalso; lra.
  - intros c Hc _ Hab Hbc.
    apply (Fraction_lessThan_spec a c Ha Hc).
    apply Hlt in Hab. apply (Fraction_lessThan_spec b c Hb Hc) in Hbc. lra.
Qed.

Lemma Fraction_order_trichotomy_witness :
  Fraction.lessThan (Fraction.mk 1 3) (Fraction.mk 1 2) = true
  /\ Fraction.greaterThan (Fraction.mk 1 3) (Fraction.mk 1 2) = false.
Proof.
  destruct (Fraction_order_trichotomy (Fraction.mk 1 3) (Fraction.mk 1 2))
    as (_ & _ & Hlt & Hgt & _);
    [reflexivity|reflexivity
    |split; vm_compute; discriminate|split; vm_compute; discriminate|].
  split; [apply Hlt; reflexivity|rewrite Hgt; reflexivity].
Defined.

(** X9. The methods do not depend on how an operand is written: when
    [equals] holds of two constructed fractions, either can replace the
    other as an operand of [add], [subtract] or [multiply] and in the
    comparisons without changing the result, and both simplify to the same
    fraction.  The operands have numerators and denominators of at most
    2^26 in absolute value, so that each method computes exactly. *)
Theorem Fraction_representation_independent (a a' b : Fraction.t) :
  Fraction.wf a -> Fraction.wf a' -> Fraction.wf b ->
  Fraction.within (2 ^ 26) a -> Fraction.within (2 ^ 26) a' ->
  Fraction.within (2 ^ 26) b ->
  Fraction.equals a a' = Ok true ->
  Fraction.simplify a = Fraction.simplify a'
  /\ Fraction.add a b = Fraction.add a' b
  /\ Fraction.subtract a b = Fraction.subtract a' b
  /\ Fraction.subtract b a = Fraction.subtract b a'
  /\ Fraction.multiply a b = Fraction.multiply a' b
  /\ Fraction.lessThan a b = Fraction.lessThan a' b
  /\ Fraction.greaterThan a b = Fraction.greaterThan a' b
  /\ Fraction.isZero a = Fraction.isZero a'
  /\ Fraction.equals a b = Fraction.equals a' b.
Proof.
  intros Ha Ha' Hb _ _ _ Heq.
  assert (Hv : Fraction.value a == Fraction.value a').
  { destruct (Fraction_equals_spec a a' Ha Ha') as (e & He & Hiff).
    apply Hiff. congruence. }
  assert (Hs : Fraction.simplify a = Fraction.simplify a').
  { destruct (Fraction_simplify_spec a Ha) as (x & Hx & Hcx & Hvx).
    destruct (Fraction_simplify_spec a' Ha') as (y & Hy & Hcy & Hvy).
    eapply same_fraction; eauto. rewrite Hvx, Hvy. exact Hv. }
  assert (Hbool : forall x y : bool, (x = true <-> y = true) -> x = y).
  { intros [|] [|] H; try reflexivity; [symmetry|]; apply H; reflexivity. }
  split; [exact Hs|].
  split.
  { destruct (Fraction_add_spec a b Ha Hb) as (x & Hx & Hcx & Hvx).
    destruct (Fraction_add_spec a' b Ha' Hb) as (y & Hy & Hcy & Hvy).
    eapply same_fraction; eauto. rewrite Hvx, Hvy, Hv. reflexivity. }
  split.
  { destruct (Fraction_subtract_spec a b Ha Hb) as (x & Hx & Hcx & Hvx).
    destruct (Fraction_subtract_spec a' b Ha' Hb) as (y & Hy & Hcy & Hvy).
    eapply same_fraction; eauto. rewrite Hvx, Hvy, Hv. reflexivity. }
  split.
  { destruct (Fraction_subtract_spec b a Hb Ha) as (x & Hx & Hcx & Hvx).
    destruct (Fraction_subtract_spec b a' Hb Ha') as (y & Hy & Hcy & Hvy).
    eapply same_fraction; eauto. rewrite Hvx, Hvy, Hv. reflexivity. }
  split.
  { destruct (Fraction_multiply_spec a b Ha Hb) as (x & Hx & Hcx & Hvx).
    destruct (Fraction_multiply_spec a' b Ha' Hb) as (y & Hy & Hcy & Hvy).
    eapply same_fraction; eauto. rewrite Hvx, Hvy, Hv. reflexivity. }
  split.
  { apply Hbool. rewrite (Fraction_lessThan_spec a b Ha Hb),
      (Fraction_lessThan_spec a' b Ha' Hb), Hv. reflexivity. }
  split.
  { apply Hbool. rewrite (Fraction_greaterThan_spec a b Ha Hb),
      (Fraction_greaterThan_spec a' b Ha' Hb), Hv. reflexivity. }
  split.
  { apply Hbool. rewrite !Fraction_isZero_spec, Hv. reflexivity. }
  unfold Fraction.equals. rewrite Hs. reflexivity.
Qed.

Lemma Fraction_representation_independent_witness :
  Fraction.add (Fraction.mk 2 4) (Fraction.mk 1 3)
  = Fraction.add (Fraction.mk 1 2) (Fraction.mk 1 3).
Proof.
  destruct (Fraction_representation_independent (Fraction.mk 2 4)
              (Fraction.mk 1 2) (Fraction.mk 1 3))
    as (_ & H & _);
    [reflexivity|reflexivity|reflexivity
    |split; vm_compute; discriminate|split; vm_compute; discriminate
    |split; vm_compute; discriminate|reflexivity|].
  exact H.
Defined.

(** ** More of blocking.js *)

Section BlockingFacts.

Import Blocking.

Lemma BlockableHeirTypes_names :
  BlockableHeirTypes
  = [ "paternalGrandfather"; "paternalGrandmother"; "grandsonsFromSon";
      "granddaughtersFromSon"; "fullBrothers"; "fullSisters";
      "paternalBrothers"; "paternalSisters" ].
Proof. reflexivity. Qed.

(** A type without a rule is reported unblocked, without a reason. *)
Lemma checkBlocking_unknown (heirType : string) (heirs : Heirs) :
  ~ In heirType BlockableHeirTypes ->
  checkBlocking heirType heirs = mkOutcome false None.
Proof.
  intros Hout. unfold checkBlocking.
  replace (assoc heirType BlockingRules) with (@None (Heirs -> bool));
    [reflexivity|].
  symmetry. apply assoc_None_iff. exact Hout.
Qed.

(** What [checkBlocking] reports for the eight types that have a rule. *)
Lemma checkBlocking_known (heirs : Heirs) :
  let report (b : bool) (why : string) :=
    if b then mkOutcome true (Some why) else mkOutcome false None in
  let siblings :=
    if father heirs then mkOutcome true (Some byFather)
    else if 0 <? sons heirs then mkOutcome true (Some bySon)
    else if 0 <? grandsonsFromSon heirs
    then mkOutcome true (Some byGrandson)
    else mkOutcome false None in
  let paternalSiblings :=
    if father heirs then mkOutcome true (Some byFather)
    else if 0 <? sons heirs then mkOutcome true (Some bySon)
    else if 0 <? grandsonsFromSon heirs
    then mkOutcome true (Some byGrandson)
    else if 0 <? fullBrothers heirs
    then mkOutcome true (Some byFullBrother)
    else mkOutcome false None in
  checkBlocking "paternalGrandfather" heirs = report (father heirs) byFather
  /\ checkBlocking "paternalGrandmother" heirs
     = report (mother heirs) byMother
  /\ checkBlocking "grandsonsFromSon" heirs = report (0 <? sons heirs) bySon
  /\ checkBlocking "granddaughtersFromSon" heirs
     = report (0 <? sons heirs) bySon
  /\ checkBlocking "fullBrothers" heirs = siblings
  /\ checkBlocking "fullSisters" heirs = siblings
  /\ checkBlocking "paternalBrothers" heirs = paternalSiblings
  /\ checkBlocking "paternalSisters" heirs = paternalSiblings.
Proof.
  cbv zeta. unfold checkBlocking, getBlockingReason. simpl.
  destruct (father heirs), (mother heirs), (0 <? sons heirs),
    (0 <? grandsonsFromSon heirs), (0 <? fullBrothers heirs);
    repeat split; reflexivity.
Qed.

End BlockingFacts.

(** X10. The paternal brothers and the paternal sisters are reported
    blocked exactly when the father is present or there is a son, a son's
    son or a full brother. *)
Theorem paternal_siblings_blocking (heirs : Heirs) :
  let blockedIn heirType :=
    Blocking.blocked (Blocking.checkBlocking heirType heirs) in
  (blockedIn "paternalBrothers" = true
   <-> father heirs = true \/ 0 < sons heirs \/ 0 < grandsonsFromSon heirs
       \/ 0 < fullBrothers heirs)
  /\ (blockedIn "paternalSisters" = true
      <-> father heirs = true \/ 0 < sons heirs
          \/ 0 < grandsonsFromSon heirs \/ 0 < fullBrothers heirs).
Proof.
  cbv zeta.
  destruct (checkBlocking_known heirs)
    as (_ & _ & _ & _ & _ & _ & -> & ->).
  destruct (father heirs), (Z.ltb_spec 0 (sons heirs)),
    (Z.ltb_spec 0 (grandsonsFromSon heirs)),
    (Z.ltb_spec 0 (fullBrothers heirs));
    cbn; split; split; intros; auto; try discriminate;
    repeat match goal with
           | H : _ \/ _ |- _ => destruct H
           end; try discriminate; lia.
Qed.

(** X11. For every heir category, named as the fields of a composition
    are, and every composition, [checkBlocking] gives a reason exactly when
    it reports the category blocked; a category without a blocking rule is
    reported unblocked, without a reason.  The eight categories that have a
    rule are among those names. *)
Theorem checkBlocking_reason_iff_blocked (heirType : string)
    (heirs : Heirs) :
  In heirType (map fst (properties heirs)) ->
  (Blocking.blocked (Blocking.checkBlocking heirType heirs) = true
   <-> Blocking.reason (Blocking.checkBlocking heirType heirs) <> None)
  /\ (~ In heirType Blocking.BlockableHeirTypes ->
      Blocking.checkBlocking heirType heirs = Blocking.mkOutcome false None)
  /\ incl Blocking.BlockableHeirTypes (map fst (properties heirs)).
Proof.
  intros _.
  split; [|split; [apply checkBlocking_unknown|]];
    [|rewrite BlockableHeirTypes_names; intros k Hk; cbn in Hk |- *;
      repeat (destruct Hk as [<-|Hk]; [tauto|]); destruct Hk].
  destruct (in_dec string_dec heirType Blocking.BlockableHeirTypes)
    as [Hin|Hout].
  - destruct (checkBlocking_known heirs)
      as (H1 & H2 & H3 & H4 & H5 & H6 & H7 & H8).
    rewrite BlockableHeirTypes_names in Hin. cbn in Hin.
    destruct Hin as [<-|[<-|[<-|[<-|[<-|[<-|[<-|[<-|[]]]]]]]]];
      match goal with
      | H : Blocking.checkBlocking ?t heirs = _
        |- context [Blocking.checkBlocking ?t heirs] => rewrite H
      end;
      destruct (father heirs), (mother heirs), (0 <? sons heirs),
        (0 <? grandsonsFromSon heirs), (0 <? fullBrothers heirs);
      cbn; split; intros; congruence.
  - rewrite (checkBlocking_unknown heirType heirs Hout). cbn.
    split; intros; congruence.
Qed.

Lemma checkBlocking_reason_iff_blocked_witness :
  let heirs :=
    mkHeirs false false None 0 0 0 0 true false false false false
      0 1 0 0 0 0 None None None None in
  Blocking.checkBlocking "fullSisters" heirs
  = Blocking.mkOutcome true (Some Blocking.byFather)
  /\ Blocking.checkBlocking "maternalSisters" heirs
     = Blocking.mkOutcome false None.
Proof.
  cbv zeta. split; [reflexivity|].
  destruct (checkBlocking_reason_iff_blocked "maternalSisters"
              (mkHeirs false false None 0 0 0 0 true false false false false
                 0 1 0 0 0 0 None None None None))
    as (_ & H & _).
  - cbn. tauto.
  - apply H. cbn. intros Hin.
    repeat (destruct Hin as [Hin|Hin]; [discriminate Hin|]). exact Hin.
Defined.

(** X12. The reason names the first blocker in a fixed order.  For the full
    and the paternal siblings: the father, else a son, else a son's son,
    else (paternal siblings only) a full brother; for the paternal
    grandparents the father, respectively the mother; for the son's
    children a son. *)
Theorem blocking_reason_priority (heirs : Heirs) :
  let reasonOf heirType :=
    Blocking.reason (Blocking.checkBlocking heirType heirs) in
  let first :=
    if father heirs then Some Blocking.byFather
    else if 0 <? sons heirs then Some Blocking.bySon
    else if 0 <? grandsonsFromSon heirs then Some Blocking.byGrandson
    else None in
  reasonOf "fullBrothers" = first
  /\ reasonOf "fullSisters" = first
  /\ reasonOf "paternalBrothers"
     = match first with
       | Some why => Some why
       | None => if 0 <? fullBrothers heirs
                 then Some Blocking.byFullBrother else None
       end
  /\ reasonOf "paternalSisters" = reasonOf "paternalBrothers"
  /\ reasonOf "paternalGrandfather"
     = (if father heirs then Some Blocking.byFather else None)
  /\ reasonOf "paternalGrandmother"
     = (if mother heirs then Some Blocking.byMother else None)
  /\ reasonOf "grandsonsFromSon"
     = (if 0 <? sons heirs then Some Blocking.bySon else None)
  /\ reasonOf "granddaughtersFromSon" = reasonOf "grandsonsFromSon".
Proof.
  cbv zeta.
  destruct (checkBlocking_known heirs)
    as (-> & -> & -> & -> & -> & -> & -> & ->).
  destruct (father heirs), (mother heirs), (0 <? sons heirs),
    (0 <? grandsonsFromSon heirs), (0 <? fullBrothers heirs);
    repeat split; reflexivity.
Qed.

(** X13. [getAllBlockings] has one property per blocking rule, in the
    order of the rules and without repetition; reading a property gives
    what [checkBlocking] reports for that category, and a heir category
    that is not a property, named as the fields of a composition are, is
    one that [checkBlocking] reports unblocked. *)
Theorem getAllBlockings_complete (heirs : Heirs) :
  map fst (Blocking.getAllBlockings heirs) = Blocking.BlockableHeirTypes
  /\ NoDup Blocking.BlockableHeirTypes
  /\ List.length (Blocking.getAllBlockings heirs) = 8%nat
  /\ forall heirType,
       In heirType (map fst (properties heirs)) ->
       match assoc heirType (Blocking.getAllBlockings heirs) with
       | Some outcome =>
         In heirType Blocking.BlockableHeirTypes
         /\ outcome = Blocking.checkBlocking heirType heirs
       | None =>
         ~ In heirType Blocking.BlockableHeirTypes
         /\ Blocking.checkBlocking heirType heirs
            = Blocking.mkOutcome false None
       end.
Proof.
  split; [reflexivity|]. split.
  { rewrite BlockableHeirTypes_names.
    repeat (constructor;
            [cbn; intros H;
             repeat (destruct H as [H|H]; [discriminate H|]); exact H|]).
    constructor. }
  split; [reflexivity|]. intros heirType _.
  destruct (in_dec string_dec heirType Blocking.BlockableHeirTypes)
    as [Hin|Hout].
  - rewrite (getAllBlockings_total heirs heirType Hin). auto.
  - replace (assoc heirType (Blocking.getAllBlockings heirs))
      with (@None Blocking.Outcome).
    + split; [exact Hout|apply checkBlocking_unknown; exact Hout].
    + symmetry. apply assoc_None_iff. exact Hout.
Qed.

(** X14. The rules are nested.  Sisters are blocked with their brothers and
    the son's daughters with the son's sons; whatever blocks the full
    siblings blocks the paternal siblings; a son blocks six categories and
    the father five; and when there is no father, mother, son, son's son
    or full brother, no heir category, named as the fields of a composition
    are, is blocked. *)
Theorem blocking_hierarchy (heirs : Heirs) :
  let blockedIn heirType :=
    Blocking.blocked (Blocking.checkBlocking heirType heirs) in
  blockedIn "fullSisters" = blockedIn "fullBrothers"
  /\ blockedIn "paternalSisters" = blockedIn "paternalBrothers"
  /\ blockedIn "granddaughtersFromSon" = blockedIn "grandsonsFromSon"
  /\ (blockedIn "fullBrothers" = true -> blockedIn "paternalBrothers" = true)
  /\ (0 < sons heirs ->
      Forall (fun t => blockedIn t = true)
        [ "grandsonsFromSon"; "granddaughtersFromSon"; "fullBrothers";
          "fullSisters"; "paternalBrothers"; "paternalSisters" ])
  /\ (father heirs = true ->
      Forall (fun t => blockedIn t = true)
        [ "paternalGrandfather"; "fullBrothers"; "fullSisters";
          "paternalBrothers"; "paternalSisters" ])
  /\ (father heirs = false -> mother heirs = false -> sons heirs <= 0 ->
      grandsonsFromSon heirs <= 0 -> fullBrothers heirs <= 0 ->
      forall t, In t (map fst (properties heirs)) -> blockedIn t = false).
Proof.
  cbv zeta.
  destruct (checkBlocking_known heirs)
    as (H1 & H2 & H3 & H4 & H5 & H6 & H7 & H8).
  split; [rewrite H5, H6; reflexivity|].
  split; [rewrite H7, H8; reflexivity|].
  split; [rewrite H3, H4; reflexivity|].
  split.
  { rewrite H5, H7.
    destruct (father heirs), (0 <? sons heirs),
      (0 <? grandsonsFromSon heirs); cbn; auto; discriminate. }
  split.
  { intros Hs. apply Z.ltb_lt in Hs.
    repeat constructor;
      rewrite ?H3, ?H4, ?H5, ?H6, ?H7, ?H8, Hs;
      destruct (father heirs); reflexivity. }
  split.
  { intros Hf. repeat constructor;
      rewrite ?H1, ?H5, ?H6, ?H7, ?H8, Hf; reflexivity. }
  intros Hf Hm Hs Hg Hb t _.
  apply Z.ltb_ge in Hs, Hg, Hb.
  destruct (in_dec string_dec t Blocking.BlockableHeirTypes) as [Hin|Hout].
  - rewrite BlockableHeirTypes_names in Hin. cbn in Hin.
    destruct Hin as [<-|[<-|[<-|[<-|[<-|[<-|[<-|[<-|[]]]]]]]]];
      rewrite ?H1, ?H2, ?H3, ?H4, ?H5, ?H6, ?H7, ?H8, ?Hf, ?Hm, ?Hs, ?Hg, ?Hb;
      reflexivity.
  - rewrite (checkBlocking_unknown t heirs Hout). reflexivity.
Qed.

Lemma blocking_hierarchy_witness :
  Forall (fun t =>
            Blocking.blocked
              (Blocking.checkBlocking t
                 (mkHeirs false false None 1 0 0 0 false false false false
                    false 0 0 0 0 0 0 None None None None)) = true)
    [ "grandsonsFromSon"; "granddaughtersFromSon"; "fullBrothers";
      "fullSisters"; "paternalBrothers"; "paternalSisters" ].
Proof.
  destruct (blocking_hierarchy
              (mkHeirs false false None 1 0 0 0 false false false false
                 false 0 0 0 0 0 0 None None None None))
    as (_ & _ & _ & _ & H & _).
  apply H. reflexivity.
Defined.

(** ** More of shares.js *)

(** X15. [getHeirTypeById] inverts the [id] field: it finds every
    descriptor of [HeirTypes] from its own id, whatever it finds has the id
    asked for, and an id no descriptor has gives [null]; the ids, like the
    keys, are pairwise distinct. *)
Theorem getHeirTypeById_roundtrip :
  (forall key type,
     In (key, type) Shares.HeirTypes_entries ->
     Shares.getHeirTypeById (Shares.id type) = Some type)
  /\ (forall wanted type,
        Shares.getHeirTypeById wanted = Some type ->
        Shares.id type = wanted
        /\ In type (map snd Shares.HeirTypes_entries))
  /\ (forall wanted,
        ~ In wanted (map (fun kv => Shares.id (snd kv))
                       Shares.HeirTypes_entries) ->
        Shares.getHeirTypeById wanted = None)
  /\ NoDup (map (fun kv => Shares.id (snd kv)) Shares.HeirTypes_entries)
  /\ NoDup (map fst Shares.HeirTypes_entries)
  /\ List.length Shares.HeirTypes_entries = 21%nat.
Proof.
  split.
  { intros key type Hin. unfold Shares.HeirTypes_entries in Hin.
    cbn [In] in Hin.
    repeat (destruct Hin as [Hin|Hin];
            [injection Hin as <- <-; vm_compute; reflexivity|]).
    destruct Hin. }
  split.
  { intros wanted type Hfind. unfold Shares.getHeirTypeById in Hfind.
    apply find_some in Hfind. destruct Hfind as [Hin Heq].
    apply String.eqb_eq in Heq. auto. }
  split.
  { intros wanted Hout. unfold Shares.getHeirTypeById.
    destruct (find _ _) as [type|] eqn:Hfind; [|reflexivity].
    apply find_some in Hfind. destruct Hfind as [Hin Heq].
    apply String.eqb_eq in Heq. exfalso. apply Hout.
    apply in_map_iff in Hin. destruct Hin as ([k t] & <- & Hin).
    apply in_map_iff. exists (k, t). auto. }
  assert (Hnodup : forall l : list string,
            nodup string_dec l = l -> NoDup l).
  { intros l <-. apply NoDup_nodup. }
  split; [apply Hnodup; vm_compute; reflexivity|].
  split; [apply Hnodup; vm_compute; reflexivity|reflexivity].
Qed.

Section QuranicShares.

Import Shares Shares.HeirTypes Complete.

Lemma validQuranicFractions_value :
  validQuranicFractions
  = Ok [ Fraction.mk 1 2; Fraction.mk 1 4; Fraction.mk 1 8; Fraction.mk 2 3;
         Fraction.mk 1 3; Fraction.mk 1 6; Fraction.mk 0 1 ].
Proof. reflexivity. Qed.

(** Every literal a descriptor can answer is one of the seven. *)
Ltac quranic :=
  repeat match goal with
         | |- context [if ?c then _ else _] => destruct c
         end;
  eexists; (split; [reflexivity|]); cbv beta iota;
  try exact I; eexists; (split; [reflexivity|]);
  (split; [vm_compute; reflexivity|]); cbn; tauto.

Lemma getShare_quranic (key : string) (type : HeirType) (heirs : Heirs) :
  In (key, type) HeirTypes_entries ->
  exists r,
    getShare type heirs = Ok r
    /\ match r with
       | None => True
       | Some f =>
         exists fractions,
           validQuranicFractions = Ok fractions
           /\ someEquals fractions f = Ok true
           /\ In f fractions
       end.
Proof.
  intros Hin. unfold HeirTypes_entries in Hin. cbn [In] in Hin.
  repeat (destruct Hin as [Hin|Hin];
          [injection Hin as <- <-;
           cbn [getShare HUSBAND WIFE SON DAUGHTER GRANDSON_FROM_SON
                GRANDDAUGHTER_FROM_SON FATHER MOTHER PATERNAL_GRANDFATHER
                PATERNAL_GRANDMOTHER MATERNAL_GRANDMOTHER FULL_BROTHER
                FULL_SISTER PATERNAL_BROTHER PATERNAL_SISTER
                NEPHEW_FULL_BROTHER NEPHEW_PATERNAL_BROTHER UNCLE_FULL
                UNCLE_PATERNAL MATERNAL_BROTHER MATERNAL_SISTER];
           unfold HUSBAND_getShare, WIFE_getShare, MOTHER_getShare,
             maternalSibling_getShare; quranic|]).
  destruct Hin.
Qed.

Lemma assoc_In {A : Type} (key : string) (l : list (string * A)) (v : A) :
  assoc key l = Some v -> In (key, v) l.
Proof.
  induction l as [|[k w] rest IH]; cbn; [discriminate|].
  destruct (String.eqb_spec key k) as [->|_].
  - intros H. injection H as <-. left. reflexivity.
  - intros H. right. exact (IH H).
Qed.

End QuranicShares.

(** X16. [getHeirShare] never throws.  For a key of [HeirTypes] it answers
    [null] or one of the seven fractions 1/2, 1/4, 1/8, 2/3, 1/3, 1/6, 0
    that the property tests call Quranic, whatever the composition; for any
    other key it answers [null].  The oracle [validateQuranicFractions] of
    the property tests therefore holds of every composition. *)
Theorem getHeirShare_quranic (heirTypeKey : string) (heirs : Heirs) :
  (exists r,
     Shares.getHeirShare heirTypeKey heirs = Ok r
     /\ match r with
        | None => True
        | Some f =>
          exists fractions,
            Complete.validQuranicFractions = Ok fractions
            /\ Complete.someEquals fractions f = Ok true
            /\ In f fractions
        end
     /\ (~ In heirTypeKey (map fst Shares.HeirTypes_entries) -> r = None))
  /\ Complete.validateQuranicFractions heirs = Ok true.
Proof.
  split.
  - unfold Shares.getHeirShare.
    destruct (assoc heirTypeKey Shares.HeirTypes_entries) as [type|] eqn:Hk.
    + apply assoc_In in Hk.
      destruct (getShare_quranic heirTypeKey type heirs Hk) as (r & Hr & Hq).
      exists r. split; [exact Hr|]. split; [exact Hq|].
      intros Hout. exfalso. apply Hout. apply in_map_iff.
      exists (heirTypeKey, type). auto.
    + exists None. repeat split.
  - unfold Complete.validateQuranicFractions.
    rewrite validQuranicFractions_value. cbn [bind].
    destruct (calculateWifeShare_shape heirs) as (p & Hw & _).
    unfold Shares.calculateHusbandShare, Shares.HeirTypes.HUSBAND_getShare,
      Shares.calculateMotherShare, Shares.HeirTypes.MOTHER_getShare.
    rewrite Hw.
    destruct (Shares.hasChildren heirs), (Shares.hasMultipleSiblings heirs);
      vm_compute; reflexivity.
Qed.

(** X17. The exported [isAsaba] answers true exactly for the ten male
    residuary keys; each of them, the father and the paternal grandfather
    apart, has no fixed share in any composition; the residuary priority
    list is the residuary descriptors of [HeirTypes], in the same order;
    and every residuary descriptor is male. *)
Theorem isAsaba_residuary_types :
  (forall key,
     Shares.ByKey.isAsaba key = true
     <-> In key [ "SON"; "GRANDSON_FROM_SON"; "FATHER";
                  "PATERNAL_GRANDFATHER"; "FULL_BROTHER"; "PATERNAL_BROTHER";
                  "NEPHEW_FULL_BROTHER"; "NEPHEW_PATERNAL_BROTHER";
                  "UNCLE_FULL"; "UNCLE_PATERNAL" ])
  /\ (forall key heirs,
        Shares.ByKey.isAsaba key = true ->
        key <> "FATHER" -> key <> "PATERNAL_GRANDFATHER" ->
        Shares.getHeirShare key heirs = Ok None)
  /\ map Shares.ap_type Shares.AsabaPriority
     = filter Shares.isAsaba (map snd Shares.HeirTypes_entries)
  /\ (forall key type,
        In (key, type) Shares.HeirTypes_entries ->
        Shares.isAsaba type = true -> Shares.gender type = "male").
Proof.
  assert (Hcases : forall key,
    Shares.ByKey.isAsaba key = true ->
    In key [ "SON"; "GRANDSON_FROM_SON"; "FATHER";
             "PATERNAL_GRANDFATHER"; "FULL_BROTHER"; "PATERNAL_BROTHER";
             "NEPHEW_FULL_BROTHER"; "NEPHEW_PATERNAL_BROTHER";
             "UNCLE_FULL"; "UNCLE_PATERNAL" ]).
  { intros key. unfold Shares.ByKey.isAsaba.
    destruct (assoc key Shares.HeirTypes_entries) as [type|] eqn:Hk;
      [|discriminate].
    apply assoc_In in Hk. unfold Shares.HeirTypes_entries in Hk.
    cbn [In] in Hk.
    repeat (destruct Hk as [Hk|Hk];
            [injection Hk as <- <-; cbn; intros; try discriminate; tauto|]).
    destruct Hk. }
  split.
  { intros key. split; [apply Hcases|].
    cbn [In]. intros H.
    repeat (destruct H as [<-|H]; [vm_compute; reflexivity|]). destruct H. }
  split.
  { intros key heirs Hk Hf Hg. apply Hcases in Hk. cbn [In] in Hk.
    repeat (destruct Hk as [<-|Hk];
            [try contradiction; vm_compute; reflexivity|]).
    destruct Hk. }
  split; [reflexivity|].
  intros key type Hin. unfold Shares.HeirTypes_entries in Hin.
  cbn [In] in Hin.
  repeat (destruct Hin as [Hin|Hin];
          [injection Hin as <- <-; cbn; intros; try discriminate;
           reflexivity|]).
  destruct Hin.
Qed.

(** X18. [calculateSpouseShare] never throws.  It answers [null] exactly
    when neither spouse flag is set, and the husband's share when both are;
    the share is 1/2 for a husband and 1/4 for the wives, halved when the
    deceased leaves a child or a son's child; and the per-person share
    times the head count is the share. *)
Theorem calculateSpouseShare_facts (heirs : Heirs) :
  exists r,
    Shares.calculateSpouseShare heirs = Ok r
    /\ (r = None <-> husband heirs = false /\ wife heirs = false)
    /\ forall s, r = Some s ->
         Shares.sp_type s = (if husband heirs then "husband" else "wife")
         /\ Shares.sp_share s
            = (if husband heirs
               then if Shares.hasChildren heirs then Fraction.mk 1 4
                    else Fraction.mk 1 2
               else if Shares.hasChildren heirs then Fraction.mk 1 8
                    else Fraction.mk 1 4)
         /\ Shares.sp_count s
            = (if husband heirs then 1
               else orDefaultOpt (wifeCount heirs) 1)
         /\ Shares.sp_count s <> 0
         /\ Fraction.wf (Shares.sp_perPersonShare s)
         /\ Fraction.value (Shares.sp_perPersonShare s)
            * inject_Z (Shares.sp_count s)
            == Fraction.value (Shares.sp_share s).
Proof.
  unfold Shares.calculateSpouseShare.
  destruct (husband heirs).
  - unfold Shares.calculateHusbandShare, Shares.HeirTypes.HUSBAND_getShare.
    destruct (Shares.hasChildren heirs); cbn; eexists;
      (split; [reflexivity|]); (split; [split; [discriminate|intros [? ?];
                                                  discriminate]|]);
      intros s Hs; injection Hs as <-; cbn;
      repeat split; try discriminate; reflexivity.
  - destruct (wife heirs).
    + destruct (calculateWifeShare_shape heirs) as (p & Hw & Hcp & Hvp).
      rewrite Hw. cbn [bind ret]. eexists. split; [reflexivity|].
      split; [split; [discriminate|intros [? ?]; discriminate]|].
      intros s Hs. injection Hs as <-.
      cbn [Shares.sp_type Shares.sp_share Shares.sp_count
           Shares.sp_perPersonShare Shares.ws_totalShare
           Shares.ws_wifeCount Shares.ws_perWifeShare].
      assert (Hnz : orDefaultOpt (wifeCount heirs) 1 <> 0).
      { unfold orDefaultOpt, orDefault.
        destruct (wifeCount heirs) as [n|]; [|discriminate].
        destruct (Z.eqb_spec n 0); [discriminate|assumption]. }
      split; [reflexivity|]. split; [reflexivity|]. split; [reflexivity|].
      split; [exact Hnz|]. split; [apply Fraction_canonical_wf; exact Hcp|].
      rewrite Hvp. field. apply inject_Z_nonzero. exact Hnz.
    + cbn. eexists. split; [reflexivity|]. split; [tauto|].
      intros s Hs. discriminate.
Qed.

(** X19. [calculateGrandmotherShare] never throws.  It answers [null]
    exactly when no grandmother is present or the mother is, who blocks
    both; otherwise the grandmothers present, one or two, share one sixth
    evenly: the per-person share times their number is 1/6. *)
Theorem calculateGrandmotherShare_split (heirs : Heirs) :
  exists r,
    Shares.calculateGrandmotherShare heirs = Ok r
    /\ (r = None
        <-> (paternalGrandmother heirs || maternalGrandmother heirs)
            && negb (mother heirs) = false)
    /\ forall g, r = Some g ->
         mother heirs = false
         /\ Shares.gm_totalShare g = Fraction.mk 1 6
         /\ Shares.gm_paternalGrandmother g = paternalGrandmother heirs
         /\ Shares.gm_maternalGrandmother g = maternalGrandmother heirs
         /\ Shares.gm_grandmotherCount g
            = (if paternalGrandmother heirs then 1 else 0)
              + (if maternalGrandmother heirs then 1 else 0)
         /\ 1 <= Shares.gm_grandmotherCount g <= 2
         /\ Fraction.value (Shares.gm_perGrandmotherShare g)
            * inject_Z (Shares.gm_grandmotherCount g) == 1 # 6.
Proof.
  unfold Shares.calculateGrandmotherShare.
  destruct (paternalGrandmother heirs), (maternalGrandmother heirs),
    (mother heirs); cbn;
    eexists; (split; [reflexivity|]);
    (split; [split; intros; (reflexivity || discriminate)|]);
    intros g Hg; try discriminate; injection Hg as <-; cbn;
    repeat split; try reflexivity; try lia; discriminate.
Qed.

Section Descendants.

Import Shares Shares.HeirTypes.

(** A fixed share over a nonzero head count. *)
Lemma perPerson_spec (lit : Fraction.t) (count : Z) :
  Fraction.wf lit -> count <> 0 ->
  exists p,
    (divisor <- Fraction.constructor count 1 ;; Fraction.divide lit divisor)
    = Ok p
    /\ Fraction.wf p
    /\ Fraction.value p * inject_Z count == Fraction.value lit.
Proof.
  intros Hlit Hcount.
  rewrite (Fraction_constructor_pos count 1) by lia. cbn [bind].
  destruct (Fraction_divide_spec lit (Fraction.mk count 1))
    as (p & Hp & Hcp & Hvp); [exact Hlit|reflexivity|exact Hcount|].
  exists p. split; [exact Hp|]. split; [apply Fraction_canonical_wf, Hcp|].
  rewrite Hvp, Fraction_value_int. field. apply inject_Z_nonzero, Hcount.
Qed.

Ltac entry_ok :=
  unfold Spec.descendantEntryOK; cbn;
  repeat split; intros;
  repeat match goal with
         | H : exists _, _ |- _ => destruct H
         | H : _ /\ _ |- _ => destruct H
         | H : Some _ = Some _ |- _ => injection H as <-
         end;
  try discriminate; try congruence; try assumption; try reflexivity.

Lemma residuaryEntry_ok (type : HeirType) (count : Z) :
  count <> 0 ->
  Spec.descendantEntryOK
    (mkDescendantShare type None count true None false None).
Proof. intros Hc. entry_ok. Qed.

Lemma calculateDaughterShare_ok (heirs : Heirs) :
  exists r,
    calculateDaughterShare heirs = Ok r
    /\ (r = None <-> daughters heirs = 0)
    /\ forall e, r = Some e -> Spec.descendantEntryOK e.
Proof.
  unfold calculateDaughterShare.
  destruct (Z.eqb_spec (daughters heirs) 0) as [Hz|Hnz].
  { exists None. split; [reflexivity|]. split; [tauto|discriminate]. }
  cbn [getShare DAUGHTER].
  destruct (0 <? sons heirs).
  { cbn. eexists. split; [reflexivity|].
    split; [split; [discriminate|contradiction]|].
    intros e He. injection He as <-. apply residuaryEntry_ok. exact Hnz. }
  set (lit := if daughters heirs =? 1 then Fraction.mk 1 2
              else Fraction.mk 2 3).
  assert (Hl : (if daughters heirs =? 1 then some (Fraction.constructor 1 2)
                else some (Fraction.constructor 2 3)) = Ok (Some lit))
    by (subst lit; destruct (daughters heirs =? 1); reflexivity).
  assert (Hfacts : Fraction.wf lit /\ Fraction.isZero lit = false)
    by (subst lit; destruct (daughters heirs =? 1); split; reflexivity).
  destruct Hfacts as (Hwf & Hzero).
  rewrite Hl. cbn [bind].
  destruct (perPerson_spec lit (daughters heirs) Hwf Hnz)
    as (p & Hp & Hwp & Hvp).
  cbn [bind] in Hp.
  rewrite (Fraction_constructor_pos (daughters heirs) 1) in Hp |- * by lia.
  cbn [bind] in Hp |- *. rewrite Hp. cbn [bind ret].
  eexists. split; [reflexivity|].
  split; [split; [discriminate|contradiction]|].
  intros e He. injection He as <-. entry_ok.
Qed.

Lemma calculateGranddaughterShare_ok (heirs : Heirs) :
  exists r,
    calculateGranddaughterShare heirs = Ok r
    /\ (r = None <-> 0 < sons heirs \/ granddaughtersFromSon heirs = 0)
    /\ forall e, r = Some e -> Spec.descendantEntryOK e.
Proof.
  unfold calculateGranddaughterShare.
  destruct (Z.ltb_spec 0 (sons heirs)) as [Hs|Hs].
  { exists None. split; [reflexivity|]. split; [tauto|discriminate]. }
  destruct (Z.eqb_spec (granddaughtersFromSon heirs) 0) as [Hz|Hnz].
  { exists None. split; [reflexivity|]. split; [tauto|discriminate]. }
  assert (Hnone : forall e : DescendantShare,
            Some e = None <-> 0 < sons heirs \/ granddaughtersFromSon heirs = 0)
    by (intros e; split; [discriminate|lia]).
  destruct (0 <? grandsonsFromSon heirs) eqn:Hgs.
  { cbn [getShare GRANDDAUGHTER_FROM_SON]. rewrite Hgs. cbn.
    eexists. split; [reflexivity|]. split; [apply Hnone|].
    intros e He. injection He as <-. apply residuaryEntry_ok. exact Hnz. }
  rewrite (granddaughterLiteral_getShare heirs Hgs). cbn [bind].
  pose proof (granddaughterLiteral_wf heirs) as Hwf.
  destruct (Fraction.isZero (Spec.granddaughterLiteral heirs)) eqn:Hzero.
  { cbn. eexists. split; [reflexivity|]. split; [apply Hnone|].
    intros e He. injection He as <-. entry_ok.
    - exists (Fraction.mk 0 1). split; reflexivity. }
  destruct (perPerson_spec (Spec.granddaughterLiteral heirs)
              (granddaughtersFromSon heirs) Hwf Hnz) as (p & Hp & Hwp & Hvp).
  rewrite (Fraction_constructor_pos (granddaughtersFromSon heirs) 1)
    in Hp |- * by lia.
  cbn [bind] in Hp |- *. rewrite Hp. cbn [bind ret].
  eexists. split; [reflexivity|]. split; [apply Hnone|].
  intros e He. injection He as <-. entry_ok.
Qed.

End Descendants.

(** X20. [calculateDescendantShares] never throws.  The sons' entry is
    present exactly when there is a son, the daughters' when the count is
    not zero, the son's sons' when there is one and no son, the son's
    daughters' when there is one and no son.  Every entry is coherent: it
    is residuary exactly when it carries no fixed share, a fixed share is
    split evenly over the heads (per-person share times count is the
    share), and it is flagged blocked, with a reason, exactly when the
    fixed share is zero. *)
Theorem calculateDescendantShares_coherent (heirs : Heirs) :
  exists r,
    Shares.calculateDescendantShares heirs = Ok r
    /\ (Shares.dsc_sons r = None <-> sons heirs <= 0)
    /\ (Shares.dsc_daughters r = None <-> daughters heirs = 0)
    /\ (Shares.dsc_grandsonsFromSon r = None
        <-> grandsonsFromSon heirs <= 0 \/ sons heirs <> 0)
    /\ (Shares.dsc_granddaughtersFromSon r = None
        <-> 0 < sons heirs \/ granddaughtersFromSon heirs = 0)
    /\ forall e,
         In (Some e)
           [ Shares.dsc_sons r; Shares.dsc_daughters r;
             Shares.dsc_grandsonsFromSon r;
             Shares.dsc_granddaughtersFromSon r ] ->
         Spec.descendantEntryOK e.
Proof.
  unfold Shares.calculateDescendantShares.
  destruct (calculateDaughterShare_ok heirs) as (dr & Hdr & Hdn & Hdok).
  destruct (calculateGranddaughterShare_ok heirs) as (gr & Hgr & Hgn & Hgok).
  rewrite Hdr. cbn [bind]. rewrite Hgr. cbn [bind ret].
  eexists. split; [reflexivity|].
  cbn [Shares.dsc_sons Shares.dsc_daughters Shares.dsc_grandsonsFromSon
       Shares.dsc_granddaughtersFromSon].
  split.
  { destruct (Z.ltb_spec 0 (sons heirs)); split; intros;
      (discriminate || lia || reflexivity). }
  split; [exact Hdn|]. split.
  { destruct (Z.ltb_spec 0 (grandsonsFromSon heirs)),
      (Z.eqb_spec (sons heirs) 0); cbn; split; intros;
      (discriminate || lia || reflexivity). }
  split; [exact Hgn|].
  intros e [He|[He|[He|[He|[]]]]].
  - destruct (Z.ltb_spec 0 (sons heirs)); [|discriminate].
    injection He as <-. apply residuaryEntry_ok. lia.
  - apply Hdok. exact He.
  - destruct (Z.ltb_spec 0 (grandsonsFromSon heirs)); [|discriminate].
    destruct (sons heirs =? 0); [|discriminate].
    injection He as <-. apply residuaryEntry_ok. lia.
  - apply Hgok. exact He.
Qed.

Lemma mapM_length {A B : Type} (f : A -> result B) (l : list A)
    (ys : list B) :
  Spec.mapM f l = Ok ys -> List.length ys = List.length l.
Proof.
  revert ys. induction l as [|x l IH]; intros ys H; cbn in H.
  - injection H as <-. reflexivity.
  - destruct (f x) as [y|]; [|discriminate]. cbn in H.
    destruct (Spec.mapM f l) as [ys'|]; [|discriminate]. cbn in H.
    injection H as <-. cbn. f_equal. apply IH. reflexivity.
Qed.

(** X21. [calculateFixedSharesTotal] and [calculateRemainder] never throw,
    whatever the composition.  The total is the sum of the shares its ten
    blocks add, each of which is not negative; total and remainder are in
    lowest terms and add up to exactly one. *)
Theorem fixed_total_and_remainder (heirs : Heirs) :
  exists total rem shares,
    Shares.calculateFixedSharesTotal heirs = Ok total
    /\ Shares.calculateRemainder heirs = Ok rem
    /\ Fraction.canonical total /\ Fraction.canonical rem
    /\ Spec.fixedShares heirs = Ok shares
    /\ List.length shares = 10%nat
    /\ Forall (fun s => 0 <= Fraction.value s)%Q shares
    /\ Spec.sum shares = Ok total
    /\ (0 <= Fraction.value total)%Q
    /\ Fraction.add total rem = Ok (Fraction.mk 1 1).
Proof.
  destruct (calculateFixedSharesTotal_spec heirs)
    as (total & shares & Htotal & Hct & Hshares & Hcs & Hpos & Hsum).
  destruct (calculateRemainder_spec heirs)
    as (total' & rem & Htotal' & _ & Hrem & Hcr & Hvrem).
  assert (total' = total) by congruence. subst total'.
  exists total, rem, shares.
  split; [exact Htotal|]. split; [exact Hrem|]. split; [exact Hct|].
  split; [exact Hcr|]. split; [exact Hshares|].
  assert (Hnonneg : (0 <= Spec.sumValues shares)%Q).
  { clear - Hpos. induction Hpos as [|s l Hs _ IH]; cbn; [lra|lra]. }
  split.
  { unfold Spec.fixedShares in Hshares.
    rewrite (mapM_length _ _ _ Hshares). reflexivity. }
  split; [exact Hpos|].
  split.
  { destruct (sum_spec shares (Forall_canonical_wf _ Hcs))
      as (s & Hs & Hcs' & Hvs).
    rewrite Hs. f_equal.
    apply Fraction_canonical_value_eq; [exact Hcs'|exact Hct|].
    rewrite Hvs, Hsum. reflexivity. }
  split; [rewrite Hsum; exact Hnonneg|].
  destruct (Fraction_add_spec total rem) as (c & Hc & Hcc & Hvc);
    auto using Fraction_canonical_wf.
  rewrite Hc. f_equal.
  apply Fraction_canonical_value_eq; [exact Hcc|exact canonical_one|].
  rewrite Hvc, Hvrem. change (Fraction.value (Fraction.mk 1 1)) with 1%Q.
  ring.
Qed.

Section ResiduaryTotal.

Import Shares Shares.HeirTypes.

Ltac resolve_tier :=
  match goal with
  | |- context [determineAsaba ?h] =>
    let v := eval vm_compute in (determineAsaba h) in
    change (determineAsaba h) with v; cbv beta iota
  end;
  intros i Hi; injection Hi as <-;
  apply isTier_intro; [lia | lia | reflexivity].

(** For a valid composition, nephews and uncles included, the tier the
    resolver returns has at least one male and a coherent female side. *)
Lemma determineAsaba_tier (heirs : Heirs) :
  validComposition heirs = true ->
  forall info, determineAsaba heirs = Some info -> Spec.isTier info = true.
Proof.
  intros Hvalid.
  destruct heirs as [hu wi wc so da gs gd fa mo pgf pgm mgm
                     fb fs pb ps mb ms nfb npb uf up].
  unfold validComposition in Hvalid.
  cbn [husband wife wifeCount sons daughters grandsonsFromSon
       granddaughtersFromSon father mother paternalGrandfather
       paternalGrandmother maternalGrandmother fullBrothers fullSisters
       paternalBrothers paternalSisters maternalBrothers maternalSisters
       nephewsFullBrothers nephewsPaternalBrothers unclesFull unclesPaternal]
    in *.
  repeat (apply andb_prop in Hvalid; destruct Hvalid as [Hvalid ?]).
  destruct so as [|p|p]; try discriminate.
  2:{ destruct da as [|q|q]; try discriminate; resolve_tier. }
  destruct gs as [|p|p]; try discriminate.
  2:{ destruct gd as [|q|q]; try discriminate; resolve_tier. }
  destruct fa; [resolve_tier|].
  destruct pgf; [resolve_tier|].
  destruct fb as [|p|p]; try discriminate.
  2:{ destruct fs as [|q|q]; try discriminate; resolve_tier. }
  destruct pb as [|p|p]; try discriminate.
  2:{ destruct ps as [|q|q]; try discriminate; resolve_tier. }
  destruct nfb as [[|p|p]|]; try discriminate; try resolve_tier;
    (destruct npb as [[|p|p]|]; try discriminate; try resolve_tier;
     (destruct uf as [[|p|p]|]; try discriminate; try resolve_tier;
      (destruct up as [[|p|p]|]; try discriminate; try resolve_tier;
       intros i Hi; vm_compute in Hi; discriminate))).
Qed.

End ResiduaryTotal.

(** X22. For every valid composition, nephews and uncles included,
    [calculateAsaba] never throws and hands out the remainder and nothing
    else: there is a residuary distribution exactly when the resolver finds
    a residuary heir and the remainder is positive; then the male and the
    female side add up to exactly the remainder, the female side being zero
    when the tier has no females; otherwise no heir and no distribution is
    reported. *)
Theorem calculateAsaba_hands_out_remainder (heirs : Heirs) :
  validComposition heirs = true ->
  exists rem ar,
    Shares.calculateRemainder heirs = Ok rem
    /\ Shares.calculateAsaba heirs = Ok ar
    /\ Shares.remainder ar = rem
    /\ (Shares.hasAsaba ar = true
        <-> Shares.determineAsaba heirs <> None
            /\ (0 < Fraction.value rem)%Q)
    /\ (Shares.hasAsaba ar = false ->
        Shares.asabaInfo ar = None /\ Shares.distribution ar = None)
    /\ (Shares.hasAsaba ar = true ->
        exists info d,
          Shares.determineAsaba heirs = Some info
          /\ Shares.asabaInfo ar = Some info
          /\ Shares.distribution ar = Some d
          /\ Fraction.add (Shares.maleShare d) (Shares.femaleShare d)
             = Ok rem
          /\ (Shares.ai_hasFemales info = false ->
              Fraction.value (Shares.femaleShare d) == 0)).
Proof.
  intros Hvalid.
  destruct (calculateRemainder_spec heirs)
    as (total & rem & _ & _ & Hrem & Hcr & _).
  pose proof (Fraction_canonical_wf rem Hcr) as Hwf.
  pose proof (determineAsaba_tier heirs Hvalid) as Htier.
  exists rem. unfold Shares.calculateAsaba. rewrite Hrem. cbn [bind].
  destruct (Shares.determineAsaba heirs) as [info|].
  2:{ eexists. split; [reflexivity|]. split; [reflexivity|].
      split; [reflexivity|]. cbn.
      split; [split; [discriminate|intros [H _]; contradiction]|].
      split; [auto|discriminate]. }
  change (Fraction.constructor 0 1) with (Ok (Fraction.mk 0 1)).
  cbn [bind].
  pose proof (Fraction_lessThan_spec rem (Fraction.mk 0 1) Hwf
                (Fraction_wf_int 0)) as Hlt.
  pose proof (Fraction_isZero_spec rem) as Hz.
  change (Fraction.value (Fraction.mk 0 1)) with 0%Q in Hlt.
  destruct (Fraction.lessThan rem (Fraction.mk 0 1)) eqn:L.
  { assert (Fraction.value rem < 0)%Q by (apply Hlt; reflexivity).
    eexists. split; [reflexivity|]. split; [reflexivity|].
    split; [reflexivity|]. cbn.
    split; [split; [discriminate|intros [_ H']; lra]|].
    split; [auto|discriminate]. }
  destruct (Fraction.isZero rem) eqn:Z.
  { assert (Fraction.value rem == 0) by (apply Hz; reflexivity).
    eexists. split; [reflexivity|]. split; [reflexivity|].
    split; [reflexivity|]. cbn.
    split; [split; [discriminate|intros [_ H']; lra]|].
    split; [auto|discriminate]. }
  assert (Hpos : (0 < Fraction.value rem)%Q).
  { assert (~ (Fraction.value rem < 0)%Q)
      by (intro X; apply Hlt in X; discriminate).
    assert (~ Fraction.value rem == 0)
      by (intro X; apply Hz in X; discriminate).
    lra. }
  cbn [orb].
  destruct (distributeAsaba_values rem info Hcr Hpos (Htier info eq_refl))
    as (d & Hd & Hm & Hf & Hsum & Hnof).
  rewrite Hd. cbn [bind ret]. eexists. split; [reflexivity|].
  split; [reflexivity|]. split; [reflexivity|]. cbn.
  split; [split; [intros _; split; [discriminate|exact Hpos]|reflexivity]|].
  split; [discriminate|]. intros _. exists info, d.
  repeat split; try assumption.
  destruct (Fraction_add_spec _ _ Hm Hf) as (c & Hc & Hcc & Hvc).
  rewrite Hc. f_equal.
  apply Fraction_canonical_value_eq; [exact Hcc|exact Hcr|].
  rewrite Hvc. exact Hsum.
Qed.

Lemma calculateAsaba_hands_out_remainder_witness :
  exists rem ar,
    Shares.calculateRemainder
      (mkHeirs false true (Some 2) 0 0 0 0 false true false false false
         0 0 0 0 0 0 None (Some 3) None None) = Ok rem
    /\ Shares.calculateAsaba
         (mkHeirs false true (Some 2) 0 0 0 0 false true false false false
            0 0 0 0 0 0 None (Some 3) None None) = Ok ar
    /\ Shares.remainder ar = rem.
Proof.
  destruct (calculateAsaba_hands_out_remainder
              (mkHeirs false true (Some 2) 0 0 0 0 false true false false
                 false 0 0 0 0 0 0 None (Some 3) None None) eq_refl)
    as (rem & ar & H1 & H2 & H3 & _).
  exists rem, ar. auto.
Defined.

(** X23. The edges of [distributeAsaba].  Without a residuary heir, or on
    a zero remainder, it hands out nothing: four zero fractions and no
    share units.  Otherwise the share units are the males alone, or two per
    male plus one per female; when they come to zero the division throws,
    and when they do not the two sides add up to the remainder, whatever
    the signs. *)
Theorem distributeAsaba_edges (rem : Fraction.t)
    (asabaInfo : option Shares.AsabaInfo) :
  Fraction.wf rem ->
  let nothing :=
    Shares.mkDistribution (Fraction.mk 0 1) (Fraction.mk 0 1)
      (Fraction.mk 0 1) (Fraction.mk 0 1) 0 in
  (asabaInfo = None \/ Fraction.isZero rem = true ->
   Shares.distributeAsaba rem asabaInfo = Ok nothing)
  /\ forall info,
       asabaInfo = Some info -> Fraction.isZero rem = false ->
       let units :=
         if Shares.ai_hasFemales info
         then Shares.ai_maleCount info * 2 + Shares.ai_femaleCount info
         else Shares.ai_maleCount info in
       (units = 0 ->
        Shares.distributeAsaba rem asabaInfo
        = Throw (Error Fraction.msgDivisionByZero))
       /\ (units <> 0 ->
           exists d,
             Shares.distributeAsaba rem asabaInfo = Ok d
             /\ Shares.totalShares d = units
             /\ Fraction.value (Shares.maleShare d)
                + Fraction.value (Shares.femaleShare d)
                == Fraction.value rem).
Proof.
  intros Hwf nothing. split.
  - intros [->|Hz]; [reflexivity|].
    unfold Shares.distributeAsaba. rewrite Hz.
    destruct asabaInfo; reflexivity.
  - intros info -> Hnz. cbv zeta. unfold Shares.distributeAsaba.
    rewrite Hnz.
    set (m := Shares.ai_maleCount info). set (f := Shares.ai_femaleCount info).
    destruct (Shares.ai_hasFemales info); cbn [negb].
    + rewrite (Fraction_constructor_pos (m * 2 + f) 1) by lia. cbn [bind].
      split.
      * intros Hu. unfold Fraction.divide. cbn [Fraction.num].
        rewrite Hu. reflexivity.
      * intros Hu.
        destruct (Fraction_divide_spec rem (Fraction.mk (m * 2 + f) 1))
          as (u & -> & Hcu & Hvu); [exact Hwf|reflexivity|exact Hu|].
        cbn [bind]. rewrite (Fraction_constructor_pos 2 1) by lia.
        cbn [bind]. pose proof (Fraction_canonical_wf _ Hcu) as Hwu.
        destruct (Fraction_multiply_spec u (Fraction.mk 2 1))
          as (pm & -> & Hcpm & Hvpm); [exact Hwu|reflexivity|].
        cbn [bind]. rewrite (Fraction_constructor_pos m 1) by lia.
        cbn [bind].
        destruct (Fraction_multiply_spec pm (Fraction.mk m 1))
          as (ms & -> & Hcms & Hvms);
          [apply Fraction_canonical_wf; exact Hcpm|reflexivity|].
        cbn [bind]. rewrite (Fraction_constructor_pos f 1) by lia.
        cbn [bind].
        destruct (Fraction_multiply_spec u (Fraction.mk f 1))
          as (fsh & -> & Hcfs & Hvfs); [exact Hwu|reflexivity|].
        cbn [bind ret]. eexists. split; [reflexivity|].
        split; [reflexivity|].
        cbn [Shares.maleShare Shares.femaleShare].
        rewrite Hvms, Hvfs, Hvpm, Hvu, !Fraction_value_int.
        assert (Hden : ~ inject_Z (m * 2 + f) == 0)
          by (apply inject_Z_nonzero; exact Hu).
        rewrite inject_Z_plus, inject_Z_mult in *.
        change (inject_Z 2) with 2%Q in *. field. exact Hden.
    + rewrite (Fraction_constructor_pos m 1) by lia. cbn [bind].
      split.
      * intros Hu. unfold Fraction.divide. cbn [Fraction.num].
        rewrite Hu. reflexivity.
      * intros Hu.
        destruct (Fraction_divide_spec rem (Fraction.mk m 1))
          as (u & -> & Hcu & Hvu); [exact Hwf|reflexivity|exact Hu|].
        cbn [bind ret]. eexists. split; [reflexivity|].
        split; [reflexivity|].
        cbn [Shares.maleShare Shares.femaleShare].
        change (Fraction.value (Fraction.mk 0 1)) with 0%Q. ring.
Qed.

Lemma distributeAsaba_edges_witness :
  Shares.distributeAsaba (Fraction.mk 1 2)
    (Some (Shares.mkAsabaInfo Shares.HeirTypes.SON 0 None 0 false "sons"))
  = Throw (Error Fraction.msgDivisionByZero).
Proof.
  destruct (distributeAsaba_edges (Fraction.mk 1 2)
              (Some (Shares.mkAsabaInfo Shares.HeirTypes.SON 0 None 0 false
                       "sons")))
    as (_ & H); [reflexivity|].
  destruct (H _ eq_refl eq_refl) as (Hthrow & _).
  apply Hthrow. reflexivity.
Defined.

(** ** More of special-cases.js *)

(** X24. [needsAwl] and [needsRadd] never throw and never both answer
    true: the first holds exactly when the fixed shares exceed one, that
    is when the remainder is negative; the second exactly when the
    remainder is positive and the resolver finds no residuary heir. *)
Theorem needsAwl_needsRadd_exclusive (heirs : Heirs) :
  exists total rem a r,
    Shares.calculateFixedSharesTotal heirs = Ok total
    /\ Shares.calculateRemainder heirs = Ok rem
    /\ SpecialCases.needsAwl heirs = Ok a
    /\ SpecialCases.needsRadd heirs = Ok r
    /\ (a = true <-> (1 < Fraction.value total)%Q)
    /\ (a = true <-> (Fraction.value rem < 0)%Q)
    /\ (r = true
        <-> (0 < Fraction.value rem)%Q
            /\ Shares.determineAsaba heirs = None)
    /\ a && r = false.
Proof.
  destruct (calculateRemainder_spec heirs)
    as (total & rem & Htotal & Hct & Hrem & Hcr & Hvrem).
  pose proof (Fraction_greaterThan_spec total (Fraction.mk 1 1)
                (Fraction_canonical_wf _ Hct) (Fraction_wf_int 1)) as Ha.
  pose proof (Fraction_greaterThan_spec rem (Fraction.mk 0 1)
                (Fraction_canonical_wf _ Hcr) (Fraction_wf_int 0)) as Hr.
  change (Fraction.value (Fraction.mk 1 1)) with 1%Q in Ha.
  change (Fraction.value (Fraction.mk 0 1)) with 0%Q in Hr.
  exists total, rem. unfold SpecialCases.needsAwl, SpecialCases.needsRadd.
  rewrite Htotal, Hrem. cbn [bind ret].
  change (Fraction.constructor 1 1) with (Ok (Fraction.mk 1 1)).
  change (Fraction.constructor 0 1) with (Ok (Fraction.mk 0 1)).
  cbn [bind ret]. eexists. eexists.
  split; [reflexivity|]. split; [reflexivity|]. split; [reflexivity|].
  split; [reflexivity|]. split; [exact Ha|].
  split; [rewrite Ha, Hvrem; split; intros; lra|].
  split.
  - rewrite andb_true_iff, Hr.
    destruct (Shares.determineAsaba heirs); split; intros [? ?];
      split; auto; discriminate.
  - destruct (Fraction.greaterThan total (Fraction.mk 1 1)) eqn:A;
      [|reflexivity].
    destruct (Fraction.greaterThan rem (Fraction.mk 0 1)) eqn:R;
      [|reflexivity].
    assert (1 < Fraction.value total)%Q by (apply Ha; reflexivity).
    assert (0 < Fraction.value rem)%Q by (apply Hr; reflexivity).
    exfalso. lra.
Qed.

(** X25. [applyAwl] never throws.  The reduction applies exactly when
    [needsAwl] says so, that is when the fixed shares exceed one.  When it
    does not, the adjusted total is the original one and the ratio is 1/1,
    with no notification; when it does, the adjusted total is 1/1 and the
    ratio is the one [calculateAwlRatio] returns: strictly between zero and
    one, and the original total times the ratio is exactly 1/1. *)
Theorem applyAwl_outcome (heirs : Heirs) :
  exists total res,
    Shares.calculateFixedSharesTotal heirs = Ok total
    /\ SpecialCases.applyAwl heirs = Ok res
    /\ SpecialCases.needsAwl heirs = Ok (SpecialCases.awl_applied res)
    /\ SpecialCases.awl_originalTotal res = total
    /\ (SpecialCases.awl_applied res = true
        <-> (1 < Fraction.value total)%Q)
    /\ (SpecialCases.awl_applied res = false ->
        SpecialCases.awl_adjustedTotal res = total
        /\ SpecialCases.awl_awlRatio res = Fraction.mk 1 1
        /\ SpecialCases.awl_notification res = None)
    /\ (SpecialCases.awl_applied res = true ->
        SpecialCases.awl_adjustedTotal res = Fraction.mk 1 1
        /\ SpecialCases.calculateAwlRatio heirs
           = Ok (SpecialCases.awl_awlRatio res)
        /\ Fraction.multiply total (SpecialCases.awl_awlRatio res)
           = Ok (Fraction.mk 1 1)
        /\ (0 < Fraction.value (SpecialCases.awl_awlRatio res) < 1)%Q
        /\ SpecialCases.awl_notification res <> None).
Proof.
  destruct (calculateFixedSharesTotal_lits heirs) as (total & Htotal & Hct & _).
  pose proof (Fraction_canonical_wf _ Hct) as Hwt.
  pose proof (Fraction_greaterThan_spec total (Fraction.mk 1 1) Hwt
                (Fraction_wf_int 1)) as Ha.
  change (Fraction.value (Fraction.mk 1 1)) with 1%Q in Ha.
  exists total.
  unfold SpecialCases.applyAwl, SpecialCases.needsAwl,
    SpecialCases.calculateAwlRatio.
  rewrite Htotal. cbn [bind].
  change (Fraction.constructor 1 1) with (Ok (Fraction.mk 1 1)).
  cbn [bind ret].
  destruct (Fraction.greaterThan total (Fraction.mk 1 1)) eqn:A; cbn [negb].
  - assert (Hbig : (1 < Fraction.value total)%Q) by (apply Ha; reflexivity).
    assert (Hnum : Fraction.num total <> 0)
      by (apply Fraction_num_nonzero; [exact Hwt|lra]).
    destruct (Fraction_divide_spec (Fraction.mk 1 1) total
                (Fraction_wf_int 1) Hwt Hnum) as (ratio & Hr & Hcr & Hvr).
    change (Fraction.value (Fraction.mk 1 1)) with 1%Q in Hvr.
    rewrite Hr. cbn [bind ret]. eexists. split; [reflexivity|].
    split; [reflexivity|]. cbn.
    split; [reflexivity|]. split; [reflexivity|].
    split; [tauto|]. split; [discriminate|]. intros _.
    split; [reflexivity|]. split; [reflexivity|]. split.
    + destruct (Fraction_multiply_spec total ratio Hwt
                  (Fraction_canonical_wf _ Hcr)) as (c & Hc & Hcc & Hvc).
      rewrite Hc. f_equal.
      apply Fraction_canonical_value_eq; [exact Hcc|exact canonical_one|].
      rewrite Hvc, Hvr. change (Fraction.value (Fraction.mk 1 1)) with 1%Q.
      field. lra.
    + split; [|discriminate]. rewrite Hvr.
      assert (Hinv : (0 < / Fraction.value total)%Q)
        by (apply Qinv_lt_0_compat; lra).
      split; [unfold Qdiv; lra|].
      apply Qlt_shift_div_r; lra.
  - eexists. split; [reflexivity|]. split; [reflexivity|]. cbn.
    split; [reflexivity|]. split; [reflexivity|].
    split; [rewrite <- Ha; tauto|].
    split; [auto|discriminate].
Qed.

Section RaddTotal.

Import Shares Shares.HeirTypes SpecialCases.

(** For a valid composition redistribution never throws, and applies
    exactly when there is something to redistribute, nobody residuary to
    take it, and somebody eligible to receive it. *)
Lemma applyRadd_total (heirs : Heirs) (rem : Fraction.t) :
  validComposition heirs = true ->
  calculateRemainder heirs = Ok rem -> Fraction.canonical rem ->
  exists r,
    applyRadd heirs = Ok r
    /\ (radd_applied r = true
        <-> (0 < Fraction.value rem)%Q /\ determineAsaba heirs = None
            /\ getRaddRecipients heirs <> [])
    /\ (radd_applied r = false -> r = createRaddNotAppliedResult rem)
    /\ (radd_applied r = true -> radd_notification r <> None).
Proof.
  intros Hvalid Hrem Hcr.
  pose proof (Fraction_canonical_wf _ Hcr) as Hwf.
  pose proof (Fraction_greaterThan_spec rem (Fraction.mk 0 1) Hwf
                (Fraction_wf_int 0)) as Hgt.
  change (Fraction.value (Fraction.mk 0 1)) with 0%Q in Hgt.
  unfold applyRadd. rewrite Hrem. cbn [bind].
  change (Fraction.constructor 0 1) with (Ok (Fraction.mk 0 1)).
  cbn [bind].
  destruct (Fraction.greaterThan rem (Fraction.mk 0 1)) eqn:G; cbn [negb orb].
  2:{ eexists. split; [reflexivity|]. cbn.
      split; [split; [discriminate|]|split; [reflexivity|discriminate]].
      intros (Hp & _). apply Hgt in Hp. discriminate. }
  assert (Hpos : (0 < Fraction.value rem)%Q) by (apply Hgt; reflexivity).
  destruct (determineAsaba heirs) as [info|].
  { eexists. split; [reflexivity|]. cbn.
    split; [split; [discriminate|]|split; [reflexivity|discriminate]].
    intros (_ & H & _). discriminate. }
  destruct (getRaddRecipients heirs) as [|r0 rest] eqn:Hrec.
  { eexists. split; [reflexivity|]. cbn.
    split; [split; [discriminate|]|split; [reflexivity|discriminate]].
    intros (_ & _ & H). contradiction. }
  rewrite <- Hrec.
  assert (Hlen : (Z.of_nat (List.length (getRaddRecipients heirs)) =? 0)
                 = false) by (rewrite Hrec; reflexivity).
  rewrite Hlen.
  destruct (calculateRaddRecipientsTotal_spec heirs (getRaddRecipients heirs))
    as (T & HT & HcT & HvT).
  pose proof (raddTotal_pos heirs Hvalid Hlen) as HTpos.
  rewrite <- HvT in HTpos.
  assert (Hnz : ~ Fraction.value T == 0) by lra.
  destruct (allRaddShares_loop_spec heirs rem T (getRaddRecipients heirs)
              Hwf (Fraction_canonical_wf T HcT) Hnz [])
    as (shares & Hloop & _).
  rewrite HT. cbn [bind]. unfold calculateAllRaddShares.
  rewrite Hloop. cbn [bind ret]. eexists. split; [reflexivity|]. cbn.
  split; [|split; discriminate].
  split; [|reflexivity]. intros _.
  split; [exact Hpos|]. split; [reflexivity|]. rewrite Hrec. discriminate.
Qed.

Lemma applyAwl_shape (heirs : Heirs) :
  exists res,
    applyAwl heirs = Ok res
    /\ (awl_applied res = true -> awl_notification res <> None)
    /\ (awl_applied res = false -> awl_notification res = None).
Proof.
  destruct (calculateFixedSharesTotal_lits heirs) as (total & Htotal & Hct & _).
  pose proof (Fraction_canonical_wf _ Hct) as Hwt.
  pose proof (Fraction_greaterThan_spec total (Fraction.mk 1 1) Hwt
                (Fraction_wf_int 1)) as Ha.
  change (Fraction.value (Fraction.mk 1 1)) with 1%Q in Ha.
  unfold applyAwl, calculateAwlRatio. rewrite Htotal. cbn [bind].
  change (Fraction.constructor 1 1) with (Ok (Fraction.mk 1 1)).
  cbn [bind ret].
  destruct (Fraction.greaterThan total (Fraction.mk 1 1)) eqn:A; cbn [negb].
  - assert (Hbig : (1 < Fraction.value total)%Q) by (apply Ha; reflexivity).
    assert (Hnum : Fraction.num total <> 0)
      by (apply Fraction_num_nonzero; [exact Hwt|lra]).
    destruct (Fraction_divide_spec (Fraction.mk 1 1) total
                (Fraction_wf_int 1) Hwt Hnum) as (ratio & Hr & _).
    rewrite Hr. cbn [bind ret]. eexists. split; [reflexivity|]. cbn.
    split; discriminate.
  - eexists. split; [reflexivity|]. cbn. split; [discriminate|reflexivity].
Qed.

End RaddTotal.

(** X26. For every valid composition [applySpecialCases] never throws and
    applies at most one special case, in a fixed priority.  When the
    exception of the two parents applies, neither the reduction nor the
    redistribution is evaluated and the exception's shares are present;
    otherwise the result carries the outcome of [applyAwl], and, only when
    the reduction does not apply, the outcome of [applyRadd].  The list of
    notifications has one element when a case applies and none otherwise. *)
Theorem applySpecialCases_priority (heirs : Heirs) :
  validComposition heirs = true ->
  exists sc,
    SpecialCases.applySpecialCases heirs = Ok sc
    /\ (SpecialCases.checkUmariyyatan heirs <> None ->
        SpecialCases.ur_applied (SpecialCases.umariyyatan sc) = true
        /\ SpecialCases.ur_shares (SpecialCases.umariyyatan sc) <> None
        /\ SpecialCases.awl sc = None /\ SpecialCases.radd sc = None
        /\ List.length (SpecialCases.notifications sc) = 1%nat)
    /\ (SpecialCases.checkUmariyyatan heirs = None ->
        SpecialCases.ur_applied (SpecialCases.umariyyatan sc) = false
        /\ exists res,
             SpecialCases.applyAwl heirs = Ok res
             /\ SpecialCases.awl sc = Some res
             /\ (SpecialCases.awl_applied res = true ->
                 SpecialCases.radd sc = None
                 /\ List.length (SpecialCases.notifications sc) = 1%nat)
             /\ (SpecialCases.awl_applied res = false ->
                 exists rr,
                   SpecialCases.applyRadd heirs = Ok rr
                   /\ SpecialCases.radd sc = Some rr
                   /\ List.length (SpecialCases.notifications sc)
                      = (if SpecialCases.radd_applied rr then 1 else 0)%nat))
    /\ Forall (fun n => n <> None) (SpecialCases.notifications sc)
    /\ let u := SpecialCases.ur_applied (SpecialCases.umariyyatan sc) in
       let a := Complete.awlApplied sc in
       let r := match SpecialCases.radd sc with
                | Some rr => SpecialCases.radd_applied rr
                | None => false
                end in
       u && a = false /\ u && r = false /\ a && r = false.
Proof.
  intros Hvalid.
  unfold SpecialCases.applySpecialCases, SpecialCases.applyUmariyyatan.
  destruct (SpecialCases.checkUmariyyatan heirs) as [um|] eqn:Hum.
  - unfold SpecialCases.calculateUmariyyatanShares. rewrite Hum.
    destruct (husband heirs); cbn; eexists; (split; [reflexivity|]); cbn;
      (split; [intros _; repeat split; discriminate|]);
      (split; [discriminate|]);
      (split; [repeat constructor; discriminate|]);
      repeat split.
  - cbn [bind ret SpecialCases.ur_applied].
    destruct (applyAwl_shape heirs) as (res & Hres & Hon & Hoff).
    rewrite Hres. cbn [bind].
    destruct (SpecialCases.awl_applied res) eqn:A.
    + cbn [ret]. eexists. split; [reflexivity|].
      cbn [SpecialCases.umariyyatan SpecialCases.ur_applied
           SpecialCases.awl SpecialCases.radd SpecialCases.notifications
           SpecialCases.ur_shares].
      split; [intros H; contradiction H; reflexivity|].
      split.
      { intros _. split; [reflexivity|]. exists res.
        split; [reflexivity|]. split; [reflexivity|].
        split; [intros _; split; reflexivity|].
        rewrite A. discriminate. }
      split; [repeat constructor; apply Hon; reflexivity|].
      unfold Complete.awlApplied. cbn. rewrite A. repeat split.
    + destruct (calculateRemainder_spec heirs)
        as (total & rem & _ & _ & Hrem & Hcr & _).
      destruct (applyRadd_total heirs rem Hvalid Hrem Hcr)
        as (rr & Hrr & _ & _ & Hnote).
      rewrite Hrr. cbn [bind].
      destruct (SpecialCases.radd_applied rr) eqn:R; cbn [ret];
        eexists; (split; [reflexivity|]);
        cbn [SpecialCases.umariyyatan SpecialCases.ur_applied
             SpecialCases.awl SpecialCases.radd SpecialCases.notifications
             SpecialCases.ur_shares];
        (split; [intros H; contradiction H; reflexivity|]);
        (split;
         [intros _; split; [reflexivity|]; exists res;
          split; [reflexivity|]; split; [reflexivity|];
          split; [rewrite A; discriminate|];
          intros _; exists rr; split; [reflexivity|];
          split; [reflexivity|]; rewrite R; reflexivity|]);
        (split; [repeat constructor; try (apply Hnote; reflexivity)|]);
        unfold Complete.awlApplied; cbn; rewrite A, ?R; repeat split.
Qed.

Lemma applySpecialCases_priority_witness :
  exists sc,
    SpecialCases.applySpecialCases
      (mkHeirs true false None 0 2 0 0 false true false false false
         0 0 0 0 0 0 None None None None) = Ok sc
    /\ Forall (fun n => n <> None) (SpecialCases.notifications sc).
Proof.
  destruct (applySpecialCases_priority
              (mkHeirs true false None 0 2 0 0 false true false false false
                 0 0 0 0 0 0 None None None None) eq_refl)
    as (sc & Hsc & _ & _ & Hn & _).
  exists sc. auto.
Defined.

(** X27. The recipients of redistribution are listed without repetition
    and none of them is a category that blocking.js reports blocked in the
    same composition: the son's daughters are listed only without a son,
    the sisters only when nothing blocks them, the grandmothers only
    without the mother, and the maternal siblings only without the father
    and without descendants. *)
Theorem radd_recipients_unblocked (heirs : Heirs) :
  let recipients := SpecialCases.getRaddRecipients heirs in
  NoDup recipients
  /\ (forall x, In x recipients ->
        Blocking.blocked (Blocking.checkBlocking x heirs) = false)
  /\ (In "grandmothers" recipients ->
      mother heirs = false
      /\ Blocking.blocked (Blocking.checkBlocking "paternalGrandmother" heirs)
         = false)
  /\ (In "maternalBrothers" recipients \/ In "maternalSisters" recipients ->
      father heirs = false /\ Shares.hasChildren heirs = false).
Proof.
  cbv zeta.
  destruct (includes_recipients heirs)
    as (I1 & I2 & I3 & I4 & I5 & I6 & I7 & I8).
  cbv zeta in I1, I2, I3, I4, I5, I6, I7, I8.
  destruct (checkBlocking_known heirs)
    as (B1 & B2 & B3 & B4 & B5 & B6 & B7 & B8).
  split; [apply getRaddRecipients_NoDup|].
  split.
  { intros x Hx.
    pose proof (getRaddRecipients_names heirs x Hx) as Hname.
    apply includes_In in Hx. cbn [In] in Hname.
    destruct Hname as [<-|[<-|[<-|[<-|[<-|[<-|[<-|[<-|[]]]]]]]]];
      try (rewrite checkBlocking_unknown;
           [reflexivity
           |cbn; intros H;
            repeat (destruct H as [H|H]; [discriminate H|]); exact H]).
    - rewrite I3 in Hx. rewrite B4.
      unfold SpecialCases.canGranddaughtersParticipateInRadd in Hx.
      destruct (Z.ltb_spec 0 (sons heirs)), (Z.eqb_spec (sons heirs) 0);
        try lia; try reflexivity;
        rewrite ?andb_false_r in Hx; discriminate.
    - rewrite I5 in Hx. rewrite B6.
      unfold SpecialCases.canFullSistersParticipateInRadd,
        SpecialCases.areSistersBlockedFromRadd in Hx.
      destruct (father heirs), (0 <? sons heirs),
        (0 <? grandsonsFromSon heirs); cbn in Hx |- *;
        rewrite ?andb_false_r in Hx; (discriminate || reflexivity).
    - rewrite I6 in Hx. rewrite B8.
      unfold SpecialCases.canPaternalSistersParticipateInRadd,
        SpecialCases.areSistersBlockedFromRadd in Hx.
      destruct (father heirs), (0 <? sons heirs),
        (0 <? grandsonsFromSon heirs),
        (Z.ltb_spec 0 (fullBrothers heirs)),
        (Z.eqb_spec (fullBrothers heirs) 0); try lia;
        cbn in Hx |- *; rewrite ?andb_false_r in Hx;
        (discriminate || reflexivity). }
  split.
  { intros Hx. apply includes_In in Hx. rewrite I4 in Hx. rewrite B2.
    unfold SpecialCases.canGrandmothersParticipateInRadd in Hx.
    destruct (mother heirs); [rewrite andb_false_r in Hx; discriminate|].
    split; reflexivity. }
  intros Hx.
  assert (Hk : SpecialCases.isKalalahCondition heirs = true).
  { destruct Hx as [Hx|Hx]; apply includes_In in Hx;
      rewrite ?I7, ?I8 in Hx; apply andb_prop in Hx; apply Hx. }
  unfold SpecialCases.isKalalahCondition in Hk.
  apply andb_prop in Hk. destruct Hk as [Hf Hc].
  apply negb_true_iff in Hf, Hc. auto.
Qed.

(** X28. On valid compositions [checkUmariyyatan] recognises exactly the
    compositions of one spouse and both parents with no descendant, no
    sibling and no grandparent; the case it reports is the first with a
    husband and the second with a wife. *)
Theorem checkUmariyyatan_iff (heirs : Heirs) :
  validComposition heirs = true ->
  (SpecialCases.checkUmariyyatan heirs <> None
   <-> Spec.onlySpouseAndParents heirs = true)
  /\ forall um,
       SpecialCases.checkUmariyyatan heirs = Some um ->
       SpecialCases.um_applies um = true
       /\ SpecialCases.um_caseNumber um = (if husband heirs then 1 else 2).
Proof.
  intros Hvalid. destruct (valid_counts heirs Hvalid)
    as (Hboth & Hs & Hd & Hgs & Hgd & Hfb & Hfs & Hpb & Hps & Hmb & Hms).
  split; [split|].
  - intros Hne.
    destruct (SpecialCases.checkUmariyyatan heirs) as [um|] eqn:E;
      [|contradiction]. clear Hne.
    unfold SpecialCases.checkUmariyyatan in E.
    repeat match goal with
           | H : (if ?c then _ else _) = Some _ |- _ =>
             destruct c eqn:?; [discriminate H|]
           end.
    repeat match goal with
           | H : (_ || _) = false |- _ =>
             apply orb_false_iff in H; destruct H
           | H : negb _ = false |- _ => apply negb_false_iff in H
           | H : (0 <? _) = false |- _ => apply Z.ltb_ge in H
           end.
    unfold Spec.onlySpouseAndParents.
    repeat match goal with
           | H : ?x <= 0, H' : 0 <= ?x |- _ =>
             replace x with 0 by lia; clear H H'
           end.
    repeat match goal with
           | H : ?b = true |- context [?b] => rewrite H
           | H : ?b = false |- context [?b] => rewrite H
           end.
    destruct (husband heirs), (wife heirs); try discriminate; reflexivity.
  - intros H. unfold Spec.onlySpouseAndParents in H.
    repeat (apply andb_prop in H; destruct H as [H ?]).
    repeat match goal with
           | E : (_ =? 0) = true |- _ => apply Z.eqb_eq in E
           | E : negb _ = true |- _ => apply negb_true_iff in E
           end.
    unfold SpecialCases.checkUmariyyatan.
    repeat match goal with
           | E : ?x = 0 |- context [?x] => rewrite E
           | E : ?b = true |- context [?b] => rewrite E
           | E : ?b = false |- context [?b] => rewrite E
           end.
    destruct (husband heirs), (wife heirs); try discriminate; cbn;
      discriminate.
  - intros um E. unfold SpecialCases.checkUmariyyatan in E.
    repeat match goal with
           | H : (if ?c then _ else _) = Some _ |- _ =>
             destruct c eqn:?; [discriminate H|]
           end.
    injection E as <-. cbn. auto.
Qed.

Lemma checkUmariyyatan_iff_witness :
  SpecialCases.checkUmariyyatan
    (mkHeirs false true (Some 1) 0 0 0 0 true true false false false
       0 0 0 0 0 0 None None None None) <> None.
Proof.
  destruct (checkUmariyyatan_iff
              (mkHeirs false true (Some 1) 0 0 0 0 true true false false
                 false 0 0 0 0 0 0 None None None None) eq_refl)
    as (H & _).
  apply H. reflexivity.
Defined.
(** ** The sum of the final fractions of the engine *)

Section FinalFractions.

Import Shares Shares.HeirTypes SpecialCases Complete.

Lemma sumValues_app (l1 l2 : list Fraction.t) :
  (Spec.sumValues (l1 ++ l2) == Spec.sumValues l1 + Spec.sumValues l2)%Q.
Proof.
  induction l1 as [|x l1 IH]; cbn [app Spec.sumValues]; [ring|].
  rewrite IH. ring.
Qed.

(** The residuary computation on a valid composition, nephews and uncles
    included: it hands out nothing, or exactly the remainder. *)
Lemma calculateAsaba_total (heirs : Heirs) (rem : Fraction.t) :
  validComposition heirs = true ->
  calculateRemainder heirs = Ok rem -> Fraction.canonical rem ->
  exists ar,
    calculateAsaba heirs = Ok ar
    /\ Forall Fraction.wf (Spec.residuaryShares ar)
    /\ ((determineAsaba heirs = None \/ (Fraction.value rem <= 0)%Q)
        /\ Spec.residuaryShares ar = []
        \/ determineAsaba heirs <> None /\ (0 < Fraction.value rem)%Q
           /\ (Spec.sumValues (Spec.residuaryShares ar)
               == Fraction.value rem)%Q).
Proof.
  intros Hvalid Hrem Hcr.
  pose proof (Fraction_canonical_wf rem Hcr) as Hwf.
  pose proof (determineAsaba_tier heirs Hvalid) as Htier.
  unfold calculateAsaba. rewrite Hrem. cbn [bind].
  destruct (determineAsaba heirs) as [info|].
  2:{ eexists. split; [reflexivity|]. split; [constructor|].
      left. split; [left; reflexivity|reflexivity]. }
  change (Fraction.constructor 0 1) with (Ok (Fraction.mk 0 1)).
  cbn [bind].
  pose proof (Fraction_lessThan_spec rem (Fraction.mk 0 1) Hwf
                (Fraction_wf_int 0)) as Hlt.
  pose proof (Fraction_isZero_spec rem) as Hz.
  change (Fraction.value (Fraction.mk 0 1)) with 0%Q in Hlt.
  destruct (Fraction.lessThan rem (Fraction.mk 0 1)) eqn:L.
  { assert (Fraction.value rem < 0)%Q by (apply Hlt; reflexivity).
    eexists. split; [reflexivity|]. split; [constructor|].
    left. split; [right; lra|reflexivity]. }
  destruct (Fraction.isZero rem) eqn:Z.
  { assert (Fraction.value rem == 0)%Q by (apply Hz; reflexivity).
    eexists. split; [reflexivity|]. split; [constructor|].
    left. split; [right; lra|reflexivity]. }
  assert (Hpos : (0 < Fraction.value rem)%Q).
  { assert (~ (Fraction.value rem < 0)%Q)
      by (intro X; apply Hlt in X; discriminate).
    assert (~ Fraction.value rem == 0)%Q
      by (intro X; apply Hz in X; discriminate).
    lra. }
  cbn [orb].
  destruct (distributeAsaba_values rem info Hcr Hpos (Htier info eq_refl))
    as (d & Hd & Hm & Hf & Hsum & _).
  rewrite Hd. cbn [bind ret]. eexists. split; [reflexivity|].
  unfold Spec.residuaryShares. cbn [hasAsaba distribution].
  split; [repeat constructor; assumption|].
  right. split; [discriminate|]. split; [exact Hpos|].
  cbn [Spec.sumValues]. rewrite <- Hsum. ring.
Qed.

(** Redistribution on a valid composition: when it applies, and the pooled
    maternal share is not handed out twice, the addends are worth the
    remainder. *)
Lemma applyRadd_addends (heirs : Heirs) (rem : Fraction.t) :
  validComposition heirs = true ->
  calculateRemainder heirs = Ok rem -> Fraction.canonical rem ->
  exists r,
    applyRadd heirs = Ok r
    /\ Forall Fraction.wf (map snd (radd_raddShares r))
    /\ (radd_applied r = false
        /\ ((Fraction.value rem <= 0)%Q \/ determineAsaba heirs <> None
            \/ getRaddRecipients heirs = [])
        \/ radd_applied r = true
           /\ (0 < Fraction.value rem)%Q /\ determineAsaba heirs = None
           /\ getRaddRecipients heirs <> []
           /\ (Spec.bothMaternalRecipients heirs = false ->
               (Spec.sumValues (map snd (radd_raddShares r))
                == Fraction.value rem)%Q)).
Proof.
  intros Hvalid Hrem Hcr.
  assert (Hwf : Fraction.wf rem) by auto using Fraction_canonical_wf.
  pose proof (Fraction_greaterThan_spec rem (Fraction.mk 0 1) Hwf
                (Fraction_wf_int 0)) as Hgt.
  change (Fraction.value (Fraction.mk 0 1)) with 0%Q in Hgt.
  unfold applyRadd. rewrite Hrem. cbn [bind].
  change (Fraction.constructor 0 1) with (Ok (Fraction.mk 0 1)). cbn [bind].
  destruct (Fraction.greaterThan rem (Fraction.mk 0 1)) eqn:Hg;
    cbn [negb orb ret].
  2:{ eexists. split; [reflexivity|]. split; [constructor|].
      left. split; [reflexivity|]. left.
      destruct (Qlt_le_dec 0 (Fraction.value rem)) as [Hp|Hp]; [|exact Hp].
      apply Hgt in Hp. congruence. }
  assert (Hpos : (0 < Fraction.value rem)%Q) by (apply Hgt; reflexivity).
  destruct (determineAsaba heirs) as [info|] eqn:Hda.
  { eexists. split; [reflexivity|]. split; [constructor|].
    left. split; [reflexivity|]. right. left. discriminate. }
  set (recipients := getRaddRecipients heirs).
  destruct recipients as [|r0 rest] eqn:Hrec.
  { eexists. split; [reflexivity|]. split; [constructor|].
    left. split; [reflexivity|]. right. right. reflexivity. }
  rewrite <- Hrec.
  assert (Hlen : (Z.of_nat (List.length recipients) =? 0) = false)
    by (subst recipients; rewrite Hrec; reflexivity).
  fold recipients in Hrec. rewrite Hlen.
  destruct (calculateRaddRecipientsTotal_spec heirs recipients)
    as (T & HT & HcT & HvT).
  pose proof (raddTotal_pos heirs Hvalid Hlen) as HTpos.
  fold recipients in HTpos. rewrite <- HvT in HTpos.
  assert (Hnz : ~ Fraction.value T == 0) by lra.
  assert (HwT : Fraction.wf T) by auto using Fraction_canonical_wf.
  destruct (allRaddShares_loop_spec heirs rem T recipients Hwf HwT Hnz [])
    as (shares & Hloop & Hin & Hout).
  pose proof (allRaddShares_loop_keys heirs rem T recipients Hwf HwT Hnz
                (getRaddRecipients_NoDup heirs) [] shares
                (fun _ _ => eq_refl) Hloop) as Hkeys.
  cbn [map app] in Hkeys.
  assert (Hnd : NoDup (map fst shares))
    by (rewrite Hkeys; apply getRaddRecipients_NoDup).
  rewrite HT. cbn [bind]. unfold calculateAllRaddShares.
  rewrite Hloop. cbn [bind ret].
  eexists. split; [reflexivity|].
  cbn [radd_applied radd_raddShares].
  split.
  { apply Forall_forall. intros x Hx. apply in_map_iff in Hx.
    destruct Hx as ([k v] & <- & Hkv). cbn.
    assert (Hk : In k recipients)
      by (rewrite <- Hkeys; apply in_map_iff; exists (k, v); auto).
    destruct (Hin k Hk) as (x & Hx & Hw' & _).
    clear - Hkv Hx Hw' Hnd.
    induction shares as [|[k' v'] l IH]; [destruct Hkv|].
    cbn in Hx, Hnd. inversion Hnd as [|? ? Hk' Hl]; subst.
    destruct Hkv as [E|Hkv].
    - injection E as -> ->. rewrite String.eqb_refl in Hx.
      injection Hx as <-. exact Hw'.
    - destruct (String.eqb_spec k k') as [->|_].
      + exfalso. apply Hk'. apply in_map_iff. exists (k', v). auto.
      + apply IH; assumption. }
  right. split; [reflexivity|]. split; [exact Hpos|].
  split; [reflexivity|].
  split; [rewrite Hrec; discriminate|]. intros Hboth.
  rewrite sumValues_by_key by exact Hnd. rewrite Hkeys.
  rewrite (sumOver_ext _
             (fun k => (Fraction.value rem / Fraction.value T)
                       * Spec.baseShare heirs recipients k)%Q).
  - rewrite sumOver_scale, <- HvT. field. exact Hnz.
  - intros key Hkey. destruct (Hin key Hkey) as (x & Hx & _ & Hvx).
    unfold Spec.addendOf. rewrite Hx, Hvx.
    rewrite (baseShare_agree heirs key Hboth Hkey). fold recipients.
    cbv beta. field. exact Hnz.
Qed.

(** The special cases outside al-Umariyyatan: the reduction applies and
    nothing is redistributed, or it does not and the outcome carries what
    [applyRadd] returns. *)
Lemma applySpecialCases_shape (heirs : Heirs) (total : Fraction.t)
    (r : RaddResult) :
  checkUmariyyatan heirs = None ->
  calculateFixedSharesTotal heirs = Ok total -> Fraction.canonical total ->
  applyRadd heirs = Ok r ->
  exists sc,
    applySpecialCases heirs = Ok sc
    /\ ur_applied (umariyyatan sc) = false
    /\ ((1 < Fraction.value total)%Q
        /\ radd sc = None
        /\ (exists a,
              awl sc = Some a /\ awl_applied a = true
              /\ Fraction.wf (awl_awlRatio a)
              /\ (Fraction.value (awl_awlRatio a)
                  == 1 / Fraction.value total)%Q)
        \/ (Fraction.value total <= 1)%Q
           /\ awlApplied sc = false /\ radd sc = Some r).
Proof.
  intros Hum Htotal Hct Hr.
  assert (Hwt : Fraction.wf total) by auto using Fraction_canonical_wf.
  pose proof (Fraction_greaterThan_spec total (Fraction.mk 1 1) Hwt
                (Fraction_wf_int 1)) as Hgt.
  change (Fraction.value (Fraction.mk 1 1)) with 1%Q in Hgt.
  unfold applySpecialCases, applyUmariyyatan. rewrite Hum.
  cbn [bind ret ur_applied]. unfold applyAwl. rewrite Htotal. cbn [bind].
  change (Fraction.constructor 1 1) with (Ok (Fraction.mk 1 1)).
  cbn [bind].
  destruct (Fraction.greaterThan total (Fraction.mk 1 1)) eqn:Hg;
    cbn [negb].
  - assert (Hbig : (1 < Fraction.value total)%Q) by (apply Hgt; reflexivity).
    assert (Hnum : Fraction.num total <> 0).
    { intro H0.
      assert (Hz : Fraction.value total == 0)
        by (apply Fraction_isZero_spec; unfold Fraction.isZero;
            rewrite H0; reflexivity).
      lra. }
    destruct (Fraction_divide_spec (Fraction.mk 1 1) total
                (Fraction_wf_int 1) Hwt Hnum) as (ratio & Hq & Hcq & Hvq).
    unfold calculateAwlRatio. rewrite Htotal. cbn [bind].
    change (Fraction.constructor 1 1) with (Ok (Fraction.mk 1 1)).
    cbn [bind]. rewrite Hg. cbn [negb]. rewrite Hq.
    cbn [bind ret awl_applied].
    eexists. split; [reflexivity|]. cbn [umariyyatan ur_applied radd awl].
    split; [reflexivity|]. left. split; [exact Hbig|].
    split; [reflexivity|]. eexists. split; [reflexivity|].
    cbn [awl_applied awl_awlRatio]. split; [reflexivity|].
    split; [auto using Fraction_canonical_wf|]. rewrite Hvq. reflexivity.
  - assert (Hsmall : (Fraction.value total <= 1)%Q).
    { destruct (Qlt_le_dec 1 (Fraction.value total)) as [Hp|Hp];
        [|exact Hp].
      apply Hgt in Hp. congruence. }
    cbn [bind ret awl_applied]. rewrite Hr. cbn [bind].
    destruct (radd_applied r); eexists; (split; [reflexivity|]);
      (split; [reflexivity|]); right; (split; [exact Hsmall|]);
      split; reflexivity.
Qed.

Ltac present :=
  split;
  [ vm_compute; discriminate
  | intros Hnobody; exfalso; revert Hnobody; cbn;
    rewrite ?orb_true_r; cbn; discriminate ].

(** Who the resolver can find.  When it finds nobody there is no nephew
    and no uncle; when nobody but a spouse is present it finds nobody. *)
Lemma resolver_presence (heirs : Heirs) :
  validComposition heirs = true ->
  (determineAsaba heirs = None -> Spec.noDistantAgnates heirs = true)
  /\ (Spec.heirBesideSpouse heirs = false -> determineAsaba heirs = None).
Proof.
  intros Hvalid.
  destruct heirs as [hu wi wc so da gs gd fa mo pgf pgm mgm
                     fb fs pb ps mb ms nfb npb uf up].
  unfold validComposition in Hvalid.
  unfold Spec.heirBesideSpouse, Spec.otherHeirPresent, Spec.noDistantAgnates.
  cbn [husband wife wifeCount sons daughters grandsonsFromSon
       granddaughtersFromSon father mother paternalGrandfather
       paternalGrandmother maternalGrandmother fullBrothers fullSisters
       paternalBrothers paternalSisters maternalBrothers maternalSisters
       nephewsFullBrothers nephewsPaternalBrothers unclesFull unclesPaternal]
    in *.
  repeat (apply andb_prop in Hvalid; destruct Hvalid as [Hvalid ?]).
  destruct so as [|p|p]; try discriminate; [|present].
  destruct gs as [|p|p]; try discriminate; [|present].
  destruct fa; [present|].
  destruct pgf; [present|].
  destruct fb as [|p|p]; try discriminate; [|present].
  destruct pb as [|p|p]; try discriminate; [|present].
  destruct nfb as [[|p|p]|]; try discriminate; try present;
    (destruct npb as [[|p|p]|]; try discriminate; try present;
     (destruct uf as [[|p|p]|]; try discriminate; try present;
      (destruct up as [[|p|p]|]; try discriminate; try present;
       split; intros _; vm_compute; reflexivity))).
Qed.

(** When al-Umariyyatan applies, its three shares sum to one. *)
Lemma umariyyatan_shares_sum (heirs : Heirs) (u : Umariyyatan) :
  validComposition heirs = true ->
  checkUmariyyatan heirs = Some u ->
  exists sc us,
    applySpecialCases heirs = Ok sc
    /\ ur_applied (umariyyatan sc) = true
    /\ ur_shares (umariyyatan sc) = Some us
    /\ Spec.sum [spouseShare us; motherShare us; fatherShare us]
       = Ok (Fraction.mk 1 1)
    /\ Spec.heirBesideSpouse heirs = true.
Proof.
  intros Hvalid Hum. destruct (valid_counts heirs Hvalid)
    as (Hboth & Hs & Hd & Hgs & Hgd & Hfb & Hfs & Hpb & Hps & Hmb & Hms).
  clear Hvalid. unfold checkUmariyyatan in Hum.
  destruct heirs as [hu wi wc so da gs gd fa mo pgf pgm mgm
                     fb fs pb ps mb ms nfb npb uf up].
  cbn [husband wife father mother sons daughters grandsonsFromSon
       granddaughtersFromSon paternalGrandfather paternalGrandmother
       maternalGrandmother fullBrothers fullSisters paternalBrothers
       paternalSisters maternalBrothers maternalSisters] in *.
  repeat match goal with
         | H : (if ?c then _ else _) = Some _ |- _ =>
           destruct c eqn:?; [discriminate H|]
         end.
  repeat match goal with
         | E : (_ || _) = false |- _ =>
           apply orb_false_iff in E; destruct E
         | E : negb _ = false |- _ => apply negb_false_iff in E
         | E : (0 <? _) = false |- _ => apply Z.ltb_ge in E
         end.
  assert (so = 0) by lia. assert (da = 0) by lia. assert (gs = 0) by lia.
  assert (gd = 0) by lia. assert (fb = 0) by lia. assert (fs = 0) by lia.
  assert (pb = 0) by lia. assert (ps = 0) by lia. assert (mb = 0) by lia.
  assert (ms = 0) by lia. subst.
  destruct hu, wi; try discriminate;
    (eexists; eexists; split; [vm_compute; reflexivity|]);
    (split; [reflexivity|]); (split; [reflexivity|]);
    split; reflexivity.
Qed.

(** A spouse alone, or nobody: the fixed shares are the spouse's, the
    resolver finds nobody and nobody can take a redistribution. *)
Lemma lone_spouse_total (heirs : Heirs) (total : Fraction.t) :
  validComposition heirs = true ->
  calculateFixedSharesTotal heirs = Ok total ->
  Spec.heirBesideSpouse heirs = false ->
  (Fraction.value total == Fraction.value (Spec.loneSpouseShare heirs))%Q
  /\ (Fraction.value total <= 1 # 2)%Q
  /\ Fraction.canonical (Spec.loneSpouseShare heirs)
  /\ getRaddRecipients heirs = []
  /\ determineAsaba heirs = None.
Proof.
  intros Hvalid Htotal Hlone.
  destruct (resolver_presence heirs Hvalid) as (_ & Hnobody).
  pose proof (Hnobody Hlone) as Hda.
  unfold Spec.heirBesideSpouse in Hlone.
  apply orb_false_iff in Hlone. destruct Hlone as (Hother & _).
  destruct (loneSpouse_facts heirs Hvalid Hother)
    as (Hlits & Hhalf & Hcan & Hlen).
  destruct (calculateFixedSharesTotal_lits heirs)
    as (total' & Htotal' & _ & Hv).
  assert (total' = total) by congruence. subst total'.
  rewrite Hv, Hlits. split; [reflexivity|]. split; [exact Hhalf|].
  split; [exact Hcan|]. split; [|exact Hda].
  destruct (getRaddRecipients heirs); [reflexivity|discriminate Hlen].
Qed.

End FinalFractions.

(** C1, as it holds of the engine.  For every valid composition in which
    the pooled maternal share is not redistributed twice, the engine
    succeeds and its final fractions (the fixed shares, reduced when al-Awl
    applies; the two sides of the residuary distribution; the addends of
    redistribution; or the three shares of al-Umariyyatan) sum to exactly
    one when some heir other than a spouse is present, nephews and uncles
    included, and to the spouse's own fixed share (one half, one quarter,
    or nothing when nobody is present) when a spouse is the only heir: the
    rest then stays undistributed. *)
Theorem C1_sum_to_one_amended (heirs : Heirs) :
  validComposition heirs = true ->
  Spec.pooledAddendTwice heirs = false ->
  exists finals s,
    Spec.finalFractions heirs = Ok finals
    /\ Spec.sum finals = Ok s
    /\ s = (if Spec.heirBesideSpouse heirs then Fraction.mk 1 1
            else Spec.loneSpouseShare heirs).
Proof.
  intros Hvalid Htwice.
  destruct (calculateRemainder_spec heirs)
    as (total & rem & Htotal & Hct & Hrem & Hcr & Hvrem).
  destruct (calculateFixedSharesTotal_spec heirs)
    as (total' & shares & Htotal' & _ & Hshares & Hcs & _ & Hvs).
  assert (total' = total) by congruence. subst total'.
  pose proof (Forall_canonical_wf shares Hcs) as Hws.
  destruct (calculateAsaba_total heirs rem Hvalid Hrem Hcr)
    as (ar & Har & Hwar & Hres).
  unfold Spec.finalFractions. rewrite Hshares, Har. cbn [bind].
  destruct (SpecialCases.checkUmariyyatan heirs) as [u|] eqn:Hum.
  { destruct (umariyyatan_shares_sum heirs u Hvalid Hum)
      as (sc & us & Hsc & Happ & Hus & Hsum & Hother).
    rewrite Hsc. cbn [bind]. rewrite Happ, Hus, Hother.
    eexists. eexists. split; [reflexivity|]. split; [exact Hsum|].
    reflexivity. }
  destruct (applyRadd_addends heirs rem Hvalid Hrem Hcr)
    as (r & Hr & Hwr & Hradd).
  destruct (applySpecialCases_shape heirs total r Hum Htotal Hct Hr)
    as (sc & Hsc & Hur & Hregime).
  rewrite Hsc. cbn [bind]. rewrite Hur.
  destruct (resolver_presence heirs Hvalid) as (Hagn & Hnobody).
  pose proof (lone_spouse_total heirs total Hvalid Htotal) as Hlone.
  assert (Hfinish : forall finals : list Fraction.t,
            Forall Fraction.wf finals ->
            forall expected : Fraction.t,
            Fraction.canonical expected ->
            (Spec.sumValues finals == Fraction.value expected)%Q ->
            exists s, Spec.sum finals = Ok s /\ s = expected).
  { intros finals Hwf expected Hce Hv.
    destruct (sum_spec finals Hwf) as (s & Hs & Hcs' & Hvs').
    exists s. split; [exact Hs|].
    apply Fraction_canonical_value_eq; [exact Hcs'|exact Hce|].
    rewrite Hvs'. exact Hv. }
  assert (Hone : forall finals : list Fraction.t,
            Forall Fraction.wf finals ->
            (Spec.sumValues finals == 1)%Q ->
            Spec.heirBesideSpouse heirs = true ->
            exists finals' s,
              Ok finals = Ok finals'
              /\ Spec.sum finals' = Ok s
              /\ s = (if Spec.heirBesideSpouse heirs then Fraction.mk 1 1
                      else Spec.loneSpouseShare heirs)).
  { intros finals Hwf Hv Hpresent. rewrite Hpresent.
    destruct (Hfinish finals Hwf (Fraction.mk 1 1) canonical_one Hv)
      as (s & Hs & ->).
    exists finals, (Fraction.mk 1 1). auto. }
  destruct Hregime as [(Hbig & Hnoradd & a & Ha & Happlied & Hwa & Hva)
                      |(Hsmall & Hoff & Hsome)].
  - (* al-Awl *)
    unfold Spec.reducedShares. rewrite Ha, Happlied.
    destruct (applyAwl_all_spec (SpecialCases.awl_awlRatio a) shares Hwa Hws)
      as (adjusted & Hadj & Hcadj & Hvadj).
    rewrite Hadj. cbn [bind ret].
    assert (Hnores : Spec.residuaryShares ar = []).
    { destruct Hres as [(_ & Hnil)|(_ & Hpos & _)]; [exact Hnil|].
      exfalso. lra. }
    unfold Spec.raddAddends. rewrite Hnores, Hnoradd. cbn [app].
    rewrite app_nil_r.
    apply Hone.
    + apply Forall_canonical_wf. exact Hcadj.
    + rewrite Hvadj, <- Hvs, Hva. field. lra.
    + destruct (Spec.heirBesideSpouse heirs) eqn:Hp; [reflexivity|].
      destruct (Hlone eq_refl) as (_ & Hhalf & _). exfalso. lra.
  - (* no reduction *)
    assert (Hfixed : Spec.reducedShares sc shares = Ok shares).
    { unfold Spec.reducedShares. unfold Complete.awlApplied in Hoff.
      destruct (SpecialCases.awl sc) as [a|]; [|reflexivity].
      rewrite Hoff. reflexivity. }
    rewrite Hfixed. cbn [bind ret].
    unfold Spec.raddAddends. rewrite Hsome.
    destruct Hres as [(Hnone & Hnil)|(Hda & Hpos & Hsumres)].
    + rewrite Hnil. cbn [app].
      destruct Hradd as [(Hnot & Hwhy)
                        |(Hyes & Hpos & Hda & Hrec & Hsumradd)].
      * rewrite Hnot. rewrite app_nil_r.
        destruct (Qlt_le_dec 0 (Fraction.value rem)) as [Hpos|Hnonpos].
        -- (* a positive remainder that nobody takes *)
           assert (Hda : Shares.determineAsaba heirs = None).
           { destruct Hnone as [Hda|Hle]; [exact Hda|exfalso; lra]. }
           assert (Hrec : SpecialCases.getRaddRecipients heirs = []).
           { destruct Hwhy as [Hle|[Hda'|Hrec]];
               [exfalso; lra|contradiction|exact Hrec]. }
           assert (Hlonely : Spec.heirBesideSpouse heirs = false).
           { unfold Spec.heirBesideSpouse.
             rewrite (Hagn Hda). cbn [negb]. rewrite orb_false_r.
             apply (nobody_else heirs Hvalid (Hagn Hda) Hda).
             rewrite Hrec. reflexivity. }
           rewrite Hlonely.
           destruct (Hlone Hlonely) as (Hv & _ & Hcan & _).
           destruct (Hfinish shares Hws (Spec.loneSpouseShare heirs) Hcan)
             as (s & Hs & ->); [rewrite <- Hvs; exact Hv|].
           eexists. eexists. split; [reflexivity|]. split; [exact Hs|].
           reflexivity.
        -- (* nothing is left *)
           apply Hone; [exact Hws|rewrite <- Hvs; lra|].
           destruct (Spec.heirBesideSpouse heirs) eqn:Hp; [reflexivity|].
           destruct (Hlone eq_refl) as (_ & Hhalf & _). exfalso. lra.
      * (* redistribution *)
        rewrite Hyes.
        assert (Hboth : Spec.bothMaternalRecipients heirs = false).
        { unfold Spec.pooledAddendTwice in Htwice.
          destruct (Spec.bothMaternalRecipients heirs); [|reflexivity].
          exfalso. revert Htwice.
          unfold SpecialCases.needsRadd. rewrite Hrem, Hda.
          cbn [bind ret].
          change (Fraction.constructor 0 1) with (Ok (Fraction.mk 0 1)).
          cbn [bind ret].
          replace (Fraction.greaterThan rem (Fraction.mk 0 1)) with true;
            [discriminate|].
          symmetry.
          apply (Fraction_greaterThan_spec rem (Fraction.mk 0 1));
            auto using Fraction_canonical_wf, Fraction_wf_int. }
        apply Hone.
        -- apply Forall_app. split; [exact Hws|exact Hwr].
        -- rewrite sumValues_app, <- Hvs, (Hsumradd Hboth). lra.
        -- destruct (Spec.heirBesideSpouse heirs) eqn:Hp; [reflexivity|].
           destruct (Hlone eq_refl) as (_ & _ & _ & Hempty & _).
           contradiction.
    + (* the residuary heir takes the remainder *)
      assert (Hnot : SpecialCases.radd_applied r = false).
      { destruct Hradd as [(Hnot & _)|(_ & _ & Hda' & _)];
          [exact Hnot|contradiction]. }
      rewrite Hnot. rewrite app_nil_r.
      apply Hone.
      * apply Forall_app. split; [exact Hws|exact Hwar].
      * rewrite sumValues_app, <- Hvs, Hsumres. lra.
      * destruct (Spec.heirBesideSpouse heirs) eqn:Hp; [reflexivity|].
        destruct (Hlone eq_refl) as (_ & _ & _ & _ & Hda').
        contradiction.
Qed.

Lemma C1_witness :
  exists finals,
    Spec.finalFractions
      (mkHeirs false false None 0 1 0 0 false false false false false
         0 0 0 0 0 0 (Some 1) None None None) = Ok finals
    /\ Spec.sum finals = Ok (Fraction.mk 1 1).
Proof.
  destruct (C1_sum_to_one_amended
              (mkHeirs false false None 0 1 0 0 false false false false false
                 0 0 0 0 0 0 (Some 1) None None None)
              ltac:(vm_compute; reflexivity) ltac:(vm_compute; reflexivity))
    as (finals & s & Hfinals & Hsum & Hs).
  exists finals. split; [exact Hfinals|]. rewrite Hsum, Hs. reflexivity.
Defined.

(** The case the law leaves out.  A maternal brother and a maternal sister
    alone: their pooled third enters the recipients' total once, but each
    of the two is handed the whole remainder as an addend, so the final
    fractions sum to five thirds. *)
Example maternal_pair_twice :
  let heirs :=
    mkHeirs false false None 0 0 0 0 false false false false false
      0 0 0 0 1 1 None None None None in
  Spec.pooledAddendTwice heirs = true
  /\ exists finals,
       Spec.finalFractions heirs = Ok finals
       /\ Spec.sum finals = Ok (Fraction.mk 5 3).
Proof.
  cbv zeta. split; [vm_compute; reflexivity|].
  eexists. split; vm_compute; reflexivity.
Qed.
